(** * The descriptor wire codec of [structured.pb.go]

    A shallow embedding of the generated protocol-buffer codec for the six
    catalog descriptors (ColumnType, ColumnDescriptor, IndexDescriptor,
    PrivilegeDescriptor, TableDescriptor, DatabaseDescriptor): [Unmarshal],
    [skipStructured], [Size], [MarshalTo], [Marshal] and the varint helpers.

    Conventions.
    - A Go byte is a [Byte.byte]; [bv] is its value in [0, 256).
    - Go integers are [Z] with the wrap-around of their type written out by
      [cast]; [int] is the 64-bit [int] of the platforms the program targets.
    - A Go [string] and a [[]byte] are both [list byte].  A nil slice and an
      empty one are the same list: the code only ever tests [!= nil] before
      copying or counting the bytes of the slice, so the two behave alike.
    - [Unmarshal] decodes in place: the model threads the receiver and hands
      it back together with the outcome, also when the outcome is an error.
    - A run-time panic (index or slice bounds, [panic("unreachable")]) is the
      outcome [Panic]; [Exhausted] is the model running out of loop fuel,
      which no [Unmarshal] does (lemma [Unmarshal_total]). *)

From Stdlib Require Import String ZArith Lia Bool Strings.Byte List.
Import ListNotations.
Local Open Scope Z_scope.

(** ** Bytes and machine integers *)

Definition bv (b : byte) : Z := Z.of_N (Byte.to_N b).

Definition u8 (z : Z) : byte :=
  match Byte.of_N (Z.to_N (z mod 256)) with
  | Some b => b
  | None => x00
  end.

Definition len {A : Type} (l : list A) : Z := Z.of_nat (List.length l).

(** The fixed-width integer types that occur in the codec. *)
Inductive ity : Set := Int32 | Uint32 | Int | Uint64.

Definition bits (t : ity) : Z :=
  match t with
  | Int32 | Uint32 => 32
  | Int | Uint64 => 64
  end.

Definition signed (t : ity) : bool :=
  match t with
  | Int32 | Int => true
  | Uint32 | Uint64 => false
  end.

(** Conversion to type [t]: keep the low [bits t] bits, read them in two's
    complement when [t] is signed. *)
Definition cast (t : ity) (z : Z) : Z :=
  let r := z mod 2 ^ bits t in
  if signed t && (2 ^ (bits t - 1) <=? r) then r - 2 ^ bits t else r.

Definition in_range (t : ity) (z : Z) : Prop :=
  if signed t then - 2 ^ (bits t - 1) <= z < 2 ^ (bits t - 1)
  else 0 <= z < 2 ^ bits t.

(** [a + b] on [int]. *)
Definition iadd (a b : Z) : Z := cast Int (a + b).

(** ** Outcomes *)

Inductive error : Set :=
| ErrUnexpectedEOF
| ErrInvalidLengthStructured
| ErrWrongWireType (wireType : Z) (field : string)
| ErrIllegalWireType (wireType : Z).

Inductive res (A : Type) : Type :=
| Ok (a : A)
| Fail (e : error)
| Panic
| Exhausted.
Arguments Ok {A} a.
Arguments Fail {A} e.
Arguments Panic {A}.
Arguments Exhausted {A}.

Definition bind {A B : Type} (r : res A) (k : A -> res B) : res B :=
  match r with
  | Ok a => k a
  | Fail e => Fail e
  | Panic => Panic
  | Exhausted => Exhausted
  end.

Notation "x <- c1 ;; c2" := (bind c1 (fun x => c2))
  (at level 61, c1 at next level, right associativity).
Notation "' pat <- c1 ;; c2" := (bind c1 (fun x => match x with pat => c2 end))
  (at level 61, pat pattern, c1 at next level, right associativity).

(** Keep the index on success, pass every other outcome through. *)
Definition retag {A B : Type} (r : res A) (b : B) : res B :=
  bind r (fun _ => Ok b).

(** ** Slices *)

(** [data[lo:hi]]; [None] is the slice-bounds panic.  Every use is preceded
    by the check [hi <= len data], so the capacity plays no part. *)
Definition slice (data : list byte) (lo hi : Z) : option (list byte) :=
  if (0 <=? lo) && (lo <=? hi) && (hi <=? len data)
  then Some (firstn (Z.to_nat (hi - lo)) (skipn (Z.to_nat lo) data))
  else None.

(** [data[lo:]] *)
Definition slice_from (data : list byte) (lo : Z) : option (list byte) :=
  slice data lo (len data).

(** ** Reading varints

    Every [Unmarshal] inlines the loop
    [for shift := uint(0); ; shift += 7 { if iNdEx >= l { return
    io.ErrUnexpectedEOF }; b := data[iNdEx]; iNdEx++; v |= (T(b) & 0x7F) <<
    shift; if b < 0x80 { break } }]
    at the integer type [T] of the variable it fills.  [rest] is
    [data[iNdEx:]]; the value accumulated so far is returned with the
    outcome, because the loop may be filling a field of the receiver. *)
Fixpoint varint_loop (t : ity) (rest : list byte) (iNdEx shift acc : Z)
  : Z * res Z :=
  match rest with
  | [] => (acc, Fail ErrUnexpectedEOF)
  | b :: rest' =>
      let acc := Z.lor acc (cast t (Z.shiftl (Z.land (cast t (bv b)) 0x7F) shift)) in
      if bv b <? 0x80 then (acc, Ok (iNdEx + 1))
      else varint_loop t rest' (iNdEx + 1) (shift + 7) acc
  end.

Definition read_varint (t : ity) (data : list byte) (iNdEx : Z) : Z * res Z :=
  if iNdEx <? 0 then (0, Panic)
  else varint_loop t (skipn (Z.to_nat iNdEx) data) iNdEx 0 0.

(** The same loop where the value goes to a local variable. *)
Definition read_local (t : ity) (data : list byte) (iNdEx : Z) : res (Z * Z) :=
  let '(v, r) := read_varint t data iNdEx in
  i <- r ;; Ok (v, i).

(** The index [k] further on. *)
Definition advance (k : Z) (r : res Z) : res Z :=
  match r with
  | Ok i => Ok (i + k)
  | other => other
  end.

(** ** Varint sizes: [sovStructured]

    [for { n++; x >>= 7; if x == 0 { break } }].  Ten rounds empty a
    [uint64], so the fuel is never used up (lemma [sov_loop_fuel]). *)
Fixpoint sov_loop (fuel : nat) (n x : Z) : Z :=
  match fuel with
  | O => n
  | S fuel =>
      let n := n + 1 in
      let x := Z.shiftr x 7 in
      if x =? 0 then n else sov_loop fuel n x
  end.

Definition sovStructured (x : Z) : Z := sov_loop 10 0 x.

(** ** [skipStructured] *)

(** Wire type 0: [for { if iNdEx >= l { return 0, io.ErrUnexpectedEOF };
    iNdEx++; if data[iNdEx-1] < 0x80 { break } }]. *)
Fixpoint skip_varint_loop (rest : list byte) (iNdEx : Z) : res Z :=
  match rest with
  | [] => Fail ErrUnexpectedEOF
  | b :: rest' =>
      if bv b <? 0x80 then Ok (iNdEx + 1)
      else skip_varint_loop rest' (iNdEx + 1)
  end.

(** Wire type 3, the loop over the members of a group; [rec] is the
    recursive call of [skipStructured]. *)
Fixpoint skip_group (rec : list byte -> res Z) (fuel : nat)
    (data : list byte) (iNdEx : Z) : res Z :=
  match fuel with
  | O => Exhausted
  | S fuel =>
      let start := iNdEx in
      '(innerWire, iNdEx) <- read_local Uint64 data iNdEx ;;
      let innerWireType := cast Int (Z.land innerWire 0x7) in
      if innerWireType =? 4 then Ok iNdEx
      else
        match slice_from data start with
        | None => Panic
        | Some sub =>
            next <- rec sub ;;
            skip_group rec fuel data (iadd start next)
        end
  end.

Fixpoint skipStructured_fuel (fuel : nat) (data : list byte) : res Z :=
  match fuel with
  | O => Exhausted
  | S fuel =>
      let l := len data in
      let iNdEx := 0 in
      if iNdEx <? l then
        '(wire, iNdEx) <- read_local Uint64 data iNdEx ;;
        let wireType := cast Int (Z.land wire 0x7) in
        if wireType =? 0 then
          skip_varint_loop (skipn (Z.to_nat iNdEx) data) iNdEx
        else if wireType =? 1 then
          Ok (iadd iNdEx 8)
        else if wireType =? 2 then
          '(length_, iNdEx) <- read_local Int data iNdEx ;;
          let iNdEx := iadd iNdEx length_ in
          if length_ <? 0 then Fail ErrInvalidLengthStructured
          else Ok iNdEx
        else if wireType =? 3 then
          skip_group (skipStructured_fuel fuel) fuel data iNdEx
        else if wireType =? 4 then
          Ok iNdEx
        else if wireType =? 5 then
          Ok (iadd iNdEx 4)
        else Fail (ErrIllegalWireType wireType)
      else Panic
  end.

(** Every recursive call and every round of the group loop consumes a byte
    of [data], so [length data] units of fuel are enough (lemma
    [skipStructured_count]). *)
Definition skipStructured (data : list byte) : res Z :=
  skipStructured_fuel (S (List.length data)) data.

(** An outcome that is not [Exhausted] and, when it is an index, lies in
    [(lo, hi]]. *)
Definition lands (lo hi : Z) (r : res Z) : Prop :=
  match r with
  | Ok i => lo < i <= hi
  | Exhausted => False
  | _ => True
  end.

(** What [skipStructured] can return: a count of at least one byte, or the
    wrapped sum of an index and a length, which is below [- 2^62]. *)
Definition skip_count (r : res Z) : Prop :=
  match r with
  | Ok n => 1 <= n < 2 ^ 63 \/ - 2 ^ 63 <= n < - 2 ^ 62
  | Exhausted => False
  | _ => True
  end.

(** ** The [default:] branch of every [Unmarshal]

    Rewinds over the tag, skips one field and returns the bytes to append to
    [XXX_unrecognized] together with the new index. *)
Definition skip_unknown (data : list byte) (wire iNdEx : Z)
  : res (list byte * Z) :=
  let l := len data in
  let sizeOfWire := sov_loop 10 0 wire in
  let iNdEx := iadd iNdEx (- sizeOfWire) in
  match slice_from data iNdEx with
  | None => Panic
  | Some rest =>
      skippy <- skipStructured rest ;;
      if skippy <? 0 then Fail ErrInvalidLengthStructured
      else if l <? iadd iNdEx skippy then Fail ErrUnexpectedEOF
      else
        match slice data iNdEx (iadd iNdEx skippy) with
        | None => Panic
        | Some bs => Ok (bs, iadd iNdEx skippy)
        end
  end.

(** ** The decoding loop [for iNdEx < l { ... }]

    [step] is the body of the loop: it returns the receiver as the body left
    it and either the index to go on from or the outcome of the call.  Every
    round moves the index forward, so [length data] units of fuel are enough
    (lemma [unmarshal_loop_total]). *)
Fixpoint unmarshal_loop {T : Type} (step : T -> list byte -> Z -> T * res Z)
    (fuel : nat) (m : T) (data : list byte) (iNdEx : Z) : T * res unit :=
  if iNdEx <? len data then
    match fuel with
    | O => (m, Exhausted)
    | S fuel =>
        match step m data iNdEx with
        | (m, Ok iNdEx) => unmarshal_loop step fuel m data iNdEx
        | (m, Fail e) => (m, Fail e)
        | (m, Panic) => (m, Panic)
        | (m, Exhausted) => (m, Exhausted)
        end
    end
  else (m, Ok tt).

(** The tag at the head of every round. *)
Definition fieldNum_of (wire : Z) : Z := cast Int32 (Z.shiftr wire 3).
Definition wireType_of (wire : Z) : Z := cast Int (Z.land wire 0x7).

(** A scalar varint field: [if wireType != 0 { return fmt.Errorf(...) };
    m.F = 0; for ... { m.F |= ... }]. *)
Definition scalar_field {T : Type} (t : ity) (name : string)
    (set : Z -> T -> T) (m : T) (data : list byte) (wireType iNdEx : Z)
  : T * res Z :=
  if negb (wireType =? 0) then (m, Fail (ErrWrongWireType wireType name))
  else let '(v, r) := read_varint t data iNdEx in (set v m, r).

(** A boolean field: [var v int; for ... { v |= ... }; m.F = bool(v != 0)]. *)
Definition bool_field {T : Type} (name : string)
    (set : bool -> T -> T) (m : T) (data : list byte) (wireType iNdEx : Z)
  : T * res Z :=
  if negb (wireType =? 0) then (m, Fail (ErrWrongWireType wireType name))
  else
    match read_local Int data iNdEx with
    | Ok (v, iNdEx) => (set (negb (v =? 0)) m, Ok iNdEx)
    | Fail e => (m, Fail e)
    | Panic => (m, Panic)
    | Exhausted => (m, Exhausted)
    end.

(** The bytes of a string field: [var stringLen uint64; for ... ;
    postIndex := iNdEx + int(stringLen); if postIndex > l { return
    io.ErrUnexpectedEOF }; ... string(data[iNdEx:postIndex])]. *)
Definition read_string (name : string) (data : list byte) (wireType iNdEx : Z)
  : res (list byte * Z) :=
  if negb (wireType =? 2) then Fail (ErrWrongWireType wireType name)
  else
    '(stringLen, iNdEx) <- read_local Uint64 data iNdEx ;;
    let postIndex := iadd iNdEx (cast Int stringLen) in
    if len data <? postIndex then Fail ErrUnexpectedEOF
    else
      match slice data iNdEx postIndex with
      | None => Panic
      | Some s => Ok (s, postIndex)
      end.

Definition string_field {T : Type} (name : string)
    (set : list byte -> T -> T) (m : T) (data : list byte) (wireType iNdEx : Z)
  : T * res Z :=
  match read_string name data wireType iNdEx with
  | Ok (s, iNdEx) => (set s m, Ok iNdEx)
  | Fail e => (m, Fail e)
  | Panic => (m, Panic)
  | Exhausted => (m, Exhausted)
  end.

(** The bytes of a nested message: [var msglen int; for ... ; postIndex :=
    iNdEx + msglen; if msglen < 0 { return ErrInvalidLengthStructured }; if
    postIndex > l { return io.ErrUnexpectedEOF }; ... data[iNdEx:postIndex]]. *)
Definition read_message (name : string) (data : list byte) (wireType iNdEx : Z)
  : res (list byte * Z) :=
  if negb (wireType =? 2) then Fail (ErrWrongWireType wireType name)
  else
    '(msglen, iNdEx) <- read_local Int data iNdEx ;;
    let postIndex := iadd iNdEx msglen in
    if msglen <? 0 then Fail ErrInvalidLengthStructured
    else if len data <? postIndex then Fail ErrUnexpectedEOF
    else
      match slice data iNdEx postIndex with
      | None => Panic
      | Some sub => Ok (sub, postIndex)
      end.

(** A nested message decoded in place by [sub], the [Unmarshal] of its type;
    [get] and [set] select the field.  The field keeps what [sub] wrote to it
    also when [sub] fails. *)
Definition message_field {T U : Type} (name : string)
    (sub : U -> list byte -> U * res unit) (get : T -> U) (set : U -> T -> T)
    (m : T) (data : list byte) (wireType iNdEx : Z) : T * res Z :=
  match read_message name data wireType iNdEx with
  | Ok (bytes, postIndex) =>
      let '(u, r) := sub (get m) bytes in (set u m, retag r postIndex)
  | Fail e => (m, Fail e)
  | Panic => (m, Panic)
  | Exhausted => (m, Exhausted)
  end.

(** The [default:] branch, appending to [XXX_unrecognized]. *)
Definition unknown_field {T : Type} (get : T -> list byte)
    (set : list byte -> T -> T) (m : T) (data : list byte) (wire iNdEx : Z)
  : T * res Z :=
  match skip_unknown data wire iNdEx with
  | Ok (bs, iNdEx) => (set (get m ++ bs) m, Ok iNdEx)
  | Fail e => (m, Fail e)
  | Panic => (m, Panic)
  | Exhausted => (m, Exhausted)
  end.

(** The head of every round: read the tag, then dispatch. *)
Definition with_tag {T : Type}
    (body : T -> list byte -> Z -> Z -> T * res Z)
    (m : T) (data : list byte) (iNdEx : Z) : T * res Z :=
  match read_local Uint64 data iNdEx with
  | Ok (wire, iNdEx) => body m data wire iNdEx
  | Fail e => (m, Fail e)
  | Panic => (m, Panic)
  | Exhausted => (m, Exhausted)
  end.

(** ** Writing into a buffer *)

(** [data[i] = v] *)
Definition store (data : list byte) (i : Z) (v : byte) : res (list byte) :=
  if (0 <=? i) && (i <? len data)
  then Ok (firstn (Z.to_nat i) data ++ v :: skipn (S (Z.to_nat i)) data)
  else Panic.

(** [copy(data[i:], src)]: the buffer after the copy and the number of bytes
    copied, which is the shorter of the two lengths. *)
Definition copy_at (data : list byte) (i : Z) (src : list byte)
  : res (list byte * Z) :=
  match slice_from data i with
  | None => Panic
  | Some dst =>
      let n := Z.min (len dst) (len src) in
      Ok (firstn (Z.to_nat i) data ++ firstn (Z.to_nat n) src
            ++ skipn (Z.to_nat n) dst, n)
  end.

(** [i += copy(data[i:], src)] *)
Definition copy_adv (data : list byte) (i : Z) (src : list byte)
  : res (list byte * Z) :=
  '(data, n) <- copy_at data i src ;; Ok (data, i + n).

(** [for v >= 1<<7 { data[offset] = uint8(v&0x7f | 0x80); v >>= 7; offset++ };
    data[offset] = uint8(v); return offset + 1].  A [uint64] leaves the loop
    within ten rounds (lemma [encodeVarint_loop_fuel]). *)
Fixpoint encodeVarint_loop (fuel : nat) (data : list byte) (offset v : Z)
  : res (list byte * Z) :=
  match fuel with
  | O => Exhausted
  | S fuel =>
      if 128 <=? v then
        data <- store data offset (u8 (Z.lor (Z.land v 0x7f) 0x80)) ;;
        encodeVarint_loop fuel data (offset + 1) (Z.shiftr v 7)
      else
        data <- store data offset (u8 v) ;;
        Ok (data, offset + 1)
  end.

Definition encodeVarintStructured (data : list byte) (offset v : Z)
  : res (list byte * Z) :=
  encodeVarint_loop 10 data offset v.

(** The length prefix written in line by the loops over repeated strings:
    [l = len(s); for l >= 1<<7 { data[i] = uint8(uint64(l)&0x7f | 0x80);
    l >>= 7; i++ }; data[i] = uint8(l); i++], on [l int]. *)
Fixpoint encodeLen_loop (fuel : nat) (data : list byte) (i l : Z)
  : res (list byte * Z) :=
  match fuel with
  | O => Exhausted
  | S fuel =>
      if 128 <=? l then
        data <- store data i (u8 (Z.lor (Z.land (cast Uint64 l) 0x7f) 0x80)) ;;
        encodeLen_loop fuel data (i + 1) (Z.shiftr l 7)
      else
        data <- store data i (u8 l) ;;
        Ok (data, i + 1)
  end.

(** [data[i] = tag; i++] *)
Definition put_tag (data : list byte) (i : Z) (tag : Z) : res (list byte * Z) :=
  data <- store data i (u8 tag) ;; Ok (data, i + 1).

(** [data[i] = tag; i++; i = encodeVarintStructured(data, i, v)] *)
Definition put_varint (tag : Z) (v : Z) (data : list byte) (i : Z)
  : res (list byte * Z) :=
  '(data, i) <- put_tag data i tag ;;
  encodeVarintStructured data i v.

(** [data[i] = tag; i++; i = encodeVarintStructured(data, i, uint64(len(s)));
    i += copy(data[i:], s)] *)
Definition put_string (tag : Z) (s : list byte) (data : list byte) (i : Z)
  : res (list byte * Z) :=
  '(data, i) <- put_tag data i tag ;;
  '(data, i) <- encodeVarintStructured data i (cast Uint64 (len s)) ;;
  copy_adv data i s.

(** One round of [for _, s := range strings { data[i] = tag; i++; l = len(s);
    for l >= 1<<7 {...}; data[i] = uint8(l); i++; i += copy(data[i:], s) }]. *)
Definition put_repeated_string (tag : Z) (s : list byte) (data : list byte)
    (i : Z) : res (list byte * Z) :=
  '(data, i) <- put_tag data i tag ;;
  '(data, i) <- encodeLen_loop 10 data i (len s) ;;
  copy_adv data i s.

(** [data[i] = tag; i++; if b { data[i] = 1 } else { data[i] = 0 }; i++] *)
Definition put_bool (tag : Z) (b : bool) (data : list byte) (i : Z)
  : res (list byte * Z) :=
  '(data, i) <- put_tag data i tag ;;
  data <- store data i (if b then x01 else x00) ;;
  Ok (data, i + 1).

(** [data[i] = tag; i++; i = encodeVarintStructured(data, i, uint64(size));
    n, err := sub.MarshalTo(data[i:]); i += n]: the nested message writes
    into the tail of the same buffer. *)
Definition put_message (tag : Z) (size : Z)
    (marshalTo : list byte -> res (list byte * Z)) (data : list byte) (i : Z)
  : res (list byte * Z) :=
  '(data, i) <- put_tag data i tag ;;
  '(data, i) <- encodeVarintStructured data i (cast Uint64 size) ;;
  match slice_from data i with
  | None => Panic
  | Some tail =>
      '(tail, n) <- marshalTo tail ;;
      Ok (firstn (Z.to_nat i) data ++ tail, i + n)
  end.

(** [if m.XXX_unrecognized != nil { i += copy(data[i:], m.XXX_unrecognized) }] *)
Definition put_unrecognized (u : list byte) (data : list byte) (i : Z)
  : res (list byte * Z) :=
  match u with
  | [] => Ok (data, i)
  | _ => copy_adv data i u
  end.

(** Two writes one after the other, the second going on in the buffer and
    at the index the first one left. *)
Definition seq (f g : list byte -> Z -> res (list byte * Z))
  : list byte -> Z -> res (list byte * Z) :=
  fun data i => '(data, i) <- f data i ;; g data i.

Notation "f >>> g" := (seq f g) (at level 60, right associativity).

(** [for _, x := range xs { body }] threading the buffer and the index. *)
Fixpoint for_each {A : Type} (body : A -> list byte -> Z -> res (list byte * Z))
    (xs : list A) (data : list byte) (i : Z) : res (list byte * Z) :=
  match xs with
  | [] => Ok (data, i)
  | x :: xs => '(data, i) <- body x data i ;; for_each body xs data i
  end.

(** [make([]byte, size)] *)
Definition make (size : Z) : res (list byte) :=
  if size <? 0 then Panic else Ok (repeat x00 (Z.to_nat size)).

(** [size := m.Size(); data = make([]byte, size); n, err := m.MarshalTo(data);
    return data[:n], nil] *)
Definition marshal_with (size : Z)
    (marshalTo : list byte -> res (list byte * Z)) : res (list byte) :=
  data <- make size ;;
  '(data, n) <- marshalTo data ;;
  match slice data 0 n with
  | None => Panic
  | Some out => Ok out
  end.

(** [l = len(s); n += 1 + l + sovStructured(uint64(l))] *)
Definition size_bytes (n : Z) (l : Z) : Z :=
  iadd n (iadd (iadd 1 l) (sovStructured (cast Uint64 l))).

(** [n += 1 + sovStructured(uint64(v))] *)
Definition size_varint (n : Z) (v : Z) : Z :=
  iadd n (iadd 1 (sovStructured (cast Uint64 v))).

(** [if m.XXX_unrecognized != nil { n += len(m.XXX_unrecognized) }] *)
Definition size_unrecognized (n : Z) (u : list byte) : Z :=
  match u with
  | [] => n
  | _ => iadd n (len u)
  end.

(** ** The wire format, written as a function from values to bytes *)

(** The bytes of the varint of [v], least significant group first. *)
Fixpoint varint_bytes_fuel (fuel : nat) (v : Z) : list byte :=
  match fuel with
  | O => []
  | S fuel =>
      if 128 <=? v
      then u8 (Z.lor (Z.land v 0x7f) 0x80) :: varint_bytes_fuel fuel (Z.shiftr v 7)
      else [u8 v]
  end.

Definition varint_bytes (v : Z) : list byte := varint_bytes_fuel 10 v.

(** [data] with the bytes [bs] written over it from index [i] on. *)
Definition splice (data : list byte) (i : Z) (bs : list byte) : list byte :=
  firstn (Z.to_nat i) data ++ bs ++ skipn (Z.to_nat i + List.length bs) data.

(** A varint field, a length-delimited field and a boolean field. *)
Definition enc_varint (tag v : Z) : list byte :=
  u8 tag :: varint_bytes (cast Uint64 v).
Definition enc_bytes (tag : Z) (s : list byte) : list byte :=
  u8 tag :: varint_bytes (len s) ++ s.
Definition enc_bool (tag : Z) (b : bool) : list byte :=
  [u8 tag; if b then x01 else x00].

(** A write that lays down exactly the bytes [bs] wherever there is room
    for them. *)
Definition writes (f : list byte -> Z -> res (list byte * Z)) (bs : list byte)
  : Prop :=
  forall data i,
    0 <= i -> i + len bs <= len data -> len data < 2 ^ 63 ->
    f data i = Ok (splice data i bs, i + len bs).

(** ** How a decoder consumes the fields of an encoding *)

Section Fields.
Context {T : Type} (step : T -> list byte -> Z -> T * res Z).

(** One round of the loop consumes exactly the bytes [f], wherever they
    stand in the buffer, and leaves [upd m] in the receiver. *)
Definition field_ok (f : list byte) (upd : T -> T) : Prop :=
  f <> [] /\
  forall m pre post,
    len (pre ++ f ++ post) < 2 ^ 63 ->
    step m (pre ++ f ++ post) (len pre) = (upd m, Ok (len pre + len f)).

(** A buffer that ends inside [f] makes the round fail with
    [io.ErrUnexpectedEOF]. *)
Definition field_cut (f : list byte) : Prop :=
  forall m pre j,
    (0 < j < List.length f)%nat ->
    len (pre ++ f) < 2 ^ 63 ->
    snd (step m (pre ++ firstn j f) (len pre)) = Fail ErrUnexpectedEOF.

(** The bytes [u], decoded wherever they stand at the end of a buffer, are
    all appended to the unrecognized bytes of the receiver and nothing else
    changes. *)
Definition replayed (capture : list byte -> T -> T) (u : list byte) : Prop :=
  forall fuel m pre,
    (List.length u <= fuel)%nat ->
    len (pre ++ u) < 2 ^ 63 ->
    unmarshal_loop step fuel m (pre ++ u) (len pre) = (capture u m, Ok tt).
End Fields.

(** The updates of a list of fields, applied in order. *)
Definition apply_all {T : Type} (upds : list (T -> T)) (m : T) : T :=
  fold_left (fun m upd => upd m) upds m.

(** The offsets at which one field of [fs] ends and the next begins,
    together with the two ends of the encoding. *)
Fixpoint boundaries (fs : list (list byte)) : list nat :=
  match fs with
  | [] => [0%nat]
  | f :: fs => 0%nat :: map (Nat.add (List.length f)) (boundaries fs)
  end.

(** ** Well-formed unrecognized fields *)

(** The bytes that follow a tag of each wire type.  After a start-group tag
    (wire type 3) come the members of the group, each a tag with its
    payload, and then an end-group tag. *)
Inductive payload : Z -> list byte -> Prop :=
| payload_varint (hi : list byte) (b : byte) :
    Forall (fun x => 128 <= bv x) hi -> bv b < 128 ->
    payload 0 (hi ++ [b])
| payload_fixed64 (p : list byte) :
    List.length p = 8%nat -> payload 1 p
| payload_bytes (s : list byte) :
    payload 2 (varint_bytes (len s) ++ s)
| payload_group_end (wire : Z) :
    0 <= wire < 2 ^ 64 -> Z.land wire 0x7 = 4 ->
    payload 3 (varint_bytes wire)
| payload_group_member (wire : Z) (p rest : list byte) :
    0 <= wire < 2 ^ 64 -> Z.land wire 0x7 <> 4 ->
    payload (Z.land wire 0x7) p -> payload 3 rest ->
    payload 3 (varint_bytes wire ++ p ++ rest)
| payload_end_group :
    payload 4 []
| payload_fixed32 (p : list byte) :
    List.length p = 4%nat -> payload 5 p.

(** One field whose number is none of [1 .. nfields]: a tag in its shortest
    encoding followed by a payload of its wire type. *)
Definition foreign_field (nfields : Z) (f : list byte) : Prop :=
  exists wire p,
    0 <= wire < 2 ^ 64 /\
    ~ (1 <= fieldNum_of wire <= nfields) /\
    payload (Z.land wire 0x7) p /\
    f = varint_bytes wire ++ p.

(** A sequence of such fields. *)
Definition foreign_fields (nfields : Z) (u : list byte) : Prop :=
  exists fs, Forall (foreign_field nfields) fs /\ u = List.concat fs.

(** ** ColumnType *)

Module ColumnType.

Record t : Set := mk {
  Kind : Z;                       (* ColumnType_Kind, an int32 *)
  Width : Z;                      (* int32 *)
  Precision : Z;                  (* int32 *)
  XXX_unrecognized : list byte
}.

(** [ColumnType{}] *)
Definition zero : t := mk 0 0 0 [].

Definition set_Kind (v : Z) (m : t) : t :=
  mk v (Width m) (Precision m) (XXX_unrecognized m).
Definition set_Width (v : Z) (m : t) : t :=
  mk (Kind m) v (Precision m) (XXX_unrecognized m).
Definition set_Precision (v : Z) (m : t) : t :=
  mk (Kind m) (Width m) v (XXX_unrecognized m).
Definition set_XXX_unrecognized (v : list byte) (m : t) : t :=
  mk (Kind m) (Width m) (Precision m) v.

Definition body (m : t) (data : list byte) (wire iNdEx : Z) : t * res Z :=
  let fieldNum := fieldNum_of wire in
  let wireType := wireType_of wire in
  if fieldNum =? 1 then
    scalar_field Int32 "Kind" set_Kind m data wireType iNdEx
  else if fieldNum =? 2 then
    scalar_field Int32 "Width" set_Width m data wireType iNdEx
  else if fieldNum =? 3 then
    scalar_field Int32 "Precision" set_Precision m data wireType iNdEx
  else
    unknown_field XXX_unrecognized set_XXX_unrecognized m data wire iNdEx.

Definition step : t -> list byte -> Z -> t * res Z := with_tag body.

Definition Unmarshal (m : t) (data : list byte) : t * res unit :=
  unmarshal_loop step (List.length data) m data 0.

Definition Size (m : t) : Z :=
  let n := 0 in
  let n := size_varint n (Kind m) in
  let n := size_varint n (Width m) in
  let n := size_varint n (Precision m) in
  size_unrecognized n (XXX_unrecognized m).

Definition MarshalTo (m : t) (data : list byte) : res (list byte * Z) :=
  (put_varint 0x8 (cast Uint64 (Kind m))
   >>> put_varint 0x10 (cast Uint64 (Width m))
   >>> put_varint 0x18 (cast Uint64 (Precision m))
   >>> put_unrecognized (XXX_unrecognized m)) data 0.

Definition Marshal (m : t) : res (list byte) :=
  marshal_with (Size m) (MarshalTo m).

(** The wire image of [m]: the known fields in the order [MarshalTo] lays
    them out, then the unrecognized bytes. *)
Definition fields (m : t) : list (list byte) :=
  [enc_varint 0x8 (Kind m); enc_varint 0x10 (Width m);
   enc_varint 0x18 (Precision m)].

Definition encode (m : t) : list byte :=
  List.concat (fields m) ++ XXX_unrecognized m.

(** What decoding each of these fields does to a receiver. *)
Definition updates (m : t) : list (t -> t) :=
  [set_Kind (Kind m); set_Width (Width m); set_Precision (Precision m)].

Definition capture (u : list byte) (r : t) : t :=
  set_XXX_unrecognized (XXX_unrecognized r ++ u) r.

Definition merge (m r : t) : t :=
  capture (XXX_unrecognized m) (apply_all (updates m) r).

(** Every integer lies in its Go type and the unrecognized bytes are
    well-formed fields with numbers outside [1 .. 3]. *)
Definition valid (m : t) : Prop :=
  in_range Int32 (Kind m) /\ in_range Int32 (Width m) /\
  in_range Int32 (Precision m) /\
  foreign_fields 3 (XXX_unrecognized m).

End ColumnType.

(** ** ColumnDescriptor

    The declaration of the type [ID] is not among the sources; the codec is
    taken over the integer type [IDt] it stands for. *)

Module ColumnDescriptor.

Record t : Set := mk {
  Name : list byte;
  ID : Z;
  Type_ : ColumnType.t;
  Nullable : bool;
  XXX_unrecognized : list byte
}.

Definition zero : t := mk [] 0 ColumnType.zero false [].

Definition set_Name (v : list byte) (m : t) : t :=
  mk v (ID m) (Type_ m) (Nullable m) (XXX_unrecognized m).
Definition set_ID (v : Z) (m : t) : t :=
  mk (Name m) v (Type_ m) (Nullable m) (XXX_unrecognized m).
Definition set_Type (v : ColumnType.t) (m : t) : t :=
  mk (Name m) (ID m) v (Nullable m) (XXX_unrecognized m).
Definition set_Nullable (v : bool) (m : t) : t :=
  mk (Name m) (ID m) (Type_ m) v (XXX_unrecognized m).
Definition set_XXX_unrecognized (v : list byte) (m : t) : t :=
  mk (Name m) (ID m) (Type_ m) (Nullable m) v.

Section WithID.
Variable IDt : ity.

Definition body (m : t) (data : list byte) (wire iNdEx : Z) : t * res Z :=
  let fieldNum := fieldNum_of wire in
  let wireType := wireType_of wire in
  if fieldNum =? 1 then
    string_field "Name" set_Name m data wireType iNdEx
  else if fieldNum =? 2 then
    scalar_field IDt "ID" set_ID m data wireType iNdEx
  else if fieldNum =? 3 then
    message_field "Type" ColumnType.Unmarshal Type_ set_Type
      m data wireType iNdEx
  else if fieldNum =? 4 then
    bool_field "Nullable" set_Nullable m data wireType iNdEx
  else
    unknown_field XXX_unrecognized set_XXX_unrecognized m data wire iNdEx.

Definition step : t -> list byte -> Z -> t * res Z := with_tag body.

Definition Unmarshal (m : t) (data : list byte) : t * res unit :=
  unmarshal_loop step (List.length data) m data 0.

End WithID.

Definition Size (m : t) : Z :=
  let n := 0 in
  let n := size_bytes n (len (Name m)) in
  let n := size_varint n (ID m) in
  let n := size_bytes n (ColumnType.Size (Type_ m)) in
  let n := iadd n 2 in
  size_unrecognized n (XXX_unrecognized m).

Definition MarshalTo (m : t) (data : list byte) : res (list byte * Z) :=
  (put_string 0xa (Name m)
   >>> put_varint 0x10 (cast Uint64 (ID m))
   >>> put_message 0x1a (ColumnType.Size (Type_ m))
         (ColumnType.MarshalTo (Type_ m))
   >>> put_bool 0x20 (Nullable m)
   >>> put_unrecognized (XXX_unrecognized m)) data 0.

Definition Marshal (m : t) : res (list byte) :=
  marshal_with (Size m) (MarshalTo m).

Definition fields (m : t) : list (list byte) :=
  [enc_bytes 0xa (Name m); enc_varint 0x10 (ID m);
   enc_bytes 0x1a (ColumnType.encode (Type_ m));
   enc_bool 0x20 (Nullable m)].

Definition encode (m : t) : list byte :=
  List.concat (fields m) ++ XXX_unrecognized m.

Definition updates (m : t) : list (t -> t) :=
  [set_Name (Name m); set_ID (ID m);
   (fun r => set_Type (ColumnType.merge (Type_ m) (Type_ r)) r);
   set_Nullable (Nullable m)].

Definition capture (u : list byte) (r : t) : t :=
  set_XXX_unrecognized (XXX_unrecognized r ++ u) r.

Definition merge (m r : t) : t :=
  capture (XXX_unrecognized m) (apply_all (updates m) r).

Definition valid (IDt : ity) (m : t) : Prop :=
  in_range IDt (ID m) /\ ColumnType.valid (Type_ m) /\
  foreign_fields 4 (XXX_unrecognized m).

End ColumnDescriptor.

(** ** IndexDescriptor *)

Module IndexDescriptor.

Record t : Set := mk {
  Name : list byte;
  ID : Z;
  Unique : bool;
  ColumnNames : list (list byte);
  ColumnIDs : list Z;
  XXX_unrecognized : list byte
}.

Definition zero : t := mk [] 0 false [] [] [].

Definition set_Name (v : list byte) (m : t) : t :=
  mk v (ID m) (Unique m) (ColumnNames m) (ColumnIDs m) (XXX_unrecognized m).
Definition set_ID (v : Z) (m : t) : t :=
  mk (Name m) v (Unique m) (ColumnNames m) (ColumnIDs m) (XXX_unrecognized m).
Definition set_Unique (v : bool) (m : t) : t :=
  mk (Name m) (ID m) v (ColumnNames m) (ColumnIDs m) (XXX_unrecognized m).
Definition set_ColumnNames (v : list (list byte)) (m : t) : t :=
  mk (Name m) (ID m) (Unique m) v (ColumnIDs m) (XXX_unrecognized m).
Definition set_ColumnIDs (v : list Z) (m : t) : t :=
  mk (Name m) (ID m) (Unique m) (ColumnNames m) v (XXX_unrecognized m).
Definition set_XXX_unrecognized (v : list byte) (m : t) : t :=
  mk (Name m) (ID m) (Unique m) (ColumnNames m) (ColumnIDs m) v.

(** [m.ColumnNames = append(m.ColumnNames, string(...))] *)
Definition add_ColumnName (s : list byte) (m : t) : t :=
  set_ColumnNames (ColumnNames m ++ [s]) m.

(** [var v ID; for ... { v |= ... }; m.ColumnIDs = append(m.ColumnIDs, v)] *)
Definition add_ColumnID (IDt : ity) (m : t) (data : list byte)
    (wireType iNdEx : Z) : t * res Z :=
  if negb (wireType =? 0)
  then (m, Fail (ErrWrongWireType wireType "ColumnIDs"))
  else
    match read_local IDt data iNdEx with
    | Ok (v, iNdEx) => (set_ColumnIDs (ColumnIDs m ++ [v]) m, Ok iNdEx)
    | Fail e => (m, Fail e)
    | Panic => (m, Panic)
    | Exhausted => (m, Exhausted)
    end.

Section WithID.
Variable IDt : ity.

Definition body (m : t) (data : list byte) (wire iNdEx : Z) : t * res Z :=
  let fieldNum := fieldNum_of wire in
  let wireType := wireType_of wire in
  if fieldNum =? 1 then
    string_field "Name" set_Name m data wireType iNdEx
  else if fieldNum =? 2 then
    scalar_field IDt "ID" set_ID m data wireType iNdEx
  else if fieldNum =? 3 then
    bool_field "Unique" set_Unique m data wireType iNdEx
  else if fieldNum =? 4 then
    string_field "ColumnNames" add_ColumnName m data wireType iNdEx
  else if fieldNum =? 5 then
    add_ColumnID IDt m data wireType iNdEx
  else
    unknown_field XXX_unrecognized set_XXX_unrecognized m data wire iNdEx.

Definition step : t -> list byte -> Z -> t * res Z := with_tag body.

Definition Unmarshal (m : t) (data : list byte) : t * res unit :=
  unmarshal_loop step (List.length data) m data 0.

End WithID.

Definition Size (m : t) : Z :=
  let n := 0 in
  let n := size_bytes n (len (Name m)) in
  let n := size_varint n (ID m) in
  let n := iadd n 2 in
  let n := fold_left (fun n s => size_bytes n (len s)) (ColumnNames m) n in
  let n := fold_left size_varint (ColumnIDs m) n in
  size_unrecognized n (XXX_unrecognized m).

Definition MarshalTo (m : t) (data : list byte) : res (list byte * Z) :=
  (put_string 0xa (Name m)
   >>> put_varint 0x10 (cast Uint64 (ID m))
   >>> put_bool 0x18 (Unique m)
   >>> for_each (put_repeated_string 0x22) (ColumnNames m)
   >>> for_each (fun num => put_varint 0x28 (cast Uint64 num)) (ColumnIDs m)
   >>> put_unrecognized (XXX_unrecognized m)) data 0.

Definition Marshal (m : t) : res (list byte) :=
  marshal_with (Size m) (MarshalTo m).

Definition fields (m : t) : list (list byte) :=
  [enc_bytes 0xa (Name m); enc_varint 0x10 (ID m); enc_bool 0x18 (Unique m)]
  ++ map (enc_bytes 0x22) (ColumnNames m)
  ++ map (enc_varint 0x28) (ColumnIDs m).

Definition encode (m : t) : list byte :=
  List.concat (fields m) ++ XXX_unrecognized m.

Definition add_ID (v : Z) (r : t) : t :=
  set_ColumnIDs (ColumnIDs r ++ [v]) r.

Definition updates (m : t) : list (t -> t) :=
  [set_Name (Name m); set_ID (ID m); set_Unique (Unique m)]
  ++ map add_ColumnName (ColumnNames m)
  ++ map add_ID (ColumnIDs m).

Definition capture (u : list byte) (r : t) : t :=
  set_XXX_unrecognized (XXX_unrecognized r ++ u) r.

Definition merge (m r : t) : t :=
  capture (XXX_unrecognized m) (apply_all (updates m) r).

Definition valid (IDt : ity) (m : t) : Prop :=
  in_range IDt (ID m) /\ Forall (in_range IDt) (ColumnIDs m) /\
  foreign_fields 5 (XXX_unrecognized m).

End IndexDescriptor.

(** ** PrivilegeDescriptor *)

Module PrivilegeDescriptor.

Record t : Set := mk {
  Read : list (list byte);
  Write : list (list byte);
  XXX_unrecognized : list byte
}.

Definition zero : t := mk [] [] [].

Definition add_Read (s : list byte) (m : t) : t :=
  mk (Read m ++ [s]) (Write m) (XXX_unrecognized m).
Definition add_Write (s : list byte) (m : t) : t :=
  mk (Read m) (Write m ++ [s]) (XXX_unrecognized m).
Definition set_XXX_unrecognized (v : list byte) (m : t) : t :=
  mk (Read m) (Write m) v.

Definition body (m : t) (data : list byte) (wire iNdEx : Z) : t * res Z :=
  let fieldNum := fieldNum_of wire in
  let wireType := wireType_of wire in
  if fieldNum =? 1 then
    string_field "Read" add_Read m data wireType iNdEx
  else if fieldNum =? 2 then
    string_field "Write" add_Write m data wireType iNdEx
  else
    unknown_field XXX_unrecognized set_XXX_unrecognized m data wire iNdEx.

Definition step : t -> list byte -> Z -> t * res Z := with_tag body.

Definition Unmarshal (m : t) (data : list byte) : t * res unit :=
  unmarshal_loop step (List.length data) m data 0.

Definition Size (m : t) : Z :=
  let n := 0 in
  let n := fold_left (fun n s => size_bytes n (len s)) (Read m) n in
  let n := fold_left (fun n s => size_bytes n (len s)) (Write m) n in
  size_unrecognized n (XXX_unrecognized m).

Definition MarshalTo (m : t) (data : list byte) : res (list byte * Z) :=
  (for_each (put_repeated_string 0xa) (Read m)
   >>> for_each (put_repeated_string 0x12) (Write m)
   >>> put_unrecognized (XXX_unrecognized m)) data 0.

Definition Marshal (m : t) : res (list byte) :=
  marshal_with (Size m) (MarshalTo m).

Definition fields (m : t) : list (list byte) :=
  map (enc_bytes 0xa) (Read m) ++ map (enc_bytes 0x12) (Write m).

Definition encode (m : t) : list byte :=
  List.concat (fields m) ++ XXX_unrecognized m.

Definition updates (m : t) : list (t -> t) :=
  map add_Read (Read m) ++ map add_Write (Write m).

Definition capture (u : list byte) (r : t) : t :=
  set_XXX_unrecognized (XXX_unrecognized r ++ u) r.

Definition merge (m r : t) : t :=
  capture (XXX_unrecognized m) (apply_all (updates m) r).

Definition valid (m : t) : Prop :=
  foreign_fields 2 (XXX_unrecognized m).

End PrivilegeDescriptor.

(** ** TableDescriptor *)

Module TableDescriptor.

Record t : Set := mk {
  Name : list byte;
  ID : Z;
  Columns : list ColumnDescriptor.t;
  NextColumnID : Z;
  PrimaryIndex : IndexDescriptor.t;
  Indexes : list IndexDescriptor.t;
  NextIndexID : Z;
  Privileges : PrivilegeDescriptor.t;   (* the embedded PrivilegeDescriptor *)
  XXX_unrecognized : list byte
}.

Definition zero : t :=
  mk [] 0 [] 0 IndexDescriptor.zero [] 0 PrivilegeDescriptor.zero [].

Definition set_Name (v : list byte) (m : t) : t :=
  mk v (ID m) (Columns m) (NextColumnID m) (PrimaryIndex m) (Indexes m)
     (NextIndexID m) (Privileges m) (XXX_unrecognized m).
Definition set_ID (v : Z) (m : t) : t :=
  mk (Name m) v (Columns m) (NextColumnID m) (PrimaryIndex m) (Indexes m)
     (NextIndexID m) (Privileges m) (XXX_unrecognized m).
Definition set_Columns (v : list ColumnDescriptor.t) (m : t) : t :=
  mk (Name m) (ID m) v (NextColumnID m) (PrimaryIndex m) (Indexes m)
     (NextIndexID m) (Privileges m) (XXX_unrecognized m).
Definition set_NextColumnID (v : Z) (m : t) : t :=
  mk (Name m) (ID m) (Columns m) v (PrimaryIndex m) (Indexes m)
     (NextIndexID m) (Privileges m) (XXX_unrecognized m).
Definition set_PrimaryIndex (v : IndexDescriptor.t) (m : t) : t :=
  mk (Name m) (ID m) (Columns m) (NextColumnID m) v (Indexes m)
     (NextIndexID m) (Privileges m) (XXX_unrecognized m).
Definition set_Indexes (v : list IndexDescriptor.t) (m : t) : t :=
  mk (Name m) (ID m) (Columns m) (NextColumnID m) (PrimaryIndex m) v
     (NextIndexID m) (Privileges m) (XXX_unrecognized m).
Definition set_NextIndexID (v : Z) (m : t) : t :=
  mk (Name m) (ID m) (Columns m) (NextColumnID m) (PrimaryIndex m) (Indexes m)
     v (Privileges m) (XXX_unrecognized m).
Definition set_Privileges (v : PrivilegeDescriptor.t) (m : t) : t :=
  mk (Name m) (ID m) (Columns m) (NextColumnID m) (PrimaryIndex m) (Indexes m)
     (NextIndexID m) v (XXX_unrecognized m).
Definition set_XXX_unrecognized (v : list byte) (m : t) : t :=
  mk (Name m) (ID m) (Columns m) (NextColumnID m) (PrimaryIndex m) (Indexes m)
     (NextIndexID m) (Privileges m) v.

(** [m.Columns = append(m.Columns, ColumnDescriptor{})]; the new last
    element is then decoded in place. *)
Definition add_Column (c : ColumnDescriptor.t) (m : t) : t :=
  set_Columns (Columns m ++ [c]) m.
Definition add_Index (x : IndexDescriptor.t) (m : t) : t :=
  set_Indexes (Indexes m ++ [x]) m.

Section WithID.
Variable IDt : ity.

Definition body (m : t) (data : list byte) (wire iNdEx : Z) : t * res Z :=
  let fieldNum := fieldNum_of wire in
  let wireType := wireType_of wire in
  if fieldNum =? 1 then
    string_field "Name" set_Name m data wireType iNdEx
  else if fieldNum =? 2 then
    scalar_field IDt "ID" set_ID m data wireType iNdEx
  else if fieldNum =? 3 then
    message_field "Columns" (ColumnDescriptor.Unmarshal IDt)
      (fun _ => ColumnDescriptor.zero) add_Column m data wireType iNdEx
  else if fieldNum =? 4 then
    scalar_field IDt "NextColumnID" set_NextColumnID m data wireType iNdEx
  else if fieldNum =? 5 then
    message_field "PrimaryIndex" (IndexDescriptor.Unmarshal IDt)
      PrimaryIndex set_PrimaryIndex m data wireType iNdEx
  else if fieldNum =? 6 then
    message_field "Indexes" (IndexDescriptor.Unmarshal IDt)
      (fun _ => IndexDescriptor.zero) add_Index m data wireType iNdEx
  else if fieldNum =? 7 then
    scalar_field IDt "NextIndexID" set_NextIndexID m data wireType iNdEx
  else if fieldNum =? 8 then
    message_field "PrivilegeDescriptor" PrivilegeDescriptor.Unmarshal
      Privileges set_Privileges m data wireType iNdEx
  else
    unknown_field XXX_unrecognized set_XXX_unrecognized m data wire iNdEx.

Definition step : t -> list byte -> Z -> t * res Z := with_tag body.

Definition Unmarshal (m : t) (data : list byte) : t * res unit :=
  unmarshal_loop step (List.length data) m data 0.

End WithID.

Definition Size (m : t) : Z :=
  let n := 0 in
  let n := size_bytes n (len (Name m)) in
  let n := size_varint n (ID m) in
  let n := fold_left (fun n e => size_bytes n (ColumnDescriptor.Size e))
             (Columns m) n in
  let n := size_varint n (NextColumnID m) in
  let n := size_bytes n (IndexDescriptor.Size (PrimaryIndex m)) in
  let n := fold_left (fun n e => size_bytes n (IndexDescriptor.Size e))
             (Indexes m) n in
  let n := size_varint n (NextIndexID m) in
  let n := size_bytes n (PrivilegeDescriptor.Size (Privileges m)) in
  size_unrecognized n (XXX_unrecognized m).

Definition MarshalTo (m : t) (data : list byte) : res (list byte * Z) :=
  (put_string 0xa (Name m)
   >>> put_varint 0x10 (cast Uint64 (ID m))
   >>> for_each (fun msg => put_message 0x1a (ColumnDescriptor.Size msg)
                              (ColumnDescriptor.MarshalTo msg))
         (Columns m)
   >>> put_varint 0x20 (cast Uint64 (NextColumnID m))
   >>> put_message 0x2a (IndexDescriptor.Size (PrimaryIndex m))
         (IndexDescriptor.MarshalTo (PrimaryIndex m))
   >>> for_each (fun msg => put_message 0x32 (IndexDescriptor.Size msg)
                              (IndexDescriptor.MarshalTo msg))
         (Indexes m)
   >>> put_varint 0x38 (cast Uint64 (NextIndexID m))
   >>> put_message 0x42 (PrivilegeDescriptor.Size (Privileges m))
         (PrivilegeDescriptor.MarshalTo (Privileges m))
   >>> put_unrecognized (XXX_unrecognized m)) data 0.

Definition Marshal (m : t) : res (list byte) :=
  marshal_with (Size m) (MarshalTo m).

Definition fields (m : t) : list (list byte) :=
  [enc_bytes 0xa (Name m); enc_varint 0x10 (ID m)]
  ++ map (fun c => enc_bytes 0x1a (ColumnDescriptor.encode c)) (Columns m)
  ++ [enc_varint 0x20 (NextColumnID m);
      enc_bytes 0x2a (IndexDescriptor.encode (PrimaryIndex m))]
  ++ map (fun x => enc_bytes 0x32 (IndexDescriptor.encode x)) (Indexes m)
  ++ [enc_varint 0x38 (NextIndexID m);
      enc_bytes 0x42 (PrivilegeDescriptor.encode (Privileges m))].

Definition encode (m : t) : list byte :=
  List.concat (fields m) ++ XXX_unrecognized m.

Definition updates (m : t) : list (t -> t) :=
  [set_Name (Name m); set_ID (ID m)]
  ++ map add_Column (Columns m)
  ++ [set_NextColumnID (NextColumnID m);
      (fun r => set_PrimaryIndex
                  (IndexDescriptor.merge (PrimaryIndex m) (PrimaryIndex r)) r)]
  ++ map add_Index (Indexes m)
  ++ [set_NextIndexID (NextIndexID m);
      (fun r => set_Privileges
                  (PrivilegeDescriptor.merge (Privileges m) (Privileges r)) r)].

Definition capture (u : list byte) (r : t) : t :=
  set_XXX_unrecognized (XXX_unrecognized r ++ u) r.

Definition merge (m r : t) : t :=
  capture (XXX_unrecognized m) (apply_all (updates m) r).

Definition valid (IDt : ity) (m : t) : Prop :=
  in_range IDt (ID m) /\
  Forall (ColumnDescriptor.valid IDt) (Columns m) /\
  in_range IDt (NextColumnID m) /\
  IndexDescriptor.valid IDt (PrimaryIndex m) /\
  Forall (IndexDescriptor.valid IDt) (Indexes m) /\
  in_range IDt (NextIndexID m) /\
  PrivilegeDescriptor.valid (Privileges m) /\
  foreign_fields 8 (XXX_unrecognized m).

End TableDescriptor.

(** ** DatabaseDescriptor *)

Module DatabaseDescriptor.

Record t : Set := mk {
  Name : list byte;
  ID : Z;
  Privileges : PrivilegeDescriptor.t;   (* the embedded PrivilegeDescriptor *)
  XXX_unrecognized : list byte
}.

Definition zero : t := mk [] 0 PrivilegeDescriptor.zero [].

Definition set_Name (v : list byte) (m : t) : t :=
  mk v (ID m) (Privileges m) (XXX_unrecognized m).
Definition set_ID (v : Z) (m : t) : t :=
  mk (Name m) v (Privileges m) (XXX_unrecognized m).
Definition set_Privileges (v : PrivilegeDescriptor.t) (m : t) : t :=
  mk (Name m) (ID m) v (XXX_unrecognized m).
Definition set_XXX_unrecognized (v : list byte) (m : t) : t :=
  mk (Name m) (ID m) (Privileges m) v.

Section WithID.
Variable IDt : ity.

Definition body (m : t) (data : list byte) (wire iNdEx : Z) : t * res Z :=
  let fieldNum := fieldNum_of wire in
  let wireType := wireType_of wire in
  if fieldNum =? 1 then
    string_field "Name" set_Name m data wireType iNdEx
  else if fieldNum =? 2 then
    scalar_field IDt "ID" set_ID m data wireType iNdEx
  else if fieldNum =? 3 then
    message_field "PrivilegeDescriptor" PrivilegeDescriptor.Unmarshal
      Privileges set_Privileges m data wireType iNdEx
  else
    unknown_field XXX_unrecognized set_XXX_unrecognized m data wire iNdEx.

Definition step : t -> list byte -> Z -> t * res Z := with_tag body.

Definition Unmarshal (m : t) (data : list byte) : t * res unit :=
  unmarshal_loop step (List.length data) m data 0.

End WithID.

Definition Size (m : t) : Z :=
  let n := 0 in
  let n := size_bytes n (len (Name m)) in
  let n := size_varint n (ID m) in
  let n := size_bytes n (PrivilegeDescriptor.Size (Privileges m)) in
  size_unrecognized n (XXX_unrecognized m).

Definition MarshalTo (m : t) (data : list byte) : res (list byte * Z) :=
  (put_string 0xa (Name m)
   >>> put_varint 0x10 (cast Uint64 (ID m))
   >>> put_message 0x1a (PrivilegeDescriptor.Size (Privileges m))
         (PrivilegeDescriptor.MarshalTo (Privileges m))
   >>> put_unrecognized (XXX_unrecognized m)) data 0.

Definition Marshal (m : t) : res (list byte) :=
  marshal_with (Size m) (MarshalTo m).

Definition fields (m : t) : list (list byte) :=
  [enc_bytes 0xa (Name m); enc_varint 0x10 (ID m);
   enc_bytes 0x1a (PrivilegeDescriptor.encode (Privileges m))].

Definition encode (m : t) : list byte :=
  List.concat (fields m) ++ XXX_unrecognized m.

Definition updates (m : t) : list (t -> t) :=
  [set_Name (Name m); set_ID (ID m);
   (fun r => set_Privileges
               (PrivilegeDescriptor.merge (Privileges m) (Privileges r)) r)].

Definition capture (u : list byte) (r : t) : t :=
  set_XXX_unrecognized (XXX_unrecognized r ++ u) r.

Definition merge (m r : t) : t :=
  capture (XXX_unrecognized m) (apply_all (updates m) r).

Definition valid (IDt : ity) (m : t) : Prop :=
  in_range IDt (ID m) /\ PrivilegeDescriptor.valid (Privileges m) /\
  foreign_fields 3 (XXX_unrecognized m).

End DatabaseDescriptor.

(** ** Any of the six descriptors *)

Module Descriptor.

Inductive kind : Set :=
| KColumnType | KColumnDescriptor | KIndexDescriptor
| KPrivilegeDescriptor | KTableDescriptor | KDatabaseDescriptor.

Inductive t : Set :=
| OfColumnType (m : ColumnType.t)
| OfColumnDescriptor (m : ColumnDescriptor.t)
| OfIndexDescriptor (m : IndexDescriptor.t)
| OfPrivilegeDescriptor (m : PrivilegeDescriptor.t)
| OfTableDescriptor (m : TableDescriptor.t)
| OfDatabaseDescriptor (m : DatabaseDescriptor.t).

Definition kind_of (d : t) : kind :=
  match d with
  | OfColumnType _ => KColumnType
  | OfColumnDescriptor _ => KColumnDescriptor
  | OfIndexDescriptor _ => KIndexDescriptor
  | OfPrivilegeDescriptor _ => KPrivilegeDescriptor
  | OfTableDescriptor _ => KTableDescriptor
  | OfDatabaseDescriptor _ => KDatabaseDescriptor
  end.

(** The zero value of each type. *)
Definition zero (k : kind) : t :=
  match k with
  | KColumnType => OfColumnType ColumnType.zero
  | KColumnDescriptor => OfColumnDescriptor ColumnDescriptor.zero
  | KIndexDescriptor => OfIndexDescriptor IndexDescriptor.zero
  | KPrivilegeDescriptor => OfPrivilegeDescriptor PrivilegeDescriptor.zero
  | KTableDescriptor => OfTableDescriptor TableDescriptor.zero
  | KDatabaseDescriptor => OfDatabaseDescriptor DatabaseDescriptor.zero
  end.

Definition on_fst {A B C : Type} (f : A -> B) (p : A * C) : B * C :=
  (f (fst p), snd p).

(** [m.Unmarshal(data)] on the receiver [m]. *)
Definition Unmarshal (IDt : ity) (m : t) (data : list byte) : t * res unit :=
  match m with
  | OfColumnType m => on_fst OfColumnType (ColumnType.Unmarshal m data)
  | OfColumnDescriptor m =>
      on_fst OfColumnDescriptor (ColumnDescriptor.Unmarshal IDt m data)
  | OfIndexDescriptor m =>
      on_fst OfIndexDescriptor (IndexDescriptor.Unmarshal IDt m data)
  | OfPrivilegeDescriptor m =>
      on_fst OfPrivilegeDescriptor (PrivilegeDescriptor.Unmarshal m data)
  | OfTableDescriptor m =>
      on_fst OfTableDescriptor (TableDescriptor.Unmarshal IDt m data)
  | OfDatabaseDescriptor m =>
      on_fst OfDatabaseDescriptor (DatabaseDescriptor.Unmarshal IDt m data)
  end.

Definition Size (m : t) : Z :=
  match m with
  | OfColumnType m => ColumnType.Size m
  | OfColumnDescriptor m => ColumnDescriptor.Size m
  | OfIndexDescriptor m => IndexDescriptor.Size m
  | OfPrivilegeDescriptor m => PrivilegeDescriptor.Size m
  | OfTableDescriptor m => TableDescriptor.Size m
  | OfDatabaseDescriptor m => DatabaseDescriptor.Size m
  end.

Definition MarshalTo (m : t) (data : list byte) : res (list byte * Z) :=
  match m with
  | OfColumnType m => ColumnType.MarshalTo m data
  | OfColumnDescriptor m => ColumnDescriptor.MarshalTo m data
  | OfIndexDescriptor m => IndexDescriptor.MarshalTo m data
  | OfPrivilegeDescriptor m => PrivilegeDescriptor.MarshalTo m data
  | OfTableDescriptor m => TableDescriptor.MarshalTo m data
  | OfDatabaseDescriptor m => DatabaseDescriptor.MarshalTo m data
  end.

Definition Marshal (m : t) : res (list byte) :=
  match m with
  | OfColumnType m => ColumnType.Marshal m
  | OfColumnDescriptor m => ColumnDescriptor.Marshal m
  | OfIndexDescriptor m => IndexDescriptor.Marshal m
  | OfPrivilegeDescriptor m => PrivilegeDescriptor.Marshal m
  | OfTableDescriptor m => TableDescriptor.Marshal m
  | OfDatabaseDescriptor m => DatabaseDescriptor.Marshal m
  end.

Definition XXX_unrecognized (m : t) : list byte :=
  match m with
  | OfColumnType m => ColumnType.XXX_unrecognized m
  | OfColumnDescriptor m => ColumnDescriptor.XXX_unrecognized m
  | OfIndexDescriptor m => IndexDescriptor.XXX_unrecognized m
  | OfPrivilegeDescriptor m => PrivilegeDescriptor.XXX_unrecognized m
  | OfTableDescriptor m => TableDescriptor.XXX_unrecognized m
  | OfDatabaseDescriptor m => DatabaseDescriptor.XXX_unrecognized m
  end.

(** The known fields of the wire image, one list of bytes per field. *)
Definition fields (m : t) : list (list byte) :=
  match m with
  | OfColumnType m => ColumnType.fields m
  | OfColumnDescriptor m => ColumnDescriptor.fields m
  | OfIndexDescriptor m => IndexDescriptor.fields m
  | OfPrivilegeDescriptor m => PrivilegeDescriptor.fields m
  | OfTableDescriptor m => TableDescriptor.fields m
  | OfDatabaseDescriptor m => DatabaseDescriptor.fields m
  end.

Definition encode (m : t) : list byte :=
  List.concat (fields m) ++ XXX_unrecognized m.

(** A descriptor as the program can hold it after building it or after
    decoding well-formed bytes: every integer within its Go type, and the
    unrecognized bytes, at every level, a sequence of well-formed fields
    with numbers the type does not know. *)
Definition valid (IDt : ity) (m : t) : Prop :=
  match m with
  | OfColumnType m => ColumnType.valid m
  | OfColumnDescriptor m => ColumnDescriptor.valid IDt m
  | OfIndexDescriptor m => IndexDescriptor.valid IDt m
  | OfPrivilegeDescriptor m => PrivilegeDescriptor.valid m
  | OfTableDescriptor m => TableDescriptor.valid IDt m
  | OfDatabaseDescriptor m => DatabaseDescriptor.valid IDt m
  end.

(** The wire image is short enough to be a Go slice. *)
Definition fits (m : t) : Prop := len (encode m) < 2 ^ 63.

(** The field numbers [1 .. nfields k] are the ones type [k] knows. *)
Definition nfields (k : kind) : Z :=
  match k with
  | KColumnType => 3
  | KColumnDescriptor => 4
  | KIndexDescriptor => 5
  | KPrivilegeDescriptor => 2
  | KTableDescriptor => 8
  | KDatabaseDescriptor => 3
  end.

(** The wire type and the name each [case] of the [switch fieldNum]
    checks the tag against and reports. *)
Definition field_info (k : kind) (fieldNum : Z) : option (Z * string) :=
  match k with
  | KColumnType =>
      if fieldNum =? 1 then Some (0, "Kind"%string)
      else if fieldNum =? 2 then Some (0, "Width"%string)
      else if fieldNum =? 3 then Some (0, "Precision"%string)
      else None
  | KColumnDescriptor =>
      if fieldNum =? 1 then Some (2, "Name"%string)
      else if fieldNum =? 2 then Some (0, "ID"%string)
      else if fieldNum =? 3 then Some (2, "Type"%string)
      else if fieldNum =? 4 then Some (0, "Nullable"%string)
      else None
  | KIndexDescriptor =>
      if fieldNum =? 1 then Some (2, "Name"%string)
      else if fieldNum =? 2 then Some (0, "ID"%string)
      else if fieldNum =? 3 then Some (0, "Unique"%string)
      else if fieldNum =? 4 then Some (2, "ColumnNames"%string)
      else if fieldNum =? 5 then Some (0, "ColumnIDs"%string)
      else None
  | KPrivilegeDescriptor =>
      if fieldNum =? 1 then Some (2, "Read"%string)
      else if fieldNum =? 2 then Some (2, "Write"%string)
      else None
  | KTableDescriptor =>
      if fieldNum =? 1 then Some (2, "Name"%string)
      else if fieldNum =? 2 then Some (0, "ID"%string)
      else if fieldNum =? 3 then Some (2, "Columns"%string)
      else if fieldNum =? 4 then Some (0, "NextColumnID"%string)
      else if fieldNum =? 5 then Some (2, "PrimaryIndex"%string)
      else if fieldNum =? 6 then Some (2, "Indexes"%string)
      else if fieldNum =? 7 then Some (0, "NextIndexID"%string)
      else if fieldNum =? 8 then Some (2, "PrivilegeDescriptor"%string)
      else None
  | KDatabaseDescriptor =>
      if fieldNum =? 1 then Some (2, "Name"%string)
      else if fieldNum =? 2 then Some (0, "ID"%string)
      else if fieldNum =? 3 then Some (2, "PrivilegeDescriptor"%string)
      else None
  end.

End Descriptor.

(** ** The decoder up to its first store

    Every [Unmarshal] writes into its receiver as it goes.  What follows is
    each piece of the decoder cut at the first statement that writes to the
    receiver: [Kept r], the piece ends with the outcome [r] before any such
    statement; [Stored], it reaches one.  The receiver plays no part in the
    control flow of the decoder, so none of this depends on it. *)
Inductive dry (A : Type) : Type :=
| Kept (r : res A)
| Stored.
Arguments Kept {A} r.
Arguments Stored {A}.

(** An outcome other than a store. *)
Definition kept_unless_ok {A B : Type} (r : res A) : dry B :=
  match r with
  | Ok _ => Stored
  | Fail e => Kept (Fail e)
  | Panic => Kept Panic
  | Exhausted => Kept Exhausted
  end.

(** [scalar_field]: the wire type is checked, then [m.F = 0] is the first
    statement. *)
Definition dry_scalar (name : string) (wireType : Z) : dry Z :=
  if negb (wireType =? 0) then Kept (Fail (ErrWrongWireType wireType name))
  else Stored.

(** [bool_field] and [add_ColumnID]: the varint is read into a local
    variable, the field is assigned after the loop. *)
Definition dry_local (t : ity) (name : string) (data : list byte)
    (wireType iNdEx : Z) : dry Z :=
  if negb (wireType =? 0) then Kept (Fail (ErrWrongWireType wireType name))
  else kept_unless_ok (read_local t data iNdEx).

(** [string_field]: the field is assigned or appended to when the length
    has been read and checked against the buffer. *)
Definition dry_string (name : string) (data : list byte) (wireType iNdEx : Z)
  : dry Z :=
  kept_unless_ok (read_string name data wireType iNdEx).

(** [message_field] on a field that holds one message, which is decoded in
    place: the stores are those of the nested [Unmarshal], [sub]. *)
Definition dry_message (name : string) (sub : list byte -> dry unit)
    (data : list byte) (wireType iNdEx : Z) : dry Z :=
  match read_message name data wireType iNdEx with
  | Ok (bytes, postIndex) =>
      match sub bytes with
      | Kept r => Kept (retag r postIndex)
      | Stored => Stored
      end
  | Fail e => Kept (Fail e)
  | Panic => Kept Panic
  | Exhausted => Kept Exhausted
  end.

(** [message_field] on a repeated field: [m.F = append(m.F, T{})] comes
    before the nested [Unmarshal]. *)
Definition dry_repeated_message (name : string) (data : list byte)
    (wireType iNdEx : Z) : dry Z :=
  kept_unless_ok (read_message name data wireType iNdEx).

(** [unknown_field]: the bytes are appended when [skipStructured] has
    returned and its count has been checked. *)
Definition dry_unknown (data : list byte) (wire iNdEx : Z) : dry Z :=
  kept_unless_ok (skip_unknown data wire iNdEx).

(** [with_tag] *)
Definition dry_with_tag (body : list byte -> Z -> Z -> dry Z)
    (data : list byte) (iNdEx : Z) : dry Z :=
  match read_local Uint64 data iNdEx with
  | Ok (wire, iNdEx) => body data wire iNdEx
  | Fail e => Kept (Fail e)
  | Panic => Kept Panic
  | Exhausted => Kept Exhausted
  end.

(** [unmarshal_loop]: the rounds that store nothing, up to the end of the
    buffer, the first failure or the first store. *)
Fixpoint dry_loop (round : list byte -> Z -> dry Z) (fuel : nat)
    (data : list byte) (iNdEx : Z) : dry unit :=
  if iNdEx <? len data then
    match fuel with
    | O => Kept Exhausted
    | S fuel =>
        match round data iNdEx with
        | Kept (Ok iNdEx) => dry_loop round fuel data iNdEx
        | Kept (Fail e) => Kept (Fail e)
        | Kept Panic => Kept Panic
        | Kept Exhausted => Kept Exhausted
        | Stored => Stored
        end
    end
  else Kept (Ok tt).

(** The six [Unmarshal] methods up to their first store: the [switch] of
    each, with every [case] cut as above. *)
Definition dry_ColumnType_body (data : list byte) (wire iNdEx : Z) : dry Z :=
  let fieldNum := fieldNum_of wire in
  let wireType := wireType_of wire in
  if fieldNum =? 1 then dry_scalar "Kind" wireType
  else if fieldNum =? 2 then dry_scalar "Width" wireType
  else if fieldNum =? 3 then dry_scalar "Precision" wireType
  else dry_unknown data wire iNdEx.

Definition dry_ColumnType (data : list byte) : dry unit :=
  dry_loop (dry_with_tag dry_ColumnType_body) (List.length data) data 0.

Definition dry_ColumnDescriptor_body (data : list byte) (wire iNdEx : Z)
  : dry Z :=
  let fieldNum := fieldNum_of wire in
  let wireType := wireType_of wire in
  if fieldNum =? 1 then dry_string "Name" data wireType iNdEx
  else if fieldNum =? 2 then dry_scalar "ID" wireType
  else if fieldNum =? 3 then
    dry_message "Type" dry_ColumnType data wireType iNdEx
  else if fieldNum =? 4 then dry_local Int "Nullable" data wireType iNdEx
  else dry_unknown data wire iNdEx.

Definition dry_ColumnDescriptor (data : list byte) : dry unit :=
  dry_loop (dry_with_tag dry_ColumnDescriptor_body) (List.length data) data 0.

Definition dry_IndexDescriptor_body (IDt : ity) (data : list byte)
    (wire iNdEx : Z) : dry Z :=
  let fieldNum := fieldNum_of wire in
  let wireType := wireType_of wire in
  if fieldNum =? 1 then dry_string "Name" data wireType iNdEx
  else if fieldNum =? 2 then dry_scalar "ID" wireType
  else if fieldNum =? 3 then dry_local Int "Unique" data wireType iNdEx
  else if fieldNum =? 4 then dry_string "ColumnNames" data wireType iNdEx
  else if fieldNum =? 5 then dry_local IDt "ColumnIDs" data wireType iNdEx
  else dry_unknown data wire iNdEx.

Definition dry_IndexDescriptor (IDt : ity) (data : list byte) : dry unit :=
  dry_loop (dry_with_tag (dry_IndexDescriptor_body IDt))
    (List.length data) data 0.

Definition dry_PrivilegeDescriptor_body (data : list byte) (wire iNdEx : Z)
  : dry Z :=
  let fieldNum := fieldNum_of wire in
  let wireType := wireType_of wire in
  if fieldNum =? 1 then dry_string "Read" data wireType iNdEx
  else if fieldNum =? 2 then dry_string "Write" data wireType iNdEx
  else dry_unknown data wire iNdEx.

Definition dry_PrivilegeDescriptor (data : list byte) : dry unit :=
  dry_loop (dry_with_tag dry_PrivilegeDescriptor_body)
    (List.length data) data 0.

Definition dry_TableDescriptor_body (IDt : ity) (data : list byte)
    (wire iNdEx : Z) : dry Z :=
  let fieldNum := fieldNum_of wire in
  let wireType := wireType_of wire in
  if fieldNum =? 1 then dry_string "Name" data wireType iNdEx
  else if fieldNum =? 2 then dry_scalar "ID" wireType
  else if fieldNum =? 3 then
    dry_repeated_message "Columns" data wireType iNdEx
  else if fieldNum =? 4 then dry_scalar "NextColumnID" wireType
  else if fieldNum =? 5 then
    dry_message "PrimaryIndex" (dry_IndexDescriptor IDt) data wireType iNdEx
  else if fieldNum =? 6 then
    dry_repeated_message "Indexes" data wireType iNdEx
  else if fieldNum =? 7 then dry_scalar "NextIndexID" wireType
  else if fieldNum =? 8 then
    dry_message "PrivilegeDescriptor" dry_PrivilegeDescriptor
      data wireType iNdEx
  else dry_unknown data wire iNdEx.

Definition dry_TableDescriptor (IDt : ity) (data : list byte) : dry unit :=
  dry_loop (dry_with_tag (dry_TableDescriptor_body IDt))
    (List.length data) data 0.

Definition dry_DatabaseDescriptor_body (data : list byte) (wire iNdEx : Z)
  : dry Z :=
  let fieldNum := fieldNum_of wire in
  let wireType := wireType_of wire in
  if fieldNum =? 1 then dry_string "Name" data wireType iNdEx
  else if fieldNum =? 2 then dry_scalar "ID" wireType
  else if fieldNum =? 3 then
    dry_message "PrivilegeDescriptor" dry_PrivilegeDescriptor
      data wireType iNdEx
  else dry_unknown data wire iNdEx.

Definition dry_DatabaseDescriptor (data : list byte) : dry unit :=
  dry_loop (dry_with_tag dry_DatabaseDescriptor_body)
    (List.length data) data 0.

(** [Unmarshal] of a descriptor of kind [k] up to its first store. *)
Definition dry_Unmarshal (IDt : ity) (k : Descriptor.kind) (data : list byte)
  : dry unit :=
  match k with
  | Descriptor.KColumnType => dry_ColumnType data
  | Descriptor.KColumnDescriptor => dry_ColumnDescriptor data
  | Descriptor.KIndexDescriptor => dry_IndexDescriptor IDt data
  | Descriptor.KPrivilegeDescriptor => dry_PrivilegeDescriptor data
  | Descriptor.KTableDescriptor => dry_TableDescriptor IDt data
  | Descriptor.KDatabaseDescriptor => dry_DatabaseDescriptor data
  end.

(** The number of elements in the repeated fields and of unrecognized
    bytes of a descriptor, those of the messages it holds in place
    included: what the appends of a decoding add to. *)
Definition appended_ColumnType (m : ColumnType.t) : Z :=
  len (ColumnType.XXX_unrecognized m).

Definition appended_ColumnDescriptor (m : ColumnDescriptor.t) : Z :=
  appended_ColumnType (ColumnDescriptor.Type_ m)
  + len (ColumnDescriptor.XXX_unrecognized m).

Definition appended_IndexDescriptor (m : IndexDescriptor.t) : Z :=
  len (IndexDescriptor.ColumnNames m) + len (IndexDescriptor.ColumnIDs m)
  + len (IndexDescriptor.XXX_unrecognized m).

Definition appended_PrivilegeDescriptor (m : PrivilegeDescriptor.t) : Z :=
  len (PrivilegeDescriptor.Read m) + len (PrivilegeDescriptor.Write m)
  + len (PrivilegeDescriptor.XXX_unrecognized m).

Definition appended_TableDescriptor (m : TableDescriptor.t) : Z :=
  len (TableDescriptor.Columns m) + len (TableDescriptor.Indexes m)
  + appended_IndexDescriptor (TableDescriptor.PrimaryIndex m)
  + appended_PrivilegeDescriptor (TableDescriptor.Privileges m)
  + len (TableDescriptor.XXX_unrecognized m).

Definition appended_DatabaseDescriptor (m : DatabaseDescriptor.t) : Z :=
  appended_PrivilegeDescriptor (DatabaseDescriptor.Privileges m)
  + len (DatabaseDescriptor.XXX_unrecognized m).

(** A piece [f] of the decoder that leaves a trace in some receiver: it
    overwrites (two different receivers come out the same), or it appends
    (every receiver comes out longer). *)
Definition leaves_trace {T A : Type} (size : T -> Z) (f : T -> T * res A)
  : Prop :=
  (exists m0 m1, m0 <> m1 /\ f m0 = f m1) \/
  (forall m, size m < size (fst (f m))).

(** ** The table of the end-to-end scenario

    [name="items"], [id=53], columns [a] and [b] of kind INT with ids 1 and
    2, [next_column_id=3], the primary index over both columns,
    [next_index_id=2], and [root] as the only reader and writer. *)

Module Items.

Definition a : list byte := [x61].
Definition b : list byte := [x62].
Definition root : list byte := [x72; x6f; x6f; x74].

Definition column (name : list byte) (id : Z) : ColumnDescriptor.t :=
  ColumnDescriptor.mk name id (ColumnType.mk 1 0 0 []) false [].

Definition primary : IndexDescriptor.t :=
  IndexDescriptor.mk [x70; x72; x69; x6d; x61; x72; x79] 0 true
    [a; b] [1; 2] [].

Definition table : TableDescriptor.t :=
  TableDescriptor.mk [x69; x74; x65; x6d; x73] 53
    [column a 1; column b 2] 3 primary [] 2
    (PrivilegeDescriptor.mk [root] [root] []) [].

(** Field number 99, wire type 0, value 5. *)
Definition field99 : list byte := [x98; x06; x05].

(** A group under field number 98 (wire types 3 and 4) with one member,
    field 1 of value 5. *)
Definition group98 : list byte := [x93; x06; x08; x05; x94; x06].

(** The table as a reader of this schema holds it after decoding bytes
    that a writer with a field 99 produced. *)
Definition upgraded : TableDescriptor.t :=
  TableDescriptor.set_XXX_unrecognized field99 table.

End Items.

(** * Definitions for the further properties *)

(** ** Decoding into a receiver that is not empty *)

(** What [Unmarshal] makes of the receiver [r] when it decodes the wire
    image of [d], a descriptor of the same type: the scalar fields of [d]
    replace those of [r], its repeated fields and unrecognized bytes are
    appended, its nested messages are merged field by field. *)
Definition merge (d r : Descriptor.t) : Descriptor.t :=
  match d, r with
  | Descriptor.OfColumnType d, Descriptor.OfColumnType r =>
      Descriptor.OfColumnType (ColumnType.merge d r)
  | Descriptor.OfColumnDescriptor d, Descriptor.OfColumnDescriptor r =>
      Descriptor.OfColumnDescriptor (ColumnDescriptor.merge d r)
  | Descriptor.OfIndexDescriptor d, Descriptor.OfIndexDescriptor r =>
      Descriptor.OfIndexDescriptor (IndexDescriptor.merge d r)
  | Descriptor.OfPrivilegeDescriptor d, Descriptor.OfPrivilegeDescriptor r =>
      Descriptor.OfPrivilegeDescriptor (PrivilegeDescriptor.merge d r)
  | Descriptor.OfTableDescriptor d, Descriptor.OfTableDescriptor r =>
      Descriptor.OfTableDescriptor (TableDescriptor.merge d r)
  | Descriptor.OfDatabaseDescriptor d, Descriptor.OfDatabaseDescriptor r =>
      Descriptor.OfDatabaseDescriptor (DatabaseDescriptor.merge d r)
  | _, _ => r
  end.

(** [d] with the bytes [u] appended to its unrecognized bytes. *)
Definition capture (u : list byte) (d : Descriptor.t) : Descriptor.t :=
  match d with
  | Descriptor.OfColumnType d => Descriptor.OfColumnType (ColumnType.capture u d)
  | Descriptor.OfColumnDescriptor d =>
      Descriptor.OfColumnDescriptor (ColumnDescriptor.capture u d)
  | Descriptor.OfIndexDescriptor d =>
      Descriptor.OfIndexDescriptor (IndexDescriptor.capture u d)
  | Descriptor.OfPrivilegeDescriptor d =>
      Descriptor.OfPrivilegeDescriptor (PrivilegeDescriptor.capture u d)
  | Descriptor.OfTableDescriptor d =>
      Descriptor.OfTableDescriptor (TableDescriptor.capture u d)
  | Descriptor.OfDatabaseDescriptor d =>
      Descriptor.OfDatabaseDescriptor (DatabaseDescriptor.capture u d)
  end.

(** [zs] is made of the elements of [xs] and of [ys], each list in its
    order. *)
Inductive interleaved {A : Type} : list A -> list A -> list A -> Prop :=
| interleaved_nil : interleaved [] [] []
| interleaved_left (x : A) (xs ys zs : list A) :
    interleaved xs ys zs -> interleaved (x :: xs) ys (x :: zs)
| interleaved_right (y : A) (xs ys zs : list A) :
    interleaved xs ys zs -> interleaved xs (y :: ys) (y :: zs).

(** ** Writes that stay inside the buffer *)

(** A write that, started at an index inside the buffer, never reports an
    error and, when it returns, leaves a buffer of the same length and an
    index between the one it started at and the end of the buffer. *)
Definition within (f : list byte -> Z -> res (list byte * Z)) : Prop :=
  forall data i,
    0 <= i <= len data ->
    match f data i with
    | Ok (data', i') => len data' = len data /\ i <= i' <= len data
    | Fail _ => False
    | _ => True
    end.

(** The same for a [MarshalTo], which starts at index 0. *)
Definition within_buffer (g : list byte -> res (list byte * Z)) : Prop :=
  forall data,
    match g data with
    | Ok (data', n) => len data' = len data /\ 0 <= n <= len data
    | Fail _ => False
    | _ => True
    end.

(** ** Fixed-width values and zig-zag sizes *)

(** [data[offset] = uint8(v); data[offset+1] = uint8(v >> 8); ...;
    data[offset+7] = uint8(v >> 56); return offset + 8] *)
Definition encodeFixed64Structured (data : list byte) (offset v : Z)
  : res (list byte * Z) :=
  data <- store data offset (u8 v) ;;
  data <- store data (iadd offset 1) (u8 (Z.shiftr v 8)) ;;
  data <- store data (iadd offset 2) (u8 (Z.shiftr v 16)) ;;
  data <- store data (iadd offset 3) (u8 (Z.shiftr v 24)) ;;
  data <- store data (iadd offset 4) (u8 (Z.shiftr v 32)) ;;
  data <- store data (iadd offset 5) (u8 (Z.shiftr v 40)) ;;
  data <- store data (iadd offset 6) (u8 (Z.shiftr v 48)) ;;
  data <- store data (iadd offset 7) (u8 (Z.shiftr v 56)) ;;
  Ok (data, iadd offset 8).

(** [data[offset] = uint8(v); ...; data[offset+3] = uint8(v >> 24);
    return offset + 4] *)
Definition encodeFixed32Structured (data : list byte) (offset v : Z)
  : res (list byte * Z) :=
  data <- store data offset (u8 v) ;;
  data <- store data (iadd offset 1) (u8 (Z.shiftr v 8)) ;;
  data <- store data (iadd offset 2) (u8 (Z.shiftr v 16)) ;;
  data <- store data (iadd offset 3) (u8 (Z.shiftr v 24)) ;;
  Ok (data, iadd offset 4).

(** The number that a sequence of bytes holds, least significant byte
    first. *)
Definition le_value (bs : list byte) : Z :=
  fold_right (fun b acc => bv b + 256 * acc) 0 bs.

(** [sovStructured(uint64((x << 1) ^ uint64((int64(x) >> 63))))] on
    [x uint64]; [int64] has the width and the sign of [Int]. *)
Definition sozStructured (x : Z) : Z :=
  sovStructured
    (cast Uint64
       (Z.lxor (cast Uint64 (Z.shiftl x 1))
               (cast Uint64 (Z.shiftr (cast Int x) 63)))).

(** ** The kinds of a column type *)

(** [ColumnType_Kind_name] and [ColumnType_Kind_value], the two maps of the
    enumeration, as the lists of their entries. *)
Definition ColumnType_Kind_name : list (Z * string) :=
  [(0, "BIT"); (1, "INT"); (2, "FLOAT"); (3, "DECIMAL"); (4, "DATE");
   (5, "TIME"); (7, "TIMESTAMP"); (8, "CHAR"); (9, "TEXT"); (10, "BLOB")]%string.

Definition ColumnType_Kind_value : list (string * Z) :=
  [("BIT", 0); ("INT", 1); ("FLOAT", 2); ("DECIMAL", 3); ("DATE", 4);
   ("TIME", 5); ("TIMESTAMP", 7); ("CHAR", 8); ("TEXT", 9); ("BLOB", 10)]%string.

(** [ColumnType_Kind_name[k]] and [ColumnType_Kind_value[s]], with [None]
    for a key that is not in the map. *)
Definition kind_name (k : Z) : option string :=
  option_map snd (find (fun e => fst e =? k) ColumnType_Kind_name).

Definition kind_value (s : string) : option Z :=
  option_map snd (find (fun e => String.eqb (fst e) s) ColumnType_Kind_value).

(** * Proofs *)

Lemma bv_range (b : byte) : 0 <= bv b < 256.
Proof.
  unfold bv. pose proof (Byte.to_N_bounded b). lia.
Qed.

Lemma bv_u8 (z : Z) : bv (u8 z) = z mod 256.
Proof.
  unfold bv, u8.
  assert (H : 0 <= z mod 256 < 256) by (apply Z.mod_pos_bound; lia).
  destruct (Byte.of_N (Z.to_N (z mod 256))) as [b|] eqn:E.
  - apply Byte.to_of_N in E. rewrite E. lia.
  - apply Byte.of_N_None_iff in E. lia.
Qed.

Lemma u8_bv (b : byte) : u8 (bv b) = b.
Proof.
  unfold u8. pose proof (bv_range b) as H.
  rewrite Z.mod_small by lia. unfold bv. rewrite N2Z.id, Byte.of_to_N. reflexivity.
Qed.

Lemma bv_u8_small (z : Z) : 0 <= z < 256 -> bv (u8 z) = z.
Proof. intros H. rewrite bv_u8. apply Z.mod_small. lia. Qed.

Lemma bits_pos (t : ity) : 0 < bits t.
Proof. destruct t; cbn; lia. Qed.

Lemma testbit_neg_high (x k n : Z) :
  0 <= k -> - 2 ^ k <= x < 0 -> k <= n -> Z.testbit x n = true.
Proof.
  intros Hk Hx Hn.
  destruct (Z.eq_dec x (-1)) as [E|E].
  - subst. apply Z.bits_m1. lia.
  - apply Z.bits_above_log2_neg; [lia|].
    apply Z.lt_le_trans with k; [|lia].
    apply Z.log2_lt_pow2; lia.
Qed.

Lemma testbit_top (r w : Z) :
  0 < w -> 0 <= r < 2 ^ w -> Z.testbit r (w - 1) = (2 ^ (w - 1) <=? r).
Proof.
  intros Hw Hr.
  assert (E : 2 ^ w = 2 * 2 ^ (w - 1)).
  { replace w with (Z.succ (w - 1)) at 1 by lia. apply Z.pow_succ_r. lia. }
  assert (P : 0 < 2 ^ (w - 1)) by (apply Z.pow_pos_nonneg; lia).
  destruct (Z.leb_spec (2 ^ (w - 1)) r).
  - apply Z.testbit_true; [lia|].
    assert (r / 2 ^ (w - 1) = 1).
    { symmetry. apply Z.div_unique with (r - 2 ^ (w - 1)); lia. }
    rewrite H0. reflexivity.
  - destruct (Z.eq_dec r 0) as [->|Hnz]; [apply Z.bits_0|].
    apply Z.bits_above_log2; [lia|].
    apply Z.log2_lt_pow2; lia.
Qed.

Lemma cast_testbit (t : ity) (x n : Z) :
  0 <= n ->
  Z.testbit (cast t x) n =
  if n <? bits t then Z.testbit x n else signed t && Z.testbit x (bits t - 1).
Proof.
  intros Hn. unfold cast.
  pose proof (bits_pos t) as Hw.
  set (w := bits t) in *.
  assert (Hr : 0 <= x mod 2 ^ w < 2 ^ w) by (apply Z.mod_pos_bound; apply Z.pow_pos_nonneg; lia).
  assert (Htop : Z.testbit x (w - 1) = (2 ^ (w - 1) <=? x mod 2 ^ w)).
  { rewrite <- testbit_top by lia. rewrite Z.testbit_mod_pow2 by lia.
    destruct (Z.ltb_spec (w - 1) w); [reflexivity|lia]. }
  assert (E : 2 ^ w = 2 * 2 ^ (w - 1)).
  { replace w with (Z.succ (w - 1)) at 1 by lia. apply Z.pow_succ_r. lia. }
  destruct (signed t); cbn [andb].
  - rewrite Htop.
    destruct (Z.leb_spec (2 ^ (w - 1)) (x mod 2 ^ w)) as [H|H].
    + destruct (Z.ltb_spec n w) as [L|L].
      * rewrite <- (Z.mod_pow2_bits_low (x mod 2 ^ w - 2 ^ w) w n) by lia.
        replace (x mod 2 ^ w - 2 ^ w) with (x mod 2 ^ w + (-1) * 2 ^ w) by lia.
        rewrite Z.mod_add by lia. rewrite Z.mod_mod by lia.
        apply Z.mod_pow2_bits_low. lia.
      * apply testbit_neg_high with (w - 1); lia.
    + rewrite Z.testbit_mod_pow2 by lia.
      destruct (Z.ltb_spec n w); [reflexivity|].
      cbn. reflexivity.
  - rewrite Z.testbit_mod_pow2 by lia.
    destruct (Z.ltb_spec n w); reflexivity.
Qed.

Lemma cast_lor (t : ity) (a b : Z) :
  cast t (Z.lor a b) = Z.lor (cast t a) (cast t b).
Proof.
  apply Z.bits_inj'. intros n Hn.
  rewrite Z.lor_spec, !cast_testbit by assumption.
  destruct (n <? bits t); rewrite ?Z.lor_spec; [reflexivity|].
  destruct (signed t); reflexivity.
Qed.

Lemma in_range_bounds (t : ity) (x : Z) :
  in_range t x <->
  (if signed t then - 2 ^ (bits t - 1) <= x < 2 ^ (bits t - 1) else 0 <= x < 2 ^ bits t).
Proof. reflexivity. Qed.

Lemma cast_id (t : ity) (x : Z) : in_range t x -> cast t x = x.
Proof.
  unfold in_range, cast. destruct t; cbn; intros H;
    try match goal with |- context [?c <=? ?d] => destruct (Z.leb_spec c d) end;
    Z.to_euclidean_division_equations; lia.
Qed.

Lemma cast_in_range (t : ity) (x : Z) : in_range t (cast t x).
Proof.
  unfold in_range, cast.
  assert (H : 0 <= x mod 2 ^ bits t < 2 ^ bits t)
    by (apply Z.mod_pos_bound; destruct t; cbn; lia).
  destruct t; cbn in *.
  all: try lia.
  all: match goal with |- context [?c <=? ?d] => destruct (Z.leb_spec c d); lia end.
Qed.

(** Converting to [uint64] first does not change a conversion to [t]. *)
Lemma cast_uint64_back (t : ity) (x : Z) :
  cast t (cast Uint64 x) = cast t x.
Proof.
  apply Z.bits_inj'. intros n Hn.
  destruct t; rewrite !cast_testbit by (cbn; lia); cbn [bits signed andb];
    repeat match goal with
           | |- context [?a <? ?b] => destruct (Z.ltb_spec a b); try lia
           end; reflexivity.
Qed.

Lemma split_lor (v s : Z) :
  0 <= s ->
  Z.lor (Z.shiftl (Z.land v 0x7F) s) (Z.shiftl (Z.shiftr v 7) (s + 7)) = Z.shiftl v s.
Proof.
  intros Hs. apply Z.bits_inj'. intros n Hn.
  rewrite Z.lor_spec, !Z.shiftl_spec by lia.
  destruct (Z.ltb_spec (n - s) 0) as [L|L].
  - rewrite !Z.testbit_neg_r by lia. reflexivity.
  - rewrite Z.land_spec.
    change 127 with (Z.ones 7). rewrite Z.testbit_ones_nonneg by lia.
    destruct (Z.ltb_spec (n - s) 7) as [M|M].
    + rewrite (Z.testbit_neg_r _ (n - (s + 7))) by lia.
      rewrite andb_true_r, orb_false_r. reflexivity.
    + rewrite Z.shiftr_spec by lia. rewrite andb_false_r. cbn.
      f_equal. lia.
Qed.

Lemma len_app {A} (a b : list A) : len (a ++ b) = len a + len b.
Proof. unfold len. rewrite length_app. lia. Qed.

Lemma len_cons {A} (x : A) (l : list A) : len (x :: l) = 1 + len l.
Proof. unfold len. cbn [List.length]. lia. Qed.

Lemma len_nil {A} : len (@nil A) = 0.
Proof. reflexivity. Qed.

Lemma len_nonneg {A} (l : list A) : 0 <= len l.
Proof. unfold len. lia. Qed.

Lemma pow7_succ (n : nat) : 2 ^ (7 * Z.of_nat (S n)) = 128 * 2 ^ (7 * Z.of_nat n).
Proof.
  replace (7 * Z.of_nat (S n)) with (7 + 7 * Z.of_nat n) by lia.
  rewrite Z.pow_add_r by lia. reflexivity.
Qed.

Lemma shiftr7_bound (n : nat) (v : Z) :
  0 <= v < 2 ^ (7 * Z.of_nat (S n)) ->
  0 <= Z.shiftr v 7 < 2 ^ (7 * Z.of_nat n).
Proof.
  intros H. rewrite pow7_succ in H. rewrite Z.shiftr_div_pow2 by lia.
  change (2 ^ 7) with 128. split.
  - apply Z.div_pos; lia.
  - apply Z.div_lt_upper_bound; lia.
Qed.

Lemma shiftr7_zero (v : Z) : 0 <= v -> (Z.shiftr v 7 =? 0) = negb (128 <=? v).
Proof.
  intros H. rewrite Z.shiftr_div_pow2 by lia. change (2 ^ 7) with 128.
  destruct (Z.leb_spec 128 v); cbn.
  - apply Z.eqb_neq. intros E.
    assert (1 <= v / 128) by (apply Z.div_le_lower_bound; lia). lia.
  - apply Z.eqb_eq. apply Z.div_small. lia.
Qed.

Lemma low7_cont (v : Z) : 0 <= Z.lor (Z.land v 0x7f) 0x80 < 256.
Proof.
  assert (H : 0 <= Z.land v 127 < 128).
  { change 127 with (Z.ones 7). rewrite Z.land_ones by lia. apply Z.mod_pos_bound. lia. }
  assert (E : Z.lor (Z.land v 127) 128 = Z.land v 127 + 128).
  { rewrite <- Z.lxor_lor, <- Z.add_nocarry_lxor; try reflexivity.
    all: apply Z.bits_inj'; intros n Hn; rewrite !Z.land_spec, Z.bits_0;
      change 127 with (Z.ones 7); change 128 with (2 ^ 7);
      rewrite Z.testbit_ones_nonneg by lia; rewrite Z.pow2_bits_eqb by lia;
      destruct (Z.ltb_spec n 7), (Z.eqb_spec 7 n); try lia;
      rewrite ?andb_false_r; reflexivity. }
  rewrite E. lia.
Qed.

Lemma low7_cont_val (v : Z) :
  bv (u8 (Z.lor (Z.land v 0x7f) 0x80)) = Z.land v 0x7f + 128.
Proof.
  rewrite bv_u8_small by apply low7_cont.
  rewrite <- Z.lxor_lor, <- Z.add_nocarry_lxor; try reflexivity.
  all: apply Z.bits_inj'; intros n Hn; rewrite !Z.land_spec, Z.bits_0;
      change 127 with (Z.ones 7); change 128 with (2 ^ 7);
      rewrite Z.testbit_ones_nonneg by lia; rewrite Z.pow2_bits_eqb by lia;
      destruct (Z.ltb_spec n 7), (Z.eqb_spec 7 n); try lia;
      rewrite ?andb_false_r; reflexivity.
Qed.

Lemma land127_range (v : Z) : 0 <= Z.land v 0x7f < 128.
Proof.
  change 127 with (Z.ones 7). rewrite Z.land_ones by lia. apply Z.mod_pos_bound. lia.
Qed.

Lemma land127_add128 (x : Z) : 0 <= x < 128 -> Z.land (x + 128) 0x7f = x.
Proof.
  intros H. change 127 with (Z.ones 7). rewrite Z.land_ones by lia.
  change (2 ^ 7) with 128.
  replace (x + 128) with (x + 1 * 128) by lia. rewrite Z.mod_add by lia.
  apply Z.mod_small. lia.
Qed.

Lemma land127_small (x : Z) : 0 <= x < 128 -> Z.land x 0x7f = x.
Proof.
  intros H. change 127 with (Z.ones 7). rewrite Z.land_ones by lia.
  apply Z.mod_small. cbn. lia.
Qed.

Lemma cast_byte (t : ity) (x : Z) : 0 <= x < 256 -> cast t x = x.
Proof. intros H. apply cast_id. unfold in_range. destruct t; cbn; lia. Qed.

(** Decoding the varint of [v] at type [t] yields [v] converted to [t]. *)
Lemma varint_loop_bytes (t : ity) (n : nat) :
  forall v post i s acc,
    0 <= v < 2 ^ (7 * Z.of_nat (S n)) -> 0 <= s ->
    varint_loop t (varint_bytes_fuel (S n) v ++ post) i s acc =
    (Z.lor acc (cast t (Z.shiftl v s)), Ok (i + len (varint_bytes_fuel (S n) v))).
Proof.
  induction n as [|n IH]; intros v post i s acc Hv Hs.
  - cbn [varint_bytes_fuel]. change (2 ^ (7 * Z.of_nat 1)) with 128 in Hv.
    destruct (Z.leb_spec 128 v); [lia|].
    cbn [app varint_loop].
    rewrite bv_u8_small by lia. rewrite (cast_byte t v) by lia.
    rewrite land127_small by lia.
    destruct (Z.ltb_spec v 128); [|lia]. reflexivity.
  - remember (S n) as k. cbn [varint_bytes_fuel].
    destruct (Z.leb_spec 128 v) as [G|G].
    + cbn [app varint_loop]. rewrite low7_cont_val.
      pose proof (land127_range v) as R.
      rewrite (cast_byte t (Z.land v 127 + 128)) by lia. rewrite land127_add128 by lia.
      destruct (Z.ltb_spec (Z.land v 127 + 128) 128); [lia|].
      subst k. rewrite IH by (try apply shiftr7_bound; lia).
      rewrite <- Z.lor_assoc, <- cast_lor, split_lor by lia.
      rewrite len_cons. f_equal. f_equal. lia.
    + cbn [app varint_loop].
      rewrite bv_u8_small by lia. rewrite (cast_byte t v) by lia.
      rewrite land127_small by lia.
      destruct (Z.ltb_spec v 128); [|lia]. reflexivity.
Qed.

(** A varint cut short is a truncation error. *)
Lemma varint_loop_cut (t : ity) (n : nat) :
  forall v j i s acc,
    0 <= v < 2 ^ (7 * Z.of_nat (S n)) ->
    (j < List.length (varint_bytes_fuel (S n) v))%nat ->
    snd (varint_loop t (firstn j (varint_bytes_fuel (S n) v)) i s acc)
    = Fail ErrUnexpectedEOF.
Proof.
  induction n as [|n IH]; intros v j i s acc Hv Hj.
  - cbn [varint_bytes_fuel] in *.
    destruct (128 <=? v); cbn [List.length] in Hj;
      destruct j; try lia; reflexivity.
  - remember (S n) as k. cbn [varint_bytes_fuel] in *.
    destruct (Z.leb_spec 128 v) as [G|G].
    + destruct j as [|j]; [reflexivity|].
      cbn [firstn varint_loop]. rewrite low7_cont_val.
      pose proof (land127_range v) as R.
      destruct (Z.ltb_spec (Z.land v 127 + 128) 128); [lia|].
      subst k. apply IH; [apply shiftr7_bound; lia|].
      cbn [List.length] in Hj. lia.
    + cbn [List.length] in Hj. destruct j; [reflexivity|lia].
Qed.

Lemma varint_bytes_fuel_len (n : nat) :
  forall v k, 0 <= v < 2 ^ (7 * Z.of_nat (S n)) ->
    sov_loop (S n) k v = k + len (varint_bytes_fuel (S n) v).
Proof.
  induction n as [|n IH]; intros v k Hv.
  - cbn [varint_bytes_fuel sov_loop].
    change (2 ^ (7 * Z.of_nat 1)) with 128 in Hv.
    rewrite shiftr7_zero by lia.
    destruct (Z.leb_spec 128 v); [lia|]. reflexivity.
  - remember (S n) as j. cbn [varint_bytes_fuel sov_loop].
    rewrite shiftr7_zero by lia.
    destruct (Z.leb_spec 128 v); cbn [negb].
    + subst j. rewrite IH by (apply shiftr7_bound; lia).
      rewrite len_cons. lia.
    + reflexivity.
Qed.

Lemma varint_bytes_fuel_bound (n : nat) :
  forall v, 1 <= len (varint_bytes_fuel (S n) v) <= Z.of_nat (S n).
Proof.
  induction n as [|n IH]; intros v.
  - cbn [varint_bytes_fuel]. destruct (128 <=? v); cbn; lia.
  - remember (S n) as j. cbn [varint_bytes_fuel].
    destruct (128 <=? v).
    + rewrite len_cons. subst j. specialize (IH (Z.shiftr v 7)). lia.
    + cbn. lia.
Qed.

Lemma uint64_fuel (v : Z) : 0 <= v < 2 ^ 64 -> 0 <= v < 2 ^ (7 * Z.of_nat 10).
Proof. intros H. change (2 ^ (7 * Z.of_nat 10)) with (2 ^ 70). 
  assert (2 ^ 64 < 2 ^ 70) by (apply Z.pow_lt_mono_r; lia). lia. Qed.

Lemma cast_uint64_range (x : Z) : 0 <= cast Uint64 x < 2 ^ 64.
Proof. exact (cast_in_range Uint64 x). Qed.

Lemma sovStructured_len (v : Z) :
  0 <= v < 2 ^ 64 -> sovStructured v = len (varint_bytes v).
Proof.
  intros H. unfold sovStructured, varint_bytes.
  rewrite varint_bytes_fuel_len by (apply uint64_fuel; assumption). lia.
Qed.

Lemma varint_bytes_bound (v : Z) : 1 <= len (varint_bytes v) <= 10.
Proof. apply (varint_bytes_fuel_bound 9). Qed.

(** ** Reading inside a buffer *)

Lemma skipn_len_app {A} (pre rest : list A) :
  skipn (Z.to_nat (len pre)) (pre ++ rest) = rest.
Proof.
  unfold len. rewrite Nat2Z.id.
  rewrite skipn_app, skipn_all, Nat.sub_diag. reflexivity.
Qed.

Lemma firstn_len_app {A} (pre rest : list A) :
  firstn (Z.to_nat (len pre)) (pre ++ rest) = pre.
Proof.
  unfold len. rewrite Nat2Z.id.
  rewrite firstn_app, firstn_all, Nat.sub_diag. cbn. apply app_nil_r.
Qed.

Lemma slice_at (data a mid b : list byte) (lo hi : Z) :
  data = a ++ mid ++ b -> lo = len a -> hi = lo + len mid ->
  slice data lo hi = Some mid.
Proof.
  intros -> -> ->. unfold slice.
  pose proof (len_nonneg a). pose proof (len_nonneg mid). pose proof (len_nonneg b).
  rewrite !len_app.
  destruct (Z.leb_spec 0 (len a)); [|lia].
  destruct (Z.leb_spec (len a) (len a + len mid)); [|lia].
  destruct (Z.leb_spec (len a + len mid) (len a + (len mid + len b))); [|lia].
  cbn [andb]. rewrite skipn_len_app.
  replace (len a + len mid - len a) with (len mid) by lia.
  rewrite firstn_len_app. reflexivity.
Qed.

Lemma slice_from_at (data a b : list byte) (lo : Z) :
  data = a ++ b -> lo = len a -> slice_from data lo = Some b.
Proof.
  intros -> ->. unfold slice_from.
  apply slice_at with (a := a) (b := []).
  - rewrite app_nil_r. reflexivity.
  - reflexivity.
  - rewrite len_app. lia.
Qed.

Lemma read_varint_at (t : ity) (data pre post : list byte) (v i : Z) :
  data = pre ++ varint_bytes v ++ post -> i = len pre -> 0 <= v < 2 ^ 64 ->
  read_varint t data i = (cast t v, Ok (i + len (varint_bytes v))).
Proof.
  intros -> -> Hv. unfold read_varint.
  pose proof (len_nonneg pre).
  destruct (Z.ltb_spec (len pre) 0); [lia|].
  rewrite skipn_len_app. unfold varint_bytes.
  rewrite varint_loop_bytes by (try apply uint64_fuel; lia).
  rewrite Z.shiftl_0_r, Z.lor_0_l. reflexivity.
Qed.

Lemma read_local_at (t : ity) (data pre post : list byte) (v i : Z) :
  data = pre ++ varint_bytes v ++ post -> i = len pre -> 0 <= v < 2 ^ 64 ->
  read_local t data i = Ok (cast t v, i + len (varint_bytes v)).
Proof.
  intros Hd Hi Hv. unfold read_local.
  rewrite (read_varint_at t data pre post v i Hd Hi Hv). reflexivity.
Qed.

Lemma read_varint_cut (t : ity) (data pre : list byte) (v i : Z) (j : nat) :
  data = pre ++ firstn j (varint_bytes v) -> i = len pre -> 0 <= v < 2 ^ 64 ->
  (j < List.length (varint_bytes v))%nat ->
  snd (read_varint t data i) = Fail ErrUnexpectedEOF.
Proof.
  intros -> -> Hv Hj. unfold read_varint.
  pose proof (len_nonneg pre).
  destruct (Z.ltb_spec (len pre) 0); [lia|].
  rewrite skipn_len_app. unfold varint_bytes in *.
  apply varint_loop_cut; [apply uint64_fuel; lia|assumption].
Qed.

Lemma read_local_cut (t : ity) (data pre : list byte) (v i : Z) (j : nat) :
  data = pre ++ firstn j (varint_bytes v) -> i = len pre -> 0 <= v < 2 ^ 64 ->
  (j < List.length (varint_bytes v))%nat ->
  read_local t data i = Fail ErrUnexpectedEOF.
Proof.
  intros Hd Hi Hv Hj. unfold read_local.
  pose proof (read_varint_cut t data pre v i j Hd Hi Hv Hj) as E.
  destruct (read_varint t data i) as [x r]. cbn in E. subst r. reflexivity.
Qed.

(** Reading at the very end of the buffer. *)
Lemma read_local_end (t : ity) (data : list byte) (i : Z) :
  i = len data -> read_local t data i = Fail ErrUnexpectedEOF.
Proof.
  intros ->. unfold read_local, read_varint.
  pose proof (len_nonneg data).
  destruct (Z.ltb_spec (len data) 0); [lia|].
  replace data with (data ++ []) at 2 by apply app_nil_r.
  rewrite skipn_len_app. reflexivity.
Qed.

Lemma read_varint_end (t : ity) (data : list byte) (i : Z) :
  i = len data -> snd (read_varint t data i) = Fail ErrUnexpectedEOF.
Proof.
  intros ->. unfold read_varint.
  pose proof (len_nonneg data).
  destruct (Z.ltb_spec (len data) 0); [lia|].
  replace data with (data ++ []) at 2 by apply app_nil_r.
  rewrite skipn_len_app. reflexivity.
Qed.

Lemma varint_bytes_tag (tag : Z) :
  0 <= tag < 128 -> varint_bytes tag = [u8 tag].
Proof.
  intros H. unfold varint_bytes. cbn [varint_bytes_fuel].
  destruct (Z.leb_spec 128 tag); [lia|reflexivity].
Qed.

Lemma cast_small_nonneg (t : ity) (x : Z) : 0 <= x < 2 ^ 31 -> cast t x = x.
Proof.
  intros H. apply cast_id. unfold in_range.
  destruct t; cbn; lia.
Qed.

Lemma cast_int_id (x : Z) : - 2 ^ 63 <= x < 2 ^ 63 -> cast Int x = x.
Proof. intros H. apply cast_id. exact H. Qed.

Lemma cast_uint64_id (x : Z) : 0 <= x < 2 ^ 64 -> cast Uint64 x = x.
Proof. intros H. apply cast_id. exact H. Qed.

Lemma iadd_id (a b : Z) : - 2 ^ 63 <= a + b < 2 ^ 63 -> iadd a b = a + b.
Proof. apply cast_int_id. Qed.

(** ** The tag *)

Lemma with_tag_at {T} (body : T -> list byte -> Z -> Z -> T * res Z)
    (m : T) (data pre rest : list byte) (tag i : Z) :
  data = pre ++ u8 tag :: rest -> i = len pre -> 0 <= tag < 128 ->
  with_tag body m data i = body m data tag (i + 1).
Proof.
  intros Hd Hi Ht. unfold with_tag.
  rewrite (read_local_at Uint64 data pre rest tag i).
  - rewrite cast_uint64_id by lia. rewrite varint_bytes_tag by lia. reflexivity.
  - rewrite varint_bytes_tag by lia. exact Hd.
  - exact Hi.
  - lia.
Qed.

Lemma with_tag_end {T} (body : T -> list byte -> Z -> Z -> T * res Z)
    (m : T) (data : list byte) (i : Z) :
  i = len data -> with_tag body m data i = (m, Fail ErrUnexpectedEOF).
Proof.
  intros Hi. unfold with_tag. rewrite read_local_end by assumption. reflexivity.
Qed.

(** ** Fields in place *)

Lemma scalar_field_at {T} (t : ity) (name : string) (set : Z -> T -> T)
    (m : T) (data pre post : list byte) (v i : Z) :
  data = pre ++ varint_bytes v ++ post -> i = len pre -> 0 <= v < 2 ^ 64 ->
  scalar_field t name set m data 0 i
  = (set (cast t v) m, Ok (i + len (varint_bytes v))).
Proof.
  intros Hd Hi Hv. unfold scalar_field. cbn [Z.eqb negb].
  rewrite (read_varint_at t data pre post v i Hd Hi Hv). reflexivity.
Qed.

Lemma scalar_field_cut {T} (t : ity) (name : string) (set : Z -> T -> T)
    (m : T) (data pre : list byte) (v i : Z) (j : nat) :
  data = pre ++ firstn j (varint_bytes v) -> i = len pre -> 0 <= v < 2 ^ 64 ->
  (j < List.length (varint_bytes v))%nat ->
  snd (scalar_field t name set m data 0 i) = Fail ErrUnexpectedEOF.
Proof.
  intros Hd Hi Hv Hj. unfold scalar_field. cbn [Z.eqb negb].
  pose proof (read_varint_cut t data pre v i j Hd Hi Hv Hj) as E.
  destruct (read_varint t data i) as [x r]. exact E.
Qed.

Lemma read_string_at (name : string) (data pre s post : list byte) (i : Z) :
  data = pre ++ varint_bytes (len s) ++ s ++ post -> i = len pre ->
  len data < 2 ^ 63 ->
  read_string name data 2 i = Ok (s, i + len (varint_bytes (len s)) + len s).
Proof.
  intros Hd Hi Hl. unfold read_string. cbn [Z.eqb negb].
  pose proof (len_nonneg pre). pose proof (len_nonneg s). pose proof (len_nonneg post).
  pose proof (varint_bytes_bound (len s)).
  assert (L : len data = len pre + (len (varint_bytes (len s)) + (len s + len post)))
    by (rewrite Hd, !len_app; reflexivity).
  assert (2 ^ 63 < 2 ^ 64) by (apply Z.pow_lt_mono_r; lia).
  rewrite (read_local_at Uint64 data pre (s ++ post) (len s) i Hd Hi) by lia.
  cbn [bind]. rewrite (cast_uint64_id (len s)) by lia.
  rewrite (cast_int_id (len s)) by lia.
  rewrite iadd_id by lia.
  destruct (Z.ltb_spec (len data) (i + len (varint_bytes (len s)) + len s)); [lia|].
  rewrite (slice_at data (pre ++ varint_bytes (len s)) s post).
  - reflexivity.
  - rewrite Hd, <- !app_assoc. reflexivity.
  - rewrite len_app. lia.
  - reflexivity.
Qed.

Lemma read_message_at (name : string) (data pre s post : list byte) (i : Z) :
  data = pre ++ varint_bytes (len s) ++ s ++ post -> i = len pre ->
  len data < 2 ^ 63 ->
  read_message name data 2 i = Ok (s, i + len (varint_bytes (len s)) + len s).
Proof.
  intros Hd Hi Hl. unfold read_message. cbn [Z.eqb negb].
  pose proof (len_nonneg pre). pose proof (len_nonneg s). pose proof (len_nonneg post).
  pose proof (varint_bytes_bound (len s)).
  assert (L : len data = len pre + (len (varint_bytes (len s)) + (len s + len post)))
    by (rewrite Hd, !len_app; reflexivity).
  assert (2 ^ 63 < 2 ^ 64) by (apply Z.pow_lt_mono_r; lia).
  rewrite (read_local_at Int data pre (s ++ post) (len s) i Hd Hi) by lia.
  cbn [bind]. rewrite (cast_int_id (len s)) by lia.
  rewrite iadd_id by lia.
  destruct (Z.ltb_spec (len s) 0); [lia|].
  destruct (Z.ltb_spec (len data) (i + len (varint_bytes (len s)) + len s)); [lia|].
  rewrite (slice_at data (pre ++ varint_bytes (len s)) s post).
  - reflexivity.
  - rewrite Hd, <- !app_assoc. reflexivity.
  - rewrite len_app. lia.
  - reflexivity.
Qed.

(** A length-delimited payload cut short: inside the length prefix the
    varint loop meets the end of the buffer, inside the body the announced
    end lies beyond it. *)
Lemma firstn_app_cases {A} (j : nat) (a b : list A) :
  (j < List.length a /\ firstn j (a ++ b) = firstn j a)%nat \/
  (List.length a <= j /\ firstn j (a ++ b) = a ++ firstn (j - List.length a) b)%nat.
Proof.
  rewrite firstn_app.
  destruct (Nat.lt_ge_cases j (List.length a)) as [H|H].
  - left. split; [assumption|].
    replace (j - List.length a)%nat with 0%nat by lia. cbn. apply app_nil_r.
  - right. split; [assumption|]. rewrite firstn_all2 by assumption. reflexivity.
Qed.

Lemma len_firstn {A} (j : nat) (s : list A) :
  len (firstn j s) = Z.of_nat (Nat.min j (List.length s)).
Proof. unfold len. rewrite length_firstn. reflexivity. Qed.

Lemma len_firstn_lt {A} (j : nat) (s : list A) :
  (j < List.length s)%nat -> len (firstn j s) < len s.
Proof. intros H. unfold len. rewrite length_firstn. lia. Qed.

Lemma len_firstn_le {A} (j : nat) (s : list A) : len (firstn j s) <= len s.
Proof. unfold len. rewrite length_firstn. lia. Qed.

Lemma read_string_cut (name : string) (data pre s : list byte) (i : Z) (j : nat) :
  data = pre ++ firstn j (varint_bytes (len s) ++ s) -> i = len pre ->
  len pre + len (varint_bytes (len s)) + len s < 2 ^ 63 ->
  (j < List.length (varint_bytes (len s) ++ s))%nat ->
  read_string name data 2 i = Fail ErrUnexpectedEOF.
Proof.
  intros Hd Hi Hl Hj. unfold read_string. cbn [Z.eqb negb].
  pose proof (len_nonneg pre). pose proof (len_nonneg s).
  pose proof (varint_bytes_bound (len s)).
  assert (2 ^ 63 < 2 ^ 64) by (apply Z.pow_lt_mono_r; lia).
  destruct (firstn_app_cases j (varint_bytes (len s)) s) as [[Hlt E]|[Hge E]];
    rewrite E in Hd.
  - rewrite (read_local_cut Uint64 data pre (len s) i j Hd Hi) by (assumption || lia).
    reflexivity.
  - rewrite (read_local_at Uint64 data pre _ (len s) i Hd Hi) by lia.
    cbn [bind]. rewrite (cast_uint64_id (len s)) by lia.
    rewrite (cast_int_id (len s)) by lia.
    rewrite iadd_id by lia.
    rewrite length_app in Hj.
    assert (len (firstn (j - List.length (varint_bytes (len s))) s) < len s)
      by (apply len_firstn_lt; lia).
    assert (L : len data = len pre + (len (varint_bytes (len s))
                + len (firstn (j - List.length (varint_bytes (len s))) s)))
      by (rewrite Hd, !len_app; reflexivity).
    destruct (Z.ltb_spec (len data) (i + len (varint_bytes (len s)) + len s)); [|lia].
    reflexivity.
Qed.

Lemma read_message_cut (name : string) (data pre s : list byte) (i : Z) (j : nat) :
  data = pre ++ firstn j (varint_bytes (len s) ++ s) -> i = len pre ->
  len pre + len (varint_bytes (len s)) + len s < 2 ^ 63 ->
  (j < List.length (varint_bytes (len s) ++ s))%nat ->
  read_message name data 2 i = Fail ErrUnexpectedEOF.
Proof.
  intros Hd Hi Hl Hj. unfold read_message. cbn [Z.eqb negb].
  pose proof (len_nonneg pre). pose proof (len_nonneg s).
  pose proof (varint_bytes_bound (len s)).
  assert (2 ^ 63 < 2 ^ 64) by (apply Z.pow_lt_mono_r; lia).
  destruct (firstn_app_cases j (varint_bytes (len s)) s) as [[Hlt E]|[Hge E]];
    rewrite E in Hd.
  - rewrite (read_local_cut Int data pre (len s) i j Hd Hi) by (assumption || lia).
    reflexivity.
  - rewrite (read_local_at Int data pre _ (len s) i Hd Hi) by lia.
    cbn [bind]. rewrite (cast_int_id (len s)) by lia.
    rewrite iadd_id by lia.
    rewrite length_app in Hj.
    assert (len (firstn (j - List.length (varint_bytes (len s))) s) < len s)
      by (apply len_firstn_lt; lia).
    assert (L : len data = len pre + (len (varint_bytes (len s))
                + len (firstn (j - List.length (varint_bytes (len s))) s)))
      by (rewrite Hd, !len_app; reflexivity).
    destruct (Z.ltb_spec (len s) 0); [lia|].
    destruct (Z.ltb_spec (len data) (i + len (varint_bytes (len s)) + len s)); [|lia].
    reflexivity.
Qed.

(** ** The decoding loop over a list of fields *)

Section Loop.
Context {T : Type} (step : T -> list byte -> Z -> T * res Z).

Lemma loop_end (fuel : nat) (m : T) (data : list byte) (i : Z) :
  len data <= i -> unmarshal_loop step fuel m data i = (m, Ok tt).
Proof.
  intros H. destruct fuel; cbn [unmarshal_loop];
    destruct (Z.ltb_spec i (len data)); try lia; reflexivity.
Qed.

Lemma loop_step (fuel : nat) (m m' : T) (data : list byte) (i i' : Z) :
  i < len data -> step m data i = (m', Ok i') ->
  unmarshal_loop step (S fuel) m data i = unmarshal_loop step fuel m' data i'.
Proof.
  intros H E. cbn [unmarshal_loop].
  destruct (Z.ltb_spec i (len data)); [|lia]. rewrite E. reflexivity.
Qed.

Lemma loop_fail (fuel : nat) (m : T) (data : list byte) (i : Z) (e : error) :
  i < len data -> snd (step m data i) = Fail e ->
  snd (unmarshal_loop step (S fuel) m data i) = Fail e.
Proof.
  intros H E. cbn [unmarshal_loop].
  destruct (Z.ltb_spec i (len data)); [|lia].
  destruct (step m data i) as [m' r]. cbn in E. subst r. reflexivity.
Qed.

Lemma len_pos_nonnil {A} (f : list A) : f <> [] -> 0 < len f.
Proof. destruct f; [congruence|]. intros _. rewrite len_cons. pose proof (len_nonneg f). lia. Qed.

Lemma loop_fields (fs : list (list byte)) (upds : list (T -> T)) :
  Forall2 (field_ok step) fs upds ->
  forall fuel m pre post,
    (List.length fs <= fuel)%nat ->
    len (pre ++ concat fs ++ post) < 2 ^ 63 ->
    unmarshal_loop step fuel m (pre ++ concat fs ++ post) (len pre)
    = unmarshal_loop step (fuel - List.length fs) (apply_all upds m)
        (pre ++ concat fs ++ post) (len pre + len (concat fs)).
Proof.
  induction 1 as [|f upd fs upds [Hne Hf] _ IH]; intros fuel m pre post Hfuel Hlen.
  - cbn [concat List.length apply_all fold_left].
    rewrite Nat.sub_0_r, len_nil, Z.add_0_r. reflexivity.
  - cbn [List.length concat apply_all fold_left] in *.
    destruct fuel as [|fuel]; [lia|].
    pose proof (len_pos_nonnil f Hne) as Hpos.
    pose proof (len_nonneg post). pose proof (len_nonneg (concat fs)).
    assert (E : pre ++ (f ++ concat fs) ++ post = pre ++ f ++ (concat fs ++ post))
      by (rewrite <- !app_assoc; reflexivity).
    rewrite (loop_step fuel m (upd m) _ (len pre) (len pre + len f)).
    + replace (len pre + len f) with (len (pre ++ f)) by apply len_app.
      assert (E' : pre ++ (f ++ concat fs) ++ post = (pre ++ f) ++ concat fs ++ post)
        by (rewrite <- !app_assoc; reflexivity).
      rewrite E'. rewrite IH by (try rewrite <- E'; (lia || assumption)).
      cbn [Nat.sub]. fold (apply_all upds (upd m)).
      f_equal. rewrite !len_app. lia.
    + rewrite !len_app. lia.
    + rewrite E. apply Hf. rewrite <- E. assumption.
Qed.

Lemma Forall2_length_le (fs : list (list byte)) (upds : list (T -> T)) :
  Forall2 (field_ok step) fs upds ->
  (List.length fs <= List.length (concat fs))%nat.
Proof.
  induction 1 as [|f upd fs upds [Hne _] _ IH]; [cbn; lia|].
  cbn [concat List.length]. rewrite length_app.
  destruct f; [congruence|]. cbn [List.length]. lia.
Qed.

(** Decoding the fields [fs] followed by bytes that are replayed. *)
Lemma loop_fields_replayed (capture : list byte -> T -> T)
    (fs : list (list byte)) (upds : list (T -> T)) (u : list byte) :
  Forall2 (field_ok step) fs upds ->
  replayed step capture u ->
  forall fuel m,
    (List.length (concat fs ++ u) <= fuel)%nat ->
    len (concat fs ++ u) < 2 ^ 63 ->
    unmarshal_loop step fuel m (concat fs ++ u) 0
    = (capture u (apply_all upds m), Ok tt).
Proof.
  intros Hfs Hu fuel m Hfuel Hlen.
  pose proof (Forall2_length_le fs upds Hfs) as Hle.
  rewrite length_app in Hfuel.
  pose proof (loop_fields fs upds Hfs fuel m [] u) as E.
  cbn [app] in E. rewrite len_nil in E.
  rewrite E by (lia || assumption).
  rewrite Z.add_0_l.
  apply (Hu _ _ (concat fs)); [lia|assumption].
Qed.

(** ** Cutting an encoding short *)

Lemma boundaries_zero (fs : list (list byte)) : In 0%nat (boundaries fs).
Proof. destruct fs; cbn; auto. Qed.

Lemma loop_cut (fs : list (list byte)) (upds : list (T -> T)) :
  Forall2 (field_ok step) fs upds ->
  Forall (field_cut step) fs ->
  forall k fuel m pre,
    (k < List.length (concat fs))%nat ->
    ~ In k (boundaries fs) ->
    (k <= fuel)%nat ->
    len (pre ++ concat fs) < 2 ^ 63 ->
    snd (unmarshal_loop step fuel m (pre ++ firstn k (concat fs)) (len pre))
    = Fail ErrUnexpectedEOF.
Proof.
  induction 1 as [|f upd fs upds [Hne Hf] _ IH];
    intros Hcut k fuel m pre Hk Hnb Hfuel Hlen.
  - cbn in Hk. lia.
  - inversion Hcut as [|? ? Hcf Hcfs]; subst.
    cbn [concat boundaries] in *.
    assert (k0 : k <> 0%nat) by (intros ->; apply Hnb; left; reflexivity).
    destruct fuel as [|fuel]; [lia|].
    destruct (firstn_app_cases k f (concat fs)) as [[Hlt E]|[Hge E]]; rewrite E.
    + apply loop_fail.
      * rewrite len_app, len_firstn. lia.
      * apply Hcf; [lia|].
        rewrite !len_app in *. pose proof (len_nonneg (concat fs)). lia.
    + assert (k <> List.length f).
      { intros ->. apply Hnb. right. apply in_map_iff.
        exists 0%nat. split; [lia|apply boundaries_zero]. }
      pose proof (len_pos_nonnil f Hne) as Hpos.
      rewrite length_app in Hk.
      rewrite (loop_step fuel m (upd m) _ (len pre) (len pre + len f)).
      * replace (len pre + len f) with (len (pre ++ f)) by apply len_app.
        rewrite app_assoc. apply IH.
        -- assumption.
        -- lia.
        -- intros Hin. apply Hnb. right. apply in_map_iff.
           exists (k - List.length f)%nat. split; [lia|assumption].
        -- unfold len in Hpos. lia.
        -- rewrite <- app_assoc. assumption.
      * rewrite !len_app. pose proof (len_nonneg (firstn (k - List.length f) (concat fs))). lia.
      * apply Hf. rewrite !len_app in *.
        pose proof (len_firstn_le (k - List.length f) (concat fs)). lia.
Qed.

Lemma boundaries_prefix (fs : list (list byte)) :
  forall k, In k (boundaries fs) ->
    exists n, firstn k (concat fs) = concat (firstn n fs).
Proof.
  induction fs as [|f fs IH]; intros k Hin.
  - exists 0%nat. cbn. destruct k; reflexivity.
  - cbn [boundaries] in Hin. destruct Hin as [<-|Hin].
    + exists 0%nat. reflexivity.
    + apply in_map_iff in Hin. destruct Hin as [k' [<- Hin']].
      destruct (IH k' Hin') as [n En].
      exists (S n). cbn [firstn concat].
      rewrite firstn_app, firstn_all2 by lia.
      replace (List.length f + k' - List.length f)%nat with k' by lia.
      rewrite En. reflexivity.
Qed.

Lemma Forall2_firstn {A B} (R : A -> B -> Prop) (n : nat) (l : list A) (l' : list B) :
  Forall2 R l l' -> Forall2 R (firstn n l) (firstn n l').
Proof.
  intros H. revert n. induction H; intros [|n]; cbn; constructor; auto.
Qed.

(** A cut between two fields is not noticed: the fields before the cut
    are decoded and the call succeeds. *)
Lemma loop_boundary (fs : list (list byte)) (upds : list (T -> T)) :
  Forall2 (field_ok step) fs upds ->
  forall k fuel m,
    In k (boundaries fs) ->
    (k <= fuel)%nat ->
    len (concat fs) < 2 ^ 63 ->
    snd (unmarshal_loop step fuel m (firstn k (concat fs)) 0) = Ok tt.
Proof.
  intros Hfs k fuel m Hin Hfuel Hlen.
  destruct (boundaries_prefix fs k Hin) as [n En].
  pose proof (Forall2_firstn _ n _ _ Hfs) as Hn.
  pose proof (Forall2_length_le _ _ Hn) as Hle.
  pose proof (loop_fields _ _ Hn fuel m [] []) as E.
  rewrite app_nil_r in E. cbn [app] in E. rewrite len_nil in E.
  assert (Hk : (List.length (firstn k (concat fs)) <= k)%nat)
    by (rewrite length_firstn; lia).
  rewrite <- En in *.
  rewrite E.
  - rewrite loop_end; [reflexivity|]. unfold len. lia.
  - lia.
  - pose proof (len_firstn_le k (concat fs)). fold (len (firstn k (concat fs))). lia.
Qed.

Lemma replayed_nil (capture : list byte -> T -> T) :
  (forall m, capture [] m = m) -> replayed step capture [].
Proof.
  intros H fuel m pre _ _. rewrite app_nil_r.
  rewrite loop_end by lia. rewrite H. reflexivity.
Qed.
End Loop.

(** ** The four kinds of known field *)

Ltac list_assoc :=
  repeat rewrite <- app_assoc; cbn [app]; repeat rewrite <- app_assoc; reflexivity.

Section KnownFields.
Context {T : Type} (body : T -> list byte -> Z -> Z -> T * res Z).
Variable tag : Z.
Hypothesis tag_range : 0 <= tag < 128.

Lemma cons_app_assoc (pre : list byte) (b : byte) (rest post : list byte) :
  pre ++ (b :: rest) ++ post = (pre ++ [b]) ++ rest ++ post.
Proof. rewrite <- app_assoc. reflexivity. Qed.

Lemma len_snoc (pre : list byte) (b : byte) : len (pre ++ [b]) = len pre + 1.
Proof. rewrite len_app. reflexivity. Qed.

Lemma firstn_S_cons (j : nat) (b : byte) (rest : list byte) :
  (0 < j)%nat -> firstn j (b :: rest) = b :: firstn (j - 1) rest.
Proof.
  destruct j; [lia|]. intros _.
  replace (S j - 1)%nat with j by lia. reflexivity.
Qed.

Section Scalar.
Variables (t : ity) (name : string) (set : Z -> T -> T).
Hypothesis dispatch :
  forall m data i, body m data tag i = scalar_field t name set m data 0 i.

Lemma varint_field_ok (v : Z) :
  field_ok (with_tag body) (enc_varint tag v) (set (cast t v)).
Proof.
  split; [discriminate|]. intros m pre post Hlen. unfold enc_varint.
  rewrite (with_tag_at body m _ pre (varint_bytes (cast Uint64 v) ++ post) tag (len pre))
    by (reflexivity || assumption).
  rewrite dispatch.
  rewrite (scalar_field_at t name set m _ (pre ++ [u8 tag]) post (cast Uint64 v)).
  - rewrite cast_uint64_back, len_cons. f_equal. f_equal. lia.
  - apply cons_app_assoc.
  - symmetry. apply len_snoc.
  - apply cast_uint64_range.
Qed.

Lemma varint_field_cut (v : Z) : field_cut (with_tag body) (enc_varint tag v).
Proof.
  intros m pre j Hj Hlen. unfold enc_varint in *.
  rewrite firstn_S_cons by lia. cbn [List.length] in Hj.
  rewrite (with_tag_at body m _ pre (firstn (j - 1) (varint_bytes (cast Uint64 v))) tag (len pre))
    by (reflexivity || assumption).
  rewrite dispatch.
  apply (scalar_field_cut t name set m _ (pre ++ [u8 tag]) (cast Uint64 v) _ (j - 1)).
  - list_assoc.
  - symmetry. apply len_snoc.
  - apply cast_uint64_range.
  - lia.
Qed.
End Scalar.

Section Bool.
Variables (name : string) (set : bool -> T -> T).
Hypothesis dispatch :
  forall m data i, body m data tag i = bool_field name set m data 0 i.

Lemma bool_field_ok (b : bool) :
  field_ok (with_tag body) (enc_bool tag b) (set b).
Proof.
  split; [discriminate|]. intros m pre post Hlen. unfold enc_bool.
  rewrite (with_tag_at body m _ pre ((if b then x01 else x00) :: post) tag (len pre))
    by (reflexivity || assumption).
  rewrite dispatch. unfold bool_field. cbn [Z.eqb negb].
  rewrite (read_local_at Int _ (pre ++ [u8 tag]) post (if b then 1 else 0)).
  - change (len [u8 tag; if b then x01 else x00]) with 2.
    destruct b; cbn; f_equal; f_equal; lia.
  - destruct b; list_assoc.
  - symmetry. apply len_snoc.
  - destruct b; cbn; lia.
Qed.

Lemma bool_field_cut (b : bool) : field_cut (with_tag body) (enc_bool tag b).
Proof.
  intros m pre j Hj Hlen. unfold enc_bool in *. cbn [List.length] in Hj.
  assert (j = 1%nat) by lia. subst j. cbn [firstn].
  rewrite (with_tag_at body m _ pre [] tag (len pre))
    by (reflexivity || assumption).
  rewrite dispatch. unfold bool_field. cbn [Z.eqb negb].
  rewrite read_local_end; [reflexivity|].
  rewrite len_snoc. reflexivity.
Qed.
End Bool.

Section Str.
Variables (name : string) (set : list byte -> T -> T).
Hypothesis dispatch :
  forall m data i, body m data tag i = string_field name set m data 2 i.

Lemma string_field_ok (s : list byte) :
  field_ok (with_tag body) (enc_bytes tag s) (set s).
Proof.
  split; [discriminate|]. intros m pre post Hlen. unfold enc_bytes in *.
  rewrite (with_tag_at body m _ pre ((varint_bytes (len s) ++ s) ++ post) tag (len pre))
    by (reflexivity || assumption).
  rewrite dispatch. unfold string_field.
  rewrite (read_string_at name _ (pre ++ [u8 tag]) s post).
  - rewrite len_cons, len_app. f_equal. f_equal. lia.
  - list_assoc.
  - symmetry. apply len_snoc.
  - assumption.
Qed.

Lemma string_field_cut (s : list byte) :
  field_cut (with_tag body) (enc_bytes tag s).
Proof.
  intros m pre j Hj Hlen. unfold enc_bytes in *.
  rewrite firstn_S_cons by lia. cbn [List.length] in Hj.
  rewrite (with_tag_at body m _ pre (firstn (j - 1) (varint_bytes (len s) ++ s)) tag (len pre))
    by (reflexivity || assumption).
  rewrite dispatch. unfold string_field.
  rewrite (read_string_cut name _ (pre ++ [u8 tag]) s _ (j - 1)).
  - reflexivity.
  - list_assoc.
  - symmetry. apply len_snoc.
  - rewrite len_snoc. rewrite len_app, len_cons, len_app in Hlen. lia.
  - lia.
Qed.
End Str.

Section Message.
Context {U : Type}.
Variables (name : string) (sub : U -> list byte -> U * res unit)
          (get : T -> U) (set : U -> T -> T).
Hypothesis dispatch :
  forall m data i,
    body m data tag i = message_field name sub get set m data 2 i.

Lemma message_field_ok (s : list byte) (upd : T -> T) :
  (forall m, sub (get m) s = (fst (sub (get m) s), Ok tt)) ->
  (forall m, set (fst (sub (get m) s)) m = upd m) ->
  field_ok (with_tag body) (enc_bytes tag s) upd.
Proof.
  intros Hsub Hupd.
  split; [discriminate|]. intros m pre post Hlen. unfold enc_bytes in *.
  rewrite (with_tag_at body m _ pre ((varint_bytes (len s) ++ s) ++ post) tag (len pre))
    by (reflexivity || assumption).
  rewrite dispatch. unfold message_field.
  rewrite (read_message_at name _ (pre ++ [u8 tag]) s post).
  - rewrite Hsub, Hupd. cbn [retag bind].
    rewrite len_cons, len_app. f_equal. f_equal. lia.
  - list_assoc.
  - symmetry. apply len_snoc.
  - assumption.
Qed.

Lemma message_field_cut (s : list byte) :
  field_cut (with_tag body) (enc_bytes tag s).
Proof.
  intros m pre j Hj Hlen. unfold enc_bytes in *.
  rewrite firstn_S_cons by lia. cbn [List.length] in Hj.
  rewrite (with_tag_at body m _ pre (firstn (j - 1) (varint_bytes (len s) ++ s)) tag (len pre))
    by (reflexivity || assumption).
  rewrite dispatch. unfold message_field.
  rewrite (read_message_cut name _ (pre ++ [u8 tag]) s _ (j - 1)).
  - reflexivity.
  - list_assoc.
  - symmetry. apply len_snoc.
  - rewrite len_snoc. rewrite len_app, len_cons, len_app in Hlen. lia.
  - lia.
Qed.
End Message.
End KnownFields.

(** ** Skipping an unrecognized field *)

Lemma skip_varint_loop_at (hi : list byte) (b : byte) (post : list byte) :
  Forall (fun x => 128 <= bv x) hi -> bv b < 128 ->
  forall i, skip_varint_loop (hi ++ b :: post) i = Ok (i + len hi + 1).
Proof.
  intros Hhi Hb. induction Hhi as [|x hi Hx _ IH]; intros i.
  - cbn [app skip_varint_loop]. destruct (Z.ltb_spec (bv b) 128); [|lia].
    rewrite len_nil. f_equal. lia.
  - cbn [app skip_varint_loop]. destruct (Z.ltb_spec (bv x) 128); [lia|].
    rewrite IH, len_cons. f_equal. lia.
Qed.

Lemma Forall_firstn' {A} (P : A -> Prop) (l : list A) :
  Forall P l -> forall n, Forall P (firstn n l).
Proof. induction 1; intros [|n]; cbn; constructor; auto. Qed.

Lemma skip_varint_loop_cut (hi : list byte) :
  Forall (fun x => 128 <= bv x) hi ->
  forall i, skip_varint_loop hi i = Fail ErrUnexpectedEOF.
Proof.
  intros Hhi. induction Hhi as [|x hi Hx _ IH]; intros i; [reflexivity|].
  cbn [skip_varint_loop]. destruct (Z.ltb_spec (bv x) 128); [lia|]. apply IH.
Qed.

Lemma land7_range (wire : Z) : 0 <= Z.land wire 0x7 < 8.
Proof.
  change 7 with (Z.ones 3). rewrite Z.land_ones by lia. apply Z.mod_pos_bound. lia.
Qed.

Lemma wireType_of_eq (wire : Z) : wireType_of wire = Z.land wire 0x7.
Proof.
  unfold wireType_of. pose proof (land7_range wire).
  apply cast_int_id. lia.
Qed.

Lemma two63 : 2 ^ 63 = 9223372036854775808.
Proof. reflexivity. Qed.
Lemma two64 : 2 ^ 64 = 18446744073709551616.
Proof. reflexivity. Qed.

(** Reading at or past the end of the buffer. *)
Lemma read_local_beyond (t : ity) (data : list byte) (i : Z) :
  len data <= i -> read_local t data i = Fail ErrUnexpectedEOF.
Proof.
  intros H. unfold read_local, read_varint. pose proof (len_nonneg data).
  destruct (Z.ltb_spec i 0); [lia|].
  rewrite skipn_all2 by (unfold len in *; lia). reflexivity.
Qed.

(** [skipStructured] once its tag is read. *)
Lemma skipStructured_fuel_tag (fuel : nat) (wire : Z) (rest : list byte) :
  0 <= wire < 2 ^ 64 ->
  skipStructured_fuel (S fuel) (varint_bytes wire ++ rest)
  = let data := varint_bytes wire ++ rest in
    let iNdEx := len (varint_bytes wire) in
    let wireType := Z.land wire 0x7 in
    if wireType =? 0 then skip_varint_loop rest iNdEx
    else if wireType =? 1 then Ok (iadd iNdEx 8)
    else if wireType =? 2 then
      '(length_, iNdEx) <- read_local Int data iNdEx ;;
      let iNdEx := iadd iNdEx length_ in
      if length_ <? 0 then Fail ErrInvalidLengthStructured else Ok iNdEx
    else if wireType =? 3 then
      skip_group (skipStructured_fuel fuel) fuel data iNdEx
    else if wireType =? 4 then Ok iNdEx
    else if wireType =? 5 then Ok (iadd iNdEx 4)
    else Fail (ErrIllegalWireType wireType).
Proof.
  intros Hw. cbn [skipStructured_fuel]. cbv zeta.
  pose proof (varint_bytes_bound wire). pose proof (len_nonneg rest).
  destruct (Z.ltb_spec 0 (len (varint_bytes wire ++ rest)));
    [|rewrite len_app in *; lia].
  rewrite (read_local_at Uint64 _ [] rest wire 0) by (reflexivity || lia).
  cbn [bind]. rewrite cast_uint64_id by lia. rewrite Z.add_0_l.
  fold (wireType_of wire). rewrite wireType_of_eq.
  rewrite skipn_len_app. reflexivity.
Qed.

Lemma payload_group_length (p : list byte) :
  payload 3 p -> (1 <= List.length p)%nat.
Proof.
  intros H. inversion H as [| | |w Hw Hend|w q rest Hw Hne Hq Hrest| |]; subst.
  - pose proof (varint_bytes_bound w). unfold len in *. lia.
  - rewrite length_app. pose proof (varint_bytes_bound w). unfold len in *. lia.
Qed.

(** A whole field is skipped: the call on a tag and its payload returns
    their length, and the loop over the members of a group stops after its
    end tag. *)
Lemma skip_payload (wt : Z) (p : list byte) :
  payload wt p ->
  (forall wire post (fuel : nat),
     0 <= wire < 2 ^ 64 -> Z.land wire 0x7 = wt ->
     (List.length (varint_bytes wire ++ p) < fuel)%nat ->
     len (varint_bytes wire ++ p ++ post) < 2 ^ 63 ->
     skipStructured_fuel fuel (varint_bytes wire ++ p ++ post)
     = Ok (len (varint_bytes wire) + len p))
  /\ (wt = 3 ->
      forall (f k : nat) pre post,
        (List.length p <= f)%nat -> (List.length p <= k)%nat ->
        len (pre ++ p ++ post) < 2 ^ 63 ->
        skip_group (skipStructured_fuel f) k (pre ++ p ++ post) (len pre)
        = Ok (len pre + len p)).
Proof.
  induction 1 as [hi b Hhi Hb|q Hq|s|wend Hwend Hend
                  |w q rest Hw Hne Hq IHq Hrest IHrest| |q Hq].
  - (* varint *)
    split; [|discriminate].
    intros wire post [|fuel] Hwire Hwt Hfuel Hlen; [lia|].
    rewrite skipStructured_fuel_tag by assumption. cbv zeta.
    rewrite Hwt. cbn [Z.eqb Pos.eqb].
    rewrite <- app_assoc. cbn [app].
    rewrite skip_varint_loop_at by assumption.
    rewrite len_app, len_cons, len_nil. f_equal. lia.
  - (* fixed64 *)
    split; [|discriminate].
    intros wire post [|fuel] Hwire Hwt Hfuel Hlen; [lia|].
    rewrite skipStructured_fuel_tag by assumption. cbv zeta.
    rewrite Hwt. cbn [Z.eqb Pos.eqb].
    rewrite !len_app in Hlen. pose proof (len_nonneg post).
    pose proof (varint_bytes_bound wire).
    assert (len q = 8) by (unfold len; lia).
    rewrite iadd_id by lia. f_equal. lia.
  - (* length-delimited *)
    split; [|discriminate].
    intros wire post [|fuel] Hwire Hwt Hfuel Hlen; [lia|].
    rewrite skipStructured_fuel_tag by assumption. cbv zeta.
    rewrite Hwt. cbn [Z.eqb Pos.eqb].
    rewrite !len_app in Hlen. pose proof (len_nonneg post).
    pose proof (len_nonneg s). pose proof (varint_bytes_bound wire).
    pose proof (varint_bytes_bound (len s)). rewrite two63 in *.
    rewrite (read_local_at Int _ (varint_bytes wire) (s ++ post) (len s)
               (len (varint_bytes wire)));
      [|rewrite <- !app_assoc; reflexivity|reflexivity|
       rewrite two64; lia].
    cbn [bind]. rewrite (cast_int_id (len s)) by (rewrite two63; lia).
    rewrite iadd_id by (rewrite two63; lia).
    destruct (Z.ltb_spec (len s) 0); [lia|].
    rewrite len_app. f_equal. lia.
  - (* the end of a group *)
    assert (G : forall (f k : nat) pre post,
               (List.length (varint_bytes wend) <= f)%nat ->
               (List.length (varint_bytes wend) <= k)%nat ->
               len (pre ++ varint_bytes wend ++ post) < 2 ^ 63 ->
               skip_group (skipStructured_fuel f) k
                 (pre ++ varint_bytes wend ++ post) (len pre)
               = Ok (len pre + len (varint_bytes wend))).
    { intros f k pre post Hf Hk Hlen.
      pose proof (varint_bytes_bound wend).
      destruct k as [|k]; [unfold len in *; lia|].
      cbn [skip_group].
      rewrite (read_local_at Uint64 _ pre post wend (len pre))
        by (reflexivity || assumption).
      cbn [bind]. rewrite cast_uint64_id by assumption.
      fold (wireType_of wend). rewrite wireType_of_eq, Hend. reflexivity. }
    split; [|intros _; exact G].
    intros wire post [|fuel] Hwire Hwt Hfuel Hlen; [lia|].
    rewrite skipStructured_fuel_tag by assumption. cbv zeta.
    rewrite Hwt. cbn [Z.eqb Pos.eqb].
    rewrite length_app in Hfuel. pose proof (varint_bytes_bound wire).
    apply G; try assumption; unfold len in *; lia.
  - (* a member of a group, then the rest of it *)
    destruct IHq as [IHq _]. destruct IHrest as [_ IHrest].
    specialize (IHrest eq_refl).
    pose proof (payload_group_length rest Hrest) as Hr.
    pose proof (varint_bytes_bound w) as Hbw.
    assert (Hbn : (1 <= List.length (varint_bytes w))%nat)
      by (unfold len in Hbw; lia).
    assert (G : forall (f k : nat) pre post,
               (List.length (varint_bytes w ++ q ++ rest) <= f)%nat ->
               (List.length (varint_bytes w ++ q ++ rest) <= k)%nat ->
               len (pre ++ (varint_bytes w ++ q ++ rest) ++ post) < 2 ^ 63 ->
               skip_group (skipStructured_fuel f) k
                 (pre ++ (varint_bytes w ++ q ++ rest) ++ post) (len pre)
               = Ok (len pre + len (varint_bytes w ++ q ++ rest))).
    { intros f k pre post Hf Hk Hlen.
      rewrite !length_app in Hf, Hk.
      destruct k as [|k]; [unfold len in *; lia|].
      pose proof (len_nonneg pre). pose proof (len_nonneg q).
      pose proof (len_nonneg rest). pose proof (len_nonneg post).
      rewrite <- !app_assoc in *. rewrite !len_app in Hlen.
      cbn [skip_group].
      rewrite (read_local_at Uint64 _ pre (q ++ rest ++ post) w (len pre))
        by (reflexivity || assumption).
      cbn [bind]. rewrite cast_uint64_id by assumption.
      fold (wireType_of w). rewrite wireType_of_eq.
      destruct (Z.eqb_spec (Z.land w 7) 4) as [|_]; [contradiction|].
      rewrite (slice_from_at _ pre (varint_bytes w ++ q ++ rest ++ post))
        by reflexivity.
      rewrite (IHq w (rest ++ post) f Hw eq_refl);
        [|rewrite length_app; lia|rewrite !len_app; lia].
      cbn [bind]. rewrite iadd_id by (rewrite two63 in *; lia).
      replace (pre ++ varint_bytes w ++ q ++ rest ++ post)
        with ((pre ++ varint_bytes w ++ q) ++ rest ++ post)
        by (rewrite <- !app_assoc; reflexivity).
      replace (len pre + (len (varint_bytes w) + len q))
        with (len (pre ++ varint_bytes w ++ q)) by (rewrite !len_app; lia).
      rewrite IHrest; [|lia|lia|rewrite !len_app; lia].
      rewrite !len_app. f_equal. lia. }
    split; [|intros _; exact G].
    intros wire post [|fuel] Hwire Hwt Hfuel Hlen; [lia|].
    rewrite skipStructured_fuel_tag by assumption. cbv zeta.
    rewrite Hwt. cbn [Z.eqb Pos.eqb].
    rewrite length_app in Hfuel. pose proof (varint_bytes_bound wire).
    apply G; try assumption; unfold len in *; lia.
  - (* a lone end-group tag *)
    split; [|discriminate].
    intros wire post [|fuel] Hwire Hwt Hfuel Hlen; [lia|].
    rewrite skipStructured_fuel_tag by assumption. cbv zeta.
    rewrite Hwt. cbn [Z.eqb Pos.eqb]. rewrite len_nil. f_equal. lia.
  - (* fixed32 *)
    split; [|discriminate].
    intros wire post [|fuel] Hwire Hwt Hfuel Hlen; [lia|].
    rewrite skipStructured_fuel_tag by assumption. cbv zeta.
    rewrite Hwt. cbn [Z.eqb Pos.eqb].
    rewrite !len_app in Hlen. pose proof (len_nonneg post).
    pose proof (varint_bytes_bound wire).
    assert (len q = 4) by (unfold len; lia).
    rewrite iadd_id by lia. f_equal. lia.
Qed.

Lemma skipStructured_at (wire : Z) (p post : list byte) :
  0 <= wire < 2 ^ 64 ->
  payload (Z.land wire 0x7) p ->
  len (varint_bytes wire ++ p ++ post) < 2 ^ 63 ->
  skipStructured (varint_bytes wire ++ p ++ post)
  = Ok (len (varint_bytes wire) + len p).
Proof.
  intros Hw Hp Hlen. unfold skipStructured.
  apply (proj1 (skip_payload _ _ Hp)); try assumption; try reflexivity.
  rewrite !length_app. lia.
Qed.

(** The same field with the buffer ending inside its payload: the skip
    fails with [io.ErrUnexpectedEOF] or announces an end beyond the buffer;
    the loop over the members of a group fails. *)
Lemma skip_payload_cut (wt : Z) (p : list byte) :
  payload wt p ->
  (forall wire (fuel j : nat),
     0 <= wire < 2 ^ 64 -> Z.land wire 0x7 = wt ->
     (j < List.length p)%nat ->
     (List.length (varint_bytes wire) + j < fuel)%nat ->
     len (varint_bytes wire ++ p) < 2 ^ 63 ->
     skipStructured_fuel fuel (varint_bytes wire ++ firstn j p)
     = Fail ErrUnexpectedEOF \/
     exists n,
       skipStructured_fuel fuel (varint_bytes wire ++ firstn j p) = Ok n /\
       len (varint_bytes wire ++ firstn j p) < n
       <= len (varint_bytes wire ++ p))
  /\ (wt = 3 ->
      forall (f k j : nat) pre,
        (j < List.length p)%nat -> (j < f)%nat -> (j < k)%nat ->
        len (pre ++ p) < 2 ^ 63 ->
        skip_group (skipStructured_fuel f) k (pre ++ firstn j p) (len pre)
        = Fail ErrUnexpectedEOF).
Proof.
  assert (Group : forall g,
    (forall (f k j : nat) pre,
        (j < List.length g)%nat -> (j < f)%nat -> (j < k)%nat ->
        len (pre ++ g) < 2 ^ 63 ->
        skip_group (skipStructured_fuel f) k (pre ++ firstn j g) (len pre)
        = Fail ErrUnexpectedEOF) ->
    forall wire (fuel j : nat),
     0 <= wire < 2 ^ 64 -> Z.land wire 0x7 = 3 ->
     (j < List.length g)%nat ->
     (List.length (varint_bytes wire) + j < fuel)%nat ->
     len (varint_bytes wire ++ g) < 2 ^ 63 ->
     skipStructured_fuel fuel (varint_bytes wire ++ firstn j g)
     = Fail ErrUnexpectedEOF).
  { intros g G wire [|fuel] j Hwire Hwt Hj Hfuel Hlen; [lia|].
    rewrite skipStructured_fuel_tag by assumption. cbv zeta.
    rewrite Hwt. cbn [Z.eqb Pos.eqb].
    pose proof (varint_bytes_bound wire).
    apply G; try assumption; unfold len in *; lia. }
  induction 1 as [hi b Hhi Hb|q Hq|s|wend Hwend Hend
                  |w q rest Hw Hne Hq IHq Hrest IHrest| |q Hq].
  - (* varint *)
    split; [|discriminate].
    intros wire [|fuel] j Hwire Hwt Hj Hfuel Hlen; [lia|]. left.
    rewrite skipStructured_fuel_tag by assumption. cbv zeta.
    rewrite Hwt. cbn [Z.eqb Pos.eqb].
    rewrite length_app in Hj. cbn [List.length] in Hj.
    rewrite firstn_app. replace (j - List.length hi)%nat with 0%nat by lia.
    cbn [firstn]. rewrite app_nil_r.
    apply skip_varint_loop_cut. apply Forall_firstn'. assumption.
  - (* fixed64 *)
    split; [|discriminate].
    intros wire [|fuel] j Hwire Hwt Hj Hfuel Hlen; [lia|]. right.
    rewrite skipStructured_fuel_tag by assumption. cbv zeta.
    rewrite Hwt. cbn [Z.eqb Pos.eqb].
    pose proof (len_firstn_lt j q Hj). pose proof (len_nonneg (firstn j q)).
    pose proof (varint_bytes_bound wire).
    assert (len q = 8) by (unfold len; lia).
    rewrite !len_app in *. rewrite two63 in *.
    rewrite iadd_id by (rewrite two63; lia).
    eexists. split; [reflexivity|]. lia.
  - (* length-delimited *)
    split; [|discriminate].
    intros wire [|fuel] j Hwire Hwt Hj Hfuel Hlen; [lia|].
    rewrite skipStructured_fuel_tag by assumption. cbv zeta.
    rewrite Hwt. cbn [Z.eqb Pos.eqb].
    pose proof (len_firstn_lt j _ Hj) as Hcut.
    pose proof (len_nonneg s). pose proof (varint_bytes_bound wire).
    pose proof (varint_bytes_bound (len s)).
    rewrite !len_app in Hlen. rewrite two63 in Hlen.
    destruct (firstn_app_cases j (varint_bytes (len s)) s) as [[Hlt E]|[Hge E]];
      rewrite E in *.
    + left.
      rewrite (read_local_cut Int _ (varint_bytes wire) (len s)
                 (len (varint_bytes wire)) j); try reflexivity; try assumption.
      rewrite two64. lia.
    + right.
      rewrite (read_local_at Int _ (varint_bytes wire)
                 (firstn (j - List.length (varint_bytes (len s))) s) (len s)
                 (len (varint_bytes wire)));
        [|reflexivity|reflexivity|rewrite two64; lia].
      cbn [bind]. rewrite (cast_int_id (len s)) by (rewrite two63; lia).
      rewrite iadd_id by (rewrite two63; lia).
      destruct (Z.ltb_spec (len s) 0); [lia|].
      eexists. split; [reflexivity|].
      rewrite !len_app in *. lia.
  - (* the end of a group *)
    assert (G : forall (f k j : nat) pre,
               (j < List.length (varint_bytes wend))%nat ->
               (j < f)%nat -> (j < k)%nat ->
               len (pre ++ varint_bytes wend) < 2 ^ 63 ->
               skip_group (skipStructured_fuel f) k
                 (pre ++ firstn j (varint_bytes wend)) (len pre)
               = Fail ErrUnexpectedEOF).
    { intros f [|k] j pre Hj Hf Hk Hlen; [lia|].
      cbn [skip_group].
      rewrite (read_local_cut Uint64 _ pre wend (len pre) j)
        by (reflexivity || assumption).
      reflexivity. }
    split; [|intros _; exact G].
    intros wire fuel j Hwire Hwt Hj Hfuel Hlen. left.
    apply Group; assumption.
  - (* a member of a group, then the rest of it *)
    destruct IHq as [IHq _]. destruct IHrest as [_ IHrest].
    specialize (IHrest eq_refl).
    pose proof (payload_group_length rest Hrest) as Hr.
    pose proof (varint_bytes_bound w) as Hbw.
    assert (Hbn : (1 <= List.length (varint_bytes w))%nat)
      by (unfold len in Hbw; lia).
    assert (G : forall (f k j : nat) pre,
               (j < List.length (varint_bytes w ++ q ++ rest))%nat ->
               (j < f)%nat -> (j < k)%nat ->
               len (pre ++ varint_bytes w ++ q ++ rest) < 2 ^ 63 ->
               skip_group (skipStructured_fuel f) k
                 (pre ++ firstn j (varint_bytes w ++ q ++ rest)) (len pre)
               = Fail ErrUnexpectedEOF).
    { intros f k j pre Hj Hf Hk Hlen.
      rewrite !length_app in Hj.
      destruct k as [|k]; [lia|].
      pose proof (len_nonneg pre). pose proof (len_nonneg q).
      pose proof (len_nonneg rest).
      rewrite !len_app in Hlen. rewrite two63 in Hlen.
      cbn [skip_group].
      destruct (firstn_app_cases j (varint_bytes w) (q ++ rest))
        as [[Hlt E]|[Hge E]]; rewrite E.
      { rewrite (read_local_cut Uint64 _ pre w (len pre) j)
          by (reflexivity || assumption).
        reflexivity. }
      set (j1 := (j - List.length (varint_bytes w))%nat) in *.
      rewrite (read_local_at Uint64 _ pre (firstn j1 (q ++ rest)) w (len pre))
        by (reflexivity || assumption).
      cbn [bind]. rewrite cast_uint64_id by assumption.
      fold (wireType_of w). rewrite wireType_of_eq.
      destruct (Z.eqb_spec (Z.land w 7) 4) as [|_]; [contradiction|].
      rewrite (slice_from_at _ pre (varint_bytes w ++ firstn j1 (q ++ rest)))
        by reflexivity.
      destruct (firstn_app_cases j1 q rest) as [[Hlt1 E1]|[Hge1 E1]];
        rewrite E1.
      - (* the buffer ends inside the member *)
        destruct (IHq w f j1 Hw eq_refl Hlt1) as [F|[next [F Hn]]];
          [lia|rewrite !len_app, two63; lia| |];
          rewrite F; cbn [bind]; [reflexivity|].
        rewrite !len_app in Hn.
        pose proof (len_nonneg (firstn j1 q)).
        rewrite iadd_id by (rewrite two63; lia).
        destruct k as [|k]; [lia|].
        cbn [skip_group].
        rewrite read_local_beyond by (rewrite !len_app; lia).
        reflexivity.
      - (* the buffer ends after the member *)
        set (j2 := (j1 - List.length q)%nat) in *.
        rewrite (proj1 (skip_payload _ _ Hq) w (firstn j2 rest) f Hw eq_refl);
          [|rewrite length_app; lia|].
        + cbn [bind]. rewrite iadd_id by (rewrite two63; lia).
          replace (pre ++ varint_bytes w ++ q ++ firstn j2 rest)
            with ((pre ++ varint_bytes w ++ q) ++ firstn j2 rest)
            by (rewrite <- !app_assoc; reflexivity).
          replace (len pre + (len (varint_bytes w) + len q))
            with (len (pre ++ varint_bytes w ++ q))
            by (rewrite !len_app; lia).
          apply IHrest; try lia.
          rewrite <- !app_assoc, !len_app, two63. lia.
        + pose proof (len_firstn_le j2 rest).
          rewrite !len_app, two63. lia. }
    split; [|intros _; exact G].
    intros wire fuel j Hwire Hwt Hj Hfuel Hlen. left.
    apply Group; assumption.
  - (* a lone end-group tag *)
    split; [|discriminate].
    intros wire fuel j Hwire Hwt Hj. cbn in Hj. lia.
  - (* fixed32 *)
    split; [|discriminate].
    intros wire [|fuel] j Hwire Hwt Hj Hfuel Hlen; [lia|]. right.
    rewrite skipStructured_fuel_tag by assumption. cbv zeta.
    rewrite Hwt. cbn [Z.eqb Pos.eqb].
    pose proof (len_firstn_lt j q Hj). pose proof (len_nonneg (firstn j q)).
    pose proof (varint_bytes_bound wire).
    assert (len q = 4) by (unfold len; lia).
    rewrite !len_app in *. rewrite two63 in *.
    rewrite iadd_id by (rewrite two63; lia).
    eexists. split; [reflexivity|]. lia.
Qed.

Lemma skipStructured_cut (wire : Z) (p : list byte) (j : nat) :
  0 <= wire < 2 ^ 64 ->
  payload (Z.land wire 0x7) p ->
  (j < List.length p)%nat ->
  len (varint_bytes wire ++ p) < 2 ^ 63 ->
  skipStructured (varint_bytes wire ++ firstn j p) = Fail ErrUnexpectedEOF \/
  exists n, skipStructured (varint_bytes wire ++ firstn j p) = Ok n /\
            len (varint_bytes wire ++ firstn j p) < n
            <= len (varint_bytes wire ++ p).
Proof.
  intros Hw Hp Hj Hlen. unfold skipStructured.
  apply (proj1 (skip_payload_cut _ _ Hp)); try assumption; try reflexivity.
  rewrite length_app, length_firstn. lia.
Qed.

Lemma sizeOfWire_len (wire : Z) :
  0 <= wire < 2 ^ 64 -> sov_loop 10 0 wire = len (varint_bytes wire).
Proof. apply sovStructured_len. Qed.

Lemma skip_unknown_at (data pre p post : list byte) (wire i : Z) :
  data = pre ++ (varint_bytes wire ++ p) ++ post ->
  i = len pre + len (varint_bytes wire) ->
  0 <= wire < 2 ^ 64 ->
  payload (Z.land wire 0x7) p ->
  len data < 2 ^ 63 ->
  skip_unknown data wire i
  = Ok (varint_bytes wire ++ p, len pre + len (varint_bytes wire ++ p)).
Proof.
  intros Hd Hi Hw Hp Hlen. unfold skip_unknown.
  pose proof (varint_bytes_bound wire) as Hb.
  pose proof (len_nonneg pre). pose proof (len_nonneg p). pose proof (len_nonneg post).
  assert (L : len data = len pre + ((len (varint_bytes wire) + len p) + len post))
    by (rewrite Hd, !len_app; reflexivity).
  rewrite two63 in *.
  rewrite sizeOfWire_len by assumption.
  rewrite iadd_id by lia.
  replace (i + - len (varint_bytes wire)) with (len pre) by lia.
  rewrite (slice_from_at data pre ((varint_bytes wire ++ p) ++ post)) by (assumption || reflexivity).
  rewrite <- app_assoc.
  rewrite skipStructured_at; try assumption.
  - cbn [bind].
    destruct (Z.ltb_spec (len (varint_bytes wire) + len p) 0); [lia|].
    rewrite iadd_id by lia.
    destruct (Z.ltb_spec (len data) (len pre + (len (varint_bytes wire) + len p))); [lia|].
    rewrite (slice_at data pre (varint_bytes wire ++ p) post).
    + rewrite len_app. reflexivity.
    + assumption.
    + reflexivity.
    + rewrite len_app. reflexivity.
  - rewrite !len_app. rewrite two63. lia.
Qed.

Lemma skip_unknown_cut (data pre p : list byte) (wire i : Z) (j : nat) :
  data = pre ++ varint_bytes wire ++ firstn j p ->
  i = len pre + len (varint_bytes wire) ->
  0 <= wire < 2 ^ 64 ->
  payload (Z.land wire 0x7) p ->
  (j < List.length p)%nat ->
  len (pre ++ varint_bytes wire ++ p) < 2 ^ 63 ->
  skip_unknown data wire i = Fail ErrUnexpectedEOF.
Proof.
  intros Hd Hi Hw Hp Hj Hlen. unfold skip_unknown.
  pose proof (varint_bytes_bound wire) as Hb.
  pose proof (len_nonneg pre). pose proof (len_nonneg p).
  pose proof (len_firstn_lt j p Hj) as Hcut.
  pose proof (len_nonneg (firstn j p)).
  assert (L : len data = len pre + (len (varint_bytes wire) + len (firstn j p)))
    by (rewrite Hd, !len_app; reflexivity).
  rewrite !len_app in Hlen.
  rewrite sizeOfWire_len by assumption.
  rewrite iadd_id by (rewrite two63; lia).
  replace (i + - len (varint_bytes wire)) with (len pre) by lia.
  rewrite (slice_from_at data pre (varint_bytes wire ++ firstn j p)) by (assumption || reflexivity).
  destruct (skipStructured_cut wire p j Hw Hp Hj) as [E|[n [E Hn]]].
  - rewrite len_app. lia.
  - rewrite E. reflexivity.
  - rewrite E. cbn [bind]. rewrite !len_app in Hn.
    destruct (Z.ltb_spec n 0); [lia|].
    rewrite iadd_id by (rewrite two63 in *; lia).
    destruct (Z.ltb_spec (len data) (len pre + n)); [reflexivity|lia].
Qed.

(** ** Unrecognized fields in the decoding loop *)

Lemma with_tag_wire {T} (body : T -> list byte -> Z -> Z -> T * res Z)
    (m : T) (data pre rest : list byte) (wire i : Z) :
  data = pre ++ varint_bytes wire ++ rest -> i = len pre -> 0 <= wire < 2 ^ 64 ->
  with_tag body m data i = body m data wire (i + len (varint_bytes wire)).
Proof.
  intros Hd Hi Hw. unfold with_tag.
  rewrite (read_local_at Uint64 data pre rest wire i Hd Hi Hw).
  rewrite cast_uint64_id by assumption. reflexivity.
Qed.

Lemma with_tag_cut {T} (body : T -> list byte -> Z -> Z -> T * res Z)
    (m : T) (data pre : list byte) (wire i : Z) (j : nat) :
  data = pre ++ firstn j (varint_bytes wire) -> i = len pre ->
  0 <= wire < 2 ^ 64 -> (j < List.length (varint_bytes wire))%nat ->
  with_tag body m data i = (m, Fail ErrUnexpectedEOF).
Proof.
  intros Hd Hi Hw Hj. unfold with_tag.
  rewrite (read_local_cut Uint64 data pre wire i j Hd Hi Hw Hj). reflexivity.
Qed.

Section Foreign.
Context {T : Type} (body : T -> list byte -> Z -> Z -> T * res Z).
Variables (nfields : Z) (get : T -> list byte) (set : list byte -> T -> T).
Hypothesis dispatch :
  forall m data wire i,
    ~ (1 <= fieldNum_of wire <= nfields) ->
    body m data wire i = unknown_field get set m data wire i.

Lemma foreign_field_ok (f : list byte) :
  foreign_field nfields f ->
  field_ok (with_tag body) f (fun m => set (get m ++ f) m).
Proof.
  intros [wire [p [Hw [Hn [Hp ->]]]]].
  pose proof (varint_bytes_bound wire) as Hb.
  split.
  - intros E. apply (f_equal len) in E. rewrite len_app, len_nil in E.
    pose proof (len_nonneg p). lia.
  - intros m pre post Hlen.
    rewrite (with_tag_wire body m _ pre (p ++ post) wire (len pre))
      by (assumption || reflexivity || list_assoc).
    rewrite dispatch by assumption. unfold unknown_field.
    rewrite (skip_unknown_at _ pre p post wire) by (assumption || reflexivity).
    reflexivity.
Qed.

Lemma foreign_field_cut (f : list byte) :
  foreign_field nfields f -> field_cut (with_tag body) f.
Proof.
  intros [wire [p [Hw [Hn [Hp ->]]]]] m pre j Hj Hlen.
  destruct (firstn_app_cases j (varint_bytes wire) p) as [[Hlt E]|[Hge E]];
    rewrite E.
  - rewrite (with_tag_cut body m _ pre wire (len pre) j)
      by (assumption || reflexivity).
    reflexivity.
  - rewrite length_app in Hj.
    rewrite (with_tag_wire body m _ pre (firstn (j - List.length (varint_bytes wire)) p)
               wire (len pre)) by (assumption || reflexivity).
    rewrite dispatch by assumption. unfold unknown_field.
    rewrite (skip_unknown_cut _ pre p wire _ (j - List.length (varint_bytes wire)));
      try (assumption || reflexivity).
    lia.
Qed.

Lemma foreign_all_ok (us : list (list byte)) :
  Forall (foreign_field nfields) us ->
  Forall2 (field_ok (with_tag body)) us
    (map (fun f m => set (get m ++ f) m) us).
Proof.
  induction 1; cbn [map]; constructor;
    [apply foreign_field_ok; assumption|assumption].
Qed.

Lemma foreign_all_cut (us : list (list byte)) :
  Forall (foreign_field nfields) us ->
  Forall (field_cut (with_tag body)) us.
Proof.
  induction 1; constructor; [apply foreign_field_cut; assumption|assumption].
Qed.

Hypothesis get_set : forall u m, get (set u m) = u.
Hypothesis set_set : forall u v m, set u (set v m) = set u m.
Hypothesis set_get : forall m, set (get m) m = m.

Lemma apply_all_capture (fs : list (list byte)) (m : T) :
  apply_all (map (fun f m => set (get m ++ f) m) fs) m
  = set (get m ++ List.concat fs) m.
Proof.
  revert m. induction fs as [|f fs IH]; intros m.
  - cbn. rewrite app_nil_r. symmetry. apply set_get.
  - cbn [map apply_all fold_left List.concat].
    fold (apply_all (map (fun f m => set (get m ++ f) m) fs) (set (get m ++ f) m)).
    rewrite IH, get_set, set_set, <- app_assoc. reflexivity.
Qed.

Lemma foreign_fields_replayed (u : list byte) :
  foreign_fields nfields u ->
  replayed (with_tag body) (fun u m => set (get m ++ u) m) u.
Proof.
  intros [fs [Hfs ->]] fuel m pre Hfuel Hlen.
  pose proof (foreign_all_ok fs Hfs) as H2.
  pose proof (Forall2_length_le _ _ _ H2) as Hle.
  pose proof (loop_fields _ _ _ H2 fuel m pre []) as E.
  rewrite app_nil_r in E. rewrite E by (lia || assumption).
  rewrite loop_end by (rewrite len_app; lia).
  rewrite apply_all_capture. reflexivity.
Qed.
End Foreign.

(** ** Helpers for the per-type proofs *)

Lemma varint_field_ok_id {T} (body : T -> list byte -> Z -> Z -> T * res Z)
    (tag : Z) (t : ity) (name : string) (set : Z -> T -> T) (v : Z) :
  0 <= tag < 128 ->
  (forall m data i, body m data tag i = scalar_field t name set m data 0 i) ->
  in_range t v ->
  field_ok (with_tag body) (enc_varint tag v) (set v).
Proof.
  intros Ht Hd Hv. rewrite <- (cast_id t v Hv) at 2.
  apply varint_field_ok with (name := name); assumption.
Qed.

Lemma apply_all_app {T} (a b : list (T -> T)) (m : T) :
  apply_all (a ++ b) m = apply_all b (apply_all a m).
Proof. apply fold_left_app. Qed.

Lemma apply_all_cons {T} (f : T -> T) (b : list (T -> T)) (m : T) :
  apply_all (f :: b) m = apply_all b (f m).
Proof. reflexivity. Qed.

Lemma apply_all_nil {T} (m : T) : apply_all [] m = m.
Proof. reflexivity. Qed.

Lemma Forall2_map_same {A B C} (R : B -> C -> Prop) (f : A -> B) (g : A -> C)
    (xs : list A) :
  (forall x, In x xs -> R (f x) (g x)) -> Forall2 R (map f xs) (map g xs).
Proof.
  induction xs as [|x xs IH]; intros H; cbn [map]; constructor.
  - apply H. left. reflexivity.
  - apply IH. intros y Hy. apply H. right. assumption.
Qed.

Lemma Forall_map_all {A B} (P : B -> Prop) (f : A -> B) (xs : list A) :
  (forall x, P (f x)) -> Forall P (map f xs).
Proof. intros H. induction xs; cbn [map]; constructor; auto. Qed.

Lemma len_concat_in (f : list byte) (fs : list (list byte)) :
  In f fs -> len f <= len (List.concat fs).
Proof.
  induction fs as [|g fs IH]; intros H; [contradiction|].
  cbn [List.concat]. rewrite len_app.
  pose proof (len_nonneg g). pose proof (len_nonneg (List.concat fs)).
  destruct H as [->|H]; [lia|]. specialize (IH H). lia.
Qed.

Lemma len_enc_bytes (tag : Z) (s : list byte) : len s < len (enc_bytes tag s).
Proof.
  unfold enc_bytes. rewrite len_cons, len_app.
  pose proof (varint_bytes_bound (len s)). lia.
Qed.

(** A nested message is shorter than the encoding it is a field of. *)
Lemma nested_len (tag : Z) (s : list byte) (fs : list (list byte)) (u : list byte) :
  In (enc_bytes tag s) fs -> len (List.concat fs ++ u) < 2 ^ 63 -> len s < 2 ^ 63.
Proof.
  intros Hin Hlen. rewrite len_app in Hlen.
  pose proof (len_concat_in _ _ Hin). pose proof (len_enc_bytes tag s).
  pose proof (len_nonneg u). lia.
Qed.

Ltac split_fields :=
  repeat first [apply Forall2_cons | apply Forall2_nil
               | apply Forall_cons | apply Forall_nil].

Ltac pick_disjunct :=
  solve [reflexivity | left; pick_disjunct | right; pick_disjunct].

Ltac in_list :=
  repeat (progress (rewrite ?in_app_iff; cbn [In app]));
  pick_disjunct.

(** ** ColumnType *)

Module ColumnTypeFacts.
Import ColumnType.

Lemma CT_dispatch_foreign m data wire i :
  ~ (1 <= fieldNum_of wire <= 3) ->
  body m data wire i
  = unknown_field XXX_unrecognized set_XXX_unrecognized m data wire i.
Proof.
  intros H. unfold body.
  repeat match goal with
         | |- context [?a =? ?b] => destruct (Z.eqb_spec a b); [lia|]
         end.
  reflexivity.
Qed.

Lemma CT_fields_ok (d : t) :
  in_range Int32 (Kind d) -> in_range Int32 (Width d) ->
  in_range Int32 (Precision d) ->
  Forall2 (field_ok step) (fields d) (updates d).
Proof.
  intros HK HW HP. unfold fields, updates, step.
  split_fields.
  - apply varint_field_ok_id with (t := Int32) (name := "Kind"%string);
      [lia|reflexivity|assumption].
  - apply varint_field_ok_id with (t := Int32) (name := "Width"%string);
      [lia|reflexivity|assumption].
  - apply varint_field_ok_id with (t := Int32) (name := "Precision"%string);
      [lia|reflexivity|assumption].
Qed.

Lemma CT_fields_cut (d : t) : Forall (field_cut step) (fields d).
Proof.
  unfold fields, step. split_fields.
  - apply varint_field_cut with (t := Int32) (name := "Kind"%string) (set := set_Kind);
      [lia|reflexivity].
  - apply varint_field_cut with (t := Int32) (name := "Width"%string) (set := set_Width);
      [lia|reflexivity].
  - apply varint_field_cut with (t := Int32) (name := "Precision"%string) (set := set_Precision);
      [lia|reflexivity].
Qed.

Lemma CT_replay (u : list byte) : foreign_fields 3 u -> replayed step capture u.
Proof.
  intros H.
  apply (foreign_fields_replayed body 3 XXX_unrecognized set_XXX_unrecognized).
  - intros; apply CT_dispatch_foreign; assumption.
  - reflexivity.
  - reflexivity.
  - intros []; reflexivity.
  - assumption.
Qed.

Lemma CT_unmarshal_encode (d r : t) :
  valid d -> len (encode d) < 2 ^ 63 ->
  Unmarshal r (encode d) = (merge d r, Ok tt).
Proof.
  intros (HK & HW & HP & HU) Hlen. unfold Unmarshal, encode, merge.
  apply loop_fields_replayed.
  - apply CT_fields_ok; assumption.
  - apply CT_replay. assumption.
  - lia.
  - exact Hlen.
Qed.

Lemma CT_merge_zero (d : t) : merge d zero = d.
Proof. destruct d. reflexivity. Qed.
End ColumnTypeFacts.

(** ** ColumnDescriptor *)

Module ColumnDescriptorFacts.
Import ColumnDescriptor.

Section WithID.
Variable IDt : ity.

Lemma CD_dispatch_foreign m data wire i :
  ~ (1 <= fieldNum_of wire <= 4) ->
  body IDt m data wire i
  = unknown_field XXX_unrecognized set_XXX_unrecognized m data wire i.
Proof.
  intros H. unfold body.
  repeat match goal with
         | |- context [?a =? ?b] => destruct (Z.eqb_spec a b); [lia|]
         end.
  reflexivity.
Qed.

Lemma CD_fields_ok (d : t) :
  valid IDt d -> len (encode d) < 2 ^ 63 ->
  Forall2 (field_ok (step IDt)) (fields d) (updates d).
Proof.
  intros (HI & HT & HU) Hlen. unfold fields, updates, step.
  assert (HTl : len (ColumnType.encode (Type_ d)) < 2 ^ 63).
  { apply (nested_len 0x1a _ (fields d) (XXX_unrecognized d));
      [unfold fields; in_list|exact Hlen]. }
  split_fields.
  - apply string_field_ok with (name := "Name"%string); [lia|reflexivity].
  - apply varint_field_ok_id with (t := IDt) (name := "ID"%string);
      [lia|reflexivity|assumption].
  - apply message_field_ok with (name := "Type"%string)
      (sub := ColumnType.Unmarshal) (get := Type_) (set := set_Type);
      [lia|reflexivity| |];
      intros m; rewrite ColumnTypeFacts.CT_unmarshal_encode by assumption;
      reflexivity.
  - apply bool_field_ok with (name := "Nullable"%string); [lia|reflexivity].
Qed.

Lemma CD_fields_cut (d : t) : Forall (field_cut (step IDt)) (fields d).
Proof.
  unfold fields, step. split_fields.
  - apply string_field_cut with (name := "Name"%string) (set := set_Name);
      [lia|reflexivity].
  - apply varint_field_cut with (t := IDt) (name := "ID"%string) (set := set_ID);
      [lia|reflexivity].
  - apply message_field_cut with (name := "Type"%string)
      (sub := ColumnType.Unmarshal) (get := Type_) (set := set_Type);
      [lia|reflexivity].
  - apply bool_field_cut with (name := "Nullable"%string) (set := set_Nullable);
      [lia|reflexivity].
Qed.

Lemma CD_replay (u : list byte) :
  foreign_fields 4 u -> replayed (step IDt) capture u.
Proof.
  intros H.
  apply (foreign_fields_replayed (body IDt) 4 XXX_unrecognized set_XXX_unrecognized).
  - intros; apply CD_dispatch_foreign; assumption.
  - reflexivity.
  - reflexivity.
  - intros []; reflexivity.
  - assumption.
Qed.

Lemma CD_unmarshal_encode (d r : t) :
  valid IDt d -> len (encode d) < 2 ^ 63 ->
  Unmarshal IDt r (encode d) = (merge d r, Ok tt).
Proof.
  intros Hv Hlen. unfold Unmarshal, encode, merge.
  apply loop_fields_replayed.
  - apply CD_fields_ok; assumption.
  - apply CD_replay. apply Hv.
  - lia.
  - exact Hlen.
Qed.
End WithID.

Lemma CD_merge_zero (d : t) : merge d zero = d.
Proof.
  destruct d as [n i ty nu u]. unfold merge, updates, capture. cbn.
  unfold set_XXX_unrecognized, set_Nullable, set_Type, set_ID, set_Name. cbn.
  rewrite ColumnTypeFacts.CT_merge_zero. reflexivity.
Qed.
End ColumnDescriptorFacts.

(** ** IndexDescriptor *)

Module IndexDescriptorFacts.
Import IndexDescriptor.

Lemma IX_apply_add_ColumnName (names : list (list byte)) (m : t) :
  apply_all (map add_ColumnName names) m
  = set_ColumnNames (ColumnNames m ++ names) m.
Proof.
  revert m. induction names as [|s names IH]; intros m.
  - cbn. rewrite app_nil_r. destruct m; reflexivity.
  - cbn [map]. rewrite apply_all_cons, IH. destruct m; cbn.
    unfold set_ColumnNames; cbn. rewrite <- app_assoc. reflexivity.
Qed.

Lemma IX_apply_add_ID (ids : list Z) (m : t) :
  apply_all (map add_ID ids) m = set_ColumnIDs (ColumnIDs m ++ ids) m.
Proof.
  revert m. induction ids as [|s ids IH]; intros m.
  - cbn. rewrite app_nil_r. destruct m; reflexivity.
  - cbn [map]. rewrite apply_all_cons, IH. destruct m; cbn.
    unfold set_ColumnIDs; cbn. rewrite <- app_assoc. reflexivity.
Qed.

Lemma IX_merge_zero (d : t) : merge d zero = d.
Proof.
  destruct d as [n i q names ids u]. unfold merge, updates, capture.
  cbn [Name ID Unique ColumnNames ColumnIDs XXX_unrecognized].
  rewrite !apply_all_app, IX_apply_add_ID, IX_apply_add_ColumnName. reflexivity.
Qed.

Section WithID.
Variable IDt : ity.

Lemma IX_dispatch_foreign m data wire i :
  ~ (1 <= fieldNum_of wire <= 5) ->
  body IDt m data wire i
  = unknown_field XXX_unrecognized set_XXX_unrecognized m data wire i.
Proof.
  intros H. unfold body.
  repeat match goal with
         | |- context [?a =? ?b] => destruct (Z.eqb_spec a b); [lia|]
         end.
  reflexivity.
Qed.

Lemma IX_column_id_ok (v : Z) :
  in_range IDt v ->
  field_ok (step IDt) (enc_varint 0x28 v) (add_ID v).
Proof.
  intros Hv. split; [discriminate|]. intros m pre post Hlen.
  unfold step, enc_varint.
  rewrite (with_tag_at (body IDt) m _ pre (varint_bytes (cast Uint64 v) ++ post) 0x28 (len pre))
    by (reflexivity || lia).
  change (body IDt m (pre ++ (u8 40 :: varint_bytes (cast Uint64 v)) ++ post) 40 (len pre + 1))
    with (add_ColumnID IDt m (pre ++ (u8 40 :: varint_bytes (cast Uint64 v)) ++ post) 0 (len pre + 1)).
  unfold add_ColumnID. cbn [Z.eqb negb].
  rewrite (read_local_at IDt _ (pre ++ [u8 40]) post (cast Uint64 v)).
  - rewrite cast_uint64_back, (cast_id IDt v Hv), len_cons.
    unfold add_ID. f_equal. f_equal. lia.
  - list_assoc.
  - rewrite len_app. reflexivity.
  - apply cast_uint64_range.
Qed.

Lemma IX_column_id_cut (v : Z) : field_cut (step IDt) (enc_varint 0x28 v).
Proof.
  intros m pre j Hj Hlen. unfold step, enc_varint in *.
  rewrite firstn_S_cons by lia. cbn [List.length] in Hj.
  rewrite (with_tag_at (body IDt) m _ pre (firstn (j - 1) (varint_bytes (cast Uint64 v))) 0x28 (len pre))
    by (reflexivity || lia).
  change (body IDt m (pre ++ u8 40 :: firstn (j - 1) (varint_bytes (cast Uint64 v))) 40 (len pre + 1))
    with (add_ColumnID IDt m (pre ++ u8 40 :: firstn (j - 1) (varint_bytes (cast Uint64 v))) 0 (len pre + 1)).
  unfold add_ColumnID. cbn [Z.eqb negb].
  rewrite (read_local_cut IDt _ (pre ++ [u8 40]) (cast Uint64 v) _ (j - 1)).
  - reflexivity.
  - list_assoc.
  - rewrite len_app. reflexivity.
  - apply cast_uint64_range.
  - lia.
Qed.

Lemma IX_fields_ok (d : t) :
  valid IDt d -> Forall2 (field_ok (step IDt)) (fields d) (updates d).
Proof.
  intros (HI & HC & HU). unfold fields, updates.
  repeat apply Forall2_app.
  - unfold step. split_fields.
    + apply string_field_ok with (name := "Name"%string); [lia|reflexivity].
    + apply varint_field_ok_id with (t := IDt) (name := "ID"%string);
        [lia|reflexivity|assumption].
    + apply bool_field_ok with (name := "Unique"%string); [lia|reflexivity].
  - apply Forall2_map_same. intros s _. unfold step.
    apply string_field_ok with (name := "ColumnNames"%string); [lia|reflexivity].
  - apply Forall2_map_same. intros v Hv. apply IX_column_id_ok.
    rewrite Forall_forall in HC. apply HC. assumption.
Qed.

Lemma IX_fields_cut (d : t) : Forall (field_cut (step IDt)) (fields d).
Proof.
  unfold fields. rewrite !Forall_app. repeat split.
  - unfold step. split_fields.
    + apply string_field_cut with (name := "Name"%string) (set := set_Name);
        [lia|reflexivity].
    + apply varint_field_cut with (t := IDt) (name := "ID"%string) (set := set_ID);
        [lia|reflexivity].
    + apply bool_field_cut with (name := "Unique"%string) (set := set_Unique);
        [lia|reflexivity].
  - apply Forall_map_all. intros s. unfold step.
    apply string_field_cut with (name := "ColumnNames"%string) (set := add_ColumnName);
      [lia|reflexivity].
  - apply Forall_map_all. intros v. apply IX_column_id_cut.
Qed.

Lemma IX_replay (u : list byte) :
  foreign_fields 5 u -> replayed (step IDt) capture u.
Proof.
  intros H.
  apply (foreign_fields_replayed (body IDt) 5 XXX_unrecognized set_XXX_unrecognized).
  - intros; apply IX_dispatch_foreign; assumption.
  - reflexivity.
  - reflexivity.
  - intros []; reflexivity.
  - assumption.
Qed.

Lemma IX_unmarshal_encode (d r : t) :
  valid IDt d -> len (encode d) < 2 ^ 63 ->
  Unmarshal IDt r (encode d) = (merge d r, Ok tt).
Proof.
  intros Hv Hlen. unfold Unmarshal, encode, merge.
  apply loop_fields_replayed.
  - apply IX_fields_ok; assumption.
  - apply IX_replay. apply Hv.
  - lia.
  - exact Hlen.
Qed.
End WithID.
End IndexDescriptorFacts.

(** ** PrivilegeDescriptor *)

Module PrivilegeDescriptorFacts.
Import PrivilegeDescriptor.

Lemma PD_apply_add_Read (names : list (list byte)) (m : t) :
  apply_all (map add_Read names) m
  = mk (Read m ++ names) (Write m) (XXX_unrecognized m).
Proof.
  revert m. induction names as [|s names IH]; intros m.
  - cbn. rewrite app_nil_r. destruct m; reflexivity.
  - cbn [map]. rewrite apply_all_cons, IH. destruct m; cbn.
    rewrite <- app_assoc. reflexivity.
Qed.

Lemma PD_apply_add_Write (names : list (list byte)) (m : t) :
  apply_all (map add_Write names) m
  = mk (Read m) (Write m ++ names) (XXX_unrecognized m).
Proof.
  revert m. induction names as [|s names IH]; intros m.
  - cbn. rewrite app_nil_r. destruct m; reflexivity.
  - cbn [map]. rewrite apply_all_cons, IH. destruct m; cbn.
    rewrite <- app_assoc. reflexivity.
Qed.

Lemma PD_merge_zero (d : t) : merge d zero = d.
Proof.
  destruct d as [rd wr u]. unfold merge, updates, capture.
  cbn [Read Write XXX_unrecognized].
  rewrite !apply_all_app, PD_apply_add_Write, PD_apply_add_Read. reflexivity.
Qed.

Lemma PD_dispatch_foreign m data wire i :
  ~ (1 <= fieldNum_of wire <= 2) ->
  body m data wire i
  = unknown_field XXX_unrecognized set_XXX_unrecognized m data wire i.
Proof.
  intros H. unfold body.
  repeat match goal with
         | |- context [?a =? ?b] => destruct (Z.eqb_spec a b); [lia|]
         end.
  reflexivity.
Qed.

Lemma PD_fields_ok (d : t) : Forall2 (field_ok step) (fields d) (updates d).
Proof.
  unfold fields, updates. apply Forall2_app.
  - apply Forall2_map_same. intros s _. unfold step.
    apply string_field_ok with (name := "Read"%string); [lia|reflexivity].
  - apply Forall2_map_same. intros s _. unfold step.
    apply string_field_ok with (name := "Write"%string); [lia|reflexivity].
Qed.

Lemma PD_fields_cut (d : t) : Forall (field_cut step) (fields d).
Proof.
  unfold fields. rewrite !Forall_app. split.
  - apply Forall_map_all. intros s. unfold step.
    apply string_field_cut with (name := "Read"%string) (set := add_Read);
      [lia|reflexivity].
  - apply Forall_map_all. intros s. unfold step.
    apply string_field_cut with (name := "Write"%string) (set := add_Write);
      [lia|reflexivity].
Qed.

Lemma PD_replay (u : list byte) : foreign_fields 2 u -> replayed step capture u.
Proof.
  intros H.
  apply (foreign_fields_replayed body 2 XXX_unrecognized set_XXX_unrecognized).
  - intros; apply PD_dispatch_foreign; assumption.
  - reflexivity.
  - reflexivity.
  - intros []; reflexivity.
  - assumption.
Qed.

Lemma PD_unmarshal_encode (d r : t) :
  valid d -> len (encode d) < 2 ^ 63 ->
  Unmarshal r (encode d) = (merge d r, Ok tt).
Proof.
  intros Hv Hlen. unfold Unmarshal, encode, merge.
  apply loop_fields_replayed.
  - apply PD_fields_ok.
  - apply PD_replay. apply Hv.
  - lia.
  - exact Hlen.
Qed.
End PrivilegeDescriptorFacts.

(** ** TableDescriptor *)

Module TableDescriptorFacts.
Import TableDescriptor.

Lemma TD_apply_add_Column (cs : list ColumnDescriptor.t) (m : t) :
  apply_all (map add_Column cs) m = set_Columns (Columns m ++ cs) m.
Proof.
  revert m. induction cs as [|c cs IH]; intros m.
  - cbn. rewrite app_nil_r. destruct m; reflexivity.
  - cbn [map]. rewrite apply_all_cons, IH. destruct m; cbn.
    unfold set_Columns; cbn. rewrite <- app_assoc. reflexivity.
Qed.

Lemma TD_apply_add_Index (xs : list IndexDescriptor.t) (m : t) :
  apply_all (map add_Index xs) m = set_Indexes (Indexes m ++ xs) m.
Proof.
  revert m. induction xs as [|x xs IH]; intros m.
  - cbn. rewrite app_nil_r. destruct m; reflexivity.
  - cbn [map]. rewrite apply_all_cons, IH. destruct m; cbn.
    unfold set_Indexes; cbn. rewrite <- app_assoc. reflexivity.
Qed.

Lemma TD_merge_zero (d : t) : merge d zero = d.
Proof.
  destruct d as [n i cs nc p xs ni pr u]. unfold merge, updates, capture.
  cbn [Name ID Columns NextColumnID PrimaryIndex Indexes NextIndexID
       Privileges XXX_unrecognized].
  rewrite !apply_all_app, ?apply_all_cons, ?apply_all_nil.
  rewrite TD_apply_add_Column, TD_apply_add_Index.
  cbn. rewrite IndexDescriptorFacts.IX_merge_zero, PrivilegeDescriptorFacts.PD_merge_zero.
  reflexivity.
Qed.

Section WithID.
Variable IDt : ity.

Lemma TD_dispatch_foreign m data wire i :
  ~ (1 <= fieldNum_of wire <= 8) ->
  body IDt m data wire i
  = unknown_field XXX_unrecognized set_XXX_unrecognized m data wire i.
Proof.
  intros H. unfold body.
  repeat match goal with
         | |- context [?a =? ?b] => destruct (Z.eqb_spec a b); [lia|]
         end.
  reflexivity.
Qed.

Lemma TD_fields_ok (d : t) :
  valid IDt d -> len (encode d) < 2 ^ 63 ->
  Forall2 (field_ok (step IDt)) (fields d) (updates d).
Proof.
  intros (HI & HC & HNC & HP & HX & HNI & HPr & HU) Hlen.
  assert (Hnest : forall tag s, In (enc_bytes tag s) (fields d) -> len s < 2 ^ 63).
  { intros tag s Hin. apply (nested_len tag s (fields d) (XXX_unrecognized d) Hin Hlen). }
  unfold fields, updates. unfold fields in Hnest.
  repeat apply Forall2_app.
  - unfold step. split_fields.
    + apply string_field_ok with (name := "Name"%string); [lia|reflexivity].
    + apply varint_field_ok_id with (t := IDt) (name := "ID"%string);
        [lia|reflexivity|assumption].
  - apply Forall2_map_same. intros c Hc. unfold step.
    assert (Hcv : ColumnDescriptor.valid IDt c)
      by (rewrite Forall_forall in HC; apply HC; assumption).
    assert (Hcl : len (ColumnDescriptor.encode c) < 2 ^ 63).
    { apply (Hnest 0x1a). rewrite !in_app_iff. right. left.
      apply in_map_iff. exists c. split; [reflexivity|assumption]. }
    apply message_field_ok with (name := "Columns"%string)
      (sub := ColumnDescriptor.Unmarshal IDt)
      (get := fun _ : t => ColumnDescriptor.zero) (set := add_Column);
      [lia|reflexivity| |];
      intros m; rewrite ColumnDescriptorFacts.CD_unmarshal_encode by assumption;
      cbn [fst]; rewrite ?ColumnDescriptorFacts.CD_merge_zero; reflexivity.
  - unfold step. split_fields.
    + apply varint_field_ok_id with (t := IDt) (name := "NextColumnID"%string);
        [lia|reflexivity|assumption].
    + assert (Hpl : len (IndexDescriptor.encode (PrimaryIndex d)) < 2 ^ 63).
      { apply (Hnest 0x2a). in_list. }
      apply message_field_ok with (name := "PrimaryIndex"%string)
        (sub := IndexDescriptor.Unmarshal IDt)
        (get := PrimaryIndex) (set := set_PrimaryIndex);
        [lia|reflexivity| |];
        intros m; rewrite IndexDescriptorFacts.IX_unmarshal_encode by assumption;
        reflexivity.
  - apply Forall2_map_same. intros x Hx. unfold step.
    assert (Hxv : IndexDescriptor.valid IDt x)
      by (rewrite Forall_forall in HX; apply HX; assumption).
    assert (Hxl : len (IndexDescriptor.encode x) < 2 ^ 63).
    { apply (Hnest 0x32). rewrite !in_app_iff. right. right. right. left.
      apply in_map_iff. exists x. split; [reflexivity|assumption]. }
    apply message_field_ok with (name := "Indexes"%string)
      (sub := IndexDescriptor.Unmarshal IDt)
      (get := fun _ : t => IndexDescriptor.zero) (set := add_Index);
      [lia|reflexivity| |];
      intros m; rewrite IndexDescriptorFacts.IX_unmarshal_encode by assumption;
      cbn [fst]; rewrite ?IndexDescriptorFacts.IX_merge_zero; reflexivity.
  - unfold step. split_fields.
    + apply varint_field_ok_id with (t := IDt) (name := "NextIndexID"%string);
        [lia|reflexivity|assumption].
    + assert (Hpl : len (PrivilegeDescriptor.encode (Privileges d)) < 2 ^ 63).
      { apply (Hnest 0x42). in_list. }
      apply message_field_ok with (name := "PrivilegeDescriptor"%string)
        (sub := PrivilegeDescriptor.Unmarshal)
        (get := Privileges) (set := set_Privileges);
        [lia|reflexivity| |];
        intros m; rewrite PrivilegeDescriptorFacts.PD_unmarshal_encode by assumption;
        reflexivity.
Qed.

Lemma TD_fields_cut (d : t) : Forall (field_cut (step IDt)) (fields d).
Proof.
  unfold fields. rewrite !Forall_app. repeat split.
  - unfold step. split_fields.
    + apply string_field_cut with (name := "Name"%string) (set := set_Name);
        [lia|reflexivity].
    + apply varint_field_cut with (t := IDt) (name := "ID"%string) (set := set_ID);
        [lia|reflexivity].
  - apply Forall_map_all. intros c. unfold step.
    apply message_field_cut with (name := "Columns"%string)
      (sub := ColumnDescriptor.Unmarshal IDt)
      (get := fun _ : t => ColumnDescriptor.zero) (set := add_Column);
      [lia|reflexivity].
  - unfold step. split_fields.
    + apply varint_field_cut with (t := IDt) (name := "NextColumnID"%string)
        (set := set_NextColumnID); [lia|reflexivity].
    + apply message_field_cut with (name := "PrimaryIndex"%string)
        (sub := IndexDescriptor.Unmarshal IDt)
        (get := PrimaryIndex) (set := set_PrimaryIndex); [lia|reflexivity].
  - apply Forall_map_all. intros x. unfold step.
    apply message_field_cut with (name := "Indexes"%string)
      (sub := IndexDescriptor.Unmarshal IDt)
      (get := fun _ : t => IndexDescriptor.zero) (set := add_Index);
      [lia|reflexivity].
  - unfold step. split_fields.
    + apply varint_field_cut with (t := IDt) (name := "NextIndexID"%string)
        (set := set_NextIndexID); [lia|reflexivity].
    + apply message_field_cut with (name := "PrivilegeDescriptor"%string)
        (sub := PrivilegeDescriptor.Unmarshal)
        (get := Privileges) (set := set_Privileges); [lia|reflexivity].
Qed.

Lemma TD_replay (u : list byte) :
  foreign_fields 8 u -> replayed (step IDt) capture u.
Proof.
  intros H.
  apply (foreign_fields_replayed (body IDt) 8 XXX_unrecognized set_XXX_unrecognized).
  - intros; apply TD_dispatch_foreign; assumption.
  - reflexivity.
  - reflexivity.
  - intros []; reflexivity.
  - assumption.
Qed.

Lemma TD_unmarshal_encode (d r : t) :
  valid IDt d -> len (encode d) < 2 ^ 63 ->
  Unmarshal IDt r (encode d) = (merge d r, Ok tt).
Proof.
  intros Hv Hlen. unfold Unmarshal, encode, merge.
  apply loop_fields_replayed.
  - apply TD_fields_ok; assumption.
  - apply TD_replay. apply Hv.
  - lia.
  - exact Hlen.
Qed.
End WithID.
End TableDescriptorFacts.

(** ** DatabaseDescriptor *)

Module DatabaseDescriptorFacts.
Import DatabaseDescriptor.

Lemma DB_merge_zero (d : t) : merge d zero = d.
Proof.
  destruct d as [n i pr u]. unfold merge, updates, capture. cbn.
  unfold set_XXX_unrecognized, set_Privileges, set_ID, set_Name. cbn.
  rewrite PrivilegeDescriptorFacts.PD_merge_zero. reflexivity.
Qed.

Section WithID.
Variable IDt : ity.

Lemma DB_dispatch_foreign m data wire i :
  ~ (1 <= fieldNum_of wire <= 3) ->
  body IDt m data wire i
  = unknown_field XXX_unrecognized set_XXX_unrecognized m data wire i.
Proof.
  intros H. unfold body.
  repeat match goal with
         | |- context [?a =? ?b] => destruct (Z.eqb_spec a b); [lia|]
         end.
  reflexivity.
Qed.

Lemma DB_fields_ok (d : t) :
  valid IDt d -> len (encode d) < 2 ^ 63 ->
  Forall2 (field_ok (step IDt)) (fields d) (updates d).
Proof.
  intros (HI & HPr & HU) Hlen. unfold fields, updates, step.
  assert (Hpl : len (PrivilegeDescriptor.encode (Privileges d)) < 2 ^ 63).
  { apply (nested_len 0x1a _ (fields d) (XXX_unrecognized d));
      [unfold fields; in_list|exact Hlen]. }
  split_fields.
  - apply string_field_ok with (name := "Name"%string); [lia|reflexivity].
  - apply varint_field_ok_id with (t := IDt) (name := "ID"%string);
      [lia|reflexivity|assumption].
  - apply message_field_ok with (name := "PrivilegeDescriptor"%string)
      (sub := PrivilegeDescriptor.Unmarshal)
      (get := Privileges) (set := set_Privileges);
      [lia|reflexivity| |];
      intros m; rewrite PrivilegeDescriptorFacts.PD_unmarshal_encode by assumption;
      reflexivity.
Qed.

Lemma DB_fields_cut (d : t) : Forall (field_cut (step IDt)) (fields d).
Proof.
  unfold fields, step. split_fields.
  - apply string_field_cut with (name := "Name"%string) (set := set_Name);
      [lia|reflexivity].
  - apply varint_field_cut with (t := IDt) (name := "ID"%string) (set := set_ID);
      [lia|reflexivity].
  - apply message_field_cut with (name := "PrivilegeDescriptor"%string)
      (sub := PrivilegeDescriptor.Unmarshal)
      (get := Privileges) (set := set_Privileges); [lia|reflexivity].
Qed.

Lemma DB_replay (u : list byte) :
  foreign_fields 3 u -> replayed (step IDt) capture u.
Proof.
  intros H.
  apply (foreign_fields_replayed (body IDt) 3 XXX_unrecognized set_XXX_unrecognized).
  - intros; apply DB_dispatch_foreign; assumption.
  - reflexivity.
  - reflexivity.
  - intros []; reflexivity.
  - assumption.
Qed.

Lemma DB_unmarshal_encode (d r : t) :
  valid IDt d -> len (encode d) < 2 ^ 63 ->
  Unmarshal IDt r (encode d) = (merge d r, Ok tt).
Proof.
  intros Hv Hlen. unfold Unmarshal, encode, merge.
  apply loop_fields_replayed.
  - apply DB_fields_ok; assumption.
  - apply DB_replay. apply Hv.
  - lia.
  - exact Hlen.
Qed.
End WithID.
End DatabaseDescriptorFacts.

(** ** Writing into a buffer *)

Lemma len_skipn {A} (n : nat) (l : list A) :
  len (skipn n l) = Z.of_nat (List.length l - n).
Proof. unfold len. rewrite length_skipn. reflexivity. Qed.

Lemma len_splice (data : list byte) (i : Z) (bs : list byte) :
  0 <= i -> i + len bs <= len data -> len (splice data i bs) = len data.
Proof.
  intros Hi Hb. unfold splice. rewrite !len_app, len_firstn, len_skipn.
  unfold len in *. lia.
Qed.

Lemma splice_nil (data : list byte) (i : Z) : splice data i [] = data.
Proof.
  unfold splice. cbn [app List.length]. rewrite Nat.add_0_r. apply firstn_skipn.
Qed.

Lemma splice_whole (data bs : list byte) :
  len bs = len data -> splice data 0 bs = bs.
Proof.
  intros H. unfold splice. cbn [Z.to_nat firstn app Nat.add].
  rewrite skipn_all2 by (unfold len in H; lia). apply app_nil_r.
Qed.

Lemma firstn_exact {A} (P R : list A) (k : nat) :
  List.length P = k -> firstn k (P ++ R) = P.
Proof.
  intros <-. rewrite firstn_app, firstn_all, Nat.sub_diag. cbn [firstn].
  apply app_nil_r.
Qed.

Lemma skipn_exact {A} (P R : list A) (k j : nat) :
  List.length P = k -> skipn (k + j) (P ++ R) = skipn j R.
Proof.
  intros <-. rewrite skipn_app, skipn_all2 by lia. cbn [app].
  f_equal. lia.
Qed.

Lemma splice_splice (data : list byte) (i : Z) (a b : list byte) :
  0 <= i -> i + len a <= len data ->
  splice (splice data i a) (i + len a) b = splice data i (a ++ b).
Proof.
  intros Hi Ha. unfold splice.
  assert (Hl : (Z.to_nat i + List.length a <= List.length data)%nat)
    by (unfold len in Ha; lia).
  assert (LP : List.length (firstn (Z.to_nat i) data ++ a)
               = (Z.to_nat i + List.length a)%nat)
    by (rewrite length_app, length_firstn; lia).
  replace (Z.to_nat (i + len a)) with (Z.to_nat i + List.length a)%nat
    by (unfold len; lia).
  rewrite (app_assoc (firstn (Z.to_nat i) data) a).
  rewrite (firstn_exact _ _ _ LP), (skipn_exact _ _ _ _ LP).
  rewrite skipn_skipn, <- !app_assoc. do 4 f_equal.
  rewrite length_app. lia.
Qed.

Lemma splice_tail (data : list byte) (i : Z) (bs : list byte) :
  0 <= i <= len data ->
  firstn (Z.to_nat i) data ++ splice (skipn (Z.to_nat i) data) 0 bs
  = splice data i bs.
Proof.
  intros Hi. unfold splice. cbn [Z.to_nat firstn app Nat.add].
  rewrite skipn_skipn. f_equal. f_equal. f_equal. lia.
Qed.

Lemma store_splice (data : list byte) (i : Z) (v : byte) :
  0 <= i < len data -> store data i v = Ok (splice data i [v]).
Proof.
  intros H. unfold store, splice.
  destruct (Z.leb_spec 0 i); [|lia]. destruct (Z.ltb_spec i (len data)); [|lia].
  cbn [andb app List.length]. rewrite Nat.add_1_r. reflexivity.
Qed.

Lemma slice_from_skipn (data : list byte) (i : Z) :
  0 <= i <= len data -> slice_from data i = Some (skipn (Z.to_nat i) data).
Proof.
  intros H. unfold slice_from, slice.
  destruct (Z.leb_spec 0 i); [|lia]. destruct (Z.leb_spec i (len data)); [|lia].
  rewrite Z.leb_refl. cbn [andb].
  rewrite firstn_all2; [reflexivity|].
  rewrite length_skipn. unfold len. lia.
Qed.

Lemma copy_at_splice (data : list byte) (i : Z) (src : list byte) :
  0 <= i -> i + len src <= len data ->
  copy_at data i src = Ok (splice data i src, len src).
Proof.
  intros Hi Hb. unfold copy_at. pose proof (len_nonneg src).
  rewrite slice_from_skipn by lia.
  assert (E : Z.min (len (skipn (Z.to_nat i) data)) (len src) = len src).
  { rewrite len_skipn. unfold len in *. lia. }
  rewrite E. unfold splice.
  rewrite (@firstn_all2 _ (Z.to_nat (len src)) src) by (unfold len; lia).
  rewrite skipn_skipn.
  replace (Z.to_nat (len src) + Z.to_nat i)%nat
    with (Z.to_nat i + List.length src)%nat by (unfold len; lia).
  reflexivity.
Qed.

(** ** Each write lays down the bytes of its field *)

Lemma writes_seq (f g : list byte -> Z -> res (list byte * Z)) (a b : list byte) :
  writes f a -> writes g b -> writes (f >>> g) (a ++ b).
Proof.
  intros Hf Hg data i Hi Hb Hl. unfold seq.
  rewrite len_app in Hb. pose proof (len_nonneg a). pose proof (len_nonneg b).
  rewrite Hf by lia. cbn [bind].
  rewrite Hg; rewrite ?len_splice; try lia.
  rewrite splice_splice by lia. rewrite len_app. f_equal. f_equal. lia.
Qed.

Lemma writes_run (f : list byte -> Z -> res (list byte * Z)) (bs data : list byte) :
  writes f bs -> len bs <= len data -> len data < 2 ^ 63 ->
  f data 0 = Ok (splice data 0 bs, len bs).
Proof. intros H Hb Hl. rewrite H by lia. reflexivity. Qed.

Lemma writes_ext (f : list byte -> Z -> res (list byte * Z)) (a b : list byte) :
  a = b -> writes f a -> writes f b.
Proof. intros ->. exact id. Qed.

Lemma writes_for_each {A} (body : A -> list byte -> Z -> res (list byte * Z))
    (enc : A -> list byte) (xs : list A) :
  (forall x, In x xs -> writes (body x) (enc x)) ->
  writes (for_each body xs) (List.concat (map enc xs)).
Proof.
  induction xs as [|x xs IH]; intros H.
  - intros data i Hi Hb Hl. cbn. rewrite splice_nil. f_equal. f_equal. lia.
  - cbn [for_each map List.concat].
    change (fun data i => '(data0, i0) <- body x data i;; for_each body xs data0 i0)
      with (body x >>> for_each body xs).
    apply (writes_seq (body x) (for_each body xs)).
    + apply H. left. reflexivity.
    + apply IH. intros y Hy. apply H. right. assumption.
Qed.

Lemma writes_store_loop (n : nat) :
  forall v, 0 <= v < 2 ^ (7 * Z.of_nat (S n)) ->
    writes (fun data i => encodeVarint_loop (S n) data i v)
           (varint_bytes_fuel (S n) v).
Proof.
  induction n as [|n IH]; intros v Hv data i Hi Hb Hl.
  - cbn [encodeVarint_loop varint_bytes_fuel] in *.
    change (2 ^ (7 * Z.of_nat 1)) with 128 in Hv.
    destruct (Z.leb_spec 128 v); [lia|].
    rewrite len_cons, len_nil in *.
    rewrite store_splice by lia. reflexivity.
  - remember (S n) as k. cbn [encodeVarint_loop varint_bytes_fuel] in *.
    destruct (Z.leb_spec 128 v).
    + rewrite len_cons in *.
      pose proof (len_nonneg (varint_bytes_fuel k (Z.shiftr v 7))).
      rewrite store_splice by lia. cbn [bind]. subst k.
      rewrite IH; rewrite ?len_splice; try (rewrite ?len_cons, ?len_nil; lia).
      * change (i + 1) with (i + len [u8 (Z.lor (Z.land v 127) 128)]).
        rewrite splice_splice by (rewrite ?len_cons, ?len_nil; lia).
        cbn [app]. f_equal. f_equal. rewrite len_cons, len_nil. lia.
      * apply shiftr7_bound. lia.
    + rewrite len_cons, len_nil in *.
      rewrite store_splice by lia. reflexivity.
Qed.

Lemma writes_encodeVarint (v : Z) :
  0 <= v < 2 ^ 64 ->
  writes (fun data i => encodeVarintStructured data i v) (varint_bytes v).
Proof. intros H. apply (writes_store_loop 9). apply uint64_fuel. assumption. Qed.

Lemma writes_len_loop (n : nat) :
  forall l, 0 <= l < 2 ^ (7 * Z.of_nat (S n)) -> l < 2 ^ 64 ->
    writes (fun data i => encodeLen_loop (S n) data i l)
           (varint_bytes_fuel (S n) l).
Proof.
  induction n as [|n IH]; intros l Hv H64 data i Hi Hb Hl.
  - cbn [encodeLen_loop varint_bytes_fuel] in *.
    change (2 ^ (7 * Z.of_nat 1)) with 128 in Hv.
    destruct (Z.leb_spec 128 l); [lia|].
    rewrite len_cons, len_nil in *.
    rewrite store_splice by lia. reflexivity.
  - remember (S n) as k. cbn [encodeLen_loop varint_bytes_fuel] in *.
    destruct (Z.leb_spec 128 l).
    + rewrite len_cons in *.
      pose proof (len_nonneg (varint_bytes_fuel k (Z.shiftr l 7))).
      rewrite (cast_uint64_id l) by lia.
      rewrite store_splice by lia. cbn [bind]. subst k.
      assert (Hs : 0 <= Z.shiftr l 7 < 2 ^ (7 * Z.of_nat (S n)))
        by (apply shiftr7_bound; lia).
      assert (Hs64 : Z.shiftr l 7 < 2 ^ 64).
      { rewrite Z.shiftr_div_pow2 by lia. change (2 ^ 7) with 128.
        apply Z.div_lt_upper_bound; lia. }
      rewrite IH; rewrite ?len_splice; try (rewrite ?len_cons, ?len_nil; lia).
      change (i + 1) with (i + len [u8 (Z.lor (Z.land l 127) 128)]).
      rewrite splice_splice by (rewrite ?len_cons, ?len_nil; lia).
      cbn [app]. f_equal. f_equal. rewrite len_cons, len_nil. lia.
    + rewrite len_cons, len_nil in *.
      rewrite store_splice by lia. reflexivity.
Qed.

Lemma writes_put_tag (tag : Z) :
  writes (fun data i => put_tag data i tag) [u8 tag].
Proof.
  intros data i Hi Hb Hl. unfold put_tag. rewrite len_cons, len_nil in *.
  rewrite store_splice by lia. reflexivity.
Qed.

Lemma writes_put_varint (tag v : Z) :
  writes (put_varint tag (cast Uint64 v)) (enc_varint tag v).
Proof.
  unfold enc_varint.
  change (put_varint tag (cast Uint64 v))
    with ((fun data i => put_tag data i tag)
          >>> (fun data i => encodeVarintStructured data i (cast Uint64 v))).
  apply (writes_seq _ _ [u8 tag]).
  - apply writes_put_tag.
  - apply writes_encodeVarint. apply cast_uint64_range.
Qed.

Lemma writes_copy (s : list byte) : writes (fun data i => copy_adv data i s) s.
Proof.
  intros data i Hi Hb Hl. unfold copy_adv.
  rewrite copy_at_splice by lia. reflexivity.
Qed.

Lemma writes_weaken (f f' : list byte -> Z -> res (list byte * Z)) (bs : list byte) :
  (forall data i, len bs <= len data -> len data < 2 ^ 63 -> f' data i = f data i) ->
  writes f bs -> writes f' bs.
Proof.
  intros E H data i Hi Hb Hl. rewrite E by lia. apply H; assumption.
Qed.

Lemma writes_put_string (tag : Z) (s : list byte) :
  writes (put_string tag s) (enc_bytes tag s).
Proof.
  intros data i Hi Hb Hl. revert data i Hi Hb Hl.
  assert (Hs : len (enc_bytes tag s) < 2 ^ 63 -> writes (put_string tag s) (enc_bytes tag s)).
  { intros Hlen. pose proof (len_enc_bytes tag s). pose proof (len_nonneg s).
    assert (2 ^ 63 < 2 ^ 64) by (apply Z.pow_lt_mono_r; lia).
    unfold enc_bytes.
    change (put_string tag s)
      with ((fun data i => put_tag data i tag)
            >>> (fun data i => encodeVarintStructured data i (cast Uint64 (len s)))
            >>> (fun data i => copy_adv data i s)).
    apply (writes_seq _ _ [u8 tag]); [apply writes_put_tag|].
    apply writes_seq; [|apply writes_copy].
    rewrite cast_uint64_id by lia. apply writes_encodeVarint. lia. }
  intros data i Hi Hb Hl. apply Hs; try assumption. lia.
Qed.

Lemma writes_put_repeated_string (tag : Z) (s : list byte) :
  writes (put_repeated_string tag s) (enc_bytes tag s).
Proof.
  assert (Hs : len (enc_bytes tag s) < 2 ^ 63 ->
               writes (put_repeated_string tag s) (enc_bytes tag s)).
  { intros Hlen. pose proof (len_enc_bytes tag s). pose proof (len_nonneg s).
    assert (2 ^ 63 < 2 ^ 64) by (apply Z.pow_lt_mono_r; lia).
    unfold enc_bytes.
    change (put_repeated_string tag s)
      with ((fun data i => put_tag data i tag)
            >>> (fun data i => encodeLen_loop 10 data i (len s))
            >>> (fun data i => copy_adv data i s)).
    apply (writes_seq _ _ [u8 tag]); [apply writes_put_tag|].
    apply writes_seq; [|apply writes_copy].
    apply (writes_len_loop 9); [apply uint64_fuel|]; lia. }
  intros data i Hi Hb Hl. apply Hs; try assumption. lia.
Qed.

Lemma writes_put_bool (tag : Z) (b : bool) :
  writes (put_bool tag b) (enc_bool tag b).
Proof.
  intros data i Hi Hb Hl. unfold put_bool, put_tag, enc_bool in *.
  rewrite len_cons, len_cons, len_nil in Hb.
  rewrite store_splice by lia. cbn [bind].
  rewrite store_splice by (rewrite len_splice; rewrite ?len_cons, ?len_nil; lia).
  cbn [bind].
  change (i + 1) with (i + len [u8 tag]).
  rewrite splice_splice by (rewrite ?len_cons, ?len_nil; lia).
  cbn [app]. rewrite !len_cons, len_nil. f_equal. f_equal. lia.
Qed.

Lemma writes_put_unrecognized (u : list byte) : writes (put_unrecognized u) u.
Proof.
  destruct u as [|b u].
  - intros data i Hi Hb Hl. cbn. rewrite splice_nil. f_equal. f_equal. lia.
  - apply writes_copy.
Qed.

(** A nested message: its [MarshalTo] sees the tail of the buffer. *)
Lemma writes_put_message (tag size : Z)
    (marshalTo : list byte -> res (list byte * Z)) (sub : list byte) :
  (len sub < 2 ^ 63 -> size = len sub) ->
  (forall tail, len sub <= len tail -> len tail < 2 ^ 63 ->
     marshalTo tail = Ok (splice tail 0 sub, len sub)) ->
  writes (put_message tag size marshalTo) (enc_bytes tag sub).
Proof.
  intros Hsize Hsub data i Hi Hb Hl. unfold put_message, put_tag, enc_bytes in *.
  pose proof (len_nonneg sub). pose proof (varint_bytes_bound (len sub)).
  assert (2 ^ 63 < 2 ^ 64) by (apply Z.pow_lt_mono_r; lia).
  rewrite len_cons, len_app in Hb.
  rewrite Hsize by lia. clear Hsize.
  rewrite store_splice by lia. cbn [bind].
  rewrite (cast_uint64_id (len sub)) by lia.
  rewrite (writes_encodeVarint (len sub)); rewrite ?len_splice;
    rewrite ?len_cons, ?len_nil; try lia.
  cbn [bind].
  change (i + 1) with (i + len [u8 tag]).
  rewrite splice_splice by (rewrite ?len_cons, ?len_nil; lia).
  cbn [app].
  set (data1 := splice data i (u8 tag :: varint_bytes (len sub))).
  assert (L1 : len data1 = len data)
    by (apply len_splice; rewrite ?len_cons; lia).
  set (i1 := i + len [u8 tag] + len (varint_bytes (len sub))).
  assert (Hi1 : i1 = i + 1 + len (varint_bytes (len sub))) by reflexivity.
  rewrite slice_from_skipn by lia.
  rewrite Hsub.
  - cbn [bind]. rewrite splice_tail by lia.
    unfold data1, i1.
    replace (i + len [u8 tag] + len (varint_bytes (len sub)))
      with (i + len (u8 tag :: varint_bytes (len sub)))
      by (rewrite !len_cons, len_nil; lia).
    rewrite splice_splice by (rewrite ?len_cons; lia).
    cbn [app]. rewrite !len_cons, len_app. f_equal. f_equal. lia.
  - rewrite len_skipn. unfold len in *. lia.
  - rewrite len_skipn. unfold len in *. lia.
Qed.

(** ** Sizes *)

Lemma size_varint_spec (n tag v : Z) :
  0 <= n -> n + len (enc_varint tag v) < 2 ^ 63 ->
  size_varint n v = n + len (enc_varint tag v).
Proof.
  intros Hn Hb. unfold size_varint, enc_varint in *. rewrite len_cons in *.
  rewrite sovStructured_len by apply cast_uint64_range.
  pose proof (varint_bytes_bound (cast Uint64 v)).
  rewrite two63 in *.
  rewrite (iadd_id 1) by (rewrite two63; lia).
  rewrite iadd_id by (rewrite two63; lia). lia.
Qed.

Lemma size_bytes_spec (n tag : Z) (s : list byte) :
  0 <= n -> n + len (enc_bytes tag s) < 2 ^ 63 ->
  size_bytes n (len s) = n + len (enc_bytes tag s).
Proof.
  intros Hn Hb. unfold size_bytes, enc_bytes in *. rewrite len_cons, len_app in *.
  pose proof (len_nonneg s). pose proof (varint_bytes_bound (len s)).
  rewrite two63 in *.
  rewrite (cast_uint64_id (len s)) by (rewrite two64; lia).
  rewrite sovStructured_len by (rewrite two64; lia).
  rewrite (iadd_id 1) by (rewrite two63; lia).
  rewrite (iadd_id (1 + len s)) by (rewrite two63; lia).
  rewrite iadd_id by (rewrite two63; lia). lia.
Qed.

Lemma size_bool_spec (n tag : Z) (b : bool) :
  0 <= n -> n + len (enc_bool tag b) < 2 ^ 63 ->
  iadd n 2 = n + len (enc_bool tag b).
Proof.
  intros Hn Hb. unfold enc_bool in *. rewrite !len_cons, len_nil in *.
  rewrite two63 in *. rewrite iadd_id; rewrite ?two63; lia.
Qed.

Lemma size_unrecognized_spec (n : Z) (u : list byte) :
  0 <= n -> n + len u < 2 ^ 63 -> size_unrecognized n u = n + len u.
Proof.
  intros Hn Hb. destruct u as [|b u]; [cbn; lia|].
  unfold size_unrecognized. pose proof (len_nonneg (b :: u)).
  rewrite two63 in *. rewrite iadd_id; rewrite ?two63; lia.
Qed.

Lemma size_fold_spec {A} (sz : A -> Z) (enc : A -> list byte) (tag : Z)
    (xs : list A) :
  (forall x, In x xs -> len (enc x) < 2 ^ 63 -> sz x = len (enc x)) ->
  forall n, 0 <= n ->
    n + len (List.concat (map (fun x => enc_bytes tag (enc x)) xs)) < 2 ^ 63 ->
    fold_left (fun n e => size_bytes n (sz e)) xs n
    = n + len (List.concat (map (fun x => enc_bytes tag (enc x)) xs)).
Proof.
  induction xs as [|x xs IH]; intros H n Hn Hb.
  - cbn. lia.
  - cbn [map List.concat fold_left] in *. rewrite len_app in *.
    pose proof (len_nonneg (List.concat (map (fun x => enc_bytes tag (enc x)) xs))).
    pose proof (len_enc_bytes tag (enc x)). pose proof (len_nonneg (enc x)).
    rewrite (H x) by (try (left; reflexivity); lia).
    rewrite (size_bytes_spec n tag (enc x)) by lia.
    rewrite IH; try lia.
    intros y Hy. apply H. right. assumption.
Qed.

Lemma size_fold_varint (tag : Z) (xs : list Z) :
  forall n, 0 <= n ->
    n + len (List.concat (map (enc_varint tag) xs)) < 2 ^ 63 ->
    fold_left size_varint xs n
    = n + len (List.concat (map (enc_varint tag) xs)).
Proof.
  induction xs as [|x xs IH]; intros n Hn Hb.
  - cbn. lia.
  - cbn [map List.concat fold_left] in *. rewrite len_app in *.
    pose proof (len_nonneg (List.concat (map (enc_varint tag) xs))).
    pose proof (len_nonneg (enc_varint tag x)).
    rewrite (size_varint_spec n tag x) by lia.
    rewrite IH; lia.
Qed.

Lemma size_fold_strings (tag : Z) (xs : list (list byte)) :
  forall n, 0 <= n ->
    n + len (List.concat (map (enc_bytes tag) xs)) < 2 ^ 63 ->
    fold_left (fun n s => size_bytes n (len s)) xs n
    = n + len (List.concat (map (enc_bytes tag) xs)).
Proof.
  intros n Hn Hb.
  exact (size_fold_spec (@len byte) (fun s => s) tag xs
           (fun x _ _ => eq_refl) n Hn Hb).
Qed.

(** ** [Size], [MarshalTo] and [Marshal] against the wire image *)

Ltac len_facts :=
  repeat match goal with
         | |- context [len ?x] =>
             lazymatch goal with
             | H : 0 <= len x |- _ => fail
             | _ => pose proof (len_nonneg x)
             end
         | H : context [len ?x] |- _ =>
             lazymatch goal with
             | H : 0 <= len x |- _ => fail
             | _ => pose proof (len_nonneg x)
             end
         end.

Ltac flatten_len H :=
  rewrite ?concat_app in H; cbn [List.concat app] in H;
  rewrite ?len_app, ?len_nil in H.

Ltac flatten_goal :=
  rewrite ?concat_app; cbn [List.concat app];
  rewrite ?len_app, ?len_nil.

Ltac size_side := len_facts; lia.

Ltac flatten_bytes :=
  rewrite ?concat_app; cbn [List.concat app];
  rewrite ?app_nil_r; repeat rewrite <- app_assoc; reflexivity.

Ltac seq_writes :=
  lazymatch goal with
  | |- writes (_ >>> _) _ => apply writes_seq; [|seq_writes]
  | _ => idtac
  end.

Lemma marshal_with_spec (size : Z)
    (marshalTo : list byte -> res (list byte * Z)) (bs : list byte) :
  size = len bs ->
  (forall tail, len bs <= len tail -> len tail < 2 ^ 63 ->
     marshalTo tail = Ok (splice tail 0 bs, len bs)) ->
  len bs < 2 ^ 63 ->
  marshal_with size marshalTo = Ok bs.
Proof.
  intros -> H Hl. unfold marshal_with, make.
  pose proof (len_nonneg bs).
  destruct (Z.ltb_spec (len bs) 0); [lia|]. cbn [bind].
  assert (L : len (repeat x00 (Z.to_nat (len bs))) = len bs)
    by (unfold len; rewrite repeat_length; lia).
  rewrite H by lia. cbn [bind].
  rewrite splice_whole by lia.
  rewrite (slice_at bs [] bs []); try reflexivity.
  rewrite app_nil_r. reflexivity.
Qed.

Module ColumnTypeWire.
Import ColumnType.

Lemma CT_Size_encode (m : t) : len (encode m) < 2 ^ 63 -> Size m = len (encode m).
Proof.
  intros H. unfold encode, fields in *. flatten_len H. flatten_goal.
  unfold Size.
  rewrite (size_varint_spec 0 0x8 (Kind m)) by size_side.
  rewrite (size_varint_spec _ 0x10 (Width m)) by size_side.
  rewrite (size_varint_spec _ 0x18 (Precision m)) by size_side.
  rewrite size_unrecognized_spec by size_side. lia.
Qed.

Lemma CT_MarshalTo_encode (m : t) (tail : list byte) :
  len (encode m) <= len tail -> len tail < 2 ^ 63 ->
  MarshalTo m tail = Ok (splice tail 0 (encode m), len (encode m)).
Proof.
  intros Hb Hl. unfold MarshalTo. apply writes_run; try assumption.
  eapply writes_ext; cycle 1.
  - seq_writes.
    + apply writes_put_varint.
    + apply writes_put_varint.
    + apply writes_put_varint.
    + apply writes_put_unrecognized.
  - unfold encode, fields. flatten_bytes.
Qed.

Lemma CT_Marshal_encode (m : t) : len (encode m) < 2 ^ 63 -> Marshal m = Ok (encode m).
Proof.
  intros H. unfold Marshal. apply marshal_with_spec.
  - apply CT_Size_encode. assumption.
  - apply CT_MarshalTo_encode.
  - assumption.
Qed.
End ColumnTypeWire.

Module ColumnDescriptorWire.
Import ColumnDescriptor.

Lemma CD_Size_encode (m : t) : len (encode m) < 2 ^ 63 -> Size m = len (encode m).
Proof.
  intros H. unfold encode, fields in *. flatten_len H. flatten_goal.
  pose proof (len_enc_bytes 0x1a (ColumnType.encode (Type_ m))).
  unfold Size.
  rewrite (size_bytes_spec 0 0xa (Name m)) by size_side.
  rewrite (size_varint_spec _ 0x10 (ID m)) by size_side.
  rewrite ColumnTypeWire.CT_Size_encode by size_side.
  rewrite (size_bytes_spec _ 0x1a (ColumnType.encode (Type_ m))) by size_side.
  rewrite (size_bool_spec _ 0x20 (Nullable m)) by size_side.
  rewrite size_unrecognized_spec by size_side. lia.
Qed.

Lemma CD_MarshalTo_encode (m : t) (tail : list byte) :
  len (encode m) <= len tail -> len tail < 2 ^ 63 ->
  MarshalTo m tail = Ok (splice tail 0 (encode m), len (encode m)).
Proof.
  intros Hb Hl. unfold MarshalTo. apply writes_run; try assumption.
  eapply writes_ext; cycle 1.
  - seq_writes.
    + apply writes_put_string.
    + apply writes_put_varint.
    + apply writes_put_message.
      * apply ColumnTypeWire.CT_Size_encode.
      * apply ColumnTypeWire.CT_MarshalTo_encode.
    + apply writes_put_bool.
    + apply writes_put_unrecognized.
  - unfold encode, fields. flatten_bytes.
Qed.

Lemma CD_Marshal_encode (m : t) : len (encode m) < 2 ^ 63 -> Marshal m = Ok (encode m).
Proof.
  intros H. unfold Marshal. apply marshal_with_spec.
  - apply CD_Size_encode. assumption.
  - apply CD_MarshalTo_encode.
  - assumption.
Qed.
End ColumnDescriptorWire.

Module IndexDescriptorWire.
Import IndexDescriptor.

Lemma IX_Size_encode (m : t) : len (encode m) < 2 ^ 63 -> Size m = len (encode m).
Proof.
  intros H. unfold encode, fields in *. flatten_len H. flatten_goal.
  unfold Size.
  rewrite (size_bytes_spec 0 0xa (Name m)) by size_side.
  rewrite (size_varint_spec _ 0x10 (ID m)) by size_side.
  rewrite (size_bool_spec _ 0x18 (Unique m)) by size_side.
  rewrite (size_fold_strings 0x22 (ColumnNames m)) by size_side.
  rewrite (size_fold_varint 0x28 (ColumnIDs m)) by size_side.
  rewrite size_unrecognized_spec by size_side. lia.
Qed.

Lemma IX_MarshalTo_encode (m : t) (tail : list byte) :
  len (encode m) <= len tail -> len tail < 2 ^ 63 ->
  MarshalTo m tail = Ok (splice tail 0 (encode m), len (encode m)).
Proof.
  intros Hb Hl. unfold MarshalTo. apply writes_run; try assumption.
  eapply writes_ext; cycle 1.
  - seq_writes.
    + apply writes_put_string.
    + apply writes_put_varint.
    + apply writes_put_bool.
    + apply writes_for_each with (enc := enc_bytes 0x22).
      intros s _. apply writes_put_repeated_string.
    + apply writes_for_each with (enc := enc_varint 0x28).
      intros v _. apply writes_put_varint.
    + apply writes_put_unrecognized.
  - unfold encode, fields. flatten_bytes.
Qed.

Lemma IX_Marshal_encode (m : t) : len (encode m) < 2 ^ 63 -> Marshal m = Ok (encode m).
Proof.
  intros H. unfold Marshal. apply marshal_with_spec.
  - apply IX_Size_encode. assumption.
  - apply IX_MarshalTo_encode.
  - assumption.
Qed.
End IndexDescriptorWire.

Module PrivilegeDescriptorWire.
Import PrivilegeDescriptor.

Lemma PD_Size_encode (m : t) : len (encode m) < 2 ^ 63 -> Size m = len (encode m).
Proof.
  intros H. unfold encode, fields in *. flatten_len H. flatten_goal.
  unfold Size.
  rewrite (size_fold_strings 0xa (Read m)) by size_side.
  rewrite (size_fold_strings 0x12 (Write m)) by size_side.
  rewrite size_unrecognized_spec by size_side. lia.
Qed.

Lemma PD_MarshalTo_encode (m : t) (tail : list byte) :
  len (encode m) <= len tail -> len tail < 2 ^ 63 ->
  MarshalTo m tail = Ok (splice tail 0 (encode m), len (encode m)).
Proof.
  intros Hb Hl. unfold MarshalTo. apply writes_run; try assumption.
  eapply writes_ext; cycle 1.
  - seq_writes.
    + apply writes_for_each with (enc := enc_bytes 0xa).
      intros s _. apply writes_put_repeated_string.
    + apply writes_for_each with (enc := enc_bytes 0x12).
      intros s _. apply writes_put_repeated_string.
    + apply writes_put_unrecognized.
  - unfold encode, fields. flatten_bytes.
Qed.

Lemma PD_Marshal_encode (m : t) : len (encode m) < 2 ^ 63 -> Marshal m = Ok (encode m).
Proof.
  intros H. unfold Marshal. apply marshal_with_spec.
  - apply PD_Size_encode. assumption.
  - apply PD_MarshalTo_encode.
  - assumption.
Qed.
End PrivilegeDescriptorWire.

Module TableDescriptorWire.
Import TableDescriptor.

Lemma TD_Size_encode (m : t) : len (encode m) < 2 ^ 63 -> Size m = len (encode m).
Proof.
  intros H. unfold encode, fields in *. flatten_len H. flatten_goal.
  pose proof (len_enc_bytes 0x2a (IndexDescriptor.encode (PrimaryIndex m))).
  pose proof (len_enc_bytes 0x42 (PrivilegeDescriptor.encode (Privileges m))).
  unfold Size.
  rewrite (size_bytes_spec 0 0xa (Name m)) by size_side.
  rewrite (size_varint_spec _ 0x10 (ID m)) by size_side.
  rewrite (size_fold_spec ColumnDescriptor.Size ColumnDescriptor.encode 0x1a (Columns m))
    by (try (intros; apply ColumnDescriptorWire.CD_Size_encode; assumption); size_side).
  rewrite (size_varint_spec _ 0x20 (NextColumnID m)) by size_side.
  rewrite IndexDescriptorWire.IX_Size_encode by size_side.
  rewrite (size_bytes_spec _ 0x2a (IndexDescriptor.encode (PrimaryIndex m))) by size_side.
  rewrite (size_fold_spec IndexDescriptor.Size IndexDescriptor.encode 0x32 (Indexes m))
    by (try (intros; apply IndexDescriptorWire.IX_Size_encode; assumption); size_side).
  rewrite (size_varint_spec _ 0x38 (NextIndexID m)) by size_side.
  rewrite PrivilegeDescriptorWire.PD_Size_encode by size_side.
  rewrite (size_bytes_spec _ 0x42 (PrivilegeDescriptor.encode (Privileges m))) by size_side.
  rewrite size_unrecognized_spec by size_side. lia.
Qed.

Lemma TD_MarshalTo_encode (m : t) (tail : list byte) :
  len (encode m) <= len tail -> len tail < 2 ^ 63 ->
  MarshalTo m tail = Ok (splice tail 0 (encode m), len (encode m)).
Proof.
  intros Hb Hl. unfold MarshalTo. apply writes_run; try assumption.
  eapply writes_ext; cycle 1.
  - seq_writes.
    + apply writes_put_string.
    + apply writes_put_varint.
    + apply writes_for_each
        with (enc := fun c => enc_bytes 0x1a (ColumnDescriptor.encode c)).
      intros c _. apply writes_put_message.
      * apply ColumnDescriptorWire.CD_Size_encode.
      * apply ColumnDescriptorWire.CD_MarshalTo_encode.
    + apply writes_put_varint.
    + apply writes_put_message.
      * apply IndexDescriptorWire.IX_Size_encode.
      * apply IndexDescriptorWire.IX_MarshalTo_encode.
    + apply writes_for_each
        with (enc := fun x => enc_bytes 0x32 (IndexDescriptor.encode x)).
      intros x _. apply writes_put_message.
      * apply IndexDescriptorWire.IX_Size_encode.
      * apply IndexDescriptorWire.IX_MarshalTo_encode.
    + apply writes_put_varint.
    + apply writes_put_message.
      * apply PrivilegeDescriptorWire.PD_Size_encode.
      * apply PrivilegeDescriptorWire.PD_MarshalTo_encode.
    + apply writes_put_unrecognized.
  - unfold encode, fields. flatten_bytes.
Qed.

Lemma TD_Marshal_encode (m : t) : len (encode m) < 2 ^ 63 -> Marshal m = Ok (encode m).
Proof.
  intros H. unfold Marshal. apply marshal_with_spec.
  - apply TD_Size_encode. assumption.
  - apply TD_MarshalTo_encode.
  - assumption.
Qed.
End TableDescriptorWire.

Module DatabaseDescriptorWire.
Import DatabaseDescriptor.

Lemma DB_Size_encode (m : t) : len (encode m) < 2 ^ 63 -> Size m = len (encode m).
Proof.
  intros H. unfold encode, fields in *. flatten_len H. flatten_goal.
  pose proof (len_enc_bytes 0x1a (PrivilegeDescriptor.encode (Privileges m))).
  unfold Size.
  rewrite (size_bytes_spec 0 0xa (Name m)) by size_side.
  rewrite (size_varint_spec _ 0x10 (ID m)) by size_side.
  rewrite PrivilegeDescriptorWire.PD_Size_encode by size_side.
  rewrite (size_bytes_spec _ 0x1a (PrivilegeDescriptor.encode (Privileges m))) by size_side.
  rewrite size_unrecognized_spec by size_side. lia.
Qed.

Lemma DB_MarshalTo_encode (m : t) (tail : list byte) :
  len (encode m) <= len tail -> len tail < 2 ^ 63 ->
  MarshalTo m tail = Ok (splice tail 0 (encode m), len (encode m)).
Proof.
  intros Hb Hl. unfold MarshalTo. apply writes_run; try assumption.
  eapply writes_ext; cycle 1.
  - seq_writes.
    + apply writes_put_string.
    + apply writes_put_varint.
    + apply writes_put_message.
      * apply PrivilegeDescriptorWire.PD_Size_encode.
      * apply PrivilegeDescriptorWire.PD_MarshalTo_encode.
    + apply writes_put_unrecognized.
  - unfold encode, fields. flatten_bytes.
Qed.

Lemma DB_Marshal_encode (m : t) : len (encode m) < 2 ^ 63 -> Marshal m = Ok (encode m).
Proof.
  intros H. unfold Marshal. apply marshal_with_spec.
  - apply DB_Size_encode. assumption.
  - apply DB_MarshalTo_encode.
  - assumption.
Qed.
End DatabaseDescriptorWire.

(** * Any descriptor: the per-type results gathered *)

Module DescriptorFacts.
Import Descriptor.

Lemma D_Size_encode (d : t) : fits d -> Size d = len (encode d).
Proof.
  destruct d; intros H;
    cbn [Size Marshal encode fits] in *.
  - apply ColumnTypeWire.CT_Size_encode; exact H.
  - apply ColumnDescriptorWire.CD_Size_encode; exact H.
  - apply IndexDescriptorWire.IX_Size_encode; exact H.
  - apply PrivilegeDescriptorWire.PD_Size_encode; exact H.
  - apply TableDescriptorWire.TD_Size_encode; exact H.
  - apply DatabaseDescriptorWire.DB_Size_encode; exact H.
Qed.

Lemma D_Marshal_encode (d : t) : fits d -> Marshal d = Ok (encode d).
Proof.
  destruct d; intros H;
    cbn [Size Marshal encode fits] in *.
  - apply ColumnTypeWire.CT_Marshal_encode; exact H.
  - apply ColumnDescriptorWire.CD_Marshal_encode; exact H.
  - apply IndexDescriptorWire.IX_Marshal_encode; exact H.
  - apply PrivilegeDescriptorWire.PD_Marshal_encode; exact H.
  - apply TableDescriptorWire.TD_Marshal_encode; exact H.
  - apply DatabaseDescriptorWire.DB_Marshal_encode; exact H.
Qed.

Lemma D_MarshalTo_encode (d : t) (data : list byte) :
  len (encode d) <= len data -> len data < 2 ^ 63 ->
  MarshalTo d data = Ok (splice data 0 (encode d), len (encode d)).
Proof.
  destruct d; intros H1 H2;
    cbn [MarshalTo encode] in *.
  - apply ColumnTypeWire.CT_MarshalTo_encode; assumption.
  - apply ColumnDescriptorWire.CD_MarshalTo_encode; assumption.
  - apply IndexDescriptorWire.IX_MarshalTo_encode; assumption.
  - apply PrivilegeDescriptorWire.PD_MarshalTo_encode; assumption.
  - apply TableDescriptorWire.TD_MarshalTo_encode; assumption.
  - apply DatabaseDescriptorWire.DB_MarshalTo_encode; assumption.
Qed.

Lemma D_Unmarshal_encode (IDt : ity) (d : t) :
  valid IDt d -> fits d ->
  Unmarshal IDt (zero (kind_of d)) (encode d) = (d, Ok tt).
Proof.
  destruct d as [m|m|m|m|m|m]; intros Hv Hf; unfold fits, encode in *;
    cbn [fields XXX_unrecognized kind_of zero Unmarshal valid] in *;
    unfold on_fst.
  - change (List.concat (ColumnType.fields m) ++ ColumnType.XXX_unrecognized m)
      with (ColumnType.encode m).
    rewrite ColumnTypeFacts.CT_unmarshal_encode by assumption.
    cbn [fst snd]. rewrite ColumnTypeFacts.CT_merge_zero. reflexivity.
  - change (List.concat (ColumnDescriptor.fields m) ++ ColumnDescriptor.XXX_unrecognized m)
      with (ColumnDescriptor.encode m).
    rewrite ColumnDescriptorFacts.CD_unmarshal_encode by assumption.
    cbn [fst snd]. rewrite ColumnDescriptorFacts.CD_merge_zero. reflexivity.
  - change (List.concat (IndexDescriptor.fields m) ++ IndexDescriptor.XXX_unrecognized m)
      with (IndexDescriptor.encode m).
    rewrite IndexDescriptorFacts.IX_unmarshal_encode by assumption.
    cbn [fst snd]. rewrite IndexDescriptorFacts.IX_merge_zero. reflexivity.
  - change (List.concat (PrivilegeDescriptor.fields m) ++ PrivilegeDescriptor.XXX_unrecognized m)
      with (PrivilegeDescriptor.encode m).
    rewrite PrivilegeDescriptorFacts.PD_unmarshal_encode by assumption.
    cbn [fst snd]. rewrite PrivilegeDescriptorFacts.PD_merge_zero. reflexivity.
  - change (List.concat (TableDescriptor.fields m) ++ TableDescriptor.XXX_unrecognized m)
      with (TableDescriptor.encode m).
    rewrite TableDescriptorFacts.TD_unmarshal_encode by assumption.
    cbn [fst snd]. rewrite TableDescriptorFacts.TD_merge_zero. reflexivity.
  - change (List.concat (DatabaseDescriptor.fields m) ++ DatabaseDescriptor.XXX_unrecognized m)
      with (DatabaseDescriptor.encode m).
    rewrite DatabaseDescriptorFacts.DB_unmarshal_encode by assumption.
    cbn [fst snd]. rewrite DatabaseDescriptorFacts.DB_merge_zero. reflexivity.
Qed.

(** Cutting the wire image inside its known fields. *)
Section Cut.
Context {T : Type} (step : T -> list byte -> Z -> T * res Z).

Lemma D_firstn_known (k : nat) (known u : list byte) :
  (k < List.length known)%nat -> firstn k (known ++ u) = firstn k known.
Proof.
  intros H. rewrite firstn_app.
  replace (k - List.length known)%nat with 0%nat by lia.
  cbn. apply app_nil_r.
Qed.

Lemma D_cut_cases (fs : list (list byte)) (upds : list (T -> T))
    (u : list byte) (m : T) (k : nat) :
  Forall2 (field_ok step) fs upds ->
  Forall (field_cut step) fs ->
  len (List.concat fs ++ u) < 2 ^ 63 ->
  (k < List.length (List.concat fs))%nat ->
  let cut := firstn k (List.concat fs ++ u) in
  (~ In k (boundaries fs) ->
   snd (unmarshal_loop step (List.length cut) m cut 0) = Fail ErrUnexpectedEOF)
  /\ (In k (boundaries fs) ->
      snd (unmarshal_loop step (List.length cut) m cut 0) = Ok tt).
Proof.
  intros Hok Hcut Hlen Hk cut. subst cut.
  rewrite D_firstn_known by assumption.
  rewrite len_app in Hlen. pose proof (len_nonneg u).
  assert (Hl : List.length (firstn k (List.concat fs)) = k)
    by (rewrite length_firstn; lia).
  rewrite Hl. split; intros Hb.
  - apply (loop_cut step fs upds Hok Hcut k k m []); try assumption; try lia.
    cbn [app]. lia.
  - apply (loop_boundary step fs upds Hok k k m); try assumption; lia.
Qed.
End Cut.

Lemma D_cut_all {T : Type} (body : T -> list byte -> Z -> Z -> T * res Z)
    (n : Z) (get : T -> list byte) (set : list byte -> T -> T)
    (fs : list (list byte)) (upds : list (T -> T)) (us : list (list byte))
    (m : T) (k : nat) :
  (forall m data wire i,
      ~ (1 <= fieldNum_of wire <= n) ->
      body m data wire i = unknown_field get set m data wire i) ->
  Forall2 (field_ok (with_tag body)) fs upds ->
  Forall (field_cut (with_tag body)) fs ->
  Forall (foreign_field n) us ->
  len (List.concat fs ++ List.concat us) < 2 ^ 63 ->
  (k < List.length (List.concat fs ++ List.concat us))%nat ->
  let cut := firstn k (List.concat fs ++ List.concat us) in
  (~ In k (boundaries (fs ++ us)) ->
   snd (unmarshal_loop (with_tag body) (List.length cut) m cut 0)
   = Fail ErrUnexpectedEOF)
  /\ (In k (boundaries (fs ++ us)) ->
      snd (unmarshal_loop (with_tag body) (List.length cut) m cut 0) = Ok tt).
Proof.
  intros Hd Hok Hcut Hus Hlen Hk.
  rewrite <- concat_app in *.
  pose proof (D_cut_cases (with_tag body) (fs ++ us)
                (upds ++ map (fun f m => set (get m ++ f) m) us) [] m k) as H.
  rewrite !app_nil_r in H. apply H; try assumption.
  - apply Forall2_app; [assumption|].
    apply (foreign_all_ok body n get set Hd). assumption.
  - apply Forall_app. split; [assumption|].
    apply (foreign_all_cut body n get set Hd). assumption.
Qed.

Lemma D_Unmarshal_cut (IDt : ity) (d : t) (us : list (list byte)) (k : nat) :
  valid IDt d -> fits d ->
  Forall (foreign_field (nfields (kind_of d))) us ->
  XXX_unrecognized d = List.concat us ->
  (k < List.length (encode d))%nat ->
  (~ In k (boundaries (fields d ++ us)) ->
   snd (Unmarshal IDt (zero (kind_of d)) (firstn k (encode d)))
   = Fail ErrUnexpectedEOF)
  /\ (In k (boundaries (fields d ++ us)) ->
      snd (Unmarshal IDt (zero (kind_of d)) (firstn k (encode d))) = Ok tt).
Proof.
  destruct d as [m|m|m|m|m|m]; intros Hv Hf Hus Hu Hk; unfold fits, encode in *;
    cbn [fields XXX_unrecognized kind_of zero Unmarshal valid nfields] in *;
    unfold on_fst; cbn [snd]; rewrite Hu in *.
  - destruct Hv as (HK & HW & HP & HU).
    apply (D_cut_all ColumnType.body 3 ColumnType.XXX_unrecognized
             ColumnType.set_XXX_unrecognized _ (ColumnType.updates m));
      try assumption.
    + apply ColumnTypeFacts.CT_dispatch_foreign.
    + apply ColumnTypeFacts.CT_fields_ok; assumption.
    + apply ColumnTypeFacts.CT_fields_cut.
  - apply (D_cut_all (ColumnDescriptor.body IDt) 4 ColumnDescriptor.XXX_unrecognized
             ColumnDescriptor.set_XXX_unrecognized _ (ColumnDescriptor.updates m));
      try assumption.
    + apply ColumnDescriptorFacts.CD_dispatch_foreign.
    + apply ColumnDescriptorFacts.CD_fields_ok; try assumption.
      unfold ColumnDescriptor.encode. rewrite Hu. assumption.
    + apply ColumnDescriptorFacts.CD_fields_cut.
  - apply (D_cut_all (IndexDescriptor.body IDt) 5 IndexDescriptor.XXX_unrecognized
             IndexDescriptor.set_XXX_unrecognized _ (IndexDescriptor.updates m));
      try assumption.
    + apply IndexDescriptorFacts.IX_dispatch_foreign.
    + apply IndexDescriptorFacts.IX_fields_ok; assumption.
    + apply IndexDescriptorFacts.IX_fields_cut.
  - apply (D_cut_all PrivilegeDescriptor.body 2 PrivilegeDescriptor.XXX_unrecognized
             PrivilegeDescriptor.set_XXX_unrecognized _ (PrivilegeDescriptor.updates m));
      try assumption.
    + apply PrivilegeDescriptorFacts.PD_dispatch_foreign.
    + apply PrivilegeDescriptorFacts.PD_fields_ok.
    + apply PrivilegeDescriptorFacts.PD_fields_cut.
  - apply (D_cut_all (TableDescriptor.body IDt) 8 TableDescriptor.XXX_unrecognized
             TableDescriptor.set_XXX_unrecognized _ (TableDescriptor.updates m));
      try assumption.
    + apply TableDescriptorFacts.TD_dispatch_foreign.
    + apply TableDescriptorFacts.TD_fields_ok; try assumption.
      unfold TableDescriptor.encode. rewrite Hu. assumption.
    + apply TableDescriptorFacts.TD_fields_cut.
  - apply (D_cut_all (DatabaseDescriptor.body IDt) 3 DatabaseDescriptor.XXX_unrecognized
             DatabaseDescriptor.set_XXX_unrecognized _ (DatabaseDescriptor.updates m));
      try assumption.
    + apply DatabaseDescriptorFacts.DB_dispatch_foreign.
    + apply DatabaseDescriptorFacts.DB_fields_ok; try assumption.
      unfold DatabaseDescriptor.encode. rewrite Hu. assumption.
    + apply DatabaseDescriptorFacts.DB_fields_cut.
Qed.
End DescriptorFacts.

(** ** The example table is valid *)

Lemma foreign_fields_nil (n : Z) : foreign_fields n [].
Proof. exists []. split; [constructor|reflexivity]. Defined.

Lemma items_valid : Descriptor.valid Uint32 (Descriptor.OfTableDescriptor Items.table).
Proof.
  cbn. unfold TableDescriptor.valid, ColumnDescriptor.valid, IndexDescriptor.valid,
    PrivilegeDescriptor.valid, ColumnType.valid, in_range. cbn.
  repeat first [ split | apply Forall_cons | apply Forall_nil
               | apply foreign_fields_nil | lia | (cbn; lia) ].
Defined.

Lemma items_fits : Descriptor.fits (Descriptor.OfTableDescriptor Items.table).
Proof. unfold Descriptor.fits. vm_compute. reflexivity. Defined.

(** * The loops end: no outcome is [Exhausted] *)

(** ** The encoder's loops *)

Lemma sov_loop_more (f : nat) :
  forall n x (g : nat), 0 <= x < 2 ^ (7 * Z.of_nat (S f)) -> (S f <= g)%nat ->
    sov_loop g n x = sov_loop (S f) n x.
Proof.
  induction f as [|f IH]; intros n x g Hx Hg.
  - destruct g as [|g]; [lia|]. cbn [sov_loop].
    change (2 ^ (7 * Z.of_nat 1)) with 128 in Hx.
    rewrite shiftr7_zero by lia.
    destruct (Z.leb_spec 128 x); [lia|]. reflexivity.
  - destruct g as [|g]; [lia|]. remember (S f) as j. cbn [sov_loop].
    destruct (Z.shiftr x 7 =? 0); [reflexivity|]. subst j.
    apply IH; [apply shiftr7_bound; assumption|lia].
Qed.

(** Ten rounds empty a [uint64]: more fuel gives the same size. *)
Lemma sov_loop_fuel (x : Z) (fuel : nat) :
  0 <= x < 2 ^ 64 -> (10 <= fuel)%nat -> sov_loop fuel 0 x = sovStructured x.
Proof.
  intros Hx Hf. unfold sovStructured.
  apply sov_loop_more; [apply uint64_fuel; assumption|assumption].
Qed.

Lemma store_total (data : list byte) (i : Z) (v : byte) :
  store data i v <> Exhausted.
Proof. unfold store. destruct (_ && _); discriminate. Qed.

Lemma encodeVarint_loop_total (f : nat) :
  forall data offset v, 0 <= v < 2 ^ (7 * Z.of_nat (S f)) ->
    encodeVarint_loop (S f) data offset v <> Exhausted.
Proof.
  induction f as [|f IH]; intros data offset v Hv.
  - cbn [encodeVarint_loop].
    change (2 ^ (7 * Z.of_nat 1)) with 128 in Hv.
    destruct (Z.leb_spec 128 v); [lia|].
    pose proof (store_total data offset (u8 v)).
    destruct (store data offset (u8 v)); cbn; congruence.
  - remember (S f) as j. cbn [encodeVarint_loop].
    destruct (128 <=? v).
    + pose proof (store_total data offset (u8 (Z.lor (Z.land v 127) 128))).
      destruct (store data offset _) as [d| | |]; cbn [bind]; try congruence.
      subst j. apply IH. apply shiftr7_bound; assumption.
    + pose proof (store_total data offset (u8 v)).
      destruct (store data offset (u8 v)); cbn; congruence.
Qed.

(** A [uint64] leaves the loop of [encodeVarintStructured] within its ten
    rounds. *)
Lemma encodeVarint_loop_fuel (data : list byte) (offset v : Z) :
  0 <= v < 2 ^ 64 -> encodeVarintStructured data offset v <> Exhausted.
Proof.
  intros Hv. unfold encodeVarintStructured.
  apply encodeVarint_loop_total, uint64_fuel, Hv.
Qed.

(** ** Reading *)

Lemma lands_weaken (lo hi lo' hi' : Z) (r : res Z) :
  lands lo hi r -> lo' <= lo -> hi <= hi' -> lands lo' hi' r.
Proof. destruct r; cbn; intros; try tauto; lia. Qed.

Lemma varint_loop_lands (t : ity) (rest : list byte) :
  forall i s acc, lands i (i + len rest) (snd (varint_loop t rest i s acc)).
Proof.
  induction rest as [|b rest IH]; intros i s acc; cbn [varint_loop].
  - exact I.
  - rewrite len_cons. pose proof (len_nonneg rest).
    destruct (bv b <? 0x80).
    + cbn [lands snd]. lia.
    + eapply lands_weaken; [apply IH|lia|lia].
Qed.

Lemma len_skipn_at (i : Z) (data : list byte) :
  0 <= i <= len data -> len (skipn (Z.to_nat i) data) = len data - i.
Proof.
  intros H. unfold len in *. rewrite length_skipn. lia.
Qed.

Lemma read_varint_lands (t : ity) (data : list byte) (i : Z) :
  lands i (len data) (snd (read_varint t data i)).
Proof.
  unfold read_varint. destruct (Z.ltb_spec i 0); [exact I|].
  destruct (Z_le_gt_dec i (len data)).
  - eapply lands_weaken; [apply varint_loop_lands|lia|].
    rewrite len_skipn_at by lia. lia.
  - rewrite skipn_all2 by (unfold len in *; lia). exact I.
Qed.

Lemma read_local_total (t : ity) (data : list byte) (i : Z) :
  read_local t data i <> Exhausted.
Proof.
  unfold read_local. pose proof (read_varint_lands t data i) as H.
  destruct (read_varint t data i) as [v [i'| | |]]; cbn in *;
    try discriminate. contradiction.
Qed.

Lemma read_local_lands (t : ity) (data : list byte) (i v i' : Z) :
  read_local t data i = Ok (v, i') -> 0 <= i < i' /\ i' <= len data.
Proof.
  unfold read_local. pose proof (read_varint_lands t data i) as H.
  unfold read_varint in *. destruct (Z.ltb_spec i 0).
  - cbn. discriminate.
  - destruct (varint_loop _ _ _ _ _) as [w [j| | |]]; cbn in *;
      try discriminate.
    intros E. inversion E; subst. lia.
Qed.

(** ** The values read *)

Lemma cast_cast (t : ity) (x : Z) : cast t (cast t x) = cast t x.
Proof. apply cast_id, cast_in_range. Qed.

Lemma varint_loop_in_range (t : ity) (rest : list byte) :
  forall i s acc, cast t acc = acc ->
    in_range t (fst (varint_loop t rest i s acc)).
Proof.
  induction rest as [|b rest IH]; intros i s acc Hacc; cbn [varint_loop].
  - cbn. rewrite <- Hacc. apply cast_in_range.
  - match goal with
    | |- context [Z.lor acc ?y] =>
        assert (Hn : cast t (Z.lor acc y) = Z.lor acc y)
          by (rewrite cast_lor, Hacc, cast_cast; reflexivity)
    end.
    destruct (bv b <? 0x80).
    + cbn [fst]. rewrite <- Hn. apply cast_in_range.
    + apply IH. exact Hn.
Qed.

Lemma read_local_in_range (t : ity) (data : list byte) (i v i' : Z) :
  read_local t data i = Ok (v, i') -> in_range t v.
Proof.
  unfold read_local, read_varint. destruct (i <? 0); [cbn; discriminate|].
  pose proof (varint_loop_in_range t (skipn (Z.to_nat i) data) i 0 0) as H.
  destruct (varint_loop _ _ _ _ _) as [w [j| | |]]; cbn in *;
    try discriminate.
  intros E. inversion E; subst. apply H. destruct t; reflexivity.
Qed.

Lemma lor_below (a b n : Z) :
  0 <= n -> 0 <= a < 2 ^ n -> 0 <= b < 2 ^ n -> 0 <= Z.lor a b < 2 ^ n.
Proof.
  intros Hn Ha Hb.
  assert (H0 : 0 <= Z.lor a b) by (apply Z.lor_nonneg; lia).
  split; [exact H0|].
  assert (E : Z.shiftr (Z.lor a b) n = 0).
  { rewrite Z.shiftr_lor, !Z.shiftr_div_pow2 by lia.
    rewrite !Z.div_small by lia. reflexivity. }
  rewrite Z.shiftr_div_pow2 in E by lia.
  apply Z.div_small_iff in E; lia.
Qed.

Lemma cast_uint64_le (x : Z) : 0 <= x -> cast Uint64 x <= x.
Proof.
  intros H. unfold cast. cbn [signed bits andb].
  apply Z.mod_le; lia.
Qed.

(** The tag read from [k] bytes is below [2^(7k)]. *)
Lemma varint_loop_below (rest : list byte) :
  forall i (j : nat) acc v i',
    0 <= acc < 2 ^ (7 * Z.of_nat j) ->
    varint_loop Uint64 rest i (7 * Z.of_nat j) acc = (v, Ok i') ->
    0 <= v < 2 ^ (7 * (Z.of_nat j + (i' - i))).
Proof.
  induction rest as [|b rest IH]; intros i j acc v i' Hacc; cbn [varint_loop].
  - discriminate.
  - set (y := cast Uint64 (Z.shiftl (Z.land (cast Uint64 (bv b)) 0x7F)
                             (7 * Z.of_nat j))).
    assert (Hy : 0 <= y < 2 ^ (7 * Z.of_nat (S j))).
    { subst y. pose proof (land127_range (cast Uint64 (bv b))) as Hl.
      assert (Hs : 0 <= Z.shiftl (Z.land (cast Uint64 (bv b)) 127)
                          (7 * Z.of_nat j) < 2 ^ (7 * Z.of_nat (S j))).
      { rewrite Z.shiftl_mul_pow2 by lia. rewrite pow7_succ. nia. }
      pose proof (cast_uint64_le _ (proj1 Hs)).
      pose proof (cast_uint64_range (Z.shiftl (Z.land (cast Uint64 (bv b)) 127)
                                       (7 * Z.of_nat j))).
      lia. }
    assert (Hacc' : 0 <= acc < 2 ^ (7 * Z.of_nat (S j)))
      by (rewrite pow7_succ; lia).
    pose proof (lor_below acc y (7 * Z.of_nat (S j)) ltac:(lia) Hacc' Hy) as Hl.
    destruct (bv b <? 0x80).
    + intros E. inversion E; subst.
      replace (7 * (Z.of_nat j + (i + 1 - i))) with (7 * Z.of_nat (S j)) by lia.
      exact Hl.
    + intros E.
      replace (7 * Z.of_nat j + 7) with (7 * Z.of_nat (S j)) in E by lia.
      apply IH in E; [|exact Hl].
      replace (7 * (Z.of_nat j + (i' - i)))
        with (7 * (Z.of_nat (S j) + (i' - (i + 1)))) by lia.
      exact E.
Qed.

Lemma sov_loop_below (f : nat) :
  forall n x k, 1 <= k -> 0 <= x < 2 ^ (7 * k) -> sov_loop f n x <= n + k.
Proof.
  induction f as [|f IH]; intros n x k Hk Hx; cbn [sov_loop]; [lia|].
  destruct (Z.eqb_spec (Z.shiftr x 7) 0) as [|Hne]; [lia|].
  assert (Hk2 : 2 <= k).
  { destruct (Z_le_gt_dec 2 k); [assumption|].
    assert (k = 1) by lia. subst k. exfalso. apply Hne.
    rewrite Z.shiftr_div_pow2 by lia. apply Z.div_small.
    change (2 ^ (7 * 1)) with (2 ^ 7) in Hx. exact Hx. }
  specialize (IH (n + 1) (Z.shiftr x 7) (k - 1) ltac:(lia)).
  assert (Hs : 0 <= Z.shiftr x 7 < 2 ^ (7 * (k - 1))).
  { rewrite Z.shiftr_div_pow2 by lia.
    replace (7 * k) with (7 + 7 * (k - 1)) in Hx by lia.
    rewrite Z.pow_add_r in Hx by lia. change (2 ^ 7) with 128 in *.
    split; [apply Z.div_pos; lia|apply Z.div_lt_upper_bound; lia]. }
  specialize (IH Hs). lia.
Qed.

(** The rewind of the [default:] branch never passes the start of the
    tag. *)
Lemma sizeOfWire_le (data : list byte) (i wire i1 : Z) :
  read_local Uint64 data i = Ok (wire, i1) ->
  1 <= sov_loop 10 0 wire <= i1 - i.
Proof.
  intros E. pose proof (read_local_lands _ _ _ _ _ E) as Hl.
  split.
  - cbn [sov_loop]. destruct (Z.shiftr wire 7 =? 0); [lia|].
    clear. generalize (Z.shiftr wire 7). intros x.
    assert (H : forall f n y, n <= sov_loop f n y).
    { induction f as [|f IH]; intros n y; cbn [sov_loop]; [lia|].
      destruct (_ =? 0); [lia|]. specialize (IH (n + 1) (Z.shiftr y 7)). lia. }
    specialize (H 9%nat (0 + 1) x). cbn [sov_loop] in H. lia.
  - unfold read_local, read_varint in E.
    destruct (i <? 0); [cbn in E; discriminate|].
    destruct (varint_loop _ _ _ _ _) as [w [j| | |]] eqn:V; cbn in E;
      try discriminate.
    inversion E; subst.
    apply (varint_loop_below _ i 0 0) in V; [|cbn; lia].
    apply (sov_loop_below 10 0 wire (i1 - i)); [lia|].
    replace (7 * (i1 - i)) with (7 * (Z.of_nat 0 + (i1 - i))) by lia.
    exact V.
Qed.

(** ** [skipStructured] *)

Lemma iadd_cases (a b : Z) :
  - 2 ^ 63 <= a < 2 ^ 63 -> - 2 ^ 63 <= b < 2 ^ 63 ->
  (iadd a b = a + b /\ - 2 ^ 63 <= a + b < 2 ^ 63)
  \/ (iadd a b = a + b - 2 ^ 64 /\ 2 ^ 63 <= a + b)
  \/ (iadd a b = a + b + 2 ^ 64 /\ a + b < - 2 ^ 63).
Proof.
  intros Ha Hb. unfold iadd, cast. cbn [signed bits andb].
  change (64 - 1) with 63. rewrite two63, two64 in *.
  destruct (Z.leb_spec 9223372036854775808 ((a + b) mod 18446744073709551616));
    Z.to_euclidean_division_equations; lia.
Qed.

Lemma lands_count (lo hi : Z) (r : res Z) :
  lands lo hi r -> 0 <= lo -> hi < 2 ^ 63 -> skip_count r.
Proof. destruct r; cbn; intros; try tauto. left. lia. Qed.

Lemma skip_varint_loop_lands (rest : list byte) :
  forall i, lands i (i + len rest) (skip_varint_loop rest i).
Proof.
  induction rest as [|b rest IH]; intros i; cbn [skip_varint_loop].
  - exact I.
  - rewrite len_cons. pose proof (len_nonneg rest).
    destruct (bv b <? 0x80).
    + cbn [lands]. lia.
    + eapply lands_weaken; [apply IH|lia|lia].
Qed.

Lemma slice_from_length (data sub : list byte) (i : Z) :
  slice_from data i = Some sub ->
  0 <= i <= len data /\ len sub = len data - i.
Proof.
  unfold slice_from, slice.
  destruct (Z.leb_spec 0 i); cbn [andb]; [|discriminate].
  destruct (Z.leb_spec i (len data)); cbn [andb]; [|discriminate].
  destruct (len data <=? len data); [|discriminate].
  intros E. inversion E; subst. split; [lia|].
  unfold len in *. rewrite length_firstn, length_skipn. lia.
Qed.

Lemma slice_length (data sub : list byte) (lo hi : Z) :
  slice data lo hi = Some sub ->
  0 <= lo <= hi /\ hi <= len data /\ len sub = hi - lo.
Proof.
  unfold slice.
  destruct (Z.leb_spec 0 lo); cbn [andb]; [|discriminate].
  destruct (Z.leb_spec lo hi); cbn [andb]; [|discriminate].
  destruct (Z.leb_spec hi (len data)); [|discriminate].
  intros E. inversion E; subst. repeat split; try lia.
  unfold len in *. rewrite length_firstn, length_skipn. lia.
Qed.

(** The loop over the members of a group: every round moves the index
    forward by at least one byte, or off the slice, where the next round
    ends the call. *)
Lemma skip_group_lands (rec : list byte -> res Z) (data : list byte) :
  len data < 2 ^ 62 ->
  (forall sub, len sub < len data -> skip_count (rec sub)) ->
  forall (fuel : nat) i,
    i < 0 \/ (1 <= i /\ len data - i < Z.of_nat fuel) -> (1 <= fuel)%nat ->
    lands 0 (len data) (skip_group rec fuel data i).
Proof.
  intros Hlen Hrec. induction fuel as [|fuel IH]; intros i Hi Hf; [lia|].
  cbn [skip_group].
  pose proof (read_local_total Uint64 data i) as Ht.
  destruct (read_local Uint64 data i) as [[w i1]| | |] eqn:R; cbn [bind];
    try exact I; [|congruence].
  apply read_local_lands in R.
  destruct (cast Int (Z.land w 7) =? 4); [cbn [lands]; lia|].
  destruct (slice_from data i) as [sub|] eqn:S; [|exact I].
  apply slice_from_length in S.
  specialize (Hrec sub ltac:(lia)).
  destruct (rec sub) as [next| | |]; cbn [bind skip_count] in *;
    try exact I; [|contradiction].
  rewrite two63 in *.
  assert (H62 : 2 ^ 62 = 4611686018427387904) by reflexivity.
  rewrite H62 in *.
  destruct (iadd_cases i next) as [[E B]|[[E B]|[E B]]];
    rewrite ?two63, ?two64 in *; try lia;
    apply IH; rewrite ?E; lia.
Qed.

Lemma skipStructured_fuel_count (fuel : nat) :
  forall data, (List.length data < fuel)%nat -> len data < 2 ^ 62 ->
    skip_count (skipStructured_fuel fuel data).
Proof.
  induction fuel as [|fuel IH]; intros data Hf Hlen; [lia|].
  cbn [skipStructured_fuel].
  destruct (Z.ltb_spec 0 (len data)) as [Hpos|]; [|exact I].
  pose proof (read_local_total Uint64 data 0) as Ht.
  destruct (read_local Uint64 data 0) as [[wire i1]| | |] eqn:R; cbn [bind];
    try exact I; [|congruence].
  apply read_local_lands in R.
  assert (H62 : 2 ^ 62 = 4611686018427387904) by reflexivity.
  destruct (_ =? 0).
  { eapply lands_count; [apply skip_varint_loop_lands|lia|].
    rewrite len_skipn_at by lia. rewrite two63. lia. }
  destruct (_ =? 1).
  { rewrite iadd_id by (rewrite two63; lia). cbn [skip_count].
    left. rewrite two63. lia. }
  destruct (_ =? 2).
  { pose proof (read_local_total Int data i1) as Ht2.
    destruct (read_local Int data i1) as [[length_ i2]| | |] eqn:R2;
      cbn [bind]; try exact I; [|congruence].
    pose proof (read_local_in_range _ _ _ _ _ R2) as Hr.
    apply read_local_lands in R2.
    destruct (Z.ltb_spec length_ 0); [exact I|].
    cbn [skip_count]. unfold in_range in Hr. cbn [signed bits] in Hr.
    change (64 - 1) with 63 in Hr.
    destruct (iadd_cases i2 length_) as [[E B]|[[E B]|[E B]]];
      rewrite ?two63, ?two64, ?H62 in *; try lia; rewrite E; lia. }
  destruct (_ =? 3).
  { apply (lands_count 0 (len data)); [|lia|rewrite two63; lia].
    apply skip_group_lands.
    - assumption.
    - intros sub Hs. apply IH; unfold len in *; lia.
    - right. unfold len in *. lia.
    - unfold len in *. lia. }
  destruct (_ =? 4).
  { cbn [skip_count]. left. rewrite two63. lia. }
  destruct (_ =? 5).
  { rewrite iadd_id by (rewrite two63; lia). cbn [skip_count].
    left. rewrite two63. lia. }
  exact I.
Qed.

(** [length data] units of fuel are enough for [skipStructured]. *)
Lemma skipStructured_count (data : list byte) :
  len data < 2 ^ 62 -> skip_count (skipStructured data).
Proof.
  intros H. unfold skipStructured. apply skipStructured_fuel_count; [lia|exact H].
Qed.

(** ** The rounds of the decoding loop *)

(** The [default:] branch leaves the index after the start of the tag. *)
Lemma skip_unknown_lands (data : list byte) (i wire i1 : Z) :
  len data < 2 ^ 62 ->
  read_local Uint64 data i = Ok (wire, i1) ->
  match skip_unknown data wire i1 with
  | Ok (_, i') => i < i' <= len data
  | Exhausted => False
  | _ => True
  end.
Proof.
  intros Hlen R. pose proof (sizeOfWire_le _ _ _ _ R) as Hs.
  apply read_local_lands in R. unfold skip_unknown.
  assert (H62 : 2 ^ 62 = 4611686018427387904) by reflexivity.
  rewrite iadd_id by (rewrite two63; lia).
  destruct (slice_from data (i1 + - sov_loop 10 0 wire)) as [rest|] eqn:S;
    [|exact I].
  apply slice_from_length in S.
  pose proof (skipStructured_count rest ltac:(lia)) as Hc.
  destruct (skipStructured rest) as [skippy| | |]; cbn [bind skip_count] in *;
    try exact I; [|contradiction].
  destruct (Z.ltb_spec skippy 0); [exact I|].
  destruct (Z.ltb_spec (len data) (iadd (i1 + - sov_loop 10 0 wire) skippy));
    [exact I|].
  destruct (slice data _ _) as [bs|] eqn:S2; [|exact I].
  apply slice_length in S2.
  destruct (iadd_cases (i1 + - sov_loop 10 0 wire) skippy) as [[E B]|[[E B]|[E B]]];
    rewrite ?two63, ?two64, ?H62 in *; try lia.
Qed.

Section Rounds.
Context {T : Type}.
Variable data : list byte.
Hypothesis Hlen : len data < 2 ^ 62.

Lemma scalar_field_lands (t : ity) (name : string) (set : Z -> T -> T)
    (m : T) (wireType i i1 : Z) :
  i <= i1 ->
  lands i (len data) (snd (scalar_field t name set m data wireType i1)).
Proof.
  intros Hi. unfold scalar_field. destruct (negb _); [exact I|].
  pose proof (read_varint_lands t data i1) as H.
  destruct (read_varint t data i1) as [v r]. cbn [snd] in *.
  eapply lands_weaken; [exact H|lia|lia].
Qed.

Lemma bool_field_lands (name : string) (set : bool -> T -> T)
    (m : T) (wireType i i1 : Z) :
  i <= i1 ->
  lands i (len data) (snd (bool_field name set m data wireType i1)).
Proof.
  intros Hi. unfold bool_field. destruct (negb _); [exact I|].
  pose proof (read_local_total Int data i1) as Ht.
  destruct (read_local Int data i1) as [[v i2]| | |] eqn:R; cbn [snd lands];
    try exact I; [|congruence].
  apply read_local_lands in R. lia.
Qed.

Lemma read_string_lands (name : string) (wireType i i1 : Z) :
  i <= i1 ->
  match read_string name data wireType i1 with
  | Ok (s, i') => i < i' <= len data /\ len s <= len data
  | Exhausted => False
  | _ => True
  end.
Proof.
  intros Hi. unfold read_string. destruct (negb _); [exact I|].
  pose proof (read_local_total Uint64 data i1) as Ht.
  destruct (read_local Uint64 data i1) as [[v i2]| | |] eqn:R; cbn [bind];
    try exact I; [|congruence].
  apply read_local_lands in R.
  destruct (Z.ltb_spec (len data) (iadd i2 (cast Int v))); [exact I|].
  destruct (slice data _ _) as [s|] eqn:S; [|exact I].
  apply slice_length in S. lia.
Qed.

Lemma string_field_lands (name : string) (set : list byte -> T -> T)
    (m : T) (wireType i i1 : Z) :
  i <= i1 ->
  lands i (len data) (snd (string_field name set m data wireType i1)).
Proof.
  intros Hi. unfold string_field.
  pose proof (read_string_lands name wireType i i1 Hi) as H.
  destruct (read_string name data wireType i1) as [[s i2]| | |];
    cbn [snd lands]; try exact I; [lia|contradiction].
Qed.

Lemma read_message_lands (name : string) (wireType i i1 : Z) :
  i <= i1 ->
  match read_message name data wireType i1 with
  | Ok (s, i') => i < i' <= len data /\ len s <= len data
  | Exhausted => False
  | _ => True
  end.
Proof.
  intros Hi. unfold read_message. destruct (negb _); [exact I|].
  pose proof (read_local_total Int data i1) as Ht.
  destruct (read_local Int data i1) as [[v i2]| | |] eqn:R; cbn [bind];
    try exact I; [|congruence].
  apply read_local_lands in R.
  destruct (v <? 0); [exact I|].
  destruct (Z.ltb_spec (len data) (iadd i2 v)); [exact I|].
  destruct (slice data _ _) as [s|] eqn:S; [|exact I].
  apply slice_length in S. lia.
Qed.

Lemma message_field_lands {U : Type} (name : string)
    (sub : U -> list byte -> U * res unit) (get : T -> U) (set : U -> T -> T)
    (m : T) (wireType i i1 : Z) :
  (forall u bytes, len bytes < 2 ^ 62 -> snd (sub u bytes) <> Exhausted) ->
  i <= i1 ->
  lands i (len data)
    (snd (message_field name sub get set m data wireType i1)).
Proof.
  intros Hsub Hi. unfold message_field.
  pose proof (read_message_lands name wireType i i1 Hi) as H.
  destruct (read_message name data wireType i1) as [[s i2]| | |];
    cbn [snd lands]; try exact I; [|contradiction].
  specialize (Hsub (get m) s ltac:(lia)).
  destruct (sub (get m) s) as [u [[]| | |]]; cbn [snd retag bind lands] in *;
    try exact I; [lia|congruence].
Qed.

Lemma unknown_field_lands (get : T -> list byte)
    (set : list byte -> T -> T) (m : T) (i wire i1 : Z) :
  read_local Uint64 data i = Ok (wire, i1) ->
  lands i (len data) (snd (unknown_field get set m data wire i1)).
Proof.
  intros R. unfold unknown_field.
  pose proof (skip_unknown_lands data i wire i1 Hlen R) as H.
  destruct (skip_unknown data wire i1) as [[bs i2]| | |];
    cbn [snd lands]; try exact I; [lia|contradiction].
Qed.

(** A round that reads a tag and leaves the index after it. *)
Lemma with_tag_lands (body : T -> list byte -> Z -> Z -> T * res Z)
    (m : T) (i : Z) :
  (forall wire i1, read_local Uint64 data i = Ok (wire, i1) ->
     lands i (len data) (snd (body m data wire i1))) ->
  lands i (len data) (snd (with_tag body m data i)).
Proof.
  intros Hb. unfold with_tag.
  pose proof (read_local_total Uint64 data i) as Ht.
  destruct (read_local Uint64 data i) as [[wire i1]| | |] eqn:R;
    cbn [snd lands]; try exact I; [|congruence].
  apply Hb. reflexivity.
Qed.

(** When every round moves forward, [length data] rounds reach the end. *)
Lemma unmarshal_loop_total (step : T -> list byte -> Z -> T * res Z) :
  (forall m i, lands i (len data) (snd (step m data i))) ->
  forall (fuel : nat) m i,
    len data - i <= Z.of_nat fuel ->
    snd (unmarshal_loop step fuel m data i) <> Exhausted.
Proof.
  intros Hstep. induction fuel as [|fuel IH]; intros m i Hf;
    cbn [unmarshal_loop].
  - destruct (Z.ltb_spec i (len data)); [lia|]. cbn. discriminate.
  - destruct (Z.ltb_spec i (len data)); [|cbn; discriminate].
    specialize (Hstep m i).
    destruct (step m data i) as [m' [i'| | |]]; cbn [snd lands] in *;
      try discriminate; [|contradiction].
    apply IH. lia.
Qed.
End Rounds.

(** ** Every [Unmarshal] returns *)

Lemma add_ColumnID_lands (IDt : ity) (m : IndexDescriptor.t)
    (data : list byte) (wireType i i1 : Z) :
  i <= i1 ->
  lands i (len data)
    (snd (IndexDescriptor.add_ColumnID IDt m data wireType i1)).
Proof.
  intros Hi. unfold IndexDescriptor.add_ColumnID. destruct (negb _); [exact I|].
  pose proof (read_local_total IDt data i1) as Ht.
  destruct (read_local IDt data i1) as [[v i2]| | |] eqn:R; cbn [snd lands];
    try exact I; [|congruence].
  apply read_local_lands in R. lia.
Qed.

Ltac field_lands :=
  first [ apply scalar_field_lands; lia
        | apply bool_field_lands; lia
        | apply string_field_lands; lia
        | apply add_ColumnID_lands; lia
        | apply message_field_lands; [assumption|assumption|lia]
        | apply unknown_field_lands; assumption ].

Ltac rounds_land body :=
  apply unmarshal_loop_total; [|unfold len; lia];
  intros ? ?; apply with_tag_lands;
  let R := fresh "R" in
  intros ? ? R; pose proof (read_local_lands _ _ _ _ _ R);
  cbv beta delta [body] zeta;
  repeat match goal with
         | |- context [if ?c then _ else _] => destruct c
         end;
  field_lands.

Lemma ColumnType_Unmarshal_total (m : ColumnType.t) (data : list byte) :
  len data < 2 ^ 62 -> snd (ColumnType.Unmarshal m data) <> Exhausted.
Proof.
  intros Hlen. unfold ColumnType.Unmarshal, ColumnType.step.
  rounds_land ColumnType.body.
Qed.

Lemma PrivilegeDescriptor_Unmarshal_total (m : PrivilegeDescriptor.t)
    (data : list byte) :
  len data < 2 ^ 62 -> snd (PrivilegeDescriptor.Unmarshal m data) <> Exhausted.
Proof.
  intros Hlen. unfold PrivilegeDescriptor.Unmarshal, PrivilegeDescriptor.step.
  rounds_land PrivilegeDescriptor.body.
Qed.

Section WithID.
Variable IDt : ity.

Lemma ColumnDescriptor_Unmarshal_total (m : ColumnDescriptor.t)
    (data : list byte) :
  len data < 2 ^ 62 ->
  snd (ColumnDescriptor.Unmarshal IDt m data) <> Exhausted.
Proof.
  intros Hlen. pose proof ColumnType_Unmarshal_total.
  unfold ColumnDescriptor.Unmarshal, ColumnDescriptor.step.
  rounds_land ColumnDescriptor.body.
Qed.

Lemma IndexDescriptor_Unmarshal_total (m : IndexDescriptor.t)
    (data : list byte) :
  len data < 2 ^ 62 ->
  snd (IndexDescriptor.Unmarshal IDt m data) <> Exhausted.
Proof.
  intros Hlen.
  unfold IndexDescriptor.Unmarshal, IndexDescriptor.step.
  rounds_land IndexDescriptor.body.
Qed.

Lemma TableDescriptor_Unmarshal_total (m : TableDescriptor.t)
    (data : list byte) :
  len data < 2 ^ 62 ->
  snd (TableDescriptor.Unmarshal IDt m data) <> Exhausted.
Proof.
  intros Hlen.
  pose proof ColumnDescriptor_Unmarshal_total.
  pose proof IndexDescriptor_Unmarshal_total.
  pose proof PrivilegeDescriptor_Unmarshal_total.
  unfold TableDescriptor.Unmarshal, TableDescriptor.step.
  rounds_land TableDescriptor.body.
Qed.

Lemma DatabaseDescriptor_Unmarshal_total (m : DatabaseDescriptor.t)
    (data : list byte) :
  len data < 2 ^ 62 ->
  snd (DatabaseDescriptor.Unmarshal IDt m data) <> Exhausted.
Proof.
  intros Hlen.
  pose proof PrivilegeDescriptor_Unmarshal_total.
  unfold DatabaseDescriptor.Unmarshal, DatabaseDescriptor.step.
  rounds_land DatabaseDescriptor.body.
Qed.

(** With [length data] units of fuel no [Unmarshal] runs out: the call
    returns [nil], an error, or panics. *)
Lemma Unmarshal_total (m : Descriptor.t) (data : list byte) :
  len data < 2 ^ 62 ->
  snd (Descriptor.Unmarshal IDt m data) <> Exhausted.
Proof.
  intros Hlen.
  destruct m as [m|m|m|m|m|m];
    cbn [Descriptor.Unmarshal]; unfold Descriptor.on_fst; cbn [snd].
  - apply ColumnType_Unmarshal_total, Hlen.
  - apply ColumnDescriptor_Unmarshal_total, Hlen.
  - apply IndexDescriptor_Unmarshal_total, Hlen.
  - apply PrivilegeDescriptor_Unmarshal_total, Hlen.
  - apply TableDescriptor_Unmarshal_total, Hlen.
  - apply DatabaseDescriptor_Unmarshal_total, Hlen.
Qed.
End WithID.

(** ** The decoder up to its first store *)

Lemma leaves_trace_ext {T A : Type} (size : T -> Z) (f g : T -> T * res A) :
  (forall m, f m = g m) -> leaves_trace size g -> leaves_trace size f.
Proof.
  unfold leaves_trace. intros E [(m0 & m1 & Hne & H)|H].
  - left. exists m0, m1. split; [exact Hne|]. rewrite !E. exact H.
  - right. intros m. rewrite E. apply H.
Qed.

(** *** The rounds of the loop *)

Section DryLoop.
Context {T : Type} (step : T -> list byte -> Z -> T * res Z).
Variable round : list byte -> Z -> dry Z.
Variable size : T -> Z.
Variable data : list byte.
Hypothesis kept :
  forall i r, round data i = Kept r -> forall m, step m data i = (m, r).
Hypothesis stored :
  forall i, round data i = Stored ->
            leaves_trace size (fun m => step m data i).
Hypothesis mono : forall m i, size m <= size (fst (step m data i)).

Lemma loop_size (fuel : nat) :
  forall m i, size m <= size (fst (unmarshal_loop step fuel m data i)).
Proof.
  induction fuel as [|fuel IH]; intros m i; cbn [unmarshal_loop];
    destruct (i <? len data); cbn [fst]; try lia.
  pose proof (mono m i) as M.
  destruct (step m data i) as [m' [j|e| |]]; cbn [fst] in *; try lia.
  specialize (IH m' j). lia.
Qed.

Lemma dry_loop_kept (fuel : nat) :
  forall i r,
    dry_loop round fuel data i = Kept r ->
    forall m, unmarshal_loop step fuel m data i = (m, r).
Proof.
  induction fuel as [|fuel IH]; intros i r; cbn [dry_loop unmarshal_loop];
    destruct (i <? len data);
    try (intros H m; injection H as <-; reflexivity).
  destruct (round data i) as [[j|e| |]|] eqn:R; intros H m;
    try discriminate H;
    rewrite (kept _ _ R m).
  - apply IH. exact H.
  - injection H as <-. reflexivity.
  - injection H as <-. reflexivity.
  - injection H as <-. reflexivity.
Qed.

Lemma dry_loop_stored (fuel : nat) :
  forall i,
    dry_loop round fuel data i = Stored ->
    leaves_trace size (fun m => unmarshal_loop step fuel m data i).
Proof.
  induction fuel as [|fuel IH]; intros i; cbn [dry_loop unmarshal_loop];
    destruct (i <? len data); try discriminate.
  destruct (round data i) as [[j|e| |]|] eqn:R; intros H; try discriminate H.
  - apply (leaves_trace_ext size _
             (fun m => unmarshal_loop step fuel m data j)).
    + intros m. rewrite (kept _ _ R m). reflexivity.
    + apply IH. exact H.
  - destruct (stored _ R) as [(m0 & m1 & Hne & E)|G].
    + left. exists m0, m1. split; [exact Hne|]. cbn beta in E.
      rewrite E. reflexivity.
    + right. intros m. specialize (G m). cbn beta in G.
      destruct (step m data i) as [m' [j|e| |]]; cbn [fst] in *; try exact G.
      pose proof (loop_size fuel m' j). lia.
Qed.

End DryLoop.

(** *** The cases of the [switch] *)

Section DryFields.
Context {T : Type}.
Variable size : T -> Z.

Lemma scalar_kept (t : ity) (name : string) (set : Z -> T -> T)
    (data : list byte) (wireType iNdEx : Z) (r : res Z) :
  dry_scalar name wireType = Kept r ->
  forall m, scalar_field t name set m data wireType iNdEx = (m, r).
Proof.
  unfold dry_scalar, scalar_field. destruct (negb (wireType =? 0));
    intros H m; [injection H as <-; reflexivity|discriminate].
Qed.

Lemma scalar_stored (t : ity) (name : string) (set : Z -> T -> T)
    (data : list byte) (wireType iNdEx : Z) (m0 m1 : T) :
  m0 <> m1 -> (forall v, set v m0 = set v m1) ->
  dry_scalar name wireType = Stored ->
  leaves_trace size (fun m => scalar_field t name set m data wireType iNdEx).
Proof.
  unfold dry_scalar, scalar_field. intros Hne Hset.
  destruct (negb (wireType =? 0)); [discriminate|]. intros _.
  left. exists m0, m1. split; [exact Hne|].
  destruct (read_varint t data iNdEx) as [v r]. rewrite Hset. reflexivity.
Qed.

Lemma scalar_size (t : ity) (name : string) (set : Z -> T -> T)
    (data : list byte) (wireType iNdEx : Z) (m : T) :
  (forall v m, size m <= size (set v m)) ->
  size m <= size (fst (scalar_field t name set m data wireType iNdEx)).
Proof.
  intros Hset. unfold scalar_field.
  destruct (negb (wireType =? 0)); cbn [fst]; [lia|].
  destruct (read_varint t data iNdEx) as [v r]. cbn [fst]. apply Hset.
Qed.

Lemma bool_kept (name : string) (set : bool -> T -> T)
    (data : list byte) (wireType iNdEx : Z) (r : res Z) :
  dry_local Int name data wireType iNdEx = Kept r ->
  forall m, bool_field name set m data wireType iNdEx = (m, r).
Proof.
  unfold dry_local, bool_field. destruct (negb (wireType =? 0));
    intros H m; [injection H as <-; reflexivity|].
  destruct (read_local Int data iNdEx) as [[v j]|e| |]; cbn in H;
    try discriminate H; injection H as <-; reflexivity.
Qed.

Lemma bool_stored (name : string) (set : bool -> T -> T)
    (data : list byte) (wireType iNdEx : Z) (m0 m1 : T) :
  m0 <> m1 -> (forall v, set v m0 = set v m1) ->
  dry_local Int name data wireType iNdEx = Stored ->
  leaves_trace size (fun m => bool_field name set m data wireType iNdEx).
Proof.
  unfold dry_local, bool_field. intros Hne Hset.
  destruct (negb (wireType =? 0)); [discriminate|].
  destruct (read_local Int data iNdEx) as [[v j]|e| |]; cbn;
    try discriminate. intros _.
  left. exists m0, m1. split; [exact Hne|]. rewrite Hset. reflexivity.
Qed.

Lemma bool_size (name : string) (set : bool -> T -> T)
    (data : list byte) (wireType iNdEx : Z) (m : T) :
  (forall v m, size m <= size (set v m)) ->
  size m <= size (fst (bool_field name set m data wireType iNdEx)).
Proof.
  intros Hset. unfold bool_field.
  destruct (negb (wireType =? 0)); cbn [fst]; [lia|].
  destruct (read_local Int data iNdEx) as [[v j]|e| |]; cbn [fst];
    try lia. apply Hset.
Qed.

Lemma string_kept (name : string) (set : list byte -> T -> T)
    (data : list byte) (wireType iNdEx : Z) (r : res Z) :
  dry_string name data wireType iNdEx = Kept r ->
  forall m, string_field name set m data wireType iNdEx = (m, r).
Proof.
  unfold dry_string, string_field. intros H m.
  destruct (read_string name data wireType iNdEx) as [[s j]|e| |]; cbn in H;
    try discriminate H; injection H as <-; reflexivity.
Qed.

(** A string field that is assigned. *)
Lemma string_stored (name : string) (set : list byte -> T -> T)
    (data : list byte) (wireType iNdEx : Z) (m0 m1 : T) :
  m0 <> m1 -> (forall v, set v m0 = set v m1) ->
  dry_string name data wireType iNdEx = Stored ->
  leaves_trace size (fun m => string_field name set m data wireType iNdEx).
Proof.
  unfold dry_string, string_field. intros Hne Hset.
  destruct (read_string name data wireType iNdEx) as [[s j]|e| |]; cbn;
    try discriminate. intros _.
  left. exists m0, m1. split; [exact Hne|]. rewrite Hset. reflexivity.
Qed.

(** A repeated string field, which is appended to. *)
Lemma strings_stored (name : string) (add : list byte -> T -> T)
    (data : list byte) (wireType iNdEx : Z) :
  (forall v m, size m < size (add v m)) ->
  dry_string name data wireType iNdEx = Stored ->
  leaves_trace size (fun m => string_field name add m data wireType iNdEx).
Proof.
  unfold dry_string, string_field. intros Hadd.
  destruct (read_string name data wireType iNdEx) as [[s j]|e| |]; cbn;
    try discriminate. intros _.
  right. intros m. apply Hadd.
Qed.

Lemma string_size (name : string) (set : list byte -> T -> T)
    (data : list byte) (wireType iNdEx : Z) (m : T) :
  (forall v m, size m <= size (set v m)) ->
  size m <= size (fst (string_field name set m data wireType iNdEx)).
Proof.
  intros Hset. unfold string_field.
  destruct (read_string name data wireType iNdEx) as [[s j]|e| |];
    cbn [fst]; try lia. apply Hset.
Qed.

Lemma read_message_length (name : string) (data bytes : list byte)
    (wireType iNdEx postIndex : Z) :
  read_message name data wireType iNdEx = Ok (bytes, postIndex) ->
  len bytes <= len data.
Proof.
  unfold read_message. destruct (negb (wireType =? 2)); [discriminate|].
  destruct (read_local Int data iNdEx) as [[l j]|e| |] eqn:R; cbn [bind];
    try discriminate.
  destruct (l <? 0); [discriminate|].
  destruct (len data <? iadd j l); [discriminate|].
  destruct (slice data j (iadd j l)) as [sub|] eqn:S; [|discriminate].
  intros E. injection E as <- <-.
  apply slice_length in S. apply read_local_lands in R. lia.
Qed.

Section Nested.
Context {U : Type}.
Variable nsize : U -> Z.
Variable sub : U -> list byte -> U * res unit.
Variable subdry : list byte -> dry unit.
Variables (get : T -> U) (set : U -> T -> T).
Hypothesis sub_kept :
  forall bytes r, subdry bytes = Kept r -> forall n, sub n bytes = (n, r).
Hypothesis sub_stored :
  forall bytes, len bytes < 2 ^ 62 -> subdry bytes = Stored ->
                leaves_trace nsize (fun n => sub n bytes).
Hypothesis set_get : forall m, set (get m) m = m.
Hypothesis get_set : forall u m, get (set u m) = u.
Hypothesis set_set : forall u v m, set u (set v m) = set u m.
Hypothesis size_set :
  forall u m, size (set u m) = size m - nsize (get m) + nsize u.

(** A message decoded in place. *)
Lemma message_kept (name : string) (data : list byte) (wireType iNdEx : Z)
    (r : res Z) :
  dry_message name subdry data wireType iNdEx = Kept r ->
  forall m, message_field name sub get set m data wireType iNdEx = (m, r).
Proof.
  unfold dry_message, message_field. intros H m.
  destruct (read_message name data wireType iNdEx) as [[bytes j]|e| |];
    try (injection H as <-; reflexivity).
  destruct (subdry bytes) as [r'|] eqn:D; [|discriminate H].
  injection H as <-. rewrite (sub_kept _ _ D). rewrite set_get. reflexivity.
Qed.

Lemma message_stored (name : string) (data : list byte) (wireType iNdEx : Z)
    (base : T) :
  len data < 2 ^ 62 ->
  dry_message name subdry data wireType iNdEx = Stored ->
  leaves_trace size
    (fun m => message_field name sub get set m data wireType iNdEx).
Proof.
  unfold dry_message, message_field. intros Hlen H.
  destruct (read_message name data wireType iNdEx) as [[bytes j]|e| |] eqn:R;
    try discriminate H.
  destruct (subdry bytes) as [r'|] eqn:D; [discriminate H|].
  apply read_message_length in R.
  destruct (sub_stored bytes ltac:(lia) D) as [(n0 & n1 & Hne & E)|G].
  - left. exists (set n0 base), (set n1 base). split.
    + intros C. apply Hne. rewrite <- (get_set n0 base), C. apply get_set.
    + rewrite !get_set. cbn beta in E. rewrite E.
      destruct (sub n1 bytes) as [u r]. rewrite !set_set. reflexivity.
  - right. intros m. specialize (G (get m)). cbn beta in G.
    destruct (sub (get m) bytes) as [u r]. cbn [fst] in *.
    rewrite size_set. lia.
Qed.

Lemma message_size (name : string) (data : list byte) (wireType iNdEx : Z)
    (m : T) :
  (forall n bytes, nsize n <= nsize (fst (sub n bytes))) ->
  size m <= size (fst (message_field name sub get set m data wireType iNdEx)).
Proof.
  intros Hsub. unfold message_field.
  destruct (read_message name data wireType iNdEx) as [[bytes j]|e| |];
    cbn [fst]; try lia.
  specialize (Hsub (get m) bytes).
  destruct (sub (get m) bytes) as [u r]. cbn [fst] in *.
  rewrite size_set. lia.
Qed.

End Nested.

(** A message appended to a repeated field. *)
Lemma repeated_kept {U : Type} (name : string)
    (sub : U -> list byte -> U * res unit) (zero : U) (add : U -> T -> T)
    (data : list byte) (wireType iNdEx : Z) (r : res Z) :
  dry_repeated_message name data wireType iNdEx = Kept r ->
  forall m,
    message_field name sub (fun _ => zero) add m data wireType iNdEx = (m, r).
Proof.
  unfold dry_repeated_message, message_field. intros H m.
  destruct (read_message name data wireType iNdEx) as [[bytes j]|e| |];
    cbn in H; try discriminate H; injection H as <-; reflexivity.
Qed.

Lemma repeated_stored {U : Type} (name : string)
    (sub : U -> list byte -> U * res unit) (zero : U) (add : U -> T -> T)
    (data : list byte) (wireType iNdEx : Z) :
  (forall u m, size m < size (add u m)) ->
  dry_repeated_message name data wireType iNdEx = Stored ->
  leaves_trace size
    (fun m => message_field name sub (fun _ => zero) add m data wireType iNdEx).
Proof.
  unfold dry_repeated_message, message_field. intros Hadd H.
  destruct (read_message name data wireType iNdEx) as [[bytes j]|e| |];
    cbn in H; try discriminate H.
  right. intros m. destruct (sub zero bytes) as [u r]. cbn [fst]. apply Hadd.
Qed.

Lemma repeated_size {U : Type} (name : string)
    (sub : U -> list byte -> U * res unit) (zero : U) (add : U -> T -> T)
    (data : list byte) (wireType iNdEx : Z) (m : T) :
  (forall u m, size m <= size (add u m)) ->
  size m
  <= size (fst (message_field name sub (fun _ => zero) add m
                  data wireType iNdEx)).
Proof.
  intros Hadd. unfold message_field.
  destruct (read_message name data wireType iNdEx) as [[bytes j]|e| |];
    cbn [fst]; try lia.
  destruct (sub zero bytes) as [u r]. cbn [fst]. apply Hadd.
Qed.

(** The bytes that the [default:] branch appends are at least one. *)
Lemma skip_unknown_nonempty (data bs : list byte) (wire iNdEx j : Z) :
  len data < 2 ^ 62 ->
  skip_unknown data wire iNdEx = Ok (bs, j) -> 1 <= len bs.
Proof.
  intros Hlen. unfold skip_unknown.
  set (i := iadd iNdEx (- sov_loop 10 0 wire)).
  destruct (slice_from data i) as [rest|] eqn:S; [|discriminate].
  apply slice_from_length in S. destruct S as [Hi Hr].
  pose proof (skipStructured_count rest ltac:(lia)) as C.
  destruct (skipStructured rest) as [n|e| |]; cbn [bind skip_count] in *;
    try discriminate.
  destruct (Z.ltb_spec n 0); [discriminate|].
  destruct (len data <? iadd i n); [discriminate|].
  destruct (slice data i (iadd i n)) as [bs'|] eqn:S2; [|discriminate].
  intros E. injection E as <- <-.
  apply slice_length in S2. destruct S2 as (H1 & H2 & H3).
  assert (H62 : 2 ^ 62 = 4611686018427387904) by reflexivity.
  pose proof two63 as H63. pose proof two64 as H64.
  destruct (iadd_cases i n ltac:(lia) ltac:(lia)) as [[E _]|[[E _]|[E _]]];
    rewrite E in *; lia.
Qed.

Lemma unknown_kept (get : T -> list byte) (set : list byte -> T -> T)
    (data : list byte) (wire iNdEx : Z) (r : res Z) :
  dry_unknown data wire iNdEx = Kept r ->
  forall m, unknown_field get set m data wire iNdEx = (m, r).
Proof.
  unfold dry_unknown, unknown_field. intros H m.
  destruct (skip_unknown data wire iNdEx) as [[bs j]|e| |]; cbn in H;
    try discriminate H; injection H as <-; reflexivity.
Qed.

Lemma unknown_stored (get : T -> list byte) (set : list byte -> T -> T)
    (data : list byte) (wire iNdEx : Z) :
  len data < 2 ^ 62 ->
  (forall bs m, size (set (get m ++ bs) m) = size m + len bs) ->
  dry_unknown data wire iNdEx = Stored ->
  leaves_trace size (fun m => unknown_field get set m data wire iNdEx).
Proof.
  unfold dry_unknown, unknown_field. intros Hlen Hset H.
  destruct (skip_unknown data wire iNdEx) as [[bs j]|e| |] eqn:S; cbn in H;
    try discriminate H.
  apply skip_unknown_nonempty in S; [|exact Hlen].
  right. intros m. cbn [fst]. rewrite Hset. lia.
Qed.

Lemma unknown_size (get : T -> list byte) (set : list byte -> T -> T)
    (data : list byte) (wire iNdEx : Z) (m : T) :
  (forall bs m, size (set (get m ++ bs) m) = size m + len bs) ->
  size m <= size (fst (unknown_field get set m data wire iNdEx)).
Proof.
  intros Hset. unfold unknown_field.
  destruct (skip_unknown data wire iNdEx) as [[bs j]|e| |]; cbn [fst];
    try lia.
  rewrite Hset. pose proof (len_nonneg bs). lia.
Qed.

(** The tag. *)
Lemma with_tag_kept (body : T -> list byte -> Z -> Z -> T * res Z)
    (drybody : list byte -> Z -> Z -> dry Z) (data : list byte) :
  (forall wire j r, drybody data wire j = Kept r ->
                    forall m, body m data wire j = (m, r)) ->
  forall i r, dry_with_tag drybody data i = Kept r ->
              forall m, with_tag body m data i = (m, r).
Proof.
  intros Hb i r. unfold dry_with_tag, with_tag.
  destruct (read_local Uint64 data i) as [[wire j]|e| |]; intros H m;
    try (injection H as <-; reflexivity).
  apply Hb. exact H.
Qed.

Lemma with_tag_stored (body : T -> list byte -> Z -> Z -> T * res Z)
    (drybody : list byte -> Z -> Z -> dry Z) (data : list byte) :
  (forall wire j, drybody data wire j = Stored ->
                  leaves_trace size (fun m => body m data wire j)) ->
  forall i, dry_with_tag drybody data i = Stored ->
            leaves_trace size (fun m => with_tag body m data i).
Proof.
  intros Hb i. unfold dry_with_tag, with_tag.
  destruct (read_local Uint64 data i) as [[wire j]|e| |]; intros H;
    try discriminate H.
  apply Hb. exact H.
Qed.

Lemma with_tag_size (body : T -> list byte -> Z -> Z -> T * res Z)
    (data : list byte) :
  (forall m wire j, size m <= size (fst (body m data wire j))) ->
  forall m i, size m <= size (fst (with_tag body m data i)).
Proof.
  intros Hb m i. unfold with_tag.
  destruct (read_local Uint64 data i) as [[wire j]|e| |]; cbn [fst];
    try lia.
  apply Hb.
Qed.

End DryFields.

(** *** The six types *)

Ltac switch_cases :=
  cbn zeta;
  repeat match goal with
         | |- context [if ?a =? ?b then _ else _] => destruct (a =? b)
         end.

Ltac setter_size :=
  intros;
  unfold appended_TableDescriptor, appended_DatabaseDescriptor,
    appended_ColumnDescriptor, appended_IndexDescriptor,
    appended_PrivilegeDescriptor, appended_ColumnType;
  cbn; rewrite ?len_app, ?len_cons, ?len_nil; lia.

Lemma ColumnType_body_kept (data : list byte) (wire j : Z) (r : res Z) :
  dry_ColumnType_body data wire j = Kept r ->
  forall m, ColumnType.body m data wire j = (m, r).
Proof.
  unfold dry_ColumnType_body, ColumnType.body. switch_cases.
  - apply scalar_kept.
  - apply scalar_kept.
  - apply scalar_kept.
  - apply unknown_kept.
Qed.

Lemma ColumnType_body_stored (data : list byte) (wire j : Z) :
  len data < 2 ^ 62 ->
  dry_ColumnType_body data wire j = Stored ->
  leaves_trace appended_ColumnType (fun m => ColumnType.body m data wire j).
Proof.
  intros Hlen. unfold dry_ColumnType_body, ColumnType.body. switch_cases.
  - apply (scalar_stored _ _ _ _ _ _ _
             ColumnType.zero (ColumnType.set_Kind 1 ColumnType.zero));
      [discriminate|reflexivity].
  - apply (scalar_stored _ _ _ _ _ _ _
             ColumnType.zero (ColumnType.set_Width 1 ColumnType.zero));
      [discriminate|reflexivity].
  - apply (scalar_stored _ _ _ _ _ _ _
             ColumnType.zero (ColumnType.set_Precision 1 ColumnType.zero));
      [discriminate|reflexivity].
  - apply unknown_stored; [exact Hlen|].
    setter_size.
Qed.

Lemma ColumnType_body_size (data : list byte) (m : ColumnType.t) (wire j : Z) :
  appended_ColumnType m
  <= appended_ColumnType (fst (ColumnType.body m data wire j)).
Proof.
  unfold ColumnType.body. switch_cases.
  - apply scalar_size. setter_size.
  - apply scalar_size. setter_size.
  - apply scalar_size. setter_size.
  - apply unknown_size. setter_size.
Qed.

Lemma ColumnType_kept (data : list byte) (r : res unit) :
  dry_ColumnType data = Kept r ->
  forall m, ColumnType.Unmarshal m data = (m, r).
Proof.
  unfold dry_ColumnType, ColumnType.Unmarshal, ColumnType.step.
  apply dry_loop_kept. apply with_tag_kept. apply ColumnType_body_kept.
Qed.

Lemma ColumnType_size (m : ColumnType.t) (data : list byte) :
  appended_ColumnType m
  <= appended_ColumnType (fst (ColumnType.Unmarshal m data)).
Proof.
  unfold ColumnType.Unmarshal, ColumnType.step.
  apply loop_size. apply with_tag_size. intros. apply ColumnType_body_size.
Qed.

Lemma ColumnType_stored (data : list byte) :
  len data < 2 ^ 62 ->
  dry_ColumnType data = Stored ->
  leaves_trace appended_ColumnType (fun m => ColumnType.Unmarshal m data).
Proof.
  intros Hlen.
  unfold dry_ColumnType, ColumnType.Unmarshal, ColumnType.step.
  apply dry_loop_stored.
  - apply with_tag_kept. apply ColumnType_body_kept.
  - apply with_tag_stored. intros. apply ColumnType_body_stored; assumption.
  - apply with_tag_size. intros. apply ColumnType_body_size.
Qed.

Lemma PrivilegeDescriptor_body_kept (data : list byte) (wire j : Z)
    (r : res Z) :
  dry_PrivilegeDescriptor_body data wire j = Kept r ->
  forall m, PrivilegeDescriptor.body m data wire j = (m, r).
Proof.
  unfold dry_PrivilegeDescriptor_body, PrivilegeDescriptor.body. switch_cases.
  - apply string_kept.
  - apply string_kept.
  - apply unknown_kept.
Qed.

Lemma PrivilegeDescriptor_body_stored (data : list byte) (wire j : Z) :
  len data < 2 ^ 62 ->
  dry_PrivilegeDescriptor_body data wire j = Stored ->
  leaves_trace appended_PrivilegeDescriptor
    (fun m => PrivilegeDescriptor.body m data wire j).
Proof.
  intros Hlen.
  unfold dry_PrivilegeDescriptor_body, PrivilegeDescriptor.body. switch_cases.
  - apply strings_stored. setter_size.
  - apply strings_stored. setter_size.
  - apply unknown_stored; [exact Hlen|]. setter_size.
Qed.

Lemma PrivilegeDescriptor_body_size (data : list byte)
    (m : PrivilegeDescriptor.t) (wire j : Z) :
  appended_PrivilegeDescriptor m
  <= appended_PrivilegeDescriptor (fst (PrivilegeDescriptor.body m data wire j)).
Proof.
  unfold PrivilegeDescriptor.body. switch_cases.
  - apply string_size. setter_size.
  - apply string_size. setter_size.
  - apply unknown_size. setter_size.
Qed.

Lemma PrivilegeDescriptor_kept (data : list byte) (r : res unit) :
  dry_PrivilegeDescriptor data = Kept r ->
  forall m, PrivilegeDescriptor.Unmarshal m data = (m, r).
Proof.
  unfold dry_PrivilegeDescriptor, PrivilegeDescriptor.Unmarshal,
    PrivilegeDescriptor.step.
  apply dry_loop_kept. apply with_tag_kept.
  apply PrivilegeDescriptor_body_kept.
Qed.

Lemma PrivilegeDescriptor_size (m : PrivilegeDescriptor.t) (data : list byte) :
  appended_PrivilegeDescriptor m
  <= appended_PrivilegeDescriptor (fst (PrivilegeDescriptor.Unmarshal m data)).
Proof.
  unfold PrivilegeDescriptor.Unmarshal, PrivilegeDescriptor.step.
  apply loop_size. apply with_tag_size. intros.
  apply PrivilegeDescriptor_body_size.
Qed.

Lemma PrivilegeDescriptor_stored (data : list byte) :
  len data < 2 ^ 62 ->
  dry_PrivilegeDescriptor data = Stored ->
  leaves_trace appended_PrivilegeDescriptor
    (fun m => PrivilegeDescriptor.Unmarshal m data).
Proof.
  intros Hlen.
  unfold dry_PrivilegeDescriptor, PrivilegeDescriptor.Unmarshal,
    PrivilegeDescriptor.step.
  apply dry_loop_stored.
  - apply with_tag_kept. apply PrivilegeDescriptor_body_kept.
  - apply with_tag_stored. intros.
    apply PrivilegeDescriptor_body_stored; assumption.
  - apply with_tag_size. intros. apply PrivilegeDescriptor_body_size.
Qed.

Lemma add_ColumnID_kept (IDt : ity) (data : list byte) (wireType j : Z)
    (r : res Z) :
  dry_local IDt "ColumnIDs" data wireType j = Kept r ->
  forall m, IndexDescriptor.add_ColumnID IDt m data wireType j = (m, r).
Proof.
  unfold dry_local, IndexDescriptor.add_ColumnID.
  destruct (negb (wireType =? 0)); intros H m;
    [injection H as <-; reflexivity|].
  destruct (read_local IDt data j) as [[v i]|e| |]; cbn in H;
    try discriminate H; injection H as <-; reflexivity.
Qed.

Lemma add_ColumnID_stored (IDt : ity) (data : list byte) (wireType j : Z) :
  dry_local IDt "ColumnIDs" data wireType j = Stored ->
  leaves_trace appended_IndexDescriptor
    (fun m => IndexDescriptor.add_ColumnID IDt m data wireType j).
Proof.
  unfold dry_local, IndexDescriptor.add_ColumnID.
  destruct (negb (wireType =? 0)); [discriminate|].
  destruct (read_local IDt data j) as [[v i]|e| |]; cbn; try discriminate.
  intros _. right. setter_size.
Qed.

Lemma add_ColumnID_size (IDt : ity) (data : list byte) (wireType j : Z)
    (m : IndexDescriptor.t) :
  appended_IndexDescriptor m
  <= appended_IndexDescriptor
       (fst (IndexDescriptor.add_ColumnID IDt m data wireType j)).
Proof.
  unfold IndexDescriptor.add_ColumnID.
  destruct (negb (wireType =? 0)); cbn [fst]; [lia|].
  destruct (read_local IDt data j) as [[v i]|e| |]; cbn [fst]; try lia.
  setter_size.
Qed.

Section WithID.
Variable IDt : ity.

Lemma IndexDescriptor_body_kept (data : list byte) (wire j : Z) (r : res Z) :
  dry_IndexDescriptor_body IDt data wire j = Kept r ->
  forall m, IndexDescriptor.body IDt m data wire j = (m, r).
Proof.
  unfold dry_IndexDescriptor_body, IndexDescriptor.body. switch_cases.
  - apply string_kept.
  - apply scalar_kept.
  - apply bool_kept.
  - apply string_kept.
  - apply add_ColumnID_kept.
  - apply unknown_kept.
Qed.

Lemma IndexDescriptor_body_stored (data : list byte) (wire j : Z) :
  len data < 2 ^ 62 ->
  dry_IndexDescriptor_body IDt data wire j = Stored ->
  leaves_trace appended_IndexDescriptor
    (fun m => IndexDescriptor.body IDt m data wire j).
Proof.
  intros Hlen.
  unfold dry_IndexDescriptor_body, IndexDescriptor.body. switch_cases.
  - apply (string_stored _ _ _ _ _ _
             IndexDescriptor.zero
             (IndexDescriptor.set_Name [x61] IndexDescriptor.zero));
      [discriminate|reflexivity].
  - apply (scalar_stored _ _ _ _ _ _ _
             IndexDescriptor.zero
             (IndexDescriptor.set_ID 1 IndexDescriptor.zero));
      [discriminate|reflexivity].
  - apply (bool_stored _ _ _ _ _ _
             IndexDescriptor.zero
             (IndexDescriptor.set_Unique true IndexDescriptor.zero));
      [discriminate|reflexivity].
  - apply strings_stored. setter_size.
  - apply add_ColumnID_stored.
  - apply unknown_stored; [exact Hlen|]. setter_size.
Qed.

Lemma IndexDescriptor_body_size (data : list byte) (m : IndexDescriptor.t)
    (wire j : Z) :
  appended_IndexDescriptor m
  <= appended_IndexDescriptor (fst (IndexDescriptor.body IDt m data wire j)).
Proof.
  unfold IndexDescriptor.body. switch_cases.
  - apply string_size. setter_size.
  - apply scalar_size. setter_size.
  - apply bool_size. setter_size.
  - apply string_size. setter_size.
  - apply add_ColumnID_size.
  - apply unknown_size. setter_size.
Qed.

Lemma IndexDescriptor_kept (data : list byte) (r : res unit) :
  dry_IndexDescriptor IDt data = Kept r ->
  forall m, IndexDescriptor.Unmarshal IDt m data = (m, r).
Proof.
  unfold dry_IndexDescriptor, IndexDescriptor.Unmarshal, IndexDescriptor.step.
  apply dry_loop_kept. apply with_tag_kept. apply IndexDescriptor_body_kept.
Qed.

Lemma IndexDescriptor_size (m : IndexDescriptor.t) (data : list byte) :
  appended_IndexDescriptor m
  <= appended_IndexDescriptor (fst (IndexDescriptor.Unmarshal IDt m data)).
Proof.
  unfold IndexDescriptor.Unmarshal, IndexDescriptor.step.
  apply loop_size. apply with_tag_size. intros.
  apply IndexDescriptor_body_size.
Qed.

Lemma IndexDescriptor_stored (data : list byte) :
  len data < 2 ^ 62 ->
  dry_IndexDescriptor IDt data = Stored ->
  leaves_trace appended_IndexDescriptor
    (fun m => IndexDescriptor.Unmarshal IDt m data).
Proof.
  intros Hlen.
  unfold dry_IndexDescriptor, IndexDescriptor.Unmarshal, IndexDescriptor.step.
  apply dry_loop_stored.
  - apply with_tag_kept. apply IndexDescriptor_body_kept.
  - apply with_tag_stored. intros.
    apply IndexDescriptor_body_stored; assumption.
  - apply with_tag_size. intros. apply IndexDescriptor_body_size.
Qed.

Lemma ColumnDescriptor_body_kept (data : list byte) (wire j : Z) (r : res Z) :
  dry_ColumnDescriptor_body data wire j = Kept r ->
  forall m, ColumnDescriptor.body IDt m data wire j = (m, r).
Proof.
  unfold dry_ColumnDescriptor_body, ColumnDescriptor.body. switch_cases.
  - apply string_kept.
  - apply scalar_kept.
  - apply message_kept; [exact ColumnType_kept|intros []; reflexivity].
  - apply bool_kept.
  - apply unknown_kept.
Qed.

Lemma ColumnDescriptor_body_stored (data : list byte) (wire j : Z) :
  len data < 2 ^ 62 ->
  dry_ColumnDescriptor_body data wire j = Stored ->
  leaves_trace appended_ColumnDescriptor
    (fun m => ColumnDescriptor.body IDt m data wire j).
Proof.
  intros Hlen.
  unfold dry_ColumnDescriptor_body, ColumnDescriptor.body. switch_cases.
  - apply (string_stored _ _ _ _ _ _
             ColumnDescriptor.zero
             (ColumnDescriptor.set_Name [x61] ColumnDescriptor.zero));
      [discriminate|reflexivity].
  - apply (scalar_stored _ _ _ _ _ _ _
             ColumnDescriptor.zero
             (ColumnDescriptor.set_ID 1 ColumnDescriptor.zero));
      [discriminate|reflexivity].
  - apply (message_stored _ appended_ColumnType) with
      (base := ColumnDescriptor.zero);
      [exact ColumnType_stored|reflexivity|reflexivity|setter_size|exact Hlen].
  - apply (bool_stored _ _ _ _ _ _
             ColumnDescriptor.zero
             (ColumnDescriptor.set_Nullable true ColumnDescriptor.zero));
      [discriminate|reflexivity].
  - apply unknown_stored; [exact Hlen|]. setter_size.
Qed.

End WithID.

Section WithID.
Variable IDt : ity.

Lemma ColumnDescriptor_body_size (data : list byte) (m : ColumnDescriptor.t)
    (wire j : Z) :
  appended_ColumnDescriptor m
  <= appended_ColumnDescriptor (fst (ColumnDescriptor.body IDt m data wire j)).
Proof.
  unfold ColumnDescriptor.body. switch_cases.
  - apply string_size. setter_size.
  - apply scalar_size. setter_size.
  - apply (message_size _ appended_ColumnType);
      [setter_size|exact ColumnType_size].
  - apply bool_size. setter_size.
  - apply unknown_size. setter_size.
Qed.

Lemma ColumnDescriptor_kept (data : list byte) (r : res unit) :
  dry_ColumnDescriptor data = Kept r ->
  forall m, ColumnDescriptor.Unmarshal IDt m data = (m, r).
Proof.
  unfold dry_ColumnDescriptor, ColumnDescriptor.Unmarshal,
    ColumnDescriptor.step.
  apply dry_loop_kept. apply with_tag_kept. apply ColumnDescriptor_body_kept.
Qed.

Lemma ColumnDescriptor_stored (data : list byte) :
  len data < 2 ^ 62 ->
  dry_ColumnDescriptor data = Stored ->
  leaves_trace appended_ColumnDescriptor
    (fun m => ColumnDescriptor.Unmarshal IDt m data).
Proof.
  intros Hlen.
  unfold dry_ColumnDescriptor, ColumnDescriptor.Unmarshal,
    ColumnDescriptor.step.
  apply dry_loop_stored.
  - apply with_tag_kept. apply ColumnDescriptor_body_kept.
  - apply with_tag_stored. intros.
    apply ColumnDescriptor_body_stored; assumption.
  - apply with_tag_size. intros. apply ColumnDescriptor_body_size.
Qed.

Lemma DatabaseDescriptor_body_kept (data : list byte) (wire j : Z)
    (r : res Z) :
  dry_DatabaseDescriptor_body data wire j = Kept r ->
  forall m, DatabaseDescriptor.body IDt m data wire j = (m, r).
Proof.
  unfold dry_DatabaseDescriptor_body, DatabaseDescriptor.body. switch_cases.
  - apply string_kept.
  - apply scalar_kept.
  - apply message_kept;
      [exact PrivilegeDescriptor_kept|intros []; reflexivity].
  - apply unknown_kept.
Qed.

Lemma DatabaseDescriptor_body_stored (data : list byte) (wire j : Z) :
  len data < 2 ^ 62 ->
  dry_DatabaseDescriptor_body data wire j = Stored ->
  leaves_trace appended_DatabaseDescriptor
    (fun m => DatabaseDescriptor.body IDt m data wire j).
Proof.
  intros Hlen.
  unfold dry_DatabaseDescriptor_body, DatabaseDescriptor.body. switch_cases.
  - apply (string_stored _ _ _ _ _ _
             DatabaseDescriptor.zero
             (DatabaseDescriptor.set_Name [x61] DatabaseDescriptor.zero));
      [discriminate|reflexivity].
  - apply (scalar_stored _ _ _ _ _ _ _
             DatabaseDescriptor.zero
             (DatabaseDescriptor.set_ID 1 DatabaseDescriptor.zero));
      [discriminate|reflexivity].
  - apply (message_stored _ appended_PrivilegeDescriptor) with
      (base := DatabaseDescriptor.zero);
      [exact PrivilegeDescriptor_stored|reflexivity|reflexivity
      |setter_size|exact Hlen].
  - apply unknown_stored; [exact Hlen|]. setter_size.
Qed.

Lemma DatabaseDescriptor_body_size (data : list byte)
    (m : DatabaseDescriptor.t) (wire j : Z) :
  appended_DatabaseDescriptor m
  <= appended_DatabaseDescriptor
       (fst (DatabaseDescriptor.body IDt m data wire j)).
Proof.
  unfold DatabaseDescriptor.body. switch_cases.
  - apply string_size. setter_size.
  - apply scalar_size. setter_size.
  - apply (message_size _ appended_PrivilegeDescriptor);
      [setter_size|exact PrivilegeDescriptor_size].
  - apply unknown_size. setter_size.
Qed.

Lemma DatabaseDescriptor_kept (data : list byte) (r : res unit) :
  dry_DatabaseDescriptor data = Kept r ->
  forall m, DatabaseDescriptor.Unmarshal IDt m data = (m, r).
Proof.
  unfold dry_DatabaseDescriptor, DatabaseDescriptor.Unmarshal,
    DatabaseDescriptor.step.
  apply dry_loop_kept. apply with_tag_kept.
  apply DatabaseDescriptor_body_kept.
Qed.

Lemma DatabaseDescriptor_stored (data : list byte) :
  len data < 2 ^ 62 ->
  dry_DatabaseDescriptor data = Stored ->
  leaves_trace appended_DatabaseDescriptor
    (fun m => DatabaseDescriptor.Unmarshal IDt m data).
Proof.
  intros Hlen.
  unfold dry_DatabaseDescriptor, DatabaseDescriptor.Unmarshal,
    DatabaseDescriptor.step.
  apply dry_loop_stored.
  - apply with_tag_kept. apply DatabaseDescriptor_body_kept.
  - apply with_tag_stored. intros.
    apply DatabaseDescriptor_body_stored; assumption.
  - apply with_tag_size. intros. apply DatabaseDescriptor_body_size.
Qed.

Lemma TableDescriptor_body_kept (data : list byte) (wire j : Z) (r : res Z) :
  dry_TableDescriptor_body IDt data wire j = Kept r ->
  forall m, TableDescriptor.body IDt m data wire j = (m, r).
Proof.
  unfold dry_TableDescriptor_body, TableDescriptor.body. switch_cases.
  - apply string_kept.
  - apply scalar_kept.
  - apply repeated_kept.
  - apply scalar_kept.
  - apply message_kept;
      [exact (IndexDescriptor_kept IDt)|intros []; reflexivity].
  - apply repeated_kept.
  - apply scalar_kept.
  - apply message_kept;
      [exact PrivilegeDescriptor_kept|intros []; reflexivity].
  - apply unknown_kept.
Qed.

Lemma TableDescriptor_body_stored (data : list byte) (wire j : Z) :
  len data < 2 ^ 62 ->
  dry_TableDescriptor_body IDt data wire j = Stored ->
  leaves_trace appended_TableDescriptor
    (fun m => TableDescriptor.body IDt m data wire j).
Proof.
  intros Hlen.
  unfold dry_TableDescriptor_body, TableDescriptor.body. switch_cases.
  - apply (string_stored _ _ _ _ _ _
             TableDescriptor.zero
             (TableDescriptor.set_Name [x61] TableDescriptor.zero));
      [discriminate|reflexivity].
  - apply (scalar_stored _ _ _ _ _ _ _
             TableDescriptor.zero
             (TableDescriptor.set_ID 1 TableDescriptor.zero));
      [discriminate|reflexivity].
  - apply repeated_stored. setter_size.
  - apply (scalar_stored _ _ _ _ _ _ _
             TableDescriptor.zero
             (TableDescriptor.set_NextColumnID 1 TableDescriptor.zero));
      [discriminate|reflexivity].
  - apply (message_stored _ appended_IndexDescriptor) with
      (base := TableDescriptor.zero);
      [exact (IndexDescriptor_stored IDt)|reflexivity|reflexivity
      |setter_size|exact Hlen].
  - apply repeated_stored. setter_size.
  - apply (scalar_stored _ _ _ _ _ _ _
             TableDescriptor.zero
             (TableDescriptor.set_NextIndexID 1 TableDescriptor.zero));
      [discriminate|reflexivity].
  - apply (message_stored _ appended_PrivilegeDescriptor) with
      (base := TableDescriptor.zero);
      [exact PrivilegeDescriptor_stored|reflexivity|reflexivity
      |setter_size|exact Hlen].
  - apply unknown_stored; [exact Hlen|]. setter_size.
Qed.

Lemma TableDescriptor_body_size (data : list byte) (m : TableDescriptor.t)
    (wire j : Z) :
  appended_TableDescriptor m
  <= appended_TableDescriptor (fst (TableDescriptor.body IDt m data wire j)).
Proof.
  unfold TableDescriptor.body. switch_cases.
  - apply string_size. setter_size.
  - apply scalar_size. setter_size.
  - apply repeated_size. setter_size.
  - apply scalar_size. setter_size.
  - apply (message_size _ appended_IndexDescriptor);
      [setter_size|exact (IndexDescriptor_size IDt)].
  - apply repeated_size. setter_size.
  - apply scalar_size. setter_size.
  - apply (message_size _ appended_PrivilegeDescriptor);
      [setter_size|exact PrivilegeDescriptor_size].
  - apply unknown_size. setter_size.
Qed.

Lemma TableDescriptor_kept (data : list byte) (r : res unit) :
  dry_TableDescriptor IDt data = Kept r ->
  forall m, TableDescriptor.Unmarshal IDt m data = (m, r).
Proof.
  unfold dry_TableDescriptor, TableDescriptor.Unmarshal, TableDescriptor.step.
  apply dry_loop_kept. apply with_tag_kept. apply TableDescriptor_body_kept.
Qed.

Lemma TableDescriptor_stored (data : list byte) :
  len data < 2 ^ 62 ->
  dry_TableDescriptor IDt data = Stored ->
  leaves_trace appended_TableDescriptor
    (fun m => TableDescriptor.Unmarshal IDt m data).
Proof.
  intros Hlen.
  unfold dry_TableDescriptor, TableDescriptor.Unmarshal, TableDescriptor.step.
  apply dry_loop_stored.
  - apply with_tag_kept. apply TableDescriptor_body_kept.
  - apply with_tag_stored. intros.
    apply TableDescriptor_body_stored; assumption.
  - apply with_tag_size. intros. apply TableDescriptor_body_size.
Qed.

End WithID.

(** A decoding that leaves a trace does not leave every receiver as it
    was. *)
Lemma trace_shows {T : Type} (size : T -> Z) (f : T -> T * res unit)
    (zero : T) :
  leaves_trace size f -> (forall m, fst (f m) = m) -> False.
Proof.
  intros [(m0 & m1 & Hne & E)|G] H.
  - apply Hne. rewrite <- (H m0), <- (H m1), E. reflexivity.
  - specialize (G zero). rewrite H in G. lia.
Qed.

(** *** Any of the six descriptors *)

Lemma dry_Unmarshal_kept (IDt : ity) (k : Descriptor.kind) (data : list byte)
    (r : res unit) :
  dry_Unmarshal IDt k data = Kept r ->
  forall m, Descriptor.kind_of m = k ->
            Descriptor.Unmarshal IDt m data = (m, r).
Proof.
  intros H m <-.
  destruct m as [m|m|m|m|m|m];
    cbn [Descriptor.kind_of dry_Unmarshal Descriptor.Unmarshal] in *;
    unfold Descriptor.on_fst.
  - rewrite (ColumnType_kept _ _ H). reflexivity.
  - rewrite (ColumnDescriptor_kept IDt _ _ H). reflexivity.
  - rewrite (IndexDescriptor_kept IDt _ _ H). reflexivity.
  - rewrite (PrivilegeDescriptor_kept _ _ H). reflexivity.
  - rewrite (TableDescriptor_kept IDt _ _ H). reflexivity.
  - rewrite (DatabaseDescriptor_kept IDt _ _ H). reflexivity.
Qed.

Lemma dry_Unmarshal_stored (IDt : ity) (k : Descriptor.kind)
    (data : list byte) :
  len data < 2 ^ 62 ->
  dry_Unmarshal IDt k data = Stored ->
  (forall m, Descriptor.kind_of m = k ->
             fst (Descriptor.Unmarshal IDt m data) = m) ->
  False.
Proof.
  intros Hlen H A.
  destruct k; cbn [dry_Unmarshal] in H.
  - apply (trace_shows _ _ ColumnType.zero (ColumnType_stored _ Hlen H)).
    intros m. specialize (A (Descriptor.OfColumnType m) eq_refl).
    cbn in A. injection A as A. exact A.
  - apply (trace_shows _ _ ColumnDescriptor.zero
             (ColumnDescriptor_stored IDt _ Hlen H)).
    intros m. specialize (A (Descriptor.OfColumnDescriptor m) eq_refl).
    cbn in A. injection A as A. exact A.
  - apply (trace_shows _ _ IndexDescriptor.zero
             (IndexDescriptor_stored IDt _ Hlen H)).
    intros m. specialize (A (Descriptor.OfIndexDescriptor m) eq_refl).
    cbn in A. injection A as A. exact A.
  - apply (trace_shows _ _ PrivilegeDescriptor.zero
             (PrivilegeDescriptor_stored _ Hlen H)).
    intros m. specialize (A (Descriptor.OfPrivilegeDescriptor m) eq_refl).
    cbn in A. injection A as A. exact A.
  - apply (trace_shows _ _ TableDescriptor.zero
             (TableDescriptor_stored IDt _ Hlen H)).
    intros m. specialize (A (Descriptor.OfTableDescriptor m) eq_refl).
    cbn in A. injection A as A. exact A.
  - apply (trace_shows _ _ DatabaseDescriptor.zero
             (DatabaseDescriptor_stored IDt _ Hlen H)).
    intros m. specialize (A (Descriptor.OfDatabaseDescriptor m) eq_refl).
    cbn in A. injection A as A. exact A.
Qed.

Lemma kind_of_zero (k : Descriptor.kind) :
  Descriptor.kind_of (Descriptor.zero k) = k.
Proof. destruct k; reflexivity. Qed.

(** * The claims *)

Lemma field99_foreign (n : Z) : 1 <= n < 99 -> foreign_field n Items.field99.
Proof.
  intros H. exists 792, [x05]. split; [|split; [|split]].
  - rewrite two64. lia.
  - change (fieldNum_of 792) with 99. lia.
  - change (Z.land 792 7) with 0. apply (payload_varint [] x05).
    + constructor.
    + vm_compute. reflexivity.
  - reflexivity.
Defined.

Lemma group98_foreign (n : Z) : 1 <= n < 98 -> foreign_field n Items.group98.
Proof.
  intros H. exists 787, [x08; x05; x94; x06]. split; [|split; [|split]].
  - rewrite two64. lia.
  - change (fieldNum_of 787) with 98. lia.
  - change (Z.land 787 7) with 3.
    apply (payload_group_member 8 [x05] [x94; x06]).
    + rewrite two64. lia.
    + discriminate.
    + apply (payload_varint [] x05); [constructor|vm_compute; reflexivity].
    + apply (payload_group_end 788); [rewrite two64; lia|reflexivity].
  - reflexivity.
Qed.

(** A group of an unknown field number is captured whole. *)
Lemma group98_captured :
  ColumnType.Unmarshal ColumnType.zero Items.group98
  = (ColumnType.set_XXX_unrecognized Items.group98 ColumnType.zero, Ok tt).
Proof. vm_compute. reflexivity. Qed.

Lemma upgraded_valid :
  Descriptor.valid Uint32 (Descriptor.OfTableDescriptor Items.upgraded).
Proof.
  cbn. unfold TableDescriptor.valid, ColumnDescriptor.valid, IndexDescriptor.valid,
    PrivilegeDescriptor.valid, ColumnType.valid, in_range. cbn.
  repeat first [ split | apply Forall_cons | apply Forall_nil
               | apply foreign_fields_nil | lia | (cbn; lia) ].
  exists [Items.field99]. split; [|reflexivity].
  constructor; [apply field99_foreign; lia|constructor].
Defined.

Lemma upgraded_fits : Descriptor.fits (Descriptor.OfTableDescriptor Items.upgraded).
Proof. unfold Descriptor.fits. vm_compute. reflexivity. Defined.

(** C1: Round trip.  For every valid descriptor [d] of any of the six
    types, [Marshal d] succeeds and [Unmarshal], applied to these bytes on
    the zero value of the type, succeeds and returns [d] itself: every
    field, the zero-valued ones included, and the unrecognized bytes. *)
Theorem round_trip (IDt : ity) (d : Descriptor.t) :
  Descriptor.valid IDt d -> Descriptor.fits d ->
  exists bs,
    Descriptor.Marshal d = Ok bs /\
    Descriptor.Unmarshal IDt (Descriptor.zero (Descriptor.kind_of d)) bs
    = (d, Ok tt).
Proof.
  intros Hv Hf. exists (Descriptor.encode d). split.
  - apply DescriptorFacts.D_Marshal_encode. exact Hf.
  - apply DescriptorFacts.D_Unmarshal_encode; assumption.
Qed.

Lemma round_trip_witness :
  Descriptor.valid Uint32 (Descriptor.OfTableDescriptor Items.upgraded) /\
  Descriptor.fits (Descriptor.OfTableDescriptor Items.upgraded) /\
  exists bs,
    Descriptor.Marshal (Descriptor.OfTableDescriptor Items.upgraded) = Ok bs /\
    Descriptor.Unmarshal Uint32 (Descriptor.zero Descriptor.KTableDescriptor) bs
    = (Descriptor.OfTableDescriptor Items.upgraded, Ok tt).
Proof.
  split; [exact upgraded_valid|]. split; [exact upgraded_fits|].
  exact (round_trip Uint32 (Descriptor.OfTableDescriptor Items.upgraded)
           upgraded_valid upgraded_fits).
Defined.

(** C2: Size and Marshal agree.  For every descriptor [m] of any type whose
    wire image fits a Go slice, [Marshal m] succeeds with a byte sequence of
    length exactly [Size m], and [MarshalTo], given a buffer of [Size m]
    bytes, fills it with these bytes and returns [Size m]. *)
Theorem size_marshal_agree (m : Descriptor.t) :
  Descriptor.fits m ->
  exists bs,
    Descriptor.Marshal m = Ok bs /\
    len bs = Descriptor.Size m /\
    forall data, len data = Descriptor.Size m ->
                 Descriptor.MarshalTo m data = Ok (bs, Descriptor.Size m).
Proof.
  intros Hf. exists (Descriptor.encode m).
  pose proof (DescriptorFacts.D_Size_encode m Hf) as Hs.
  split; [apply DescriptorFacts.D_Marshal_encode; exact Hf|].
  split; [symmetry; exact Hs|].
  intros data Hd. unfold Descriptor.fits in Hf.
  rewrite DescriptorFacts.D_MarshalTo_encode by lia.
  rewrite splice_whole by lia. rewrite Hs. reflexivity.
Qed.

Lemma size_marshal_agree_witness :
  Descriptor.fits (Descriptor.OfTableDescriptor Items.upgraded) /\
  exists bs,
    Descriptor.Marshal (Descriptor.OfTableDescriptor Items.upgraded) = Ok bs /\
    len bs = Descriptor.Size (Descriptor.OfTableDescriptor Items.upgraded) /\
    forall data,
      len data = Descriptor.Size (Descriptor.OfTableDescriptor Items.upgraded) ->
      Descriptor.MarshalTo (Descriptor.OfTableDescriptor Items.upgraded) data
      = Ok (bs, Descriptor.Size (Descriptor.OfTableDescriptor Items.upgraded)).
Proof.
  split; [exact upgraded_fits|].
  exact (size_marshal_agree (Descriptor.OfTableDescriptor Items.upgraded)
           upgraded_fits).
Defined.

(** C3: Unrecognized fields.  The claim fails on the code when the tag of
    the unrecognized field is not in its shortest encoding: the [default:]
    branch steps back by the size of the tag's value, not by the number of
    bytes the tag took.  For the bytes [98 86 80 00 05] (field 99, wire type
    0, value 5, with the tag padded to four bytes) [ColumnType.Unmarshal]
    succeeds, captures [80 00 05] instead of the five bytes of the field,
    and [Marshal] replays those three, which a second decode reads as field
    0. *)
Theorem unrecognized_padded_tag :
  read_local Uint64 [x98; x86; x80; x00; x05] 0 = Ok (792, 4) /\
  fieldNum_of 792 = 99 /\ wireType_of 792 = 0 /\
  ColumnType.Unmarshal ColumnType.zero [x98; x86; x80; x00; x05]
  = (ColumnType.mk 0 0 0 [x80; x00; x05], Ok tt) /\
  ColumnType.Marshal (ColumnType.mk 0 0 0 [x80; x00; x05])
  = Ok [x08; x00; x10; x00; x18; x00; x80; x00; x05] /\
  ColumnType.Unmarshal ColumnType.zero
    [x08; x00; x10; x00; x18; x00; x80; x00; x05]
  = (ColumnType.mk 0 0 0 [x00; x05], Ok tt).
Proof. repeat split; vm_compute; reflexivity. Qed.

(** C5 as stated is false: the three bytes [22 01 61], one column name and
    no column id, decode successfully. *)
Lemma names_without_ids :
  IndexDescriptor.Unmarshal Uint32 IndexDescriptor.zero [x22; x01; x61]
  = (IndexDescriptor.mk [] 0 false [[x61]] [] [], Ok tt) /\
  List.length (IndexDescriptor.ColumnNames
                 (IndexDescriptor.mk [] 0 false [[x61]] [] []))
  <> List.length (IndexDescriptor.ColumnIDs
                    (IndexDescriptor.mk [] 0 false [[x61]] [] [])).
Proof. split; [vm_compute; reflexivity|cbn; discriminate]. Qed.

(** C5: Parallel arrays, amended.  The decoder checks nothing, but it
    returns what was encoded: for every valid IndexDescriptor [d] with as
    many column names as column ids, decoding [Marshal d] into a zero value
    succeeds and the decoded value has as many column names as column
    ids. *)
Theorem parallel_arrays_preserved (IDt : ity) (d : IndexDescriptor.t)
    (bs : list byte) :
  IndexDescriptor.valid IDt d ->
  len (IndexDescriptor.encode d) < 2 ^ 63 ->
  List.length (IndexDescriptor.ColumnNames d)
  = List.length (IndexDescriptor.ColumnIDs d) ->
  IndexDescriptor.Marshal d = Ok bs ->
  exists m,
    IndexDescriptor.Unmarshal IDt IndexDescriptor.zero bs = (m, Ok tt) /\
    List.length (IndexDescriptor.ColumnNames m)
    = List.length (IndexDescriptor.ColumnIDs m).
Proof.
  intros Hv Hf Hp Hm.
  rewrite IndexDescriptorWire.IX_Marshal_encode in Hm by assumption.
  injection Hm as <-.
  exists d. split; [|exact Hp].
  rewrite IndexDescriptorFacts.IX_unmarshal_encode by assumption.
  rewrite IndexDescriptorFacts.IX_merge_zero. reflexivity.
Qed.

Lemma primary_valid : IndexDescriptor.valid Uint32 Items.primary.
Proof.
  unfold IndexDescriptor.valid, in_range. cbn.
  repeat first [ split | apply Forall_cons | apply Forall_nil
               | apply foreign_fields_nil | lia | (cbn; lia) ].
Defined.

Lemma parallel_arrays_preserved_witness :
  exists bs m,
    IndexDescriptor.Marshal Items.primary = Ok bs /\
    IndexDescriptor.Unmarshal Uint32 IndexDescriptor.zero bs = (m, Ok tt) /\
    List.length (IndexDescriptor.ColumnNames m)
    = List.length (IndexDescriptor.ColumnIDs m).
Proof.
  exists (IndexDescriptor.encode Items.primary).
  assert (Hf : len (IndexDescriptor.encode Items.primary) < 2 ^ 63)
    by (vm_compute; reflexivity).
  assert (Hm : IndexDescriptor.Marshal Items.primary
               = Ok (IndexDescriptor.encode Items.primary))
    by (vm_compute; reflexivity).
  destruct (parallel_arrays_preserved Uint32 Items.primary
              (IndexDescriptor.encode Items.primary)
              primary_valid Hf eq_refl Hm) as [m [H1 H2]].
  exists m. repeat split; assumption.
Defined.

(** C9: Empty input.  For every descriptor type, [Unmarshal] applied to the
    empty byte sequence returns no error and leaves the receiver as it was;
    on the zero value of the type this is the zero-valued descriptor: empty
    strings, zero ids and counters, no elements, zero-valued nested messages
    and no unrecognized bytes. *)
Theorem unmarshal_empty :
  (forall (IDt : ity) (m : Descriptor.t),
      Descriptor.Unmarshal IDt m [] = (m, Ok tt)) /\
  (forall (IDt : ity) (k : Descriptor.kind),
      Descriptor.Unmarshal IDt (Descriptor.zero k) []
      = (Descriptor.zero k, Ok tt)) /\
  ColumnType.zero = ColumnType.mk 0 0 0 [] /\
  ColumnDescriptor.zero
  = ColumnDescriptor.mk [] 0 (ColumnType.mk 0 0 0 []) false [] /\
  IndexDescriptor.zero = IndexDescriptor.mk [] 0 false [] [] [] /\
  PrivilegeDescriptor.zero = PrivilegeDescriptor.mk [] [] [] /\
  TableDescriptor.zero
  = TableDescriptor.mk [] 0 [] 0 (IndexDescriptor.mk [] 0 false [] [] []) []
      0 (PrivilegeDescriptor.mk [] [] []) [] /\
  DatabaseDescriptor.zero
  = DatabaseDescriptor.mk [] 0 (PrivilegeDescriptor.mk [] [] []) [].
Proof.
  assert (H : forall (IDt : ity) (m : Descriptor.t),
             Descriptor.Unmarshal IDt m [] = (m, Ok tt))
    by (intros IDt [m|m|m|m|m|m]; reflexivity).
  split; [exact H|]. split; [intros; apply H|].
  repeat split.
Qed.

(** C4 as stated is false: the ColumnType with width 5 encodes to
    [08 00 10 05 18 00]; its prefix of length 2 decodes without error to a
    ColumnType with width 0, and the empty prefix to the zero value. *)
Lemma truncation_between_fields :
  ColumnType.valid (ColumnType.mk 0 5 0 []) /\
  ColumnType.Marshal (ColumnType.mk 0 5 0 [])
  = Ok [x08; x00; x10; x05; x18; x00] /\
  ColumnType.Unmarshal ColumnType.zero
    (firstn 2 [x08; x00; x10; x05; x18; x00])
  = (ColumnType.mk 0 0 0 [], Ok tt) /\
  ColumnType.Unmarshal ColumnType.zero
    (firstn 0 [x08; x00; x10; x05; x18; x00])
  = (ColumnType.mk 0 0 0 [], Ok tt) /\
  ColumnType.mk 0 0 0 [] <> ColumnType.mk 0 5 0 [].
Proof.
  split.
  { unfold ColumnType.valid, in_range. cbn.
    repeat first [split | lia | apply foreign_fields_nil]. }
  repeat split; try (vm_compute; reflexivity). discriminate.
Qed.

(** C4: Truncation, amended.  Let [d] be a valid descriptor of any type
    whose unrecognized bytes are the fields [us], and [bs = Marshal d].  For
    every offset [k] before the end of [bs]: if [k] does not fall between
    two top-level fields of [bs], [Unmarshal] of the first [k] bytes fails
    with [io.ErrUnexpectedEOF]; if it does (the empty prefix included),
    [Unmarshal] of the first [k] bytes succeeds. *)
Theorem truncation_detected (IDt : ity) (d : Descriptor.t)
    (us : list (list byte)) (bs : list byte) (k : nat) :
  Descriptor.valid IDt d -> Descriptor.fits d ->
  Forall (foreign_field (Descriptor.nfields (Descriptor.kind_of d))) us ->
  Descriptor.XXX_unrecognized d = List.concat us ->
  Descriptor.Marshal d = Ok bs ->
  (k < List.length bs)%nat ->
  (~ In k (boundaries (Descriptor.fields d ++ us)) ->
   snd (Descriptor.Unmarshal IDt (Descriptor.zero (Descriptor.kind_of d))
          (firstn k bs))
   = Fail ErrUnexpectedEOF)
  /\ (In k (boundaries (Descriptor.fields d ++ us)) ->
      snd (Descriptor.Unmarshal IDt (Descriptor.zero (Descriptor.kind_of d))
             (firstn k bs))
      = Ok tt).
Proof.
  intros Hv Hf Hus Hu Hm Hk.
  rewrite DescriptorFacts.D_Marshal_encode in Hm by exact Hf.
  injection Hm as <-.
  apply DescriptorFacts.D_Unmarshal_cut; assumption.
Qed.

Lemma truncation_detected_witness :
  snd (Descriptor.Unmarshal Uint32 (Descriptor.zero Descriptor.KTableDescriptor)
         (firstn 88
            (Descriptor.encode (Descriptor.OfTableDescriptor Items.upgraded))))
  = Fail ErrUnexpectedEOF.
Proof.
  refine (proj1 (truncation_detected Uint32
                   (Descriptor.OfTableDescriptor Items.upgraded)
                   [Items.field99]
                   (Descriptor.encode (Descriptor.OfTableDescriptor Items.upgraded))
                   88 upgraded_valid upgraded_fits _ eq_refl _ _) _).
  - constructor; [apply field99_foreign; cbn; lia|constructor].
  - vm_compute. reflexivity.
  - vm_compute. lia.
  - intros H. vm_compute in H.
    repeat (destruct H as [H|H]; [discriminate H|]). exact H.
Defined.

(** C6: Varints.  No zig-zag transform is applied: the varint written for
    a field is the one of its value converted to [uint64], and decoding it
    at any of the integer types gives the value converted to that type.
    The value -1 of an [int32] field is written as the ten bytes
    [ff ff ff ff ff ff ff ff ff 01] and read back as -1, and the boundary
    values 0, 127, 128, 2^32-1 and 2^64-1 are written by
    [encodeVarintStructured] in 1, 1, 2, 5 and 10 bytes and read back
    unchanged. *)
Theorem varint_boundaries :
  (forall (t : ity) (x : Z),
      read_varint t (varint_bytes (cast Uint64 x)) 0
      = (cast t x, Ok (len (varint_bytes (cast Uint64 x))))) /\
  cast Uint64 (-1) = 2 ^ 64 - 1 /\
  encodeVarintStructured (repeat x00 10) 0 (cast Uint64 (-1))
  = Ok ([xff; xff; xff; xff; xff; xff; xff; xff; xff; x01], 10) /\
  read_varint Int32 [xff; xff; xff; xff; xff; xff; xff; xff; xff; x01] 0
  = (-1, Ok 10) /\
  ColumnType.Marshal (ColumnType.mk 0 (-1) 0 [])
  = Ok [x08; x00;
        x10; xff; xff; xff; xff; xff; xff; xff; xff; xff; x01;
        x18; x00] /\
  ColumnType.Unmarshal ColumnType.zero
    [x08; x00;
     x10; xff; xff; xff; xff; xff; xff; xff; xff; xff; x01;
     x18; x00]
  = (ColumnType.mk 0 (-1) 0 [], Ok tt) /\
  map (fun v => encodeVarintStructured (repeat x00 (Z.to_nat (sovStructured v))) 0 v)
    [0; 127; 128; 2 ^ 32 - 1; 2 ^ 64 - 1]
  = [Ok ([x00], 1); Ok ([x7f], 1); Ok ([x80; x01], 2);
     Ok ([xff; xff; xff; xff; x0f], 5);
     Ok ([xff; xff; xff; xff; xff; xff; xff; xff; xff; x01], 10)] /\
  map (fun bytes => read_varint Uint64 bytes 0)
    [[x00]; [x7f]; [x80; x01]; [xff; xff; xff; xff; x0f];
     [xff; xff; xff; xff; xff; xff; xff; xff; xff; x01]]
  = [(0, Ok 1); (127, Ok 1); (128, Ok 2); (2 ^ 32 - 1, Ok 5);
     (2 ^ 64 - 1, Ok 10)].
Proof.
  split.
  { intros t x.
    rewrite (read_varint_at t _ [] [] (cast Uint64 x) 0).
    - rewrite cast_uint64_back. reflexivity.
    - rewrite app_nil_r. reflexivity.
    - reflexivity.
    - apply cast_uint64_range. }
  repeat split; vm_compute; reflexivity.
Qed.

(** C7: Malformed input.  The claim fails on the code in two places.  A
    string length that is negative as an [int] is not checked (the nested
    message path checks it): [ColumnDescriptor.Unmarshal] on the name field
    [0a ff ff ff ff ff ff ff ff ff 01] slices [data[11:10]] and panics,
    where the same length on the nested message field [1a ...] returns
    [ErrInvalidLengthStructured].  And a tag of wire type 6 on field 99 that
    is padded to four bytes, [9e 86 80 00 05], is decoded without error,
    because the skip routine is started in the middle of the tag. *)
Theorem malformed_not_reported :
  (forall IDt : ity,
      ColumnDescriptor.Unmarshal IDt ColumnDescriptor.zero
        [x0a; xff; xff; xff; xff; xff; xff; xff; xff; xff; x01]
      = (ColumnDescriptor.zero, Panic)) /\
  read_string "Name" [x0a; xff; xff; xff; xff; xff; xff; xff; xff; xff; x01] 2 1
  = Panic /\
  slice [x0a; xff; xff; xff; xff; xff; xff; xff; xff; xff; x01] 11 10 = None /\
  (forall IDt : ity,
      ColumnDescriptor.Unmarshal IDt ColumnDescriptor.zero
        [x1a; xff; xff; xff; xff; xff; xff; xff; xff; xff; x01]
      = (ColumnDescriptor.zero, Fail ErrInvalidLengthStructured)) /\
  read_local Uint64 [x9e; x86; x80; x00; x05] 0 = Ok (798, 4) /\
  fieldNum_of 798 = 99 /\ wireType_of 798 = 6 /\
  ColumnType.Unmarshal ColumnType.zero [x9e; x86; x80; x00; x05]
  = (ColumnType.mk 0 0 0 [x80; x00; x05], Ok tt) /\
  skipStructured [x9e; x06; x05] = Fail (ErrIllegalWireType 6).
Proof.
  repeat split; try (vm_compute; reflexivity);
    intros IDt; destruct IDt; vm_compute; reflexivity.
Qed.

(** C8 as stated is false: on [08 05 10] (kind 5, then a width whose value
    is missing) [ColumnType.Unmarshal] returns [io.ErrUnexpectedEOF] and
    leaves kind 5 in the receiver, which was the zero value. *)
Lemma failed_decode_keeps_fields :
  ColumnType.Unmarshal ColumnType.zero [x08; x05; x10]
  = (ColumnType.mk 5 0 0 [], Fail ErrUnexpectedEOF) /\
  ColumnType.mk 5 0 0 [] <> ColumnType.zero.
Proof. split; [vm_compute; reflexivity|discriminate]. Qed.

(** What the six cut decoders say of some inputs.  The first failure is
    met before anything is stored: a string whose length is missing, an
    unknown field of wire type 6, a nested message of negative length, a
    wrong wire type after a primary index of length 0, and a wrong wire
    type inside the primary index.  An integer field is assigned before its
    varint is read, and a column is appended before it is decoded. *)
Lemma dry_Unmarshal_examples :
  dry_ColumnDescriptor [x0a] = Kept (Fail ErrUnexpectedEOF) /\
  dry_TableDescriptor Uint32 [x9e; x06; x05]
  = Kept (Fail (ErrIllegalWireType 6)) /\
  dry_TableDescriptor Uint32
    [x2a; xff; xff; xff; xff; xff; xff; xff; xff; xff; x01]
  = Kept (Fail ErrInvalidLengthStructured) /\
  dry_TableDescriptor Uint32 [x2a; x00; x08]
  = Kept (Fail (ErrWrongWireType 0 "Name")) /\
  dry_TableDescriptor Uint32 [x2a; x01; x08]
  = Kept (Fail (ErrWrongWireType 0 "Name")) /\
  dry_ColumnType [x10] = Stored /\
  ColumnType.Unmarshal (ColumnType.mk 0 7 0 []) [x10]
  = (ColumnType.zero, Fail ErrUnexpectedEOF) /\
  dry_TableDescriptor Uint32 [x1a; x01; x08] = Stored /\
  TableDescriptor.Unmarshal Uint32 TableDescriptor.zero [x1a; x01; x08]
  = (TableDescriptor.add_Column ColumnDescriptor.zero TableDescriptor.zero,
     Fail (ErrWrongWireType 0 "Name")).
Proof. repeat split; vm_compute; reflexivity. Qed.

(** C8: Failure, amended.  [Unmarshal] decodes in place and does not
    restore the receiver, so what is stored before a failure stays in it.
    A failed call leaves every receiver as it was exactly when the failure
    is met before the first store.  For every descriptor type, input and
    error [e]: if the decoder cut at its first store ends with [e], then
    [Unmarshal] returns [e] and leaves the receiver unchanged, whatever the
    receiver; and if [Unmarshal] returns [e] and leaves the receiver
    unchanged on every receiver of that type (the input being shorter than
    [2^62] bytes), then the cut decoder ends with [e]: once a statement
    that writes to the receiver has run, some receiver shows it. *)
Theorem failure_before_first_store (IDt : ity) (k : Descriptor.kind)
    (data : list byte) (e : error) :
  (dry_Unmarshal IDt k data = Kept (Fail e) ->
   forall m, Descriptor.kind_of m = k ->
             Descriptor.Unmarshal IDt m data = (m, Fail e)) /\
  (len data < 2 ^ 62 ->
   (forall m, Descriptor.kind_of m = k ->
              Descriptor.Unmarshal IDt m data = (m, Fail e)) ->
   dry_Unmarshal IDt k data = Kept (Fail e)).
Proof.
  split.
  - apply dry_Unmarshal_kept.
  - intros Hlen A. destruct (dry_Unmarshal IDt k data) as [r|] eqn:D.
    + pose proof (dry_Unmarshal_kept _ _ _ _ D _ (kind_of_zero k)) as K.
      rewrite (A _ (kind_of_zero k)) in K. injection K as <-. reflexivity.
    + exfalso. apply (dry_Unmarshal_stored IDt k data Hlen D).
      intros m Hk. rewrite (A m Hk). reflexivity.
Qed.

Lemma failure_before_first_store_witness :
  Descriptor.Unmarshal Uint32 (Descriptor.OfTableDescriptor Items.table)
    [x2a; x00; x0a]
  = (Descriptor.OfTableDescriptor Items.table, Fail ErrUnexpectedEOF).
Proof.
  apply (proj1 (failure_before_first_store Uint32 Descriptor.KTableDescriptor
                  [x2a; x00; x0a] ErrUnexpectedEOF)).
  - vm_compute. reflexivity.
  - reflexivity.
Defined.

(** ** A varint read further along in a buffer *)

Lemma varint_loop_shift (t : ity) (rest : list byte) (k : Z) :
  forall i s acc,
    varint_loop t rest (i + k) s acc
    = (fst (varint_loop t rest i s acc),
       advance k (snd (varint_loop t rest i s acc))).
Proof.
  induction rest as [|b rest IH]; intros i s acc; [reflexivity|].
  cbn [varint_loop]. destruct (bv b <? 128).
  - cbn [fst snd advance]. f_equal. f_equal. lia.
  - replace (i + k + 1) with (i + 1 + k) by lia. apply IH.
Qed.

Lemma read_local_shift (t : ity) (pre p : list byte) (v : Z) :
  read_local t p 0 = Ok (v, len p) ->
  read_local t (pre ++ p) (len pre) = Ok (v, len pre + len p).
Proof.
  unfold read_local, read_varint. intros H.
  pose proof (len_nonneg pre).
  destruct (Z.ltb_spec (len pre) 0); [lia|].
  rewrite skipn_len_app. change (0 <? 0) with false in H. cbn [skipn Z.to_nat] in H.
  replace (len pre) with (0 + len pre) at 1 by lia.
  rewrite varint_loop_shift.
  destruct (varint_loop t p 0 0 0) as [x r]. cbn [fst snd].
  destruct r; cbn [bind advance] in *; try discriminate.
  injection H as -> ->. f_equal. f_equal. lia.
Qed.

(** C10: Booleans.  For the fields [nullable] of ColumnDescriptor and
    [unique] of IndexDescriptor: whatever varint [p], of value [v], follows
    the tag, [Unmarshal] stores [true] when [v] is not zero and [false] when
    it is, so every non-zero payload decodes like the payload 1; [Marshal]
    writes the field as the tag and one byte, 1 for [true] and 0 for
    [false], so the bytes of a payload other than 0 and 1 are not
    reproduced. *)
Theorem bool_canonical (IDt : ity) (c : ColumnDescriptor.t)
    (x : IndexDescriptor.t) (p : list byte) (v : Z) :
  read_local Int p 0 = Ok (v, len p) ->
  let b := negb (v =? 0) in
  ColumnDescriptor.Unmarshal IDt c (x20 :: p)
  = (ColumnDescriptor.set_Nullable b c, Ok tt) /\
  IndexDescriptor.Unmarshal IDt x (x18 :: p)
  = (IndexDescriptor.set_Unique b x, Ok tt) /\
  ColumnDescriptor.Marshal
    (ColumnDescriptor.set_Nullable b ColumnDescriptor.zero)
  = Ok [x0a; x00; x10; x00; x1a; x06; x08; x00; x10; x00; x18; x00;
        x20; if b then x01 else x00] /\
  IndexDescriptor.Marshal (IndexDescriptor.set_Unique b IndexDescriptor.zero)
  = Ok [x0a; x00; x10; x00; x18; if b then x01 else x00].
Proof.
  intros Hp b.
  assert (Hpos : (0 <? len (x20 :: p)) = true).
  { apply Z.ltb_lt. rewrite len_cons. pose proof (len_nonneg p). lia. }
  assert (Hpos' : (0 <? len (x18 :: p)) = true) by exact Hpos.
  pose proof (read_local_shift Int [x20] p v Hp) as H20.
  pose proof (read_local_shift Int [x18] p v Hp) as H18.
  cbn [app] in H20, H18. change (len [x20]) with 1 in H20.
  change (len [x18]) with 1 in H18.
  split; [|split; [|split]].
  - unfold ColumnDescriptor.Unmarshal. cbn [List.length unmarshal_loop].
    rewrite Hpos. unfold ColumnDescriptor.step.
    rewrite (with_tag_at (ColumnDescriptor.body IDt) c (x20 :: p) [] p 0x20 0)
      by (reflexivity || lia).
    change (ColumnDescriptor.body IDt c (x20 :: p) 32 (0 + 1))
      with (bool_field "Nullable" ColumnDescriptor.set_Nullable c (x20 :: p) 0 1).
    unfold bool_field. cbn [Z.eqb negb]. rewrite H20.
    apply loop_end. rewrite len_cons. lia.
  - unfold IndexDescriptor.Unmarshal. cbn [List.length unmarshal_loop].
    rewrite Hpos'. unfold IndexDescriptor.step.
    rewrite (with_tag_at (IndexDescriptor.body IDt) x (x18 :: p) [] p 0x18 0)
      by (reflexivity || lia).
    change (IndexDescriptor.body IDt x (x18 :: p) 24 (0 + 1))
      with (bool_field "Unique" IndexDescriptor.set_Unique x (x18 :: p) 0 1).
    unfold bool_field. cbn [Z.eqb negb]. rewrite H18.
    apply loop_end. rewrite len_cons. lia.
  - destruct b; vm_compute; reflexivity.
  - destruct b; vm_compute; reflexivity.
Qed.

Lemma bool_canonical_witness :
  read_local Int [x02] 0 = Ok (2, len [x02]) /\
  ColumnDescriptor.Unmarshal Uint32 ColumnDescriptor.zero [x20; x02]
  = (ColumnDescriptor.set_Nullable true ColumnDescriptor.zero, Ok tt) /\
  IndexDescriptor.Unmarshal Uint32 IndexDescriptor.zero [x18; x02]
  = (IndexDescriptor.set_Unique true IndexDescriptor.zero, Ok tt) /\
  ColumnDescriptor.Marshal
    (ColumnDescriptor.set_Nullable true ColumnDescriptor.zero)
  = Ok [x0a; x00; x10; x00; x1a; x06; x08; x00; x10; x00; x18; x00;
        x20; x01] /\
  IndexDescriptor.Marshal (IndexDescriptor.set_Unique true IndexDescriptor.zero)
  = Ok [x0a; x00; x10; x00; x18; x01].
Proof.
  split; [vm_compute; reflexivity|].
  apply (bool_canonical Uint32 ColumnDescriptor.zero IndexDescriptor.zero
           [x02] 2).
  vm_compute. reflexivity.
Defined.

(** * Further properties of the codec *)

(** ** [skipStructured] *)

(** On a buffer that starts with a well-formed field (a tag in its shortest
    encoding and the payload of its wire type, groups with their members
    included) [skipStructured] returns the length of that field, whatever
    follows it. *)
Theorem skip_whole_field (wire : Z) (p post : list byte) :
  0 <= wire < 2 ^ 64 ->
  payload (Z.land wire 0x7) p ->
  len (varint_bytes wire ++ p ++ post) < 2 ^ 63 ->
  skipStructured (varint_bytes wire ++ p ++ post)
  = Ok (len (varint_bytes wire ++ p)).
Proof.
  intros Hw Hp Hlen. rewrite len_app. apply skipStructured_at; assumption.
Qed.

Lemma group98_payload : payload 3 [x08; x05; x94; x06].
Proof.
  apply (payload_group_member 8 [x05] [x94; x06]).
  - rewrite two64. lia.
  - discriminate.
  - apply (payload_varint [] x05); [constructor|vm_compute; reflexivity].
  - apply (payload_group_end 788); [rewrite two64; lia|reflexivity].
Defined.

Lemma skip_whole_field_witness :
  skipStructured (Items.group98 ++ [x08; x05]) = Ok 6.
Proof.
  apply (skip_whole_field 787 [x08; x05; x94; x06] [x08; x05]).
  - rewrite two64. lia.
  - exact group98_payload.
  - vm_compute. reflexivity.
Defined.

(** On a buffer that ends inside the payload of such a field
    [skipStructured] fails with [io.ErrUnexpectedEOF] or returns a count
    that lies beyond the buffer (and within the whole field), which its
    callers check against the length. *)
Theorem skip_truncated_field (wire : Z) (p : list byte) (j : nat) :
  0 <= wire < 2 ^ 64 ->
  payload (Z.land wire 0x7) p ->
  (j < List.length p)%nat ->
  len (varint_bytes wire ++ p) < 2 ^ 63 ->
  skipStructured (varint_bytes wire ++ firstn j p) = Fail ErrUnexpectedEOF \/
  exists n, skipStructured (varint_bytes wire ++ firstn j p) = Ok n /\
            len (varint_bytes wire ++ firstn j p) < n
            <= len (varint_bytes wire ++ p).
Proof. apply skipStructured_cut. Qed.

Lemma skip_truncated_field_witness :
  skipStructured [x93; x06; x08; x05; x94] = Fail ErrUnexpectedEOF \/
  exists n, skipStructured [x93; x06; x08; x05; x94] = Ok n /\
            len [x93; x06; x08; x05; x94] < n <= len Items.group98.
Proof.
  apply (skip_truncated_field 787 [x08; x05; x94; x06] 3).
  - rewrite two64. lia.
  - exact group98_payload.
  - cbn. lia.
  - vm_compute. reflexivity.
Defined.

(** [skipStructured] returns on every buffer (the recursion on the members
    of a group is on ever shorter slices), and a count it returns is never
    zero: it is at least one, or it is negative, the wrapped sum of an index
    and a length of more than [2^62], which the callers reject. *)
Theorem skip_returns_count (data : list byte) :
  len data < 2 ^ 62 ->
  skipStructured data <> Exhausted /\
  forall n, skipStructured data = Ok n ->
            1 <= n < 2 ^ 63 \/ - 2 ^ 63 <= n < - 2 ^ 62.
Proof.
  intros H. pose proof (skipStructured_count data H) as C.
  destruct (skipStructured data) as [n| | |]; cbn [skip_count] in C.
  - split; [discriminate|]. intros n' E. injection E as <-. exact C.
  - split; [discriminate|]. intros n' E. discriminate E.
  - split; [discriminate|]. intros n' E. discriminate E.
  - contradiction.
Qed.

Lemma skip_returns_count_witness :
  skipStructured [x93; x06; x93; x06; x0a; xff] <> Exhausted /\
  forall n, skipStructured [x93; x06; x93; x06; x0a; xff] = Ok n ->
            1 <= n < 2 ^ 63 \/ - 2 ^ 63 <= n < - 2 ^ 62.
Proof.
  apply (skip_returns_count [x93; x06; x93; x06; x0a; xff]).
  vm_compute. reflexivity.
Defined.

(** ** [Unmarshal] returns *)

(** Every round of the decoding loop that goes on leaves the index beyond
    where the round started, so [len(data)] rounds reach the end of the
    buffer: on every input every [Unmarshal] returns, with [nil], with an
    error, or by panicking. *)
Theorem unmarshal_returns (IDt : ity) (m : Descriptor.t) (data : list byte) :
  len data < 2 ^ 62 ->
  snd (Descriptor.Unmarshal IDt m data) = Ok tt \/
  (exists e, snd (Descriptor.Unmarshal IDt m data) = Fail e) \/
  snd (Descriptor.Unmarshal IDt m data) = Panic.
Proof.
  intros H. pose proof (Unmarshal_total IDt m data H) as T.
  destruct (snd (Descriptor.Unmarshal IDt m data)) as [[]|e| |].
  - left. reflexivity.
  - right. left. exists e. reflexivity.
  - right. right. reflexivity.
  - contradiction.
Qed.

Lemma unmarshal_returns_witness :
  snd (Descriptor.Unmarshal Uint32 (Descriptor.OfTableDescriptor Items.table)
         [x93; x06; x93; x06; x0a; xff]) = Ok tt \/
  (exists e,
      snd (Descriptor.Unmarshal Uint32 (Descriptor.OfTableDescriptor Items.table)
             [x93; x06; x93; x06; x0a; xff]) = Fail e) \/
  snd (Descriptor.Unmarshal Uint32 (Descriptor.OfTableDescriptor Items.table)
         [x93; x06; x93; x06; x0a; xff]) = Panic.
Proof.
  apply (unmarshal_returns Uint32 (Descriptor.OfTableDescriptor Items.table)
           [x93; x06; x93; x06; x0a; xff]).
  vm_compute. reflexivity.
Defined.

(** ** [MarshalTo] into a buffer with room to spare *)

(** Given a buffer at least as long as the encoding, [MarshalTo] writes the
    bytes that [Marshal] returns at the front of the buffer, leaves the
    bytes after them as they were and returns the length of the encoding. *)
Theorem marshal_to_larger_buffer (m : Descriptor.t) (bs data : list byte) :
  Descriptor.fits m ->
  Descriptor.Marshal m = Ok bs ->
  len bs <= len data -> len data < 2 ^ 63 ->
  Descriptor.MarshalTo m data
  = Ok (bs ++ skipn (List.length bs) data, Descriptor.Size m).
Proof.
  intros Hf Hm Hle Hlen.
  rewrite DescriptorFacts.D_Marshal_encode in Hm by exact Hf.
  injection Hm as <-.
  rewrite DescriptorFacts.D_MarshalTo_encode by assumption.
  rewrite DescriptorFacts.D_Size_encode by exact Hf.
  reflexivity.
Qed.

Lemma marshal_to_larger_buffer_witness :
  Descriptor.MarshalTo (Descriptor.OfColumnType (ColumnType.mk 1 2 3 []))
    (repeat xff 8)
  = Ok ([x08; x01; x10; x02; x18; x03; xff; xff],
        Descriptor.Size (Descriptor.OfColumnType (ColumnType.mk 1 2 3 []))).
Proof.
  apply (marshal_to_larger_buffer
           (Descriptor.OfColumnType (ColumnType.mk 1 2 3 []))
           [x08; x01; x10; x02; x18; x03] (repeat xff 8)).
  - unfold Descriptor.fits. vm_compute. reflexivity.
  - vm_compute. reflexivity.
  - vm_compute. discriminate.
  - vm_compute. reflexivity.
Defined.

(** ** Encodings tell descriptors apart *)

(** Two valid descriptors of one type with the same encoding are equal. *)
Theorem marshal_injective (IDt : ity) (d1 d2 : Descriptor.t) :
  Descriptor.valid IDt d1 -> Descriptor.valid IDt d2 ->
  Descriptor.fits d1 -> Descriptor.fits d2 ->
  Descriptor.kind_of d1 = Descriptor.kind_of d2 ->
  Descriptor.Marshal d1 = Descriptor.Marshal d2 ->
  d1 = d2.
Proof.
  intros Hv1 Hv2 Hf1 Hf2 Hk Hm.
  rewrite !DescriptorFacts.D_Marshal_encode in Hm by assumption.
  injection Hm as Hm.
  pose proof (DescriptorFacts.D_Unmarshal_encode IDt d1 Hv1 Hf1) as E1.
  pose proof (DescriptorFacts.D_Unmarshal_encode IDt d2 Hv2 Hf2) as E2.
  rewrite Hk, Hm, E2 in E1. injection E1 as E1. symmetry. exact E1.
Qed.

Lemma marshal_injective_witness :
  Descriptor.OfTableDescriptor Items.upgraded
  = Descriptor.OfTableDescriptor Items.upgraded.
Proof.
  apply (marshal_injective Uint32
           (Descriptor.OfTableDescriptor Items.upgraded)
           (Descriptor.OfTableDescriptor Items.upgraded)
           upgraded_valid upgraded_valid upgraded_fits upgraded_fits
           eq_refl eq_refl).
Defined.

(** ** Streams of fields *)

Section Stream.
Context {T : Type} (step : T -> list byte -> Z -> T * res Z).

(** A buffer made of fields that the rounds consume one by one is decoded
    to the end. *)
Lemma loop_items (fs : list (list byte)) (upds : list (T -> T)) (r : T) :
  Forall2 (field_ok step) fs upds ->
  len (concat fs) < 2 ^ 63 ->
  unmarshal_loop step (List.length (concat fs)) r (concat fs) 0
  = (apply_all upds r, Ok tt).
Proof.
  intros H Hlen.
  pose proof (Forall2_length_le step fs upds H) as Hle.
  pose proof (loop_fields step fs upds H (List.length (concat fs)) r [] []) as E.
  rewrite app_nil_r in E. cbn [app] in E. rewrite len_nil in E.
  rewrite E by (assumption || lia).
  apply loop_end. lia.
Qed.

Context {D : Type} (encode : D -> list byte) (merge : D -> T -> T)
  (valid : D -> Prop).
Hypothesis items :
  forall d, valid d -> len (encode d) < 2 ^ 63 ->
    exists fs upds,
      Forall2 (field_ok step) fs upds /\ concat fs = encode d /\
      forall r, apply_all upds r = merge d r.

Lemma stream_items (ds : list D) :
  Forall valid ds -> len (concat (map encode ds)) < 2 ^ 63 ->
  exists fs upds,
    Forall2 (field_ok step) fs upds /\ concat fs = concat (map encode ds) /\
    forall r, apply_all upds r = fold_left (fun r d => merge d r) ds r.
Proof.
  induction 1 as [|d ds Hd _ IH]; intros Hlen.
  - exists [], []. repeat split. constructor.
  - cbn [map concat] in Hlen. rewrite len_app in Hlen.
    pose proof (len_nonneg (encode d)).
    pose proof (len_nonneg (concat (map encode ds))).
    destruct (items d Hd ltac:(lia)) as (fs1 & u1 & H1 & E1 & M1).
    destruct (IH ltac:(lia)) as (fs2 & u2 & H2 & E2 & M2).
    exists (fs1 ++ fs2), (u1 ++ u2). split; [|split].
    + apply Forall2_app; assumption.
    + rewrite concat_app, E1, E2. reflexivity.
    + intros r. rewrite apply_all_app, M1, M2. reflexivity.
Qed.

(** The encodings of several descriptors one after the other decode as
    one buffer: each is merged into the receiver in turn. *)
Lemma stream_decoded (ds : list D) (r : T) :
  Forall valid ds -> len (concat (map encode ds)) < 2 ^ 63 ->
  unmarshal_loop step (List.length (concat (map encode ds))) r
    (concat (map encode ds)) 0
  = (fold_left (fun r d => merge d r) ds r, Ok tt).
Proof.
  intros Hv Hlen.
  destruct (stream_items ds Hv Hlen) as (fs & upds & H & E & M).
  rewrite <- E, <- M. apply loop_items; [assumption|].
  rewrite E. assumption.
Qed.
End Stream.

Section WithUnknown.
Context {T : Type} (body : T -> list byte -> Z -> Z -> T * res Z).
Variables (nfields : Z) (get : T -> list byte) (set : list byte -> T -> T).
Hypothesis dispatch :
  forall m data wire i,
    ~ (1 <= fieldNum_of wire <= nfields) ->
    body m data wire i = unknown_field get set m data wire i.
Hypothesis get_set : forall u m, get (set u m) = u.
Hypothesis set_set : forall u v m, set u (set v m) = set u m.
Hypothesis set_get : forall m, set (get m) m = m.

(** The known fields and the unrecognized ones after them, as one list of
    fields. *)
Lemma items_with_unknown (fs : list (list byte)) (upds : list (T -> T))
    (u : list byte) :
  Forall2 (field_ok (with_tag body)) fs upds ->
  foreign_fields nfields u ->
  exists fs' upds',
    Forall2 (field_ok (with_tag body)) fs' upds' /\
    concat fs' = concat fs ++ u /\
    forall r, apply_all upds' r
              = set (get (apply_all upds r) ++ u) (apply_all upds r).
Proof.
  intros Hfs [us [Hus ->]].
  exists (fs ++ us), (upds ++ map (fun f m => set (get m ++ f) m) us).
  split; [|split].
  - apply Forall2_app; [assumption|].
    apply (foreign_all_ok body nfields get set dispatch). assumption.
  - apply concat_app.
  - intros r. rewrite apply_all_app.
    apply (apply_all_capture get set get_set set_set set_get).
Qed.
End WithUnknown.

Lemma ColumnType_items (d : ColumnType.t) :
  ColumnType.valid d -> len (ColumnType.encode d) < 2 ^ 63 ->
  exists fs upds,
    Forall2 (field_ok ColumnType.step) fs upds /\
    concat fs = ColumnType.encode d /\
    forall r, apply_all upds r = ColumnType.merge d r.
Proof.
  intros (HK & HW & HP & HU) Hlen.
  apply (items_with_unknown ColumnType.body 3 ColumnType.XXX_unrecognized
           ColumnType.set_XXX_unrecognized).
  - intros; apply ColumnTypeFacts.CT_dispatch_foreign; assumption.
  - reflexivity.
  - reflexivity.
  - intros []; reflexivity.
  - apply ColumnTypeFacts.CT_fields_ok; assumption.
  - assumption.
Qed.

Lemma PrivilegeDescriptor_items (d : PrivilegeDescriptor.t) :
  PrivilegeDescriptor.valid d -> len (PrivilegeDescriptor.encode d) < 2 ^ 63 ->
  exists fs upds,
    Forall2 (field_ok PrivilegeDescriptor.step) fs upds /\
    concat fs = PrivilegeDescriptor.encode d /\
    forall r, apply_all upds r = PrivilegeDescriptor.merge d r.
Proof.
  intros HU Hlen.
  apply (items_with_unknown PrivilegeDescriptor.body 2
           PrivilegeDescriptor.XXX_unrecognized
           PrivilegeDescriptor.set_XXX_unrecognized).
  - intros; apply PrivilegeDescriptorFacts.PD_dispatch_foreign; assumption.
  - reflexivity.
  - reflexivity.
  - intros []; reflexivity.
  - apply PrivilegeDescriptorFacts.PD_fields_ok.
  - exact HU.
Qed.

Section WithID.
Variable IDt : ity.

Lemma ColumnDescriptor_items (d : ColumnDescriptor.t) :
  ColumnDescriptor.valid IDt d -> len (ColumnDescriptor.encode d) < 2 ^ 63 ->
  exists fs upds,
    Forall2 (field_ok (ColumnDescriptor.step IDt)) fs upds /\
    concat fs = ColumnDescriptor.encode d /\
    forall r, apply_all upds r = ColumnDescriptor.merge d r.
Proof.
  intros Hv Hlen.
  apply (items_with_unknown (ColumnDescriptor.body IDt) 4
           ColumnDescriptor.XXX_unrecognized
           ColumnDescriptor.set_XXX_unrecognized).
  - intros; apply ColumnDescriptorFacts.CD_dispatch_foreign; assumption.
  - reflexivity.
  - reflexivity.
  - intros []; reflexivity.
  - apply ColumnDescriptorFacts.CD_fields_ok; assumption.
  - apply Hv.
Qed.

Lemma IndexDescriptor_items (d : IndexDescriptor.t) :
  IndexDescriptor.valid IDt d -> len (IndexDescriptor.encode d) < 2 ^ 63 ->
  exists fs upds,
    Forall2 (field_ok (IndexDescriptor.step IDt)) fs upds /\
    concat fs = IndexDescriptor.encode d /\
    forall r, apply_all upds r = IndexDescriptor.merge d r.
Proof.
  intros Hv Hlen.
  apply (items_with_unknown (IndexDescriptor.body IDt) 5
           IndexDescriptor.XXX_unrecognized
           IndexDescriptor.set_XXX_unrecognized).
  - intros; apply IndexDescriptorFacts.IX_dispatch_foreign; assumption.
  - reflexivity.
  - reflexivity.
  - intros []; reflexivity.
  - apply IndexDescriptorFacts.IX_fields_ok; assumption.
  - apply Hv.
Qed.

Lemma TableDescriptor_items (d : TableDescriptor.t) :
  TableDescriptor.valid IDt d -> len (TableDescriptor.encode d) < 2 ^ 63 ->
  exists fs upds,
    Forall2 (field_ok (TableDescriptor.step IDt)) fs upds /\
    concat fs = TableDescriptor.encode d /\
    forall r, apply_all upds r = TableDescriptor.merge d r.
Proof.
  intros Hv Hlen.
  apply (items_with_unknown (TableDescriptor.body IDt) 8
           TableDescriptor.XXX_unrecognized
           TableDescriptor.set_XXX_unrecognized).
  - intros; apply TableDescriptorFacts.TD_dispatch_foreign; assumption.
  - reflexivity.
  - reflexivity.
  - intros []; reflexivity.
  - apply TableDescriptorFacts.TD_fields_ok; assumption.
  - apply Hv.
Qed.

Lemma DatabaseDescriptor_items (d : DatabaseDescriptor.t) :
  DatabaseDescriptor.valid IDt d ->
  len (DatabaseDescriptor.encode d) < 2 ^ 63 ->
  exists fs upds,
    Forall2 (field_ok (DatabaseDescriptor.step IDt)) fs upds /\
    concat fs = DatabaseDescriptor.encode d /\
    forall r, apply_all upds r = DatabaseDescriptor.merge d r.
Proof.
  intros Hv Hlen.
  apply (items_with_unknown (DatabaseDescriptor.body IDt) 3
           DatabaseDescriptor.XXX_unrecognized
           DatabaseDescriptor.set_XXX_unrecognized).
  - intros; apply DatabaseDescriptorFacts.DB_dispatch_foreign; assumption.
  - reflexivity.
  - reflexivity.
  - intros []; reflexivity.
  - apply DatabaseDescriptorFacts.DB_fields_ok; assumption.
  - apply Hv.
Qed.
End WithID.

(** ** Decoding into a receiver that is not empty *)

Lemma unmarshal_one (IDt : ity) (d r : Descriptor.t) :
  Descriptor.valid IDt d -> Descriptor.fits d ->
  Descriptor.kind_of d = Descriptor.kind_of r ->
  Descriptor.Unmarshal IDt r (Descriptor.encode d) = (merge d r, Ok tt).
Proof.
  intros Hv Hf Hk.
  destruct d as [d|d|d|d|d|d], r as [r|r|r|r|r|r]; try discriminate Hk;
    unfold Descriptor.fits, Descriptor.encode in *;
    cbn [Descriptor.fields Descriptor.XXX_unrecognized Descriptor.Unmarshal
         Descriptor.valid merge] in *;
    unfold Descriptor.on_fst.
  - fold (ColumnType.encode d) in *.
    rewrite ColumnTypeFacts.CT_unmarshal_encode by assumption. reflexivity.
  - fold (ColumnDescriptor.encode d) in *.
    rewrite ColumnDescriptorFacts.CD_unmarshal_encode by assumption. reflexivity.
  - fold (IndexDescriptor.encode d) in *.
    rewrite IndexDescriptorFacts.IX_unmarshal_encode by assumption. reflexivity.
  - fold (PrivilegeDescriptor.encode d) in *.
    rewrite PrivilegeDescriptorFacts.PD_unmarshal_encode by assumption. reflexivity.
  - fold (TableDescriptor.encode d) in *.
    rewrite TableDescriptorFacts.TD_unmarshal_encode by assumption. reflexivity.
  - fold (DatabaseDescriptor.encode d) in *.
    rewrite DatabaseDescriptorFacts.DB_unmarshal_encode by assumption. reflexivity.
Qed.

Lemma merge_kind (d r : Descriptor.t) :
  Descriptor.kind_of (merge d r) = Descriptor.kind_of r.
Proof. destruct d, r; reflexivity. Qed.

Lemma unmarshal_two (IDt : ity) (a b r : Descriptor.t) :
  Descriptor.valid IDt a -> Descriptor.valid IDt b ->
  Descriptor.kind_of a = Descriptor.kind_of r ->
  Descriptor.kind_of b = Descriptor.kind_of r ->
  len (Descriptor.encode a ++ Descriptor.encode b) < 2 ^ 63 ->
  Descriptor.Unmarshal IDt r (Descriptor.encode a ++ Descriptor.encode b)
  = (merge b (merge a r), Ok tt).
Proof.
  intros Ha Hb Hka Hkb Hlen.
  destruct a as [a|a|a|a|a|a], r as [r|r|r|r|r|r]; try discriminate Hka;
    destruct b as [b|b|b|b|b|b]; try discriminate Hkb;
    unfold Descriptor.encode in *;
    cbn [Descriptor.fields Descriptor.XXX_unrecognized Descriptor.Unmarshal
         Descriptor.valid merge] in *;
    unfold Descriptor.on_fst.
  - fold (ColumnType.encode a) in *. fold (ColumnType.encode b) in *.
    pose proof (stream_decoded ColumnType.step ColumnType.encode
                  ColumnType.merge ColumnType.valid ColumnType_items
                  [a; b] r) as E.
    cbn [map concat fold_left] in E. rewrite app_nil_r in E.
    unfold ColumnType.Unmarshal. rewrite E; [reflexivity| |assumption].
    constructor; [assumption|constructor; [assumption|constructor]].
  - fold (ColumnDescriptor.encode a) in *. fold (ColumnDescriptor.encode b) in *.
    pose proof (stream_decoded (ColumnDescriptor.step IDt) ColumnDescriptor.encode
                  ColumnDescriptor.merge (ColumnDescriptor.valid IDt)
                  (ColumnDescriptor_items IDt) [a; b] r) as E.
    cbn [map concat fold_left] in E. rewrite app_nil_r in E.
    unfold ColumnDescriptor.Unmarshal. rewrite E; [reflexivity| |assumption].
    constructor; [assumption|constructor; [assumption|constructor]].
  - fold (IndexDescriptor.encode a) in *. fold (IndexDescriptor.encode b) in *.
    pose proof (stream_decoded (IndexDescriptor.step IDt) IndexDescriptor.encode
                  IndexDescriptor.merge (IndexDescriptor.valid IDt)
                  (IndexDescriptor_items IDt) [a; b] r) as E.
    cbn [map concat fold_left] in E. rewrite app_nil_r in E.
    unfold IndexDescriptor.Unmarshal. rewrite E; [reflexivity| |assumption].
    constructor; [assumption|constructor; [assumption|constructor]].
  - fold (PrivilegeDescriptor.encode a) in *.
    fold (PrivilegeDescriptor.encode b) in *.
    pose proof (stream_decoded PrivilegeDescriptor.step PrivilegeDescriptor.encode
                  PrivilegeDescriptor.merge PrivilegeDescriptor.valid
                  PrivilegeDescriptor_items [a; b] r) as E.
    cbn [map concat fold_left] in E. rewrite app_nil_r in E.
    unfold PrivilegeDescriptor.Unmarshal. rewrite E; [reflexivity| |assumption].
    constructor; [assumption|constructor; [assumption|constructor]].
  - fold (TableDescriptor.encode a) in *. fold (TableDescriptor.encode b) in *.
    pose proof (stream_decoded (TableDescriptor.step IDt) TableDescriptor.encode
                  TableDescriptor.merge (TableDescriptor.valid IDt)
                  (TableDescriptor_items IDt) [a; b] r) as E.
    cbn [map concat fold_left] in E. rewrite app_nil_r in E.
    unfold TableDescriptor.Unmarshal. rewrite E; [reflexivity| |assumption].
    constructor; [assumption|constructor; [assumption|constructor]].
  - fold (DatabaseDescriptor.encode a) in *.
    fold (DatabaseDescriptor.encode b) in *.
    pose proof (stream_decoded (DatabaseDescriptor.step IDt)
                  DatabaseDescriptor.encode DatabaseDescriptor.merge
                  (DatabaseDescriptor.valid IDt)
                  (DatabaseDescriptor_items IDt) [a; b] r) as E.
    cbn [map concat fold_left] in E. rewrite app_nil_r in E.
    unfold DatabaseDescriptor.Unmarshal. rewrite E; [reflexivity| |assumption].
    constructor; [assumption|constructor; [assumption|constructor]].
Qed.

(** The encodings of two valid descriptors of the type of the receiver, one
    after the other in one buffer, decode without error to what decoding
    the first and then the second into the receiver gives. *)
Theorem decode_concatenation (IDt : ity) (a b r : Descriptor.t)
    (ba bb : list byte) :
  Descriptor.valid IDt a -> Descriptor.valid IDt b ->
  Descriptor.fits a -> Descriptor.fits b ->
  Descriptor.kind_of a = Descriptor.kind_of r ->
  Descriptor.kind_of b = Descriptor.kind_of r ->
  Descriptor.Marshal a = Ok ba -> Descriptor.Marshal b = Ok bb ->
  len (ba ++ bb) < 2 ^ 63 ->
  snd (Descriptor.Unmarshal IDt r (ba ++ bb)) = Ok tt /\
  Descriptor.Unmarshal IDt r (ba ++ bb)
  = Descriptor.Unmarshal IDt (fst (Descriptor.Unmarshal IDt r ba)) bb.
Proof.
  intros Ha Hb Hfa Hfb Hka Hkb Hma Hmb Hlen.
  rewrite DescriptorFacts.D_Marshal_encode in Hma, Hmb by assumption.
  injection Hma as <-. injection Hmb as <-.
  rewrite unmarshal_two by assumption.
  rewrite (unmarshal_one IDt a r) by assumption. cbn [fst snd].
  rewrite (unmarshal_one IDt b (merge a r))
    by (try assumption; rewrite merge_kind; assumption).
  split; reflexivity.
Qed.

Lemma decode_concatenation_witness :
  snd (Descriptor.Unmarshal Uint32 (Descriptor.OfTableDescriptor Items.table)
         (Descriptor.encode (Descriptor.OfTableDescriptor Items.upgraded)
          ++ Descriptor.encode (Descriptor.OfTableDescriptor Items.upgraded)))
  = Ok tt /\
  Descriptor.Unmarshal Uint32 (Descriptor.OfTableDescriptor Items.table)
    (Descriptor.encode (Descriptor.OfTableDescriptor Items.upgraded)
     ++ Descriptor.encode (Descriptor.OfTableDescriptor Items.upgraded))
  = Descriptor.Unmarshal Uint32
      (fst (Descriptor.Unmarshal Uint32
              (Descriptor.OfTableDescriptor Items.table)
              (Descriptor.encode (Descriptor.OfTableDescriptor Items.upgraded))))
      (Descriptor.encode (Descriptor.OfTableDescriptor Items.upgraded)).
Proof.
  apply (decode_concatenation Uint32
           (Descriptor.OfTableDescriptor Items.upgraded)
           (Descriptor.OfTableDescriptor Items.upgraded)
           (Descriptor.OfTableDescriptor Items.table)).
  - exact upgraded_valid.
  - exact upgraded_valid.
  - exact upgraded_fits.
  - exact upgraded_fits.
  - reflexivity.
  - reflexivity.
  - vm_compute. reflexivity.
  - vm_compute. reflexivity.
  - vm_compute. reflexivity.
Defined.

Lemma IndexDescriptor_merge_fields (d r : IndexDescriptor.t) :
  IndexDescriptor.merge d r
  = IndexDescriptor.mk (IndexDescriptor.Name d) (IndexDescriptor.ID d)
      (IndexDescriptor.Unique d)
      (IndexDescriptor.ColumnNames r ++ IndexDescriptor.ColumnNames d)
      (IndexDescriptor.ColumnIDs r ++ IndexDescriptor.ColumnIDs d)
      (IndexDescriptor.XXX_unrecognized r ++ IndexDescriptor.XXX_unrecognized d).
Proof.
  destruct d as [n i q names ids u], r as [n' i' q' names' ids' u'].
  unfold IndexDescriptor.merge, IndexDescriptor.updates, IndexDescriptor.capture.
  cbn [IndexDescriptor.Name IndexDescriptor.ID IndexDescriptor.Unique
       IndexDescriptor.ColumnNames IndexDescriptor.ColumnIDs
       IndexDescriptor.XXX_unrecognized].
  rewrite !apply_all_app, IndexDescriptorFacts.IX_apply_add_ID,
    IndexDescriptorFacts.IX_apply_add_ColumnName.
  reflexivity.
Qed.

Lemma PrivilegeDescriptor_merge_fields (d r : PrivilegeDescriptor.t) :
  PrivilegeDescriptor.merge d r
  = PrivilegeDescriptor.mk
      (PrivilegeDescriptor.Read r ++ PrivilegeDescriptor.Read d)
      (PrivilegeDescriptor.Write r ++ PrivilegeDescriptor.Write d)
      (PrivilegeDescriptor.XXX_unrecognized r
       ++ PrivilegeDescriptor.XXX_unrecognized d).
Proof.
  destruct d as [rd wr u], r as [rd' wr' u'].
  unfold PrivilegeDescriptor.merge, PrivilegeDescriptor.updates,
    PrivilegeDescriptor.capture.
  cbn [PrivilegeDescriptor.Read PrivilegeDescriptor.Write
       PrivilegeDescriptor.XXX_unrecognized].
  rewrite !apply_all_app, PrivilegeDescriptorFacts.PD_apply_add_Write,
    PrivilegeDescriptorFacts.PD_apply_add_Read.
  reflexivity.
Qed.

Lemma TableDescriptor_merge_fields (d r : TableDescriptor.t) :
  TableDescriptor.merge d r
  = TableDescriptor.mk (TableDescriptor.Name d) (TableDescriptor.ID d)
      (TableDescriptor.Columns r ++ TableDescriptor.Columns d)
      (TableDescriptor.NextColumnID d)
      (IndexDescriptor.merge (TableDescriptor.PrimaryIndex d)
         (TableDescriptor.PrimaryIndex r))
      (TableDescriptor.Indexes r ++ TableDescriptor.Indexes d)
      (TableDescriptor.NextIndexID d)
      (PrivilegeDescriptor.merge (TableDescriptor.Privileges d)
         (TableDescriptor.Privileges r))
      (TableDescriptor.XXX_unrecognized r ++ TableDescriptor.XXX_unrecognized d).
Proof.
  destruct d as [n i cs nc p xs ni pr u], r as [n' i' cs' nc' p' xs' ni' pr' u'].
  unfold TableDescriptor.merge, TableDescriptor.updates, TableDescriptor.capture.
  cbn [TableDescriptor.Name TableDescriptor.ID TableDescriptor.Columns
       TableDescriptor.NextColumnID TableDescriptor.PrimaryIndex
       TableDescriptor.Indexes TableDescriptor.NextIndexID
       TableDescriptor.Privileges TableDescriptor.XXX_unrecognized].
  rewrite !apply_all_app, ?apply_all_cons, ?apply_all_nil.
  rewrite TableDescriptorFacts.TD_apply_add_Column.
  cbn [apply_all fold_left].
  rewrite TableDescriptorFacts.TD_apply_add_Index.
  reflexivity.
Qed.

(** [Unmarshal] does not reset its receiver.  Decoding the encoding of a
    valid table [d] into a table [r] that already holds data replaces the
    scalar fields of [r] by those of [d] and appends to [r] the columns,
    the indexes, the column names and ids of the primary index, the readers
    and writers and the unrecognized bytes of [d]. *)
Theorem unmarshal_merges_table (IDt : ity) (d r : TableDescriptor.t)
    (bs : list byte) :
  TableDescriptor.valid IDt d ->
  len (TableDescriptor.encode d) < 2 ^ 63 ->
  TableDescriptor.Marshal d = Ok bs ->
  TableDescriptor.Unmarshal IDt r bs
  = (TableDescriptor.mk (TableDescriptor.Name d) (TableDescriptor.ID d)
       (TableDescriptor.Columns r ++ TableDescriptor.Columns d)
       (TableDescriptor.NextColumnID d)
       (IndexDescriptor.mk
          (IndexDescriptor.Name (TableDescriptor.PrimaryIndex d))
          (IndexDescriptor.ID (TableDescriptor.PrimaryIndex d))
          (IndexDescriptor.Unique (TableDescriptor.PrimaryIndex d))
          (IndexDescriptor.ColumnNames (TableDescriptor.PrimaryIndex r)
           ++ IndexDescriptor.ColumnNames (TableDescriptor.PrimaryIndex d))
          (IndexDescriptor.ColumnIDs (TableDescriptor.PrimaryIndex r)
           ++ IndexDescriptor.ColumnIDs (TableDescriptor.PrimaryIndex d))
          (IndexDescriptor.XXX_unrecognized (TableDescriptor.PrimaryIndex r)
           ++ IndexDescriptor.XXX_unrecognized (TableDescriptor.PrimaryIndex d)))
       (TableDescriptor.Indexes r ++ TableDescriptor.Indexes d)
       (TableDescriptor.NextIndexID d)
       (PrivilegeDescriptor.mk
          (PrivilegeDescriptor.Read (TableDescriptor.Privileges r)
           ++ PrivilegeDescriptor.Read (TableDescriptor.Privileges d))
          (PrivilegeDescriptor.Write (TableDescriptor.Privileges r)
           ++ PrivilegeDescriptor.Write (TableDescriptor.Privileges d))
          (PrivilegeDescriptor.XXX_unrecognized (TableDescriptor.Privileges r)
           ++ PrivilegeDescriptor.XXX_unrecognized (TableDescriptor.Privileges d)))
       (TableDescriptor.XXX_unrecognized r ++ TableDescriptor.XXX_unrecognized d),
     Ok tt).
Proof.
  intros Hv Hlen Hm.
  rewrite TableDescriptorWire.TD_Marshal_encode in Hm by assumption.
  injection Hm as <-.
  rewrite TableDescriptorFacts.TD_unmarshal_encode by assumption.
  rewrite TableDescriptor_merge_fields, IndexDescriptor_merge_fields,
    PrivilegeDescriptor_merge_fields.
  reflexivity.
Qed.

Lemma unmarshal_merges_table_witness :
  TableDescriptor.Columns
    (fst (TableDescriptor.Unmarshal Uint32 Items.table
            (TableDescriptor.encode Items.upgraded)))
  = TableDescriptor.Columns Items.table
    ++ TableDescriptor.Columns Items.upgraded.
Proof.
  rewrite (unmarshal_merges_table Uint32 Items.upgraded Items.table
             (TableDescriptor.encode Items.upgraded)).
  - reflexivity.
  - exact upgraded_valid.
  - vm_compute. reflexivity.
  - vm_compute. reflexivity.
Defined.

(** ** Unrecognized fields among the known ones *)

Section Interleaved.
Context {T : Type} (step : T -> list byte -> Z -> T * res Z).
Variable capture : list byte -> T -> T.
Hypothesis capture_nil : forall m, capture [] m = m.
Hypothesis capture_app :
  forall u v m, capture v (capture u m) = capture (u ++ v) m.

(** Updates that leave the unrecognized bytes alone can be applied before
    or after a capture. *)
Lemma apply_all_beside (upds : list (T -> T)) :
  Forall (fun upd => forall u m, upd (capture u m) = capture u (upd m)) upds ->
  forall u m, apply_all upds (capture u m) = capture u (apply_all upds m).
Proof.
  induction 1 as [|upd upds H _ IH]; intros u m; [reflexivity|].
  rewrite !apply_all_cons, H. apply IH.
Qed.

Lemma interleaved_items (fs us items : list (list byte)) :
  interleaved fs us items ->
  forall upds,
    Forall2 (field_ok step) fs upds ->
    Forall (fun upd => forall u m, upd (capture u m) = capture u (upd m))
      upds ->
    Forall2 (field_ok step) us (map capture us) ->
    exists upds',
      Forall2 (field_ok step) items upds' /\
      forall m, apply_all upds' m = capture (concat us) (apply_all upds m).
Proof.
  induction 1 as [|x xs ys zs _ IH|y xs ys zs _ IH]; intros upds Hfs Hb Hus.
  - inversion Hfs; subst. exists []. split; [constructor|].
    intros m. cbn. symmetry. apply capture_nil.
  - inversion Hfs as [|? upd ? upds' Hx Hxs]; subst.
    inversion Hb; subst.
    destruct (IH upds' Hxs ltac:(assumption) Hus) as (w & Hw & E).
    exists (upd :: w). split; [constructor; assumption|].
    intros m. rewrite !apply_all_cons. apply E.
  - cbn [map] in Hus. inversion Hus as [|? ? ? ? Hy Hys]; subst.
    destruct (IH upds Hfs Hb Hys) as (w & Hw & E).
    exists (capture y :: w). split; [constructor; assumption|].
    intros m. rewrite apply_all_cons, E.
    rewrite apply_all_beside by assumption.
    cbn [concat]. apply capture_app.
Qed.
End Interleaved.

Lemma interleaved_len {A} (xs ys zs : list (list A)) :
  interleaved xs ys zs ->
  len (concat zs) = len (concat xs) + len (concat ys).
Proof.
  induction 1; cbn [concat]; rewrite ?len_app; [reflexivity|lia|lia].
Qed.

Section InterleavedType.
Context {T : Type} (body : T -> list byte -> Z -> Z -> T * res Z).
Variables (nfields : Z) (get : T -> list byte) (set : list byte -> T -> T).
Hypothesis dispatch :
  forall m data wire i,
    ~ (1 <= fieldNum_of wire <= nfields) ->
    body m data wire i = unknown_field get set m data wire i.
Hypothesis get_set : forall u m, get (set u m) = u.
Hypothesis set_set : forall u v m, set u (set v m) = set u m.
Hypothesis set_get : forall m, set (get m) m = m.

Lemma interleaved_decoded (fs us items : list (list byte))
    (upds : list (T -> T)) (r : T) :
  interleaved fs us items ->
  Forall2 (field_ok (with_tag body)) fs upds ->
  Forall (fun upd => forall u m,
              upd (set (get m ++ u) m) = set (get (upd m) ++ u) (upd m)) upds ->
  Forall (foreign_field nfields) us ->
  len (concat items) < 2 ^ 63 ->
  unmarshal_loop (with_tag body) (List.length (concat items)) r
    (concat items) 0
  = (set (get (apply_all upds r) ++ concat us) (apply_all upds r), Ok tt).
Proof.
  intros Hi Hfs Hb Hus Hlen.
  destruct (interleaved_items (with_tag body) (fun u m => set (get m ++ u) m))
    with (fs := fs) (us := us) (items := items) (upds := upds)
    as (w & Hw & E); try assumption.
  - intros m. rewrite app_nil_r. apply set_get.
  - intros u v m. rewrite get_set, set_set, <- app_assoc. reflexivity.
  - apply (foreign_all_ok body nfields get set dispatch). assumption.
  - rewrite <- E. apply loop_items; assumption.
Qed.
End InterleavedType.

Ltac beside_capture :=
  repeat first
    [ apply Forall_nil
    | apply Forall_cons
    | apply Forall_app; split
    | (apply Forall_forall;
       let upd := fresh "upd" in
       let Hin := fresh "Hin" in
       let c := fresh "c" in
       intros upd Hin; apply in_map_iff in Hin; destruct Hin as [c [<- _]]) ];
  let u := fresh "u" in
  let m := fresh "m" in
  intros u m; destruct m; reflexivity.

Lemma ColumnType_beside (d : ColumnType.t) :
  Forall (fun upd => forall u m, upd (ColumnType.capture u m)
                                 = ColumnType.capture u (upd m))
    (ColumnType.updates d).
Proof. unfold ColumnType.updates. beside_capture. Qed.

Lemma ColumnDescriptor_beside (d : ColumnDescriptor.t) :
  Forall (fun upd => forall u m, upd (ColumnDescriptor.capture u m)
                                 = ColumnDescriptor.capture u (upd m))
    (ColumnDescriptor.updates d).
Proof. unfold ColumnDescriptor.updates. beside_capture. Qed.

Lemma IndexDescriptor_beside (d : IndexDescriptor.t) :
  Forall (fun upd => forall u m, upd (IndexDescriptor.capture u m)
                                 = IndexDescriptor.capture u (upd m))
    (IndexDescriptor.updates d).
Proof. unfold IndexDescriptor.updates. beside_capture. Qed.

Lemma PrivilegeDescriptor_beside (d : PrivilegeDescriptor.t) :
  Forall (fun upd => forall u m, upd (PrivilegeDescriptor.capture u m)
                                 = PrivilegeDescriptor.capture u (upd m))
    (PrivilegeDescriptor.updates d).
Proof. unfold PrivilegeDescriptor.updates. beside_capture. Qed.

Lemma TableDescriptor_beside (d : TableDescriptor.t) :
  Forall (fun upd => forall u m, upd (TableDescriptor.capture u m)
                                 = TableDescriptor.capture u (upd m))
    (TableDescriptor.updates d).
Proof. unfold TableDescriptor.updates. beside_capture. Qed.

Lemma DatabaseDescriptor_beside (d : DatabaseDescriptor.t) :
  Forall (fun upd => forall u m, upd (DatabaseDescriptor.capture u m)
                                 = DatabaseDescriptor.capture u (upd m))
    (DatabaseDescriptor.updates d).
Proof. unfold DatabaseDescriptor.updates. beside_capture. Qed.

Lemma capture_fields (u : list byte) (d : Descriptor.t) :
  Descriptor.fields (capture u d) = Descriptor.fields d.
Proof. destruct d as [d|d|d|d|d|d]; destruct d; reflexivity. Qed.

Lemma capture_unrecognized (u : list byte) (d : Descriptor.t) :
  Descriptor.XXX_unrecognized (capture u d)
  = Descriptor.XXX_unrecognized d ++ u.
Proof. destruct d as [d|d|d|d|d|d]; destruct d; reflexivity. Qed.

Section WithID.
Variable IDt : ity.

Lemma known_updates_zero (d : Descriptor.t) :
  Descriptor.XXX_unrecognized d = [] ->
  match d with
  | Descriptor.OfColumnType d =>
      apply_all (ColumnType.updates d) ColumnType.zero = d
  | Descriptor.OfColumnDescriptor d =>
      apply_all (ColumnDescriptor.updates d) ColumnDescriptor.zero = d
  | Descriptor.OfIndexDescriptor d =>
      apply_all (IndexDescriptor.updates d) IndexDescriptor.zero = d
  | Descriptor.OfPrivilegeDescriptor d =>
      apply_all (PrivilegeDescriptor.updates d) PrivilegeDescriptor.zero = d
  | Descriptor.OfTableDescriptor d =>
      apply_all (TableDescriptor.updates d) TableDescriptor.zero = d
  | Descriptor.OfDatabaseDescriptor d =>
      apply_all (DatabaseDescriptor.updates d) DatabaseDescriptor.zero = d
  end.
Proof.
  destruct d as [d|d|d|d|d|d]; cbn [Descriptor.XXX_unrecognized]; intros E.
  - pose proof (ColumnTypeFacts.CT_merge_zero d) as M.
    unfold ColumnType.merge, ColumnType.capture in M.
    rewrite E, app_nil_r in M.
    destruct (apply_all (ColumnType.updates d) ColumnType.zero); exact M.
  - pose proof (ColumnDescriptorFacts.CD_merge_zero d) as M.
    unfold ColumnDescriptor.merge, ColumnDescriptor.capture in M.
    rewrite E, app_nil_r in M.
    destruct (apply_all (ColumnDescriptor.updates d) ColumnDescriptor.zero);
      exact M.
  - pose proof (IndexDescriptorFacts.IX_merge_zero d) as M.
    unfold IndexDescriptor.merge, IndexDescriptor.capture in M.
    rewrite E, app_nil_r in M.
    destruct (apply_all (IndexDescriptor.updates d) IndexDescriptor.zero);
      exact M.
  - pose proof (PrivilegeDescriptorFacts.PD_merge_zero d) as M.
    unfold PrivilegeDescriptor.merge, PrivilegeDescriptor.capture in M.
    rewrite E, app_nil_r in M.
    destruct (apply_all (PrivilegeDescriptor.updates d) PrivilegeDescriptor.zero);
      exact M.
  - pose proof (TableDescriptorFacts.TD_merge_zero d) as M.
    unfold TableDescriptor.merge, TableDescriptor.capture in M.
    rewrite E, app_nil_r in M.
    destruct (apply_all (TableDescriptor.updates d) TableDescriptor.zero);
      exact M.
  - pose proof (DatabaseDescriptorFacts.DB_merge_zero d) as M.
    unfold DatabaseDescriptor.merge, DatabaseDescriptor.capture in M.
    rewrite E, app_nil_r in M.
    destruct (apply_all (DatabaseDescriptor.updates d) DatabaseDescriptor.zero);
      exact M.
Qed.

Lemma unknown_fields_decoded (d : Descriptor.t) (us items : list (list byte)) :
  Descriptor.valid IDt d ->
  Descriptor.XXX_unrecognized d = [] ->
  Forall (foreign_field (Descriptor.nfields (Descriptor.kind_of d))) us ->
  interleaved (Descriptor.fields d) us items ->
  len (concat items) < 2 ^ 63 ->
  Descriptor.Unmarshal IDt (Descriptor.zero (Descriptor.kind_of d))
    (concat items)
  = (capture (concat us) d, Ok tt).
Proof.
  intros Hv Hx Hus Hi Hlen.
  pose proof (known_updates_zero d Hx) as Hz.
  pose proof (interleaved_len _ _ _ Hi) as Hl.
  pose proof (len_nonneg (concat us)).
  assert (Hf : len (Descriptor.encode d) < 2 ^ 63).
  { unfold Descriptor.encode. rewrite Hx, app_nil_r. lia. }
  destruct d as [d|d|d|d|d|d];
    unfold Descriptor.encode in Hf;
    cbn [Descriptor.fields Descriptor.XXX_unrecognized Descriptor.Unmarshal
         Descriptor.valid Descriptor.kind_of Descriptor.zero
         Descriptor.nfields capture] in *;
    unfold Descriptor.on_fst.
  - fold (ColumnType.encode d) in Hf. unfold ColumnType.Unmarshal.
    rewrite (interleaved_decoded ColumnType.body 3 ColumnType.XXX_unrecognized
               ColumnType.set_XXX_unrecognized)
      with (fs := ColumnType.fields d) (us := us) (upds := ColumnType.updates d);
      try assumption; try reflexivity.
    + rewrite Hz. reflexivity.
    + intros; apply ColumnTypeFacts.CT_dispatch_foreign; assumption.
    + intros []; reflexivity.
    + apply ColumnTypeFacts.CT_fields_ok; apply Hv.
    + apply ColumnType_beside.
  - fold (ColumnDescriptor.encode d) in Hf. unfold ColumnDescriptor.Unmarshal.
    rewrite (interleaved_decoded (ColumnDescriptor.body IDt) 4
               ColumnDescriptor.XXX_unrecognized
               ColumnDescriptor.set_XXX_unrecognized)
      with (fs := ColumnDescriptor.fields d) (us := us)
           (upds := ColumnDescriptor.updates d);
      try assumption; try reflexivity.
    + rewrite Hz. reflexivity.
    + intros; apply ColumnDescriptorFacts.CD_dispatch_foreign; assumption.
    + intros []; reflexivity.
    + apply ColumnDescriptorFacts.CD_fields_ok; assumption.
    + apply ColumnDescriptor_beside.
  - fold (IndexDescriptor.encode d) in Hf. unfold IndexDescriptor.Unmarshal.
    rewrite (interleaved_decoded (IndexDescriptor.body IDt) 5
               IndexDescriptor.XXX_unrecognized
               IndexDescriptor.set_XXX_unrecognized)
      with (fs := IndexDescriptor.fields d) (us := us)
           (upds := IndexDescriptor.updates d);
      try assumption; try reflexivity.
    + rewrite Hz. reflexivity.
    + intros; apply IndexDescriptorFacts.IX_dispatch_foreign; assumption.
    + intros []; reflexivity.
    + apply IndexDescriptorFacts.IX_fields_ok; assumption.
    + apply IndexDescriptor_beside.
  - fold (PrivilegeDescriptor.encode d) in Hf.
    unfold PrivilegeDescriptor.Unmarshal.
    rewrite (interleaved_decoded PrivilegeDescriptor.body 2
               PrivilegeDescriptor.XXX_unrecognized
               PrivilegeDescriptor.set_XXX_unrecognized)
      with (fs := PrivilegeDescriptor.fields d) (us := us)
           (upds := PrivilegeDescriptor.updates d);
      try assumption; try reflexivity.
    + rewrite Hz. reflexivity.
    + intros; apply PrivilegeDescriptorFacts.PD_dispatch_foreign; assumption.
    + intros []; reflexivity.
    + apply PrivilegeDescriptorFacts.PD_fields_ok.
    + apply PrivilegeDescriptor_beside.
  - fold (TableDescriptor.encode d) in Hf. unfold TableDescriptor.Unmarshal.
    rewrite (interleaved_decoded (TableDescriptor.body IDt) 8
               TableDescriptor.XXX_unrecognized
               TableDescriptor.set_XXX_unrecognized)
      with (fs := TableDescriptor.fields d) (us := us)
           (upds := TableDescriptor.updates d);
      try assumption; try reflexivity.
    + rewrite Hz. reflexivity.
    + intros; apply TableDescriptorFacts.TD_dispatch_foreign; assumption.
    + intros []; reflexivity.
    + apply TableDescriptorFacts.TD_fields_ok; assumption.
    + apply TableDescriptor_beside.
  - fold (DatabaseDescriptor.encode d) in Hf.
    unfold DatabaseDescriptor.Unmarshal.
    rewrite (interleaved_decoded (DatabaseDescriptor.body IDt) 3
               DatabaseDescriptor.XXX_unrecognized
               DatabaseDescriptor.set_XXX_unrecognized)
      with (fs := DatabaseDescriptor.fields d) (us := us)
           (upds := DatabaseDescriptor.updates d);
      try assumption; try reflexivity.
    + rewrite Hz. reflexivity.
    + intros; apply DatabaseDescriptorFacts.DB_dispatch_foreign; assumption.
    + intros []; reflexivity.
    + apply DatabaseDescriptorFacts.DB_fields_ok; assumption.
    + apply DatabaseDescriptor_beside.
Qed.
End WithID.

(** Well-formed fields of unknown numbers standing anywhere among the known
    fields of an encoding are all captured, in the order they come in, and
    the known fields are decoded as without them; [Marshal] then writes the
    known fields first and the captured fields after them. *)
Theorem unknown_fields_collected (IDt : ity) (d : Descriptor.t)
    (us items : list (list byte)) :
  Descriptor.valid IDt d ->
  Descriptor.XXX_unrecognized d = [] ->
  Forall (foreign_field (Descriptor.nfields (Descriptor.kind_of d))) us ->
  interleaved (Descriptor.fields d) us items ->
  len (concat items) < 2 ^ 63 ->
  exists d',
    Descriptor.Unmarshal IDt (Descriptor.zero (Descriptor.kind_of d))
      (concat items) = (d', Ok tt) /\
    Descriptor.fields d' = Descriptor.fields d /\
    Descriptor.XXX_unrecognized d' = concat us /\
    Descriptor.Marshal d' = Ok (concat (Descriptor.fields d) ++ concat us).
Proof.
  intros Hv Hx Hus Hi Hlen.
  exists (capture (concat us) d).
  pose proof (interleaved_len _ _ _ Hi) as Hl.
  assert (E : Descriptor.encode (capture (concat us) d)
              = concat (Descriptor.fields d) ++ concat us).
  { unfold Descriptor.encode.
    rewrite capture_fields, capture_unrecognized, Hx. reflexivity. }
  split; [apply unknown_fields_decoded; assumption|].
  split; [apply capture_fields|].
  split; [rewrite capture_unrecognized, Hx; reflexivity|].
  rewrite DescriptorFacts.D_Marshal_encode.
  - rewrite E. reflexivity.
  - unfold Descriptor.fits. rewrite E, len_app. lia.
Qed.

Lemma table_valid :
  Descriptor.valid Uint32 (Descriptor.OfTableDescriptor Items.table).
Proof.
  cbn. unfold TableDescriptor.valid, ColumnDescriptor.valid,
    IndexDescriptor.valid, PrivilegeDescriptor.valid, ColumnType.valid,
    in_range. cbn.
  repeat first [ split | apply Forall_cons | apply Forall_nil
               | apply foreign_fields_nil | lia | (cbn; lia) ].
Defined.

Lemma unknown_fields_collected_witness :
  exists d',
    Descriptor.Unmarshal Uint32 (Descriptor.zero Descriptor.KTableDescriptor)
      (concat
         (firstn 2 (TableDescriptor.fields Items.table)
          ++ Items.field99 :: skipn 2 (TableDescriptor.fields Items.table)
          ++ [Items.group98]))
    = (d', Ok tt) /\
    Descriptor.fields d'
    = Descriptor.fields (Descriptor.OfTableDescriptor Items.table) /\
    Descriptor.XXX_unrecognized d' = concat [Items.field99; Items.group98] /\
    Descriptor.Marshal d'
    = Ok (concat (Descriptor.fields (Descriptor.OfTableDescriptor Items.table))
          ++ concat [Items.field99; Items.group98]).
Proof.
  apply (unknown_fields_collected Uint32
           (Descriptor.OfTableDescriptor Items.table)
           [Items.field99; Items.group98]).
  - exact table_valid.
  - reflexivity.
  - constructor; [apply field99_foreign; cbn; lia|].
    constructor; [apply group98_foreign; cbn; lia|constructor].
  - vm_compute.
    repeat first [ apply interleaved_nil | apply interleaved_left
                 | apply interleaved_right ].
  - vm_compute. reflexivity.
Defined.

(** ** [MarshalTo] stays inside its buffer *)

Lemma store_inside (data : list byte) (i : Z) (v : byte) :
  match store data i v with
  | Ok data' => len data' = len data /\ 0 <= i < len data
  | Fail _ => False
  | Panic => True
  | Exhausted => False
  end.
Proof.
  unfold store.
  destruct (Z.leb_spec 0 i); cbn [andb]; [|exact I].
  destruct (Z.ltb_spec i (len data)); [|exact I].
  split; [|lia].
  rewrite len_app, len_cons, len_firstn, len_skipn. unfold len in *. lia.
Qed.

Lemma within_seq (f g : list byte -> Z -> res (list byte * Z)) :
  within f -> within g -> within (f >>> g).
Proof.
  intros Hf Hg data i Hi. unfold seq.
  specialize (Hf data i Hi).
  destruct (f data i) as [[d1 i1]| | |]; cbn [bind]; try (exact Hf || contradiction).
  destruct Hf as [L1 B1].
  specialize (Hg d1 i1 ltac:(lia)).
  destruct (g d1 i1) as [[d2 i2]| | |]; cbn [bind]; try (exact Hg || contradiction).
  lia.
Qed.

Lemma within_for_each {A} (body : A -> list byte -> Z -> res (list byte * Z))
    (xs : list A) :
  (forall x, within (body x)) -> within (for_each body xs).
Proof.
  intros Hb. induction xs as [|x xs IH]; intros data i Hi; cbn [for_each].
  - lia.
  - specialize (Hb x data i Hi).
    destruct (body x data i) as [[d1 i1]| | |]; cbn [bind]; try (exact Hb || contradiction).
    destruct Hb as [L1 B1].
    specialize (IH d1 i1 ltac:(lia)).
    destruct (for_each body xs d1 i1) as [[d2 i2]| | |]; try (exact IH || contradiction).
    lia.
Qed.

Lemma within_put_tag (tag : Z) : within (fun data i => put_tag data i tag).
Proof.
  intros data i Hi. unfold put_tag.
  pose proof (store_inside data i (u8 tag)) as S.
  destruct (store data i (u8 tag)) as [d| | |]; cbn [bind]; try (exact S || contradiction).
  lia.
Qed.

Lemma within_encodeVarint_loop (fuel : nat) (v : Z) :
  forall w, within (fun data i => encodeVarint_loop fuel data i w).
Proof.
  clear v. induction fuel as [|fuel IH]; intros w data i Hi;
    cbn [encodeVarint_loop]; [exact I|].
  destruct (128 <=? w).
  - pose proof (store_inside data i (u8 (Z.lor (Z.land w 127) 128))) as S.
    destruct (store data i _) as [d| | |]; cbn [bind]; try (exact S || contradiction).
    specialize (IH (Z.shiftr w 7) d (i + 1) ltac:(lia)). cbv beta in IH.
    destruct (encodeVarint_loop fuel d (i + 1) (Z.shiftr w 7)) as [[d2 i2]| | |];
      try (exact IH || contradiction).
    lia.
  - pose proof (store_inside data i (u8 w)) as S.
    destruct (store data i (u8 w)) as [d| | |]; cbn [bind]; try (exact S || contradiction).
    lia.
Qed.

Lemma within_encodeVarint (v : Z) :
  within (fun data i => encodeVarintStructured data i v).
Proof. unfold encodeVarintStructured. apply (within_encodeVarint_loop 10 v). Qed.

Lemma within_encodeLen_loop (fuel : nat) :
  forall l, within (fun data i => encodeLen_loop fuel data i l).
Proof.
  induction fuel as [|fuel IH]; intros l data i Hi;
    cbn [encodeLen_loop]; [exact I|].
  destruct (128 <=? l).
  - pose proof (store_inside data i
                  (u8 (Z.lor (Z.land (cast Uint64 l) 127) 128))) as S.
    destruct (store data i _) as [d| | |]; cbn [bind]; try (exact S || contradiction).
    specialize (IH (Z.shiftr l 7) d (i + 1) ltac:(lia)). cbv beta in IH.
    destruct (encodeLen_loop fuel d (i + 1) (Z.shiftr l 7)) as [[d2 i2]| | |];
      try (exact IH || contradiction).
    lia.
  - pose proof (store_inside data i (u8 l)) as S.
    destruct (store data i (u8 l)) as [d| | |]; cbn [bind]; try (exact S || contradiction).
    lia.
Qed.

Lemma within_copy (s : list byte) : within (fun data i => copy_adv data i s).
Proof.
  intros data i Hi. unfold copy_adv, copy_at.
  rewrite slice_from_skipn by lia. cbn [bind].
  pose proof (len_nonneg s).
  assert (Hd : len (skipn (Z.to_nat i) data) = len data - i)
    by (rewrite len_skipn; unfold len in *; lia).
  revert Hd. generalize (skipn (Z.to_nat i) data). intros dst Hd.
  rewrite !len_app, !len_firstn, len_skipn.
  unfold len in *. split; lia.
Qed.

Lemma within_put_varint (tag v : Z) : within (put_varint tag v).
Proof.
  apply (within_seq (fun data i => put_tag data i tag)
           (fun data i => encodeVarintStructured data i v)).
  - apply within_put_tag.
  - apply within_encodeVarint.
Qed.

Lemma within_put_string (tag : Z) (s : list byte) : within (put_string tag s).
Proof.
  apply (within_seq (fun data i => put_tag data i tag)
           ((fun data i => encodeVarintStructured data i (cast Uint64 (len s)))
            >>> (fun data i => copy_adv data i s))).
  - apply within_put_tag.
  - apply within_seq; [apply within_encodeVarint|apply within_copy].
Qed.

Lemma within_put_repeated_string (tag : Z) (s : list byte) :
  within (put_repeated_string tag s).
Proof.
  apply (within_seq (fun data i => put_tag data i tag)
           ((fun data i => encodeLen_loop 10 data i (len s))
            >>> (fun data i => copy_adv data i s))).
  - apply within_put_tag.
  - apply within_seq; [apply within_encodeLen_loop|apply within_copy].
Qed.

Lemma within_put_bool (tag : Z) (b : bool) : within (put_bool tag b).
Proof.
  intros data i Hi. unfold put_bool.
  pose proof (within_put_tag tag data i Hi) as T. cbv beta in T.
  destruct (put_tag data i tag) as [[d1 i1]| | |]; cbn [bind]; try (exact T || contradiction).
  pose proof (store_inside d1 i1 (if b then x01 else x00)) as S.
  destruct (store d1 i1 _) as [d2| | |]; cbn [bind]; try (exact S || contradiction).
  lia.
Qed.

Lemma within_put_unrecognized (u : list byte) : within (put_unrecognized u).
Proof.
  intros data i Hi. unfold put_unrecognized. destruct u as [|b u]; [lia|].
  apply (within_copy (b :: u)). exact Hi.
Qed.

Lemma within_put_message (tag size : Z)
    (marshalTo : list byte -> res (list byte * Z)) :
  within_buffer marshalTo -> within (put_message tag size marshalTo).
Proof.
  intros Hsub data i Hi. unfold put_message.
  pose proof (within_put_tag tag data i Hi) as T. cbv beta in T.
  destruct (put_tag data i tag) as [[d1 i1]| | |]; cbn [bind]; try (exact T || contradiction).
  pose proof (within_encodeVarint (cast Uint64 size) d1 i1 ltac:(lia)) as V.
  cbv beta in V.
  destruct (encodeVarintStructured d1 i1 (cast Uint64 size)) as [[d2 i2]| | |];
    cbn [bind]; try (exact V || contradiction).
  rewrite slice_from_skipn by lia.
  specialize (Hsub (skipn (Z.to_nat i2) d2)).
  destruct (marshalTo (skipn (Z.to_nat i2) d2)) as [[t n]| | |]; cbn [bind];
    try (exact Hsub || contradiction).
  rewrite len_skipn in Hsub.
  rewrite len_app, len_firstn. unfold len in *. split; lia.
Qed.

Lemma within_run (f : list byte -> Z -> res (list byte * Z)) :
  within f -> within_buffer (fun data => f data 0).
Proof.
  intros H data. apply (H data 0). pose proof (len_nonneg data). lia.
Qed.

Ltac within_chain :=
  repeat match goal with
         | |- within (_ >>> _) => apply within_seq
         | |- within (put_varint _ _) => apply within_put_varint
         | |- within (put_string _ _) => apply within_put_string
         | |- within (put_repeated_string _ _) =>
             apply within_put_repeated_string
         | |- within (put_bool _ _) => apply within_put_bool
         | |- within (put_unrecognized _) => apply within_put_unrecognized
         | |- within (for_each _ _) => apply within_for_each; intros ?
         | |- within (put_message _ _ _) => apply within_put_message; auto
         end.

Lemma ColumnType_within (m : ColumnType.t) :
  within_buffer (ColumnType.MarshalTo m).
Proof.
  unfold ColumnType.MarshalTo. apply within_run. within_chain.
Qed.

Lemma ColumnDescriptor_within (m : ColumnDescriptor.t) :
  within_buffer (ColumnDescriptor.MarshalTo m).
Proof.
  pose proof ColumnType_within.
  unfold ColumnDescriptor.MarshalTo. apply within_run. within_chain.
Qed.

Lemma IndexDescriptor_within (m : IndexDescriptor.t) :
  within_buffer (IndexDescriptor.MarshalTo m).
Proof.
  unfold IndexDescriptor.MarshalTo. apply within_run. within_chain.
Qed.

Lemma PrivilegeDescriptor_within (m : PrivilegeDescriptor.t) :
  within_buffer (PrivilegeDescriptor.MarshalTo m).
Proof.
  unfold PrivilegeDescriptor.MarshalTo. apply within_run. within_chain.
Qed.

Lemma TableDescriptor_within (m : TableDescriptor.t) :
  within_buffer (TableDescriptor.MarshalTo m).
Proof.
  pose proof ColumnDescriptor_within. pose proof IndexDescriptor_within.
  pose proof PrivilegeDescriptor_within.
  unfold TableDescriptor.MarshalTo. apply within_run. within_chain.
Qed.

Lemma DatabaseDescriptor_within (m : DatabaseDescriptor.t) :
  within_buffer (DatabaseDescriptor.MarshalTo m).
Proof.
  pose proof PrivilegeDescriptor_within.
  unfold DatabaseDescriptor.MarshalTo. apply within_run. within_chain.
Qed.

(** [MarshalTo] never reports an error, whatever the buffer: it returns a
    count or panics on an index out of range.  When it returns, the buffer
    has kept its length and the count lies within it; so on a buffer shorter
    than [Size] the count is not [Size]: the encoding was cut short by
    [copy], silently. *)
Theorem marshal_to_within_buffer (m : Descriptor.t) (data : list byte) :
  (forall e, Descriptor.MarshalTo m data <> Fail e) /\
  (forall data' n,
      Descriptor.MarshalTo m data = Ok (data', n) ->
      len data' = len data /\ 0 <= n <= len data) /\
  (len data < Descriptor.Size m ->
   forall data', Descriptor.MarshalTo m data <> Ok (data', Descriptor.Size m)).
Proof.
  assert (W : within_buffer (Descriptor.MarshalTo m)).
  { destruct m as [m|m|m|m|m|m]; cbn [Descriptor.MarshalTo].
    - exact (ColumnType_within m).
    - exact (ColumnDescriptor_within m).
    - exact (IndexDescriptor_within m).
    - exact (PrivilegeDescriptor_within m).
    - exact (TableDescriptor_within m).
    - exact (DatabaseDescriptor_within m). }
  specialize (W data).
  destruct (Descriptor.MarshalTo m data) as [[d n]|e| |].
  - split; [discriminate|]. split.
    + intros d' n' E. injection E as <- <-. exact W.
    + intros Hs d' E. injection E as _ E2. lia.
  - contradiction.
  - repeat split; intros; discriminate.
  - repeat split; intros; discriminate.
Qed.

Lemma marshal_to_within_buffer_witness :
  len [x0a; x04; x72] = len [x00; x00; x00] /\
  0 <= 3 <= len [x00; x00; x00].
Proof.
  apply (proj1 (proj2 (marshal_to_within_buffer
                         (Descriptor.OfPrivilegeDescriptor
                            (PrivilegeDescriptor.mk [Items.root] [] []))
                         [x00; x00; x00]))
           [x0a; x04; x72] 3).
  vm_compute. reflexivity.
Defined.

(** ** Fixed-width values *)

Lemma store_after (data : list byte) (off k : Z) (bs : list byte) (v : byte) :
  k = len bs -> 0 <= off -> off + k < len data ->
  store (splice data off bs) (off + k) v = Ok (splice data off (bs ++ [v])).
Proof.
  intros -> Ho Hk. pose proof (len_nonneg bs).
  rewrite store_splice by (rewrite len_splice; lia).
  rewrite splice_splice by lia. reflexivity.
Qed.

Lemma store_first (data : list byte) (off : Z) (v : byte) :
  0 <= off < len data -> store data off v = Ok (splice data off [v]).
Proof. apply store_splice. Qed.

Lemma le_value_bytes (v : Z) :
  0 <= v < 2 ^ 64 ->
  le_value [u8 v; u8 (Z.shiftr v 8); u8 (Z.shiftr v 16); u8 (Z.shiftr v 24);
            u8 (Z.shiftr v 32); u8 (Z.shiftr v 40); u8 (Z.shiftr v 48);
            u8 (Z.shiftr v 56)] = v.
Proof.
  intros Hv. unfold le_value. cbn [fold_right]. rewrite !bv_u8.
  rewrite !Z.shiftr_div_pow2 by lia. rewrite two64 in Hv.
  change (2 ^ 8) with 256. change (2 ^ 16) with 65536.
  change (2 ^ 24) with 16777216. change (2 ^ 32) with 4294967296.
  change (2 ^ 40) with 1099511627776. change (2 ^ 48) with 281474976710656.
  change (2 ^ 56) with 72057594037927936.
  Z.to_euclidean_division_equations. lia.
Qed.

Lemma le_value_bytes32 (v : Z) :
  0 <= v < 2 ^ 32 ->
  le_value [u8 v; u8 (Z.shiftr v 8); u8 (Z.shiftr v 16); u8 (Z.shiftr v 24)]
  = v.
Proof.
  intros Hv. unfold le_value. cbn [fold_right]. rewrite !bv_u8.
  rewrite !Z.shiftr_div_pow2 by lia.
  change (2 ^ 32) with 4294967296 in Hv.
  change (2 ^ 8) with 256. change (2 ^ 16) with 65536.
  change (2 ^ 24) with 16777216.
  Z.to_euclidean_division_equations. lia.
Qed.

Ltac next_store :=
  match goal with
  | |- context [store ?d ?i ?v] =>
      let S := fresh "S" in
      pose proof (store_inside d i v) as S;
      destruct (store d i v); cbn [bind];
      [destruct S as [? ?]|contradiction|reflexivity|contradiction]
  end.

(** [encodeFixed64Structured] with room for eight bytes at [offset] writes
    there the value, least significant byte first, changes nothing else and
    returns [offset + 8]; without that room it panics on an index out of
    range, whatever it has written by then. *)
Theorem encodeFixed64_bytes (data : list byte) (offset v : Z) :
  0 <= v < 2 ^ 64 -> len data < 2 ^ 62 ->
  (0 <= offset /\ offset + 8 <= len data ->
   exists bs,
     encodeFixed64Structured data offset v
     = Ok (splice data offset bs, offset + 8) /\
     List.length bs = 8%nat /\ le_value bs = v) /\
  (~ (0 <= offset /\ offset + 8 <= len data) ->
   encodeFixed64Structured data offset v = Panic).
Proof.
  intros Hv Hlen.
  assert (H62 : 2 ^ 62 = 4611686018427387904) by reflexivity.
  split.
  - intros [Ho Hb].
    exists [u8 v; u8 (Z.shiftr v 8); u8 (Z.shiftr v 16); u8 (Z.shiftr v 24);
            u8 (Z.shiftr v 32); u8 (Z.shiftr v 40); u8 (Z.shiftr v 48);
            u8 (Z.shiftr v 56)].
    split; [|split; [reflexivity|apply le_value_bytes; assumption]].
    unfold encodeFixed64Structured.
    rewrite !iadd_id by (rewrite two63; lia).
    rewrite store_first by lia. cbn [bind].
    rewrite (store_after data offset 1 [_]) by (reflexivity || lia). cbn [bind app].
    rewrite (store_after data offset 2 [_; _]) by (reflexivity || lia).
    cbn [bind app].
    rewrite (store_after data offset 3 [_; _; _]) by (reflexivity || lia).
    cbn [bind app].
    rewrite (store_after data offset 4 [_; _; _; _]) by (reflexivity || lia).
    cbn [bind app].
    rewrite (store_after data offset 5 [_; _; _; _; _])
      by (reflexivity || lia).
    cbn [bind app].
    rewrite (store_after data offset 6 [_; _; _; _; _; _])
      by (reflexivity || lia).
    cbn [bind app].
    rewrite (store_after data offset 7 [_; _; _; _; _; _; _])
      by (reflexivity || lia).
    cbn [bind app]. reflexivity.
  - intros Hn. unfold encodeFixed64Structured.
    next_store.
    rewrite !iadd_id by (rewrite two63; lia).
    do 7 next_store.
    lia.
Qed.

Lemma encodeFixed64_bytes_witness :
  exists bs,
    encodeFixed64Structured (repeat x00 10) 1 (2 ^ 64 - 2)
    = Ok (splice (repeat x00 10) 1 bs, 1 + 8) /\
    List.length bs = 8%nat /\ le_value bs = 2 ^ 64 - 2.
Proof.
  apply (encodeFixed64_bytes (repeat x00 10) 1 (2 ^ 64 - 2)).
  - rewrite two64. lia.
  - vm_compute. reflexivity.
  - vm_compute. split; discriminate.
Defined.

(** [encodeFixed32Structured], the same on four bytes. *)
Theorem encodeFixed32_bytes (data : list byte) (offset v : Z) :
  0 <= v < 2 ^ 32 -> len data < 2 ^ 62 ->
  (0 <= offset /\ offset + 4 <= len data ->
   exists bs,
     encodeFixed32Structured data offset v
     = Ok (splice data offset bs, offset + 4) /\
     List.length bs = 4%nat /\ le_value bs = v) /\
  (~ (0 <= offset /\ offset + 4 <= len data) ->
   encodeFixed32Structured data offset v = Panic).
Proof.
  intros Hv Hlen.
  assert (H62 : 2 ^ 62 = 4611686018427387904) by reflexivity.
  split.
  - intros [Ho Hb].
    exists [u8 v; u8 (Z.shiftr v 8); u8 (Z.shiftr v 16); u8 (Z.shiftr v 24)].
    split; [|split; [reflexivity|apply le_value_bytes32; assumption]].
    unfold encodeFixed32Structured.
    rewrite !iadd_id by (rewrite two63; lia).
    rewrite store_first by lia. cbn [bind].
    rewrite (store_after data offset 1 [_]) by (reflexivity || lia). cbn [bind app].
    rewrite (store_after data offset 2 [_; _]) by (reflexivity || lia).
    cbn [bind app].
    rewrite (store_after data offset 3 [_; _; _]) by (reflexivity || lia).
    cbn [bind app]. reflexivity.
  - intros Hn. unfold encodeFixed32Structured.
    next_store.
    rewrite !iadd_id by (rewrite two63; lia).
    do 3 next_store.
    lia.
Qed.

Lemma encodeFixed32_bytes_witness :
  encodeFixed32Structured (repeat x00 3) 0 7 = Panic.
Proof.
  apply (encodeFixed32_bytes (repeat x00 3) 0 7).
  - cbn. lia.
  - vm_compute. reflexivity.
  - vm_compute. intros [_ H]. apply H. reflexivity.
Defined.

(** ** Zig-zag sizes *)

Lemma lxor_all_ones (a n : Z) :
  0 <= n -> 0 <= a < 2 ^ n -> Z.lxor a (2 ^ n - 1) = 2 ^ n - 1 - a.
Proof.
  intros Hn Ha.
  replace (2 ^ n - 1) with (Z.ones n) at 1
    by (rewrite Z.ones_equiv; lia).
  assert (E : Z.lxor a (Z.ones n) = Z.lnot a mod 2 ^ n).
  { apply Z.bits_inj'. intros m Hm.
    rewrite Z.lxor_spec, Z.testbit_ones_nonneg by lia.
    rewrite Z.testbit_mod_pow2 by lia.
    destruct (Z.ltb_spec m n).
    - rewrite Z.lnot_spec by lia. cbn [andb].
      destruct (Z.testbit a m); reflexivity.
    - rewrite Bool.xorb_false_r.
      destruct (Z.eq_dec a 0) as [->|Hne]; [apply Z.bits_0|].
      apply Z.bits_above_log2; [lia|].
      apply Z.lt_le_trans with n; [|assumption].
      apply Z.log2_lt_pow2; lia. }
  rewrite E. unfold Z.lnot.
  symmetry. apply Z.mod_unique with (q := -1); lia.
Qed.

Lemma zigzag_value (v : Z) :
  - 2 ^ 63 <= v < 2 ^ 63 ->
  cast Uint64
    (Z.lxor (cast Uint64 (Z.shiftl (cast Uint64 v) 1))
            (cast Uint64 (Z.shiftr (cast Int (cast Uint64 v)) 63)))
  = if 0 <=? v then 2 * v else - 2 * v - 1.
Proof.
  intros Hv.
  rewrite (cast_uint64_back Int v), (cast_int_id v) by assumption.
  rewrite Z.shiftl_mul_pow2, Z.shiftr_div_pow2 by lia.
  change (2 ^ 1) with 2. rewrite two63 in *.
  unfold cast. cbn [signed bits andb]. rewrite two64.
  destruct (Z.leb_spec 0 v).
  - assert (E : v / 9223372036854775808 = 0) by (apply Z.div_small; lia).
    rewrite E. rewrite (Z.mod_small v) by lia.
    rewrite (Z.mod_small (v * 2)) by lia.
    rewrite Z.mod_0_l by lia. rewrite Z.lxor_0_r.
    rewrite Z.mod_small by lia. lia.
  - assert (E : v / 9223372036854775808 = -1).
    { symmetry. apply Z.div_unique with (r := v + 9223372036854775808); lia. }
    rewrite E.
    assert (M : v mod 18446744073709551616 = v + 18446744073709551616).
    { symmetry. apply Z.mod_unique with (q := -1); lia. }
    rewrite M.
    assert (M2 : ((v + 18446744073709551616) * 2) mod 18446744073709551616
                 = 2 * v + 18446744073709551616).
    { symmetry. apply Z.mod_unique with (q := 1); lia. }
    rewrite M2.
    change (-1 mod 18446744073709551616) with (2 ^ 64 - 1).
    rewrite lxor_all_ones by (rewrite ?two64; lia).
    rewrite two64. rewrite Z.mod_small by lia. lia.
Qed.

(** [sozStructured] is the varint size of the zig-zag image of its
    argument read as an [int64]: [2v] for [v >= 0] and [-2v-1] for [v < 0].
    So a value of small magnitude has a small size whatever its sign: with
    [-2^(7k-1) <= v < 2^(7k-1)] the size is at most [k] bytes. *)
Theorem soz_zigzag (v : Z) :
  - 2 ^ 63 <= v < 2 ^ 63 ->
  sozStructured (cast Uint64 v)
  = sovStructured (if 0 <=? v then 2 * v else - 2 * v - 1) /\
  forall k, 1 <= k -> - 2 ^ (7 * k - 1) <= v < 2 ^ (7 * k - 1) ->
            sozStructured (cast Uint64 v) <= k.
Proof.
  intros Hv.
  assert (E : sozStructured (cast Uint64 v)
              = sovStructured (if 0 <=? v then 2 * v else - 2 * v - 1)).
  { unfold sozStructured. rewrite zigzag_value by assumption. reflexivity. }
  split; [exact E|].
  intros k Hk Hr. rewrite E. unfold sovStructured.
  apply (sov_loop_below 10 0 _ k Hk).
  replace (7 * k) with (Z.succ (7 * k - 1)) by lia.
  rewrite Z.pow_succ_r by lia.
  destruct (Z.leb_spec 0 v); lia.
Qed.

Lemma soz_zigzag_witness :
  sozStructured (cast Uint64 (-1)) = sovStructured 1 /\
  forall k, 1 <= k -> - 2 ^ (7 * k - 1) <= -1 < 2 ^ (7 * k - 1) ->
            sozStructured (cast Uint64 (-1)) <= k.
Proof.
  apply (soz_zigzag (-1)). rewrite two63. lia.
Defined.

(** ** The kinds of a column type *)

(** The two maps of the enumeration are inverse to each other: a number
    has the name [s] exactly when the name [s] has that number. *)
Theorem kind_tables_inverse (k : Z) (s : string) :
  kind_name k = Some s <-> kind_value s = Some k.
Proof.
  unfold kind_name, kind_value. split.
  - destruct (find _ ColumnType_Kind_name) as [[k' s']|] eqn:F;
      [|discriminate].
    cbn [option_map snd]. intros E. injection E as ->.
    apply find_some in F. destruct F as [Hin Hk].
    cbn [fst] in Hk. apply Z.eqb_eq in Hk. subst k'.
    unfold ColumnType_Kind_name in Hin. cbn [In] in Hin.
    repeat (destruct Hin as [Hin|Hin];
            [injection Hin as <- <-; reflexivity|]).
    contradiction.
  - destruct (find _ ColumnType_Kind_value) as [[s' k']|] eqn:F;
      [|discriminate].
    cbn [option_map snd]. intros E. injection E as ->.
    apply find_some in F. destruct F as [Hin Hs].
    cbn [fst] in Hs. apply String.eqb_eq in Hs. subst s'.
    unfold ColumnType_Kind_value in Hin. cbn [In] in Hin.
    repeat (destruct Hin as [Hin|Hin];
            [injection Hin as <- <-; reflexivity|]).
    contradiction.
Qed.

Lemma kind_tables_inverse_witness : kind_value "TIMESTAMP" = Some 7.
Proof. apply (proj1 (kind_tables_inverse 7 "TIMESTAMP")). reflexivity. Defined.

(** ** Varints in a buffer *)

(** [encodeVarintStructured], given room for the [sovStructured(v)] bytes
    of the varint at [offset], writes them there, changes nothing before or
    after them and returns the index after them; the decoding loop of
    [Unmarshal], run at [offset] on the buffer so written, reads [v] back
    (converted to the type of the variable it fills) and stops at the same
    index. *)
Theorem varint_in_buffer (t : ity) (data : list byte) (offset v : Z) :
  0 <= v < 2 ^ 64 -> 0 <= offset ->
  offset + sovStructured v <= len data -> len data < 2 ^ 63 ->
  exists data',
    encodeVarintStructured data offset v
    = Ok (data', offset + sovStructured v) /\
    len data' = len data /\
    firstn (Z.to_nat offset) data' = firstn (Z.to_nat offset) data /\
    skipn (Z.to_nat (offset + sovStructured v)) data'
    = skipn (Z.to_nat (offset + sovStructured v)) data /\
    read_varint t data' offset = (cast t v, Ok (offset + sovStructured v)).
Proof.
  intros Hv Ho Hb Hlen.
  rewrite sovStructured_len in * by assumption.
  pose proof (varint_bytes_bound v) as Hvb.
  exists (splice data offset (varint_bytes v)).
  split; [apply (writes_encodeVarint v Hv); assumption|].
  split; [apply len_splice; assumption|].
  assert (Hpre : len (firstn (Z.to_nat offset) data) = offset)
    by (rewrite len_firstn; unfold len in *; lia).
  unfold splice. split; [|split].
  - rewrite firstn_app.
    replace (Z.to_nat offset - List.length (firstn (Z.to_nat offset) data))%nat
      with 0%nat by (unfold len in Hpre; lia).
    cbn [firstn]. rewrite app_nil_r. rewrite firstn_firstn, Nat.min_id. reflexivity.
  - rewrite app_assoc. rewrite skipn_app.
    rewrite skipn_all2 by (rewrite length_app; unfold len in *; lia).
    replace (Z.to_nat (offset + len (varint_bytes v))
             - List.length (firstn (Z.to_nat offset) data ++ varint_bytes v))%nat
      with 0%nat by (rewrite length_app; unfold len in *; lia).
    cbn [skipn app]. f_equal. unfold len. lia.
  - apply (read_varint_at t _ (firstn (Z.to_nat offset) data)
             (skipn (Z.to_nat offset + List.length (varint_bytes v)) data));
      [reflexivity|symmetry; assumption|assumption].
Qed.

Lemma varint_in_buffer_witness :
  exists data',
    encodeVarintStructured (repeat xff 5) 1 300
    = Ok (data', 1 + sovStructured 300) /\
    len data' = len (repeat xff 5) /\
    firstn (Z.to_nat 1) data' = firstn (Z.to_nat 1) (repeat xff 5) /\
    skipn (Z.to_nat (1 + sovStructured 300)) data'
    = skipn (Z.to_nat (1 + sovStructured 300)) (repeat xff 5) /\
    read_varint Int32 data' 1 = (cast Int32 300, Ok (1 + sovStructured 300)).
Proof.
  apply (varint_in_buffer Int32 (repeat xff 5) 1 300).
  - rewrite two64. lia.
  - lia.
  - vm_compute. discriminate.
  - vm_compute. reflexivity.
Defined.

(** ** Where the decoding loop of a varint stops *)

Lemma varint_loop_stops (t : ity) (hi : list byte) (b : byte)
    (post : list byte) :
  Forall (fun x => 128 <= bv x) hi -> bv b < 128 ->
  forall i s acc,
    snd (varint_loop t (hi ++ b :: post) i s acc) = Ok (i + len hi + 1).
Proof.
  intros Hhi Hb. induction Hhi as [|x hi Hx _ IH]; intros i s acc.
  - cbn [app varint_loop]. destruct (Z.ltb_spec (bv b) 128); [|lia].
    rewrite len_nil. cbn [snd]. f_equal. lia.
  - cbn [app varint_loop]. destruct (Z.ltb_spec (bv x) 128); [lia|].
    rewrite IH, len_cons. f_equal. lia.
Qed.

Lemma varint_loop_runs_out (t : ity) (hi : list byte) :
  Forall (fun x => 128 <= bv x) hi ->
  forall i s acc,
    snd (varint_loop t hi i s acc) = Fail ErrUnexpectedEOF.
Proof.
  intros Hhi. induction Hhi as [|x hi Hx _ IH]; intros i s acc.
  - reflexivity.
  - cbn [varint_loop]. destruct (Z.ltb_spec (bv x) 128); [lia|]. apply IH.
Qed.

(** The loop that reads a varint has no limit on its length: it goes over
    every byte with the high bit set and stops after the first byte
    without it, wherever that byte is; it fails with [io.ErrUnexpectedEOF]
    exactly when no such byte is left in the buffer. *)
Theorem read_varint_stops (t : ity) (data : list byte) (iNdEx : Z) :
  0 <= iNdEx ->
  (forall hi b post,
      skipn (Z.to_nat iNdEx) data = hi ++ b :: post ->
      Forall (fun x => 128 <= bv x) hi -> bv b < 128 ->
      snd (read_varint t data iNdEx) = Ok (iNdEx + len hi + 1)) /\
  (Forall (fun x => 128 <= bv x) (skipn (Z.to_nat iNdEx) data) ->
   snd (read_varint t data iNdEx) = Fail ErrUnexpectedEOF).
Proof.
  intros Hi. unfold read_varint.
  destruct (Z.ltb_spec iNdEx 0); [lia|]. split.
  - intros hi b post E Hhi Hb. rewrite E.
    apply varint_loop_stops; assumption.
  - intros Hall. apply varint_loop_runs_out. assumption.
Qed.

Lemma read_varint_stops_witness :
  snd (read_varint Int32
         [x08; x80; x80; x80; x80; x80; x80; x80; x80; x80; x80; x80; x01] 1)
  = Ok (1 + len [x80; x80; x80; x80; x80; x80; x80; x80; x80; x80; x80] + 1).
Proof.
  refine (proj1 (read_varint_stops Int32
                   [x08; x80; x80; x80; x80; x80; x80; x80; x80; x80; x80;
                    x80; x01] 1 _)
            [x80; x80; x80; x80; x80; x80; x80; x80; x80; x80; x80] x01 []
            eq_refl _ _).
  - lia.
  - repeat constructor; vm_compute; discriminate.
  - vm_compute. reflexivity.
Defined.

(** ** A malformed field of unknown number *)

Lemma skip_illegal_wire_type (wire : Z) (rest : list byte) :
  0 <= wire < 2 ^ 64 -> 6 <= Z.land wire 0x7 ->
  skipStructured (varint_bytes wire ++ rest)
  = Fail (ErrIllegalWireType (Z.land wire 0x7)).
Proof.
  intros Hw H6. unfold skipStructured.
  rewrite skipStructured_fuel_tag by assumption. cbv zeta.
  repeat match goal with
         | |- context [?a =? ?b] => destruct (Z.eqb_spec a b); [lia|]
         end.
  reflexivity.
Qed.

Lemma skip_negative_length (wire l : Z) (rest : list byte) :
  0 <= wire < 2 ^ 64 -> Z.land wire 0x7 = 2 ->
  2 ^ 63 <= l < 2 ^ 64 ->
  skipStructured (varint_bytes wire ++ varint_bytes l ++ rest)
  = Fail ErrInvalidLengthStructured.
Proof.
  intros Hw H2 Hl. unfold skipStructured.
  rewrite skipStructured_fuel_tag by assumption. cbv zeta.
  rewrite H2. cbn [Z.eqb Pos.eqb].
  rewrite (read_local_at Int _ (varint_bytes wire) rest l
             (len (varint_bytes wire))) by (reflexivity || lia).
  cbn [bind].
  assert (N : cast Int l < 0).
  { unfold cast. cbn [signed bits andb]. change (64 - 1) with 63.
    rewrite Z.mod_small by lia.
    destruct (Z.leb_spec (2 ^ 63) l); [|lia]. lia. }
  destruct (Z.ltb_spec (cast Int l) 0); [reflexivity|lia].
Qed.

Section Malformed.
Context {T : Type} (body : T -> list byte -> Z -> Z -> T * res Z).
Variables (nfields : Z) (get : T -> list byte) (set : list byte -> T -> T).
Hypothesis dispatch :
  forall m data wire i,
    ~ (1 <= fieldNum_of wire <= nfields) ->
    body m data wire i = unknown_field get set m data wire i.

(** The round that meets a field of unknown number which [skipStructured]
    rejects returns that error and leaves the receiver as it is. *)
Lemma unknown_field_rejected (m : T) (pre rest : list byte) (wire : Z)
    (e : error) :
  0 <= wire < 2 ^ 64 ->
  ~ (1 <= fieldNum_of wire <= nfields) ->
  skipStructured (varint_bytes wire ++ rest) = Fail e ->
  len (pre ++ varint_bytes wire ++ rest) < 2 ^ 63 ->
  with_tag body m (pre ++ varint_bytes wire ++ rest) (len pre) = (m, Fail e).
Proof.
  intros Hw Hn Hs Hlen.
  rewrite (with_tag_wire body m _ pre rest wire (len pre))
    by (assumption || reflexivity).
  rewrite dispatch by assumption. unfold unknown_field, skip_unknown.
  rewrite sizeOfWire_len by assumption.
  pose proof (varint_bytes_bound wire). pose proof (len_nonneg pre).
  pose proof (len_nonneg rest). rewrite !len_app in Hlen.
  rewrite iadd_id by (rewrite two63 in *; lia).
  replace (len pre + len (varint_bytes wire) + - len (varint_bytes wire))
    with (len pre) by lia.
  rewrite (slice_from_at _ pre (varint_bytes wire ++ rest)) by reflexivity.
  rewrite Hs. reflexivity.
Qed.

Lemma loop_rejected (fs : list (list byte)) (upds : list (T -> T))
    (m : T) (rest : list byte) (wire : Z) (e : error) :
  Forall2 (field_ok (with_tag body)) fs upds ->
  0 <= wire < 2 ^ 64 ->
  ~ (1 <= fieldNum_of wire <= nfields) ->
  skipStructured (varint_bytes wire ++ rest) = Fail e ->
  len (concat fs ++ varint_bytes wire ++ rest) < 2 ^ 63 ->
  unmarshal_loop (with_tag body)
    (List.length (concat fs ++ varint_bytes wire ++ rest)) m
    (concat fs ++ varint_bytes wire ++ rest) 0
  = (apply_all upds m, Fail e).
Proof.
  intros Hfs Hw Hn Hs Hlen.
  pose proof (Forall2_length_le _ fs upds Hfs) as Hle.
  pose proof (varint_bytes_bound wire) as Hb.
  pose proof (loop_fields _ fs upds Hfs
                (List.length (concat fs ++ varint_bytes wire ++ rest)) m []
                (varint_bytes wire ++ rest)) as E.
  cbn [app] in E. rewrite len_nil in E.
  rewrite E by (rewrite ?length_app; lia || assumption). clear E.
  rewrite !length_app.
  assert (Hv : (1 <= List.length (varint_bytes wire))%nat)
    by (unfold len in Hb; lia).
  destruct (List.length (concat fs) + (List.length (varint_bytes wire)
             + List.length rest) - List.length fs)%nat as [|fuel] eqn:F;
    [lia|].
  cbn [unmarshal_loop]. rewrite Z.add_0_l.
  pose proof (len_nonneg (concat fs)). pose proof (len_nonneg rest).
  destruct (Z.ltb_spec (len (concat fs))
              (len (concat fs ++ varint_bytes wire ++ rest)));
    [|rewrite !len_app in *; lia].
  rewrite (unknown_field_rejected _ _ _ _ e) by assumption. reflexivity.
Qed.
End Malformed.

Lemma unmarshal_rejected (IDt : ity) (d : Descriptor.t) (wire : Z)
    (rest : list byte) (e : error) :
  Descriptor.valid IDt d ->
  0 <= wire < 2 ^ 64 ->
  ~ (1 <= fieldNum_of wire <= Descriptor.nfields (Descriptor.kind_of d)) ->
  skipStructured (varint_bytes wire ++ rest) = Fail e ->
  len (Descriptor.encode d ++ varint_bytes wire ++ rest) < 2 ^ 63 ->
  Descriptor.Unmarshal IDt (Descriptor.zero (Descriptor.kind_of d))
    (Descriptor.encode d ++ varint_bytes wire ++ rest)
  = (d, Fail e).
Proof.
  intros Hv Hw Hn Hs Hlen.
  assert (Hf : len (Descriptor.encode d) < 2 ^ 63).
  { rewrite len_app in Hlen.
    pose proof (len_nonneg (varint_bytes wire ++ rest)). lia. }
  destruct d as [d|d|d|d|d|d];
    unfold Descriptor.encode in *;
    cbn [Descriptor.fields Descriptor.XXX_unrecognized Descriptor.Unmarshal
         Descriptor.valid Descriptor.kind_of Descriptor.zero
         Descriptor.nfields] in *;
    unfold Descriptor.on_fst.
  - fold (ColumnType.encode d) in *.
    destruct (ColumnType_items d Hv Hf) as (fs & upds & H & E & M).
    unfold ColumnType.Unmarshal, ColumnType.step in *. rewrite <- E in *.
    rewrite (loop_rejected ColumnType.body 3 ColumnType.XXX_unrecognized
               ColumnType.set_XXX_unrecognized) with (upds := upds) (e := e);
      try assumption.
    + rewrite M, ColumnTypeFacts.CT_merge_zero. reflexivity.
    + intros; apply ColumnTypeFacts.CT_dispatch_foreign; assumption.
  - fold (ColumnDescriptor.encode d) in *.
    destruct (ColumnDescriptor_items IDt d Hv Hf) as (fs & upds & H & E & M).
    unfold ColumnDescriptor.Unmarshal, ColumnDescriptor.step in *.
    rewrite <- E in *.
    rewrite (loop_rejected (ColumnDescriptor.body IDt) 4
               ColumnDescriptor.XXX_unrecognized
               ColumnDescriptor.set_XXX_unrecognized)
      with (upds := upds) (e := e); try assumption.
    + rewrite M, ColumnDescriptorFacts.CD_merge_zero. reflexivity.
    + intros; apply ColumnDescriptorFacts.CD_dispatch_foreign; assumption.
  - fold (IndexDescriptor.encode d) in *.
    destruct (IndexDescriptor_items IDt d Hv Hf) as (fs & upds & H & E & M).
    unfold IndexDescriptor.Unmarshal, IndexDescriptor.step in *.
    rewrite <- E in *.
    rewrite (loop_rejected (IndexDescriptor.body IDt) 5
               IndexDescriptor.XXX_unrecognized
               IndexDescriptor.set_XXX_unrecognized)
      with (upds := upds) (e := e); try assumption.
    + rewrite M, IndexDescriptorFacts.IX_merge_zero. reflexivity.
    + intros; apply IndexDescriptorFacts.IX_dispatch_foreign; assumption.
  - fold (PrivilegeDescriptor.encode d) in *.
    destruct (PrivilegeDescriptor_items d Hv Hf) as (fs & upds & H & E & M).
    unfold PrivilegeDescriptor.Unmarshal, PrivilegeDescriptor.step in *.
    rewrite <- E in *.
    rewrite (loop_rejected PrivilegeDescriptor.body 2
               PrivilegeDescriptor.XXX_unrecognized
               PrivilegeDescriptor.set_XXX_unrecognized)
      with (upds := upds) (e := e); try assumption.
    + rewrite M, PrivilegeDescriptorFacts.PD_merge_zero. reflexivity.
    + intros; apply PrivilegeDescriptorFacts.PD_dispatch_foreign; assumption.
  - fold (TableDescriptor.encode d) in *.
    destruct (TableDescriptor_items IDt d Hv Hf) as (fs & upds & H & E & M).
    unfold TableDescriptor.Unmarshal, TableDescriptor.step in *.
    rewrite <- E in *.
    rewrite (loop_rejected (TableDescriptor.body IDt) 8
               TableDescriptor.XXX_unrecognized
               TableDescriptor.set_XXX_unrecognized)
      with (upds := upds) (e := e); try assumption.
    + rewrite M, TableDescriptorFacts.TD_merge_zero. reflexivity.
    + intros; apply TableDescriptorFacts.TD_dispatch_foreign; assumption.
  - fold (DatabaseDescriptor.encode d) in *.
    destruct (DatabaseDescriptor_items IDt d Hv Hf) as (fs & upds & H & E & M).
    unfold DatabaseDescriptor.Unmarshal, DatabaseDescriptor.step in *.
    rewrite <- E in *.
    rewrite (loop_rejected (DatabaseDescriptor.body IDt) 3
               DatabaseDescriptor.XXX_unrecognized
               DatabaseDescriptor.set_XXX_unrecognized)
      with (upds := upds) (e := e); try assumption.
    + rewrite M, DatabaseDescriptorFacts.DB_merge_zero. reflexivity.
    + intros; apply DatabaseDescriptorFacts.DB_dispatch_foreign; assumption.
Qed.

(** After the encoding of a valid descriptor, a field of unknown number
    whose tag, in its shortest encoding, has wire type 6 or 7, or has wire
    type 2 and a length that is negative as an [int], makes [Unmarshal]
    return the error of [skipStructured] (illegal wire type, negative
    length); the descriptor decoded before it is in the receiver. *)
Theorem malformed_unknown_field (IDt : ity) (d : Descriptor.t)
    (bs rest : list byte) (wire : Z) :
  Descriptor.valid IDt d -> Descriptor.fits d ->
  Descriptor.Marshal d = Ok bs ->
  0 <= wire < 2 ^ 64 ->
  ~ (1 <= fieldNum_of wire <= Descriptor.nfields (Descriptor.kind_of d)) ->
  (6 <= Z.land wire 0x7 ->
   len (bs ++ varint_bytes wire ++ rest) < 2 ^ 63 ->
   Descriptor.Unmarshal IDt (Descriptor.zero (Descriptor.kind_of d))
     (bs ++ varint_bytes wire ++ rest)
   = (d, Fail (ErrIllegalWireType (Z.land wire 0x7)))) /\
  (Z.land wire 0x7 = 2 ->
   forall l, 2 ^ 63 <= l < 2 ^ 64 ->
   len (bs ++ varint_bytes wire ++ varint_bytes l ++ rest) < 2 ^ 63 ->
   Descriptor.Unmarshal IDt (Descriptor.zero (Descriptor.kind_of d))
     (bs ++ varint_bytes wire ++ varint_bytes l ++ rest)
   = (d, Fail ErrInvalidLengthStructured)).
Proof.
  intros Hv Hf Hm Hw Hn.
  rewrite DescriptorFacts.D_Marshal_encode in Hm by exact Hf.
  injection Hm as <-. split.
  - intros H6 Hlen. apply unmarshal_rejected; try assumption.
    apply skip_illegal_wire_type; assumption.
  - intros H2 l Hl Hlen. apply unmarshal_rejected; try assumption.
    apply skip_negative_length; assumption.
Qed.

Lemma malformed_unknown_field_witness :
  Descriptor.Unmarshal Uint32 (Descriptor.zero Descriptor.KTableDescriptor)
    (Descriptor.encode (Descriptor.OfTableDescriptor Items.upgraded)
     ++ varint_bytes 798 ++ [x05])
  = (Descriptor.OfTableDescriptor Items.upgraded,
     Fail (ErrIllegalWireType (Z.land 798 0x7))).
Proof.
  refine (proj1 (malformed_unknown_field Uint32
                   (Descriptor.OfTableDescriptor Items.upgraded)
                   (Descriptor.encode (Descriptor.OfTableDescriptor Items.upgraded))
                   [x05] 798 upgraded_valid upgraded_fits _ _ _) _ _).
  - vm_compute. reflexivity.
  - rewrite two64. lia.
  - change (fieldNum_of 798) with 99. cbn. lia.
  - vm_compute. discriminate.
  - vm_compute. reflexivity.
Defined.

(** ** A length that overflows the index *)

Lemma read_local_negative (t : ity) (data : list byte) (i : Z) :
  i < 0 -> read_local t data i = Panic.
Proof.
  intros H. unfold read_local, read_varint.
  destruct (Z.ltb_spec i 0); [reflexivity|lia].
Qed.

(** A length-delimited field whose length, added to the index, passes the
    largest [int]: [skipStructured] returns the wrapped, negative sum with
    no error.  The [default:] branch of [Unmarshal] rejects a negative
    count, but the loop over the members of a group adds it to its index
    and reads the buffer there: inside a group such a length makes
    [skipStructured] panic on an index out of range. *)
Theorem skip_length_overflow (w1 w2 l : Z) (rest : list byte) :
  0 <= w1 < 2 ^ 64 -> Z.land w1 0x7 = 3 ->
  0 <= w2 < 2 ^ 64 -> Z.land w2 0x7 = 2 ->
  2 ^ 63 - len (varint_bytes w2 ++ varint_bytes l) <= l < 2 ^ 63 ->
  len (varint_bytes w1 ++ varint_bytes w2 ++ varint_bytes l ++ rest) < 2 ^ 62 ->
  skipStructured (varint_bytes w2 ++ varint_bytes l ++ rest)
  = Ok (len (varint_bytes w2 ++ varint_bytes l) + l - 2 ^ 64) /\
  skipStructured (varint_bytes w1 ++ varint_bytes w2 ++ varint_bytes l ++ rest)
  = Panic.
Proof.
  intros Hw1 Ht1 Hw2 Ht2 Hl Hlen.
  pose proof (varint_bytes_bound w1) as B1.
  pose proof (varint_bytes_bound w2) as B2.
  pose proof (varint_bytes_bound l) as B3.
  pose proof (len_nonneg rest) as B4.
  rewrite !len_app in Hl, Hlen.
  assert (H62 : 2 ^ 62 = 4611686018427387904) by reflexivity.
  rewrite H62 in Hlen. rewrite two63 in Hl.
  assert (Inner : forall fuel,
             skipStructured_fuel (S fuel)
               (varint_bytes w2 ++ varint_bytes l ++ rest)
             = Ok (len (varint_bytes w2 ++ varint_bytes l) + l - 2 ^ 64)).
  { intros fuel. rewrite skipStructured_fuel_tag by assumption. cbv zeta.
    rewrite Ht2. cbn [Z.eqb Pos.eqb].
    rewrite (read_local_at Int _ (varint_bytes w2) rest l
               (len (varint_bytes w2)))
      by (reflexivity || rewrite two64; lia).
    cbn [bind]. rewrite (cast_int_id l) by (rewrite two63; lia).
    destruct (Z.ltb_spec l 0); [lia|].
    destruct (iadd_cases (len (varint_bytes w2) + len (varint_bytes l)) l)
      as [[E B]|[[E B]|[E B]]]; rewrite ?two63, ?two64 in *; try lia.
    rewrite E, len_app. reflexivity. }
  split; [apply Inner|].
  unfold skipStructured.
  rewrite skipStructured_fuel_tag by assumption. cbv zeta.
  rewrite Ht1. cbn [Z.eqb Pos.eqb].
  rewrite !length_app.
  assert (N1 : (1 <= List.length (varint_bytes w1))%nat)
    by (unfold len in B1; lia).
  assert (N2 : (1 <= List.length (varint_bytes w2))%nat)
    by (unfold len in B2; lia).
  destruct (List.length (varint_bytes w1)
            + (List.length (varint_bytes w2)
               + (List.length (varint_bytes l) + List.length rest)))%nat
    as [|[|fuel]] eqn:F; try lia.
  cbn [skip_group].
  rewrite (read_local_at Uint64 _ (varint_bytes w1) (varint_bytes l ++ rest)
             w2 (len (varint_bytes w1)))
    by (reflexivity || assumption).
  cbn [bind]. rewrite cast_uint64_id by assumption.
  fold (wireType_of w2). rewrite wireType_of_eq, Ht2. cbn [Z.eqb Pos.eqb].
  rewrite (slice_from_at _ (varint_bytes w1)
             (varint_bytes w2 ++ varint_bytes l ++ rest)) by reflexivity.
  rewrite Inner. cbn [bind]. rewrite len_app, two64.
  rewrite iadd_id by (rewrite two63; lia).
  rewrite read_local_negative by lia. reflexivity.
Qed.

Lemma skip_length_overflow_witness :
  skipStructured
    (varint_bytes 11 ++ varint_bytes 10 ++ varint_bytes (2 ^ 63 - 1) ++ [])
  = Panic.
Proof.
  refine (proj2 (skip_length_overflow 11 10 (2 ^ 63 - 1) [] _ _ _ _ _ _)).
  - rewrite two64. lia.
  - reflexivity.
  - rewrite two64. lia.
  - reflexivity.
  - vm_compute. split; [discriminate|reflexivity].
  - vm_compute. reflexivity.
Defined.

(** ** A known field with the wrong wire type *)

Section FailingRound.
Context {T : Type} (step : T -> list byte -> Z -> T * res Z).

(** The fields [fs] are decoded and the round after them fails. *)
Lemma loop_then_fail (fs : list (list byte)) (upds : list (T -> T))
    (m m' : T) (post : list byte) (e : error) :
  Forall2 (field_ok step) fs upds ->
  post <> [] ->
  len (concat fs ++ post) < 2 ^ 63 ->
  step (apply_all upds m) (concat fs ++ post) (len (concat fs))
  = (m', Fail e) ->
  unmarshal_loop step (List.length (concat fs ++ post)) m
    (concat fs ++ post) 0
  = (m', Fail e).
Proof.
  intros Hfs Hne Hlen Hstep.
  pose proof (Forall2_length_le _ fs upds Hfs) as Hle.
  pose proof (loop_fields _ fs upds Hfs
                (List.length (concat fs ++ post)) m [] post) as E.
  cbn [app] in E. rewrite len_nil in E.
  rewrite E by (rewrite ?length_app; lia || assumption). clear E.
  rewrite length_app.
  assert (Hp : (1 <= List.length post)%nat)
    by (destruct post; [congruence|cbn; lia]).
  destruct (List.length (concat fs) + List.length post - List.length fs)%nat
    as [|fuel] eqn:F; [lia|].
  cbn [unmarshal_loop]. rewrite Z.add_0_l.
  destruct (Z.ltb_spec (len (concat fs)) (len (concat fs ++ post)));
    [|rewrite len_app in *; unfold len in *; lia].
  rewrite Hstep. reflexivity.
Qed.
End FailingRound.

(** The [case] of a known field number checks the wire type first. *)
Lemma body_wrong_wire_type (IDt : ity) (k : Descriptor.kind) (wire w : Z)
    (name : string) :
  Descriptor.field_info k (fieldNum_of wire) = Some (w, name) ->
  wireType_of wire <> w ->
  match k with
  | Descriptor.KColumnType =>
      forall m data i,
        ColumnType.body m data wire i
        = (m, Fail (ErrWrongWireType (wireType_of wire) name))
  | Descriptor.KColumnDescriptor =>
      forall m data i,
        ColumnDescriptor.body IDt m data wire i
        = (m, Fail (ErrWrongWireType (wireType_of wire) name))
  | Descriptor.KIndexDescriptor =>
      forall m data i,
        IndexDescriptor.body IDt m data wire i
        = (m, Fail (ErrWrongWireType (wireType_of wire) name))
  | Descriptor.KPrivilegeDescriptor =>
      forall m data i,
        PrivilegeDescriptor.body m data wire i
        = (m, Fail (ErrWrongWireType (wireType_of wire) name))
  | Descriptor.KTableDescriptor =>
      forall m data i,
        TableDescriptor.body IDt m data wire i
        = (m, Fail (ErrWrongWireType (wireType_of wire) name))
  | Descriptor.KDatabaseDescriptor =>
      forall m data i,
        DatabaseDescriptor.body IDt m data wire i
        = (m, Fail (ErrWrongWireType (wireType_of wire) name))
  end.
Proof.
  intros Hinfo Hw.
  destruct k; cbn [Descriptor.field_info] in Hinfo; intros m data i;
    unfold ColumnType.body, ColumnDescriptor.body, IndexDescriptor.body,
      PrivilegeDescriptor.body, TableDescriptor.body, DatabaseDescriptor.body;
    repeat match type of Hinfo with
           | context [?a =? ?b] =>
               let E := fresh "E" in
               destruct (a =? b) eqn:E; try discriminate Hinfo
           end;
    injection Hinfo as <- <-;
    unfold scalar_field, bool_field, string_field, message_field,
      read_string, read_message, IndexDescriptor.add_ColumnID;
    apply Z.eqb_neq in Hw; rewrite Hw; reflexivity.
Qed.

Ltac wrong_wire items_lemma body_fact merge_zero :=
  let fs := fresh "fs" in
  let upds := fresh "upds" in
  let H := fresh "H" in
  let E := fresh "E" in
  let M := fresh "M" in
  match goal with
  | Hv : _, Hf : len _ < 2 ^ 63 |- _ =>
      destruct (items_lemma _ Hv Hf) as (fs & upds & H & E & M)
  end;
  rewrite <- E in *;
  match goal with
  | |- context [unmarshal_loop _ _ ?m0 _ _] =>
      match goal with
      | |- _ = (_, Fail ?err) =>
          rewrite (loop_then_fail _ fs upds)
            with (m' := apply_all upds m0) (e := err)
      end
  end;
  [ cbn [fst snd]; rewrite M, merge_zero; reflexivity
  | assumption
  | match goal with
    | |- varint_bytes ?w ++ _ <> [] =>
        pose proof (varint_bytes_bound w);
        destruct (varint_bytes w); [cbn in *; lia|discriminate]
    end
  | assumption
  | rewrite (with_tag_wire _ _ _ (concat fs) _ _ (len (concat fs)))
      by (assumption || reflexivity);
    apply body_fact ].

(** After the encoding of a valid descriptor, a tag (in its shortest
    encoding) with a known field number and a wire type that is not the one
    of that field makes [Unmarshal] return the wrong-wire-type error that
    names the field; the descriptor decoded before it is in the
    receiver. *)
Theorem wrong_wire_type_reported (IDt : ity) (d : Descriptor.t)
    (bs rest : list byte) (wire w : Z) (name : string) :
  Descriptor.valid IDt d -> Descriptor.fits d ->
  Descriptor.Marshal d = Ok bs ->
  0 <= wire < 2 ^ 64 ->
  Descriptor.field_info (Descriptor.kind_of d) (fieldNum_of wire)
  = Some (w, name) ->
  wireType_of wire <> w ->
  len (bs ++ varint_bytes wire ++ rest) < 2 ^ 63 ->
  Descriptor.Unmarshal IDt (Descriptor.zero (Descriptor.kind_of d))
    (bs ++ varint_bytes wire ++ rest)
  = (d, Fail (ErrWrongWireType (wireType_of wire) name)).
Proof.
  intros Hv Hf Hm Hw Hinfo Hne Hlen.
  rewrite DescriptorFacts.D_Marshal_encode in Hm by exact Hf.
  injection Hm as <-.
  pose proof (body_wrong_wire_type IDt _ _ _ _ Hinfo Hne) as B.
  unfold Descriptor.fits in Hf.
  destruct d as [d|d|d|d|d|d];
    unfold Descriptor.encode in *;
    cbn [Descriptor.fields Descriptor.XXX_unrecognized Descriptor.Unmarshal
         Descriptor.valid Descriptor.kind_of Descriptor.zero] in *;
    unfold Descriptor.on_fst.
  - fold (ColumnType.encode d) in *.
    unfold ColumnType.Unmarshal, ColumnType.step.
    wrong_wire ColumnType_items B ColumnTypeFacts.CT_merge_zero.
  - fold (ColumnDescriptor.encode d) in *.
    unfold ColumnDescriptor.Unmarshal, ColumnDescriptor.step.
    wrong_wire (ColumnDescriptor_items IDt) B
      ColumnDescriptorFacts.CD_merge_zero.
  - fold (IndexDescriptor.encode d) in *.
    unfold IndexDescriptor.Unmarshal, IndexDescriptor.step.
    wrong_wire (IndexDescriptor_items IDt) B IndexDescriptorFacts.IX_merge_zero.
  - fold (PrivilegeDescriptor.encode d) in *.
    unfold PrivilegeDescriptor.Unmarshal, PrivilegeDescriptor.step.
    wrong_wire PrivilegeDescriptor_items B
      PrivilegeDescriptorFacts.PD_merge_zero.
  - fold (TableDescriptor.encode d) in *.
    unfold TableDescriptor.Unmarshal, TableDescriptor.step.
    wrong_wire (TableDescriptor_items IDt) B TableDescriptorFacts.TD_merge_zero.
  - fold (DatabaseDescriptor.encode d) in *.
    unfold DatabaseDescriptor.Unmarshal, DatabaseDescriptor.step.
    wrong_wire (DatabaseDescriptor_items IDt) B
      DatabaseDescriptorFacts.DB_merge_zero.
Qed.

Lemma wrong_wire_type_reported_witness :
  Descriptor.Unmarshal Uint32 (Descriptor.zero Descriptor.KTableDescriptor)
    (Descriptor.encode (Descriptor.OfTableDescriptor Items.upgraded)
     ++ varint_bytes 21 ++ [x00; x00; x00; x00])
  = (Descriptor.OfTableDescriptor Items.upgraded,
     Fail (ErrWrongWireType (wireType_of 21) "ID")).
Proof.
  apply (wrong_wire_type_reported Uint32
           (Descriptor.OfTableDescriptor Items.upgraded)
           (Descriptor.encode (Descriptor.OfTableDescriptor Items.upgraded))
           [x00; x00; x00; x00] 21 0 "ID").
  - exact upgraded_valid.
  - exact upgraded_fits.
  - vm_compute. reflexivity.
  - rewrite two64. lia.
  - vm_compute. reflexivity.
  - vm_compute. discriminate.
  - vm_compute. reflexivity.
Defined.

(** ** The size of a varint *)

Lemma sov_loop_groups (f : nat) :
  forall n x,
    0 <= x < 2 ^ (7 * Z.of_nat (S f)) ->
    exists k,
      sov_loop (S f) n x = n + k /\ 1 <= k <= Z.of_nat (S f) /\
      x < 2 ^ (7 * k) /\ (1 < k -> 2 ^ (7 * (k - 1)) <= x).
Proof.
  induction f as [|f IH]; intros n x Hx.
  - change (2 ^ (7 * Z.of_nat 1)) with 128 in Hx.
    cbn [sov_loop]. rewrite shiftr7_zero by lia.
    destruct (Z.leb_spec 128 x); [lia|]. cbn [negb].
    exists 1. repeat split; try lia; change (2 ^ (7 * 1)) with 128; lia.
  - remember (S f) as j. cbn [sov_loop]. rewrite shiftr7_zero by lia.
    destruct (Z.leb_spec 128 x); cbn [negb].
    + subst j.
      destruct (IH (n + 1) (Z.shiftr x 7) (shiftr7_bound _ _ Hx))
        as (k & E & Hk & Hu & Hlo).
      exists (k + 1). rewrite E.
      assert (Hd : Z.shiftr x 7 = x / 128)
        by (rewrite Z.shiftr_div_pow2 by lia; reflexivity).
      rewrite Hd in *.
      assert (P : 2 ^ (7 * (k + 1)) = 128 * 2 ^ (7 * k)).
      { replace (7 * (k + 1)) with (7 + 7 * k) by lia.
        rewrite Z.pow_add_r by lia. reflexivity. }
      assert (Q : 0 < 2 ^ (7 * k)) by (apply Z.pow_pos_nonneg; lia).
      repeat split; try lia.
      * rewrite P.
        pose proof (Z.div_mod x 128 ltac:(lia)).
        pose proof (Z.mod_pos_bound x 128 ltac:(lia)). nia.
      * intros _. replace (k + 1 - 1) with k by lia.
        destruct (Z.eq_dec k 1) as [->|Hk1].
        -- change (2 ^ (7 * 1)) with 128. lia.
        -- specialize (Hlo ltac:(lia)).
           replace (7 * k) with (7 + 7 * (k - 1)) by lia.
           rewrite Z.pow_add_r by lia. change (2 ^ 7) with 128.
           pose proof (Z.div_mod x 128 ltac:(lia)).
           pose proof (Z.mod_pos_bound x 128 ltac:(lia)). nia.
    + exists 1. repeat split; try lia; change (2 ^ (7 * 1)) with 128; lia.
Qed.

(** [sovStructured(x)] is the number of groups of seven bits that [x]
    takes: between 1 and 10, with [x < 2^(7n)], and [2^(7(n-1)) <= x]
    when [n > 1]. *)
Theorem sov_groups (x : Z) :
  0 <= x < 2 ^ 64 ->
  1 <= sovStructured x <= 10 /\
  x < 2 ^ (7 * sovStructured x) /\
  (1 < sovStructured x -> 2 ^ (7 * (sovStructured x - 1)) <= x).
Proof.
  intros Hx. unfold sovStructured.
  destruct (sov_loop_groups 9 0 x (uint64_fuel x Hx)) as (k & E & Hk & Hu & Hlo).
  rewrite E, Z.add_0_l. repeat split; try lia; assumption.
Qed.

Lemma sov_groups_witness :
  1 <= sovStructured 16384 <= 10 /\
  16384 < 2 ^ (7 * sovStructured 16384) /\
  (1 < sovStructured 16384 -> 2 ^ (7 * (sovStructured 16384 - 1)) <= 16384).
Proof. apply (sov_groups 16384). rewrite two64. lia. Defined.
